(** * LOINC mapping validation and correction: a shallow embedding

    The development follows the JavaScript sources module by module:
    [lib/common.js] (set helpers), [lib/loincUtils.js] (catalogue and part
    index), [lib/loincPartSynonyms.js], [lib/labNameParser.js],
    [pcornetValidationMgr.js] and [altLoincSuggesterGen6.js].

    Conventions.
    - A JavaScript string is a [string]; the empty string is the only falsy
      one.  A value that may be [undefined] (an array read past its end, a
      missing table entry) is an [option string].
    - A JavaScript object used as a lookup table is a finite map on its own
      keys, read with [Js.getProp] where the key is a value of the input:
      a key the object does not have reads as the member of
      [Object.prototype] of that name when there is one.  A [Set] is a
      [gset].
    - The seven part types are a closed enumeration, so an object with one
      field per part type is a record [Parts A] read with [getPart]. *)

From Stdlib Require Import ZArith QArith String Ascii List Bool Lia Floats Sorted.
From stdpp Require Import base option list gmap sets strings.
From Equations Require Import Equations.

Local Open Scope string_scope.
Local Open Scope list_scope.

(** ** JavaScript value helpers *)
Module Js.

(** Truthiness of a string: [!s] is [negb (truthy s)]. *)
Definition truthy (s : string) : bool :=
  match s with EmptyString => false | _ => true end.

(** Truthiness of a possibly [undefined] string. *)
Definition truthyU (o : option string) : bool :=
  match o with Some s => truthy s | None => false end.

(** [a[0]] on an array of strings. *)
Definition first (a : list string) : option string := head a.

(** [x || ''] for a possibly [undefined] string. *)
Definition orEmpty (o : option string) : string :=
  match o with Some s => if truthy s then s else "" | None => "" end.

(** [Array.prototype.toString]: the elements joined by commas.  It is what
    JavaScript computes when an array is used as a property key. *)
Definition arrayToString (a : list string) : string := String.concat "," a.

(** [===] on strings. *)
Definition strictEq (a b : string) : bool := bool_decide (a = b).

(** [===] on possibly [undefined] strings. *)
Definition strictEqU (a b : option string) : bool := bool_decide (a = b).

(** [Array.prototype.includes] on an array of strings. *)
Definition includes (a : list string) (x : string) : bool :=
  existsb (strictEq x) a.

(** [includes] when the searched value may be [undefined]: an array of
    strings never holds [undefined]. *)
Definition includesU (a : list string) (x : option string) : bool :=
  match x with Some s => includes a s | None => false end.

(** *** Strings

    Strings are taken over the ASCII range: case conversion and the [i]
    flag of a regular expression act on the letters [a-z] and [A-Z] only,
    and a word character is one of [A-Za-z0-9_]. *)

Definition isUpper (c : ascii) : bool :=
  let n := nat_of_ascii c in (65 <=? n)%nat && (n <=? 90)%nat.

Definition isLower (c : ascii) : bool :=
  let n := nat_of_ascii c in (97 <=? n)%nat && (n <=? 122)%nat.

Definition isDigit (c : ascii) : bool :=
  let n := nat_of_ascii c in (48 <=? n)%nat && (n <=? 57)%nat.

(** [\w] *)
Definition isWordChar (c : ascii) : bool :=
  isUpper c || isLower c || isDigit c || bool_decide (c = "_"%char).

Definition lowerChar (c : ascii) : ascii :=
  if isUpper c then ascii_of_nat (nat_of_ascii c + 32) else c.

Definition upperChar (c : ascii) : ascii :=
  if isLower c then ascii_of_nat (nat_of_ascii c - 32) else c.

Fixpoint toUpperCase (s : string) : string :=
  match s with
  | EmptyString => EmptyString
  | String c s' => String (upperChar c) (toUpperCase s')
  end.

Fixpoint toLowerCase (s : string) : string :=
  match s with
  | EmptyString => EmptyString
  | String c s' => String (lowerChar c) (toLowerCase s')
  end.

(** [s.startsWith(p)] *)
Fixpoint startsWith (s p : string) : bool :=
  match p, s with
  | EmptyString, _ => true
  | String a p', String b s' => bool_decide (a = b) && startsWith s' p'
  | String _ _, EmptyString => false
  end.

(** [s] starts with [p], letter case ignored. *)
Fixpoint startsWithCI (s p : string) : bool :=
  match p, s with
  | EmptyString, _ => true
  | String a p', String b s' =>
      bool_decide (lowerChar a = lowerChar b) && startsWithCI s' p'
  | String _ _, EmptyString => false
  end.

(** [s.indexOf(sub)], counted from [i]; [-1] when [sub] does not occur. *)
Fixpoint indexOfFrom (i : Z) (s sub : string) : Z :=
  if startsWith s sub then i
  else match s with
       | EmptyString => (-1)%Z
       | String _ s' => indexOfFrom (i + 1)%Z s' sub
       end.

Definition indexOf (s sub : string) : Z := indexOfFrom 0 s sub.

(** [s.substr(0, n)] for [n >= 0]. *)
Fixpoint take (n : nat) (s : string) : string :=
  match n, s with
  | S n', String c s' => String c (take n' s')
  | _, _ => EmptyString
  end.

Fixpoint drop (n : nat) (s : string) : string :=
  match n, s with
  | S n', String _ s' => drop n' s'
  | _, _ => s
  end.

(** [s.slice(0, -k)] for [k > 0], which is also
    [s.substr(0, s.length - k)]: a negative length gives the empty string. *)
Definition dropLast (k : nat) (s : string) : string :=
  take (String.length s - k) s.

(** [s.endsWith(p)] *)
Definition endsWith (s p : string) : bool :=
  (String.length p <=? String.length s)%nat &&
  bool_decide (drop (String.length s - String.length p) s = p).

(** [s.replace(pat, rep)] with a string pattern: the first occurrence. *)
Fixpoint replaceFirst (s pat rep : string) : string :=
  if startsWith s pat then rep +:+ drop (String.length pat) s
  else match s with
       | EmptyString => EmptyString
       | String c s' => String c (replaceFirst s' pat rep)
       end.

(** White space of the ASCII range, as [\s] and [trim] see it. *)
Definition isSpace (c : ascii) : bool :=
  let n := nat_of_ascii c in
  bool_decide (n = 32) || ((9 <=? n)%nat && (n <=? 13)%nat).

Fixpoint trimStart (s : string) : string :=
  match s with
  | String c s' => if isSpace c then trimStart s' else s
  | EmptyString => EmptyString
  end.

Fixpoint trimEnd (s : string) : string :=
  match s with
  | EmptyString => EmptyString
  | String c s' =>
      match trimEnd s' with
      | EmptyString => if isSpace c then EmptyString else String c EmptyString
      | t => String c t
      end
  end.

(** [s.trim()] *)
Definition trim (s : string) : string := trimEnd (trimStart s).

(** *** Regular expressions

    The regular expressions of the sources that only test for one of several
    literals, with or without a word boundary on either side and with the
    [i] flag, are kept as data: the list of their alternatives. *)
Record Alt : Type := mkAlt {
  leadB : bool;      (* [\b] before the literal *)
  lit : string;
  trailB : bool;     (* [\b] after the literal *)
  ignoreCase : bool  (* the [i] flag *)
}.

Definition isWordOpt (c : option ascii) : bool :=
  match c with Some c => isWordChar c | None => false end.

Definition headChar (s : string) : option ascii :=
  match s with String c _ => Some c | EmptyString => None end.

Fixpoint lastChar (prev : option ascii) (s : string) : option ascii :=
  match s with
  | EmptyString => prev
  | String c s' => lastChar (Some c) s'
  end.

(** [\b] between the character before and the character after. *)
Definition boundary (before after : option ascii) : bool :=
  xorb (isWordOpt before) (isWordOpt after).

(** The alternative matches at this position: [prev] is the character
    before it and [s] the rest of the subject. *)
Definition matchAlt (prev : option ascii) (s : string) (a : Alt) : bool :=
  (if leadB a then boundary prev (headChar s) else true) &&
  (if ignoreCase a then startsWithCI s (lit a) else startsWith s (lit a)) &&
  (if trailB a
   then boundary (lastChar prev (lit a)) (headChar (drop (String.length (lit a)) s))
   else true).

(** The leftmost position where one of the alternatives matches: the
    alternative and the text from that position on. *)
Fixpoint searchFrom (alts : list Alt) (prev : option ascii) (s : string)
    : option (Alt * string) :=
  match find (matchAlt prev s) alts with
  | Some a => Some (a, s)
  | None =>
      match s with
      | EmptyString => None
      | String c s' => searchFrom alts (Some c) s'
      end
  end.

(** [regex.test(s)] *)
Definition test (alts : list Alt) (s : string) : bool :=
  bool_decide (is_Some (searchFrom alts None s)).

(** [/\b(p1|p2|...)\b/i] *)
Definition wordsCI (patterns : list string) : list Alt :=
  map (λ p, mkAlt true p true true) patterns.

(** [/\b(p1|p2|...)\b/] *)
Definition wordsCS (patterns : list string) : list Alt :=
  map (λ p, mkAlt true p true false) patterns.

(** [/p/i] *)
Definition containsCI (p : string) : list Alt := [mkAlt false p false true].

(** [s.replace(regex, rep)] for a regular expression without the [g] flag
    and a replacement without [$]: the leftmost match is replaced. *)
Fixpoint replaceFirstMatchFrom (alts : list Alt) (rep : string) (prev : option ascii)
    (s : string) : string :=
  match find (matchAlt prev s) alts with
  | Some a => rep +:+ drop (String.length (lit a)) s
  | None =>
      match s with
      | EmptyString => EmptyString
      | String c s' => String c (replaceFirstMatchFrom alts rep (Some c) s')
      end
  end.

Definition replaceFirstMatch (alts : list Alt) (rep : string) (s : string) : string :=
  replaceFirstMatchFrom alts rep None s.

(** [a.sort()] on an array of strings: ascending by code units. *)
Definition strLeb (a b : string) : bool :=
  match String.compare a b with Gt => false | _ => true end.

Fixpoint insertSorted (x : string) (l : list string) : list string :=
  match l with
  | [] => [x]
  | y :: l' => if strLeb x y then x :: l else y :: insertSorted x l'
  end.

Definition sortStrings (l : list string) : list string := foldr insertSorted [] l.

(** [a.join(sep)] *)
Definition join (sep : string) (a : list string) : string := String.concat sep a.

(** [s.split(c)] for a one-character separator. *)
Fixpoint splitOn (c : ascii) (s : string) : list string :=
  match s with
  | EmptyString => [EmptyString]
  | String a s' =>
      if bool_decide (a = c) then EmptyString :: splitOn c s'
      else match splitOn c s' with
           | [] => [String a EmptyString]
           | w :: ws => String a w :: ws
           end
  end.

(** [s.match(/^[^a-zA-Z]+$/)] as a truth value. *)
Fixpoint noLetters (s : string) : bool :=
  match s with
  | EmptyString => true
  | String c s' => negb (isUpper c || isLower c) && noLetters s'
  end.

(** The string made of one double quote. *)
Definition dquote : string := String (ascii_of_nat 34) EmptyString.

(** [===] between a boolean and a string: the types differ. *)
Definition boolStrictEqString (b : bool) (s : string) : bool := false.

(** *** The keys of an object

    [Object.keys], [Object.values] and [Object.entries] list the keys that
    are array indices first, in ascending numeric order, and then the other
    keys in the order of their first assignment. *)

Fixpoint digitsValue (acc : N) (s : string) : option N :=
  match s with
  | EmptyString => Some acc
  | String c s' =>
      if isDigit c
      then digitsValue (acc * 10 + N.of_nat (nat_of_ascii c - 48))%N s'
      else None
  end.

(** The key is an array index: the canonical decimal form of an integer
    below [2^32 - 1]. *)
Definition arrayIndex (s : string) : option N :=
  match s with
  | EmptyString => None
  | String c s' =>
      if bool_decide (c = "0"%char) && truthy s' then None
      else match digitsValue 0 s with
           | Some n => if (n <? 4294967295)%N then Some n else None
           | None => None
           end
  end.

(** The distinct elements of a list, in the order of their first
    occurrence. *)
Definition distinct (l : list string) : list string :=
  foldl (λ acc x, if includes acc x then acc else acc ++ [x]) [] l.

Fixpoint insertIndex (x : N * string) (l : list (N * string)) : list (N * string) :=
  match l with
  | [] => [x]
  | y :: l' => if (fst x <=? fst y)%N then x :: l else y :: insertIndex x l'
  end.

(** [Object.keys(obj)] for an object whose keys were assigned in the order
    of the list. *)
Definition objectKeys (assigned : list string) : list string :=
  let keys := distinct assigned in
  let indexed := omap (λ k, (λ n, (n, k)) <$> arrayIndex k) keys in
  map snd (foldr insertIndex [] indexed) ++
  List.filter (λ k, negb (bool_decide (is_Some (arrayIndex k)))) keys.

(** *** Reading a property of a plain object

    [obj[key]] on an object created by a literal finds the object's own
    property and, when it has none of that name, the member of
    [Object.prototype] of that name.  The members are functions, but for
    [__proto__], which reads as [Object.prototype] itself: each is truthy,
    none is iterable, and none has a property [size], [has], [add],
    [forEach], [includes] or one named like a column. *)
Definition objectPrototypeMembers : list string :=
  [ "constructor"; "__defineGetter__"; "__defineSetter__"; "hasOwnProperty";
    "__lookupGetter__"; "__lookupSetter__"; "isPrototypeOf"; "propertyIsEnumerable";
    "toString"; "valueOf"; "__proto__"; "toLocaleString" ].

(** The key names a member of [Object.prototype]. *)
Definition inherited (key : string) : bool := includes objectPrototypeMembers key.

(** What [obj[key]] evaluates to. *)
Inductive Looked (A : Type) : Type :=
  | Own (a : A)                 (* the object's own property *)
  | Inherited (member : string) (* the member of [Object.prototype] *)
  | Undefined.
Arguments Own {A}.
Arguments Inherited {A}.
Arguments Undefined {A}.

(** [obj[key]] *)
Definition getProp {A} (obj : gmap string A) (key : string) : Looked A :=
  match obj !! key with
  | Some a => Own a
  | None => if inherited key then Inherited key else Undefined
  end.

(** Every character of the string is in the ASCII range. *)
Fixpoint isAscii (s : string) : bool :=
  match s with
  | EmptyString => true
  | String c s' => (nat_of_ascii c <? 128)%nat && isAscii s'
  end.

End Js.

(** ** lib/common.js: set helpers *)
Module Common.

(** [setOR(...sets)]: no argument gives the empty set, one argument is
    returned as it is, otherwise the union.  The source sorts the arguments
    by size first, for speed only. *)
Definition setOR (sets : list (gset string)) : gset string :=
  match sets with
  | [] => ∅
  | [s] => s
  | s :: rest => foldl (∪) s rest
  end.

(** [setAND(...sets)]: no argument gives the empty set, one argument is
    returned as it is, otherwise the elements of the first set that every
    other set has. *)
Definition setAND (sets : list (gset string)) : gset string :=
  match sets with
  | [] => ∅
  | [s] => s
  | s :: rest => filter (λ elem, forallb (λ s', bool_decide (elem ∈ s')) rest = true) s
  end.

(** An argument the callers of [setOR] and [setAND] pass: a [Set], or the
    member of [Object.prototype] that a lookup in the part index returned
    in the place of one. *)
Inductive SetArg : Type :=
  | IsSet (s : gset string)
  | NotSet (member : string).

Definition asSet (arg : SetArg) : option (gset string) :=
  match arg with IsSet s => Some s | NotSet _ => None end.

(** [setOR(...sets)] when an argument may not be a [Set].  No argument and
    one argument return before anything is read.  With two arguments or
    more every argument is iterated, in whatever order the sort leaves
    them: [None] is the [TypeError] of iterating a value that is not
    iterable. *)
Definition setORValues (args : list SetArg) : option SetArg :=
  match args with
  | [] => Some (IsSet ∅)
  | [arg] => Some arg
  | _ => (λ sets, IsSet (setOR sets)) <$> mapM asSet args
  end.

(** [sets.slice(1).every(s => s.has(elem))]: the callback stops at the
    first set that lacks the element; [None] is the [TypeError] of calling
    [has] on a value that has none. *)
Fixpoint everyHas (elem : string) (rest : list SetArg) : option bool :=
  match rest with
  | [] => Some true
  | IsSet s :: rest' => if decide (elem ∈ s) then everyHas elem rest' else Some false
  | NotSet _ :: _ => None
  end.

(** [setAND(...sets)] when an argument may not be a [Set]; [None] is a
    [TypeError].  With two arguments or more, of which one is not a [Set],
    the comparison by [size] returns [NaN] and the language leaves the
    order of the sorted array to the implementation: [sortBySize] is that
    array.  Its first element is iterated, and each of its elements is
    looked for in the others. *)
Definition setANDValues (sortBySize : list SetArg → list SetArg) (args : list SetArg)
    : option SetArg :=
  match args with
  | [] => Some (IsSet ∅)
  | [arg] => Some arg
  | _ =>
      match mapM asSet args with
      | Some sets => Some (IsSet (setAND sets))
      | None =>
          match sortBySize args with
          | IsSet first :: rest =>
              kept ← mapM (λ elem, (λ has, (elem, has)) <$> everyHas elem rest)
                          (elements first);
              Some (IsSet (list_to_set (map fst (List.filter snd kept))))
          | _ => None
          end
      end
  end.

End Common.

(** ** lib/loincUtils.js: the catalogue, its part index and the set query *)
Module LoincUtils.

(** The part types, [CLASS] included, in the order of [PartTypeList]. *)
Inductive PartType : Set :=
  | CLASS | COMPONENT | PROPERTY | TIME | SYSTEM | SCALE | METHOD.

#[export] Instance PartType_eq_dec : EqDecision PartType.
Proof. solve_decision. Defined.

Definition PartTypeList : list PartType :=
  [CLASS; COMPONENT; PROPERTY; TIME; SYSTEM; SCALE; METHOD].

(** An object with one field per part type. *)
Record Parts (A : Type) : Type := mkParts {
  pCLASS : A; pCOMPONENT : A; pPROPERTY : A; pTIME : A;
  pSYSTEM : A; pSCALE : A; pMETHOD : A
}.
Arguments mkParts {A}.
Arguments pCLASS {A}.
Arguments pCOMPONENT {A}.
Arguments pPROPERTY {A}.
Arguments pTIME {A}.
Arguments pSYSTEM {A}.
Arguments pSCALE {A}.
Arguments pMETHOD {A}.

(** [obj[pt]] *)
Definition getPart {A} (p : Parts A) (pt : PartType) : A :=
  match pt with
  | CLASS => pCLASS p | COMPONENT => pCOMPONENT p | PROPERTY => pPROPERTY p
  | TIME => pTIME p | SYSTEM => pSYSTEM p | SCALE => pSCALE p
  | METHOD => pMETHOD p
  end.

(** [obj[pt] = v] *)
Definition setPart {A} (p : Parts A) (pt : PartType) (v : A) : Parts A :=
  match pt with
  | CLASS => mkParts v (pCOMPONENT p) (pPROPERTY p) (pTIME p) (pSYSTEM p) (pSCALE p) (pMETHOD p)
  | COMPONENT => mkParts (pCLASS p) v (pPROPERTY p) (pTIME p) (pSYSTEM p) (pSCALE p) (pMETHOD p)
  | PROPERTY => mkParts (pCLASS p) (pCOMPONENT p) v (pTIME p) (pSYSTEM p) (pSCALE p) (pMETHOD p)
  | TIME => mkParts (pCLASS p) (pCOMPONENT p) (pPROPERTY p) v (pSYSTEM p) (pSCALE p) (pMETHOD p)
  | SYSTEM => mkParts (pCLASS p) (pCOMPONENT p) (pPROPERTY p) (pTIME p) v (pSCALE p) (pMETHOD p)
  | SCALE => mkParts (pCLASS p) (pCOMPONENT p) (pPROPERTY p) (pTIME p) (pSYSTEM p) v (pMETHOD p)
  | METHOD => mkParts (pCLASS p) (pCOMPONENT p) (pPROPERTY p) (pTIME p) (pSYSTEM p) (pSCALE p) v
  end.

(** [PartTypeList.reduce((acc, pt) => {acc[pt] = f(pt); return acc;}, {})] *)
Definition tabulate {A} (f : PartType → A) : Parts A :=
  mkParts (f CLASS) (f COMPONENT) (f PROPERTY) (f TIME) (f SYSTEM) (f SCALE) (f METHOD).

(** One row of the LOINC table as [loadLoincTable] returns it, the columns
    [TIME_ASPCT], [SCALE_TYP] and [METHOD_TYP] already renamed. *)
Record LoincRow : Type := mkLoincRow {
  row_LOINC_NUM : string;
  row_LONG_COMMON_NAME : string;
  row_STATUS : string;
  row_EXAMPLE_UCUM_UNITS : string;
  row_parts : Parts string
}.

(** A value of [loincToParts]: the four copied columns and, for each part
    type, an array holding the part name or nothing. *)
Record PartsInfo : Type := mkPartsInfo {
  LOINC_NUM : string;
  LONG_COMMON_NAME : string;
  STATUS : string;
  EXAMPLE_UCUM_UNITS : string;
  parts : Parts (list string)
}.

(** The body of [loincs.forEach] in [getLoincTableUtil]: the entry of the
    row's number is created from the four columns when it is not there yet,
    and every part array is (re)assigned from the row. *)
Definition addLoincRow (loincToParts : gmap string PartsInfo) (row : LoincRow)
    : gmap string PartsInfo :=
  let entry :=
    match loincToParts !! row_LOINC_NUM row with
    | Some p => p
    | None => mkPartsInfo (row_LOINC_NUM row) (row_LONG_COMMON_NAME row)
                (row_STATUS row) (row_EXAMPLE_UCUM_UNITS row) (tabulate (λ _, []))
    end in
  <[row_LOINC_NUM row :=
      mkPartsInfo (LOINC_NUM entry) (LONG_COMMON_NAME entry) (STATUS entry)
        (EXAMPLE_UCUM_UNITS entry)
        (tabulate (λ partType,
           let v := getPart (row_parts row) partType in
           if Js.truthy v then [v] else []))]> loincToParts.

Definition buildLoincToParts (loincs : list LoincRow) : gmap string PartsInfo :=
  foldl addLoincRow ∅ loincs.

(** The index: for each part type, part name -> set of LOINC numbers. *)
Abbreviation PartIndexes := (Parts (gmap string (gset string))).

(** The body of the inner loop of [buildLoincPartsIndex].  [rec[pt]] is an
    array, hence truthy, so [rec[pt] || ''] is the array itself and the
    property key is its string conversion. *)
Definition indexAdd (pt : PartType) (loinc : string) (rec : PartsInfo)
    (index : gmap string (gset string)) : gmap string (gset string) :=
  let partName := Js.arrayToString (getPart (parts rec) pt) in
  <[partName := default ∅ (index !! partName) ∪ {[loinc]}]> index.

(** [buildLoincPartsIndex(loincToParts)].  The entries are visited in the
    map's own order; the sets built do not depend on it. *)
Definition buildLoincPartsIndex (loincToParts : gmap string PartsInfo) : PartIndexes :=
  tabulate (λ pt, map_fold (indexAdd pt) ∅ loincToParts).

(** [partIndexes[partType][partName] || new Set()]: a [Set] of the index is
    truthy, and so is a member of [Object.prototype]. *)
Definition indexedOrEmpty (index : gmap string (gset string)) (partName : string)
    : Common.SetArg :=
  match Js.getProp index partName with
  | Js.Own loincs => Common.IsSet loincs
  | Js.Inherited member => Common.NotSet member
  | Js.Undefined => Common.IsSet ∅
  end.

(** [getLoincForPartsInternal(partIndexes, partTypeNames)], the query object
    given as its entries in order: the value returned, [None] when
    [setOR] or [setAND] throws.  [sortBySize] is the sort of the run time
    where the language leaves it open (see [Common.setANDValues]). *)
Definition getLoincForPartsInternal (sortBySize : list Common.SetArg → list Common.SetArg)
    (partIndexes : PartIndexes) (partTypeNames : list (PartType * list string))
    : option Common.SetArg :=
  toAND ← mapM (λ '(partType, partNames),
                  let toOR := map (indexedOrEmpty (getPart partIndexes partType))
                                  partNames in
                  Common.setORValues toOR) partTypeNames;
  Common.setANDValues sortBySize toAND.

(** The object [getLoincTableUtil] resolves to, restricted to what the
    matcher and the inference engine use. *)
Record LoincTableUtil : Type := mkLoincTableUtil {
  loincToParts : gmap string PartsInfo;
  loincPartIndexex : PartIndexes
}.

Definition getLoincTableUtil (loincs : list LoincRow) : LoincTableUtil :=
  let l2p := buildLoincToParts loincs in
  mkLoincTableUtil l2p (buildLoincPartsIndex l2p).

Definition getLoincForParts (sortBySize : list Common.SetArg → list Common.SetArg)
    (u : LoincTableUtil) (partTypeNames : list (PartType * list string))
    : option Common.SetArg :=
  getLoincForPartsInternal sortBySize (loincPartIndexex u) partTypeNames.

(** [hasLoincWithPart(partType, partName)]: [!!index[partType][partName]],
    true of a [Set] of the index and of a member of [Object.prototype]. *)
Definition hasLoincWithPart (u : LoincTableUtil) (partType : PartType)
    (partName : string) : bool :=
  match Js.getProp (getPart (loincPartIndexex u) partType) partName with
  | Js.Undefined => false
  | _ => true
  end.

(** The value of an entry for a part type, the empty string when absent:
    [rec[pt][0] || ''] as in [getLoincParts] and
    [addLoincPartsFillMissingColumns]. *)
Definition partValue (rec : PartsInfo) (pt : PartType) : string :=
  Js.orEmpty (Js.first (getPart (parts rec) pt)).

(** Every part array of a loaded catalogue holds at most one name, and that
    name is not empty. *)
Definition wfPartArray (a : list string) : Prop :=
  a = [] ∨ ∃ v, v ≠ "" ∧ a = [v].

Definition wfCatalog (l2p : gmap string PartsInfo) : Prop :=
  ∀ loinc rec pt, l2p !! loinc = Some rec → wfPartArray (getPart (parts rec) pt).

(** [partLowerToName]: for each part type, the lower-cased part name mapped
    to the part name; a later row of the table replaces an earlier one. *)
Definition partLowerToName (loincs : list LoincRow) : Parts (gmap string string) :=
  foldl (λ acc row,
           tabulate (λ partType,
             let v := getPart (row_parts row) partType in
             if Js.truthy v then <[Js.toLowerCase v := v]> (getPart acc partType)
             else getPart acc partType))
        (tabulate (λ _, ∅)) loincs.

(** [getStdPartName(name, type)] *)
Definition getStdPartName (loincs : list LoincRow) (name : string) (type : PartType)
    : string :=
  if Js.truthy name then
    let name := Js.toLowerCase (Js.trim name) in
    if Js.truthy name
    then Js.orEmpty (getPart (partLowerToName loincs) type !! name)
    else ""
  else "".

(** [propsByClass] of [getFuncForPctUnitPropertiesByClass], before the
    entry of class COAG is filtered. *)
Definition pctPropsByClass (pctProps : list string) (loincTable : list LoincRow)
    : gmap string (list string) :=
  foldl (λ acc loinc,
           let property := getPart (row_parts loinc) PROPERTY in
           let lnClass := getPart (row_parts loinc) CLASS in
           if Js.includes pctProps property then
             let current := default [] (acc !! lnClass) in
             <[lnClass := if Js.includes current property then current
                          else current ++ [property]]> acc
           else acc)
        ∅ loincTable.

(** [getFuncForPctUnitPropertiesByClass()], given [getUnitProperties('%')]
    and the table.  [None] is the [TypeError] of [propsByClass.COAG.filter]
    when no row of class COAG was recorded.  The function returned is
    [lnClass => propsByClass[lnClass] || []]: the list of the class, the
    member of [Object.prototype] a class name reads as, or the empty
    list. *)
Definition getFuncForPctUnitPropertiesByClass (pctProps : list string)
    (loincTable : list LoincRow) : option (string → Js.Looked (list string)) :=
  let propsByClass := pctPropsByClass pctProps loincTable in
  match propsByClass !! "COAG" with
  | None => None
  | Some coag =>
      let propsByClass :=
        <["COAG" := List.filter (λ p, negb (Js.strictEq p "ACnc")) coag]> propsByClass in
      Some (λ lnClass,
              match Js.getProp propsByClass lnClass with
              | Js.Undefined => Js.Own []
              | found => found
              end)
  end.

End LoincUtils.

(** ** lib/loincPartSynonyms.js *)
Module LoincPartSynonyms.
Import LoincUtils.

(** [partSynonyms]: for a part type, its groups of interchangeable names. *)
Definition partSynonyms (partType : PartType) : option (list (list string)) :=
  match partType with
  | SYSTEM => Some [ ["Ser"; "Plas"; "Ser/Plas"];
                     ["Bld"; "Ser/Plas/Bld"];
                     ["xxxx-1"; "xxxxx-2"] ]
  | _ => None
  end.

(** [partSynonymsMap[partType]]: each name of each group is mapped to its
    group, a later group replacing an earlier one. *)
Definition partSynonymsMap (partType : PartType) : option (gmap string (list string)) :=
  match partSynonyms partType with
  | None => None
  | Some groups =>
      Some (foldl (λ m group, foldl (λ m partName, <[partName := group]> m) m group)
                  ∅ groups)
  end.

(** [addPartSynonyms(partType, partNames)] on a non-null array: the array
    after the call.  The loop runs over the names present at the start and
    pushes the synonyms that are not yet in the array. *)
Definition addPartSynonyms (partType : PartType) (partNames : list string) : list string :=
  match partSynonymsMap partType with
  | None => partNames
  | Some m =>
      foldl (λ acc name,
               foldl (λ acc syno, if Js.includes acc syno then acc else acc ++ [syno])
                     acc (default [] (m !! name)))
            partNames partNames
  end.

(** [getPartSynonyms(partType, partName)]; [None] is [null]. *)
Definition getPartSynonyms (partType : PartType) (partName : string)
    : option (list string) :=
  match partSynonymsMap partType with
  | None => None
  | Some m => m !! partName
  end.

End LoincPartSynonyms.

(** ** The data row

    One record of the input sheet with the columns the program reads and the
    computed columns it fills.  A column that is missing or cleared reads as
    the empty string (the sheet is loaded with [defval: '']). *)
Module PcnRow.
Import LoincUtils.

(** [row.inferred[partType]]: the part names and, index by index, how each
    was obtained (["parsed"] or ["inferred"]). *)
Record InferredEntry : Type := mkInferredEntry {
  names : list string;
  types : list string
}.

(** [row.inferred]: an object keyed by part type, in insertion order. *)
Abbreviation Inferred := (list (PartType * InferredEntry)).

(** [ALGO_MAPPING_ISSUES]: cleared, then an array of issue tokens while the
    row is processed, and a string once the row is formatted. *)
Inductive IssuesField : Type :=
  | IssuesUnset
  | IssuesList (issues : list string)
  | IssuesText (text : string).

(** An element of [TARGET_TERM] while the row is processed. *)
Record TargetTermInfo : Type := mkTargetTermInfo {
  tt_rule : Z;
  tt_term : string
}.

(** [TARGET_TERM]: cleared, an array while processed, a string at the end. *)
Inductive TargetTermField : Type :=
  | TargetUnset
  | TargetList (terms : list TargetTermInfo)
  | TargetText (text : string).

Record Row : Type := mkRow {
  ROW_NUM : option Z;
  LAB_LOINC : string;
  RAW_LAB_NAME : string;
  RAW_UNIT : string;
  SPECIMEN_SOURCE : string;
  INC_CATEGORY : string;             (* 'Inclusion category' *)
  ROW_LONG_COMMON_NAME : string;     (* row.LONG_COMMON_NAME *)
  EX_UCUM : string;                  (* row['example ucum'] *)
  rowParts : Parts string;           (* row.CLASS, row.COMPONENT, ... *)
  SGG_LOINC : string;
  SGG_LONG_COMMON_NAME : string;
  SGG_OTHER : string;
  inferred : option Inferred;        (* [None]: cleared or missing *)
  inferred_parts : string;
  parsed_parts : string;
  ucum_converted : string;
  ALGO_MAPPING_ISSUES : IssuesField;
  ALGO_JUDGEMENT : string;
  RULE_RELAXED_BY : string;
  TARGET_TERM : TargetTermField
}.

(** [row[partType]] *)
Definition rowPart (row : Row) (pt : PartType) : string := getPart (rowParts row) pt.

(** Field assignments. *)
Definition set_ROW_NUM (v : option Z) (r : Row) : Row :=
  mkRow v (LAB_LOINC r) (RAW_LAB_NAME r) (RAW_UNIT r) (SPECIMEN_SOURCE r)
    (INC_CATEGORY r) (ROW_LONG_COMMON_NAME r) (EX_UCUM r) (rowParts r)
    (SGG_LOINC r) (SGG_LONG_COMMON_NAME r) (SGG_OTHER r) (inferred r)
    (inferred_parts r) (parsed_parts r) (ucum_converted r)
    (ALGO_MAPPING_ISSUES r) (ALGO_JUDGEMENT r) (RULE_RELAXED_BY r) (TARGET_TERM r).

Definition set_RAW_LAB_NAME (v : string) (r : Row) : Row :=
  mkRow (ROW_NUM r) (LAB_LOINC r) v (RAW_UNIT r) (SPECIMEN_SOURCE r)
    (INC_CATEGORY r) (ROW_LONG_COMMON_NAME r) (EX_UCUM r) (rowParts r)
    (SGG_LOINC r) (SGG_LONG_COMMON_NAME r) (SGG_OTHER r) (inferred r)
    (inferred_parts r) (parsed_parts r) (ucum_converted r)
    (ALGO_MAPPING_ISSUES r) (ALGO_JUDGEMENT r) (RULE_RELAXED_BY r) (TARGET_TERM r).

Definition set_SPECIMEN_SOURCE (v : string) (r : Row) : Row :=
  mkRow (ROW_NUM r) (LAB_LOINC r) (RAW_LAB_NAME r) (RAW_UNIT r) v
    (INC_CATEGORY r) (ROW_LONG_COMMON_NAME r) (EX_UCUM r) (rowParts r)
    (SGG_LOINC r) (SGG_LONG_COMMON_NAME r) (SGG_OTHER r) (inferred r)
    (inferred_parts r) (parsed_parts r) (ucum_converted r)
    (ALGO_MAPPING_ISSUES r) (ALGO_JUDGEMENT r) (RULE_RELAXED_BY r) (TARGET_TERM r).

(** The three assignments of [addLoincPartsFillMissingColumns]. *)
Definition set_loincColumns (longName exUcum : string) (p : Parts string) (r : Row) : Row :=
  mkRow (ROW_NUM r) (LAB_LOINC r) (RAW_LAB_NAME r) (RAW_UNIT r) (SPECIMEN_SOURCE r)
    (INC_CATEGORY r) longName exUcum p
    (SGG_LOINC r) (SGG_LONG_COMMON_NAME r) (SGG_OTHER r) (inferred r)
    (inferred_parts r) (parsed_parts r) (ucum_converted r)
    (ALGO_MAPPING_ISSUES r) (ALGO_JUDGEMENT r) (RULE_RELAXED_BY r) (TARGET_TERM r).

Definition set_SGG (loinc longName other : string) (r : Row) : Row :=
  mkRow (ROW_NUM r) (LAB_LOINC r) (RAW_LAB_NAME r) (RAW_UNIT r) (SPECIMEN_SOURCE r)
    (INC_CATEGORY r) (ROW_LONG_COMMON_NAME r) (EX_UCUM r) (rowParts r)
    loinc longName other (inferred r)
    (inferred_parts r) (parsed_parts r) (ucum_converted r)
    (ALGO_MAPPING_ISSUES r) (ALGO_JUDGEMENT r) (RULE_RELAXED_BY r) (TARGET_TERM r).

Definition set_inferred (v : option Inferred) (r : Row) : Row :=
  mkRow (ROW_NUM r) (LAB_LOINC r) (RAW_LAB_NAME r) (RAW_UNIT r) (SPECIMEN_SOURCE r)
    (INC_CATEGORY r) (ROW_LONG_COMMON_NAME r) (EX_UCUM r) (rowParts r)
    (SGG_LOINC r) (SGG_LONG_COMMON_NAME r) (SGG_OTHER r) v
    (inferred_parts r) (parsed_parts r) (ucum_converted r)
    (ALGO_MAPPING_ISSUES r) (ALGO_JUDGEMENT r) (RULE_RELAXED_BY r) (TARGET_TERM r).

Definition set_inferred_parts (v : string) (r : Row) : Row :=
  mkRow (ROW_NUM r) (LAB_LOINC r) (RAW_LAB_NAME r) (RAW_UNIT r) (SPECIMEN_SOURCE r)
    (INC_CATEGORY r) (ROW_LONG_COMMON_NAME r) (EX_UCUM r) (rowParts r)
    (SGG_LOINC r) (SGG_LONG_COMMON_NAME r) (SGG_OTHER r) (inferred r)
    v (parsed_parts r) (ucum_converted r)
    (ALGO_MAPPING_ISSUES r) (ALGO_JUDGEMENT r) (RULE_RELAXED_BY r) (TARGET_TERM r).

Definition set_parsed_parts (v : string) (r : Row) : Row :=
  mkRow (ROW_NUM r) (LAB_LOINC r) (RAW_LAB_NAME r) (RAW_UNIT r) (SPECIMEN_SOURCE r)
    (INC_CATEGORY r) (ROW_LONG_COMMON_NAME r) (EX_UCUM r) (rowParts r)
    (SGG_LOINC r) (SGG_LONG_COMMON_NAME r) (SGG_OTHER r) (inferred r)
    (inferred_parts r) v (ucum_converted r)
    (ALGO_MAPPING_ISSUES r) (ALGO_JUDGEMENT r) (RULE_RELAXED_BY r) (TARGET_TERM r).

Definition set_ucum_converted (v : string) (r : Row) : Row :=
  mkRow (ROW_NUM r) (LAB_LOINC r) (RAW_LAB_NAME r) (RAW_UNIT r) (SPECIMEN_SOURCE r)
    (INC_CATEGORY r) (ROW_LONG_COMMON_NAME r) (EX_UCUM r) (rowParts r)
    (SGG_LOINC r) (SGG_LONG_COMMON_NAME r) (SGG_OTHER r) (inferred r)
    (inferred_parts r) (parsed_parts r) v
    (ALGO_MAPPING_ISSUES r) (ALGO_JUDGEMENT r) (RULE_RELAXED_BY r) (TARGET_TERM r).

Definition set_ALGO_MAPPING_ISSUES (v : IssuesField) (r : Row) : Row :=
  mkRow (ROW_NUM r) (LAB_LOINC r) (RAW_LAB_NAME r) (RAW_UNIT r) (SPECIMEN_SOURCE r)
    (INC_CATEGORY r) (ROW_LONG_COMMON_NAME r) (EX_UCUM r) (rowParts r)
    (SGG_LOINC r) (SGG_LONG_COMMON_NAME r) (SGG_OTHER r) (inferred r)
    (inferred_parts r) (parsed_parts r) (ucum_converted r)
    v (ALGO_JUDGEMENT r) (RULE_RELAXED_BY r) (TARGET_TERM r).

Definition set_ALGO_JUDGEMENT (v : string) (r : Row) : Row :=
  mkRow (ROW_NUM r) (LAB_LOINC r) (RAW_LAB_NAME r) (RAW_UNIT r) (SPECIMEN_SOURCE r)
    (INC_CATEGORY r) (ROW_LONG_COMMON_NAME r) (EX_UCUM r) (rowParts r)
    (SGG_LOINC r) (SGG_LONG_COMMON_NAME r) (SGG_OTHER r) (inferred r)
    (inferred_parts r) (parsed_parts r) (ucum_converted r)
    (ALGO_MAPPING_ISSUES r) v (RULE_RELAXED_BY r) (TARGET_TERM r).

Definition set_RULE_RELAXED_BY (v : string) (r : Row) : Row :=
  mkRow (ROW_NUM r) (LAB_LOINC r) (RAW_LAB_NAME r) (RAW_UNIT r) (SPECIMEN_SOURCE r)
    (INC_CATEGORY r) (ROW_LONG_COMMON_NAME r) (EX_UCUM r) (rowParts r)
    (SGG_LOINC r) (SGG_LONG_COMMON_NAME r) (SGG_OTHER r) (inferred r)
    (inferred_parts r) (parsed_parts r) (ucum_converted r)
    (ALGO_MAPPING_ISSUES r) (ALGO_JUDGEMENT r) v (TARGET_TERM r).

Definition set_TARGET_TERM (v : TargetTermField) (r : Row) : Row :=
  mkRow (ROW_NUM r) (LAB_LOINC r) (RAW_LAB_NAME r) (RAW_UNIT r) (SPECIMEN_SOURCE r)
    (INC_CATEGORY r) (ROW_LONG_COMMON_NAME r) (EX_UCUM r) (rowParts r)
    (SGG_LOINC r) (SGG_LONG_COMMON_NAME r) (SGG_OTHER r) (inferred r)
    (inferred_parts r) (parsed_parts r) (ucum_converted r)
    (ALGO_MAPPING_ISSUES r) (ALGO_JUDGEMENT r) (RULE_RELAXED_BY r) v.

(** [row.inferred && row.inferred[partType]] *)
Definition inferredEntry (row : Row) (pt : PartType) : option InferredEntry :=
  match inferred row with
  | None => None
  | Some inf => snd <$> find (λ e, bool_decide (fst e = pt)) inf
  end.

(** [row.inferred && row.inferred[pt] && row.inferred[pt].names] as a
    possibly missing array. *)
Definition inferredNames (row : Row) (pt : PartType) : option (list string) :=
  names <$> inferredEntry row pt.

End PcnRow.

(** ** lib/labNameParser.js: component modifiers and default specimens *)
Module LabNameParser.
Import LoincUtils PcnRow.

(** An entry of [componentModifiers] as written in the table. *)
Record RawModifier : Type := mkRawModifier {
  raw_token : string;
  raw_connector : string;
  raw_class : option (list string);
  raw_nameRegex : option (list Js.Alt)
}.

(** An entry after the [map] that completes the table. *)
Record ComponentModifier : Type := mkComponentModifier {
  token : string;
  connector : string;
  mod_class : option (list string);
  nameRegex : list Js.Alt;
  modifier : string
}.

Definition rawComponentModifiers : list RawModifier :=
  [ mkRawModifier "bioavailable" "." None None;
    mkRawModifier "bound" "." None None;
    (* new RegExp("\\bfr|free\\b", 'i') *)
    mkRawModifier "free" "." None
      (Some [Js.mkAlt true "fr" false true; Js.mkAlt false "free" true true]);
    mkRawModifier "total" "." None None;
    mkRawModifier "nucleated" "." (Some ["CHEM"; "DRUG/TOX"; "HEM/BC"]) None;
    mkRawModifier "panel" " " None None;
    mkRawModifier "trough" "^" None None;
    mkRawModifier "peak" "^" None None;
    mkRawModifier "post dialysis" "^" None None;
    mkRawModifier "pre dialysis" "^" None None;
    mkRawModifier "standard" "^^" None None ].

(** The function mapped over the table: the default classes (but for
    ["panel"]), the default name pattern, and the modifier text. *)
Definition completeModifier (entry : RawModifier) : ComponentModifier :=
  let m := raw_token entry in
  let cls :=
    match raw_class entry with
    | Some c => Some c
    | None => if Js.includes ["panel"] m then None else Some ["CHEM"; "DRUG/TOX"]
    end in
  let regex :=
    match raw_nameRegex entry with
    | Some r => r
    | None =>
        if (0 <? Js.indexOf m " ")%Z
        then Js.wordsCI [m; Js.replaceFirst m " " "-"; Js.replaceFirst m " " ""]
        else Js.wordsCI [m]
    end in
  mkComponentModifier m (raw_connector entry) cls regex (raw_connector entry +:+ m).

Definition componentModifiers : list ComponentModifier :=
  map completeModifier rawComponentModifiers.

Definition isInName (m : ComponentModifier) (name : string) : bool :=
  Js.test (nameRegex m) name.

Definition isInComponent (m : ComponentModifier) (component : string) : bool :=
  (0 <=? Js.indexOf component (modifier m))%Z.

(** The object the adjustment functions return. *)
Record AdjustStatus : Type := mkAdjustStatus {
  adj_status : string;
  adj_modifier : option string;
  adj_component : option string
}.

(** The loop of [getAdjustedComponentByModifierPredefinedRules]. *)
Fixpoint predefinedRulesLoop (row : Row) (rawName mappedComponent : string)
    (mods : list ComponentModifier) : AdjustStatus :=
  match mods with
  | [] => mkAdjustStatus "none" None None
  | m :: rest =>
      if match mod_class m with
         | Some cls => negb (Js.includes cls (rowPart row CLASS))
         | None => false
         end
      then predefinedRulesLoop row rawName mappedComponent rest
      else
        let inName := isInName m rawName in
        let inComponent := isInComponent m mappedComponent in
        if inName && negb inComponent then
          mkAdjustStatus "name" (Some (modifier m))
            (Some (mappedComponent +:+ modifier m))
        else if negb inName && inComponent then
          mkAdjustStatus "component" (Some (modifier m))
            (Some (Js.dropLast (String.length (modifier m)) mappedComponent))
        else if inName && inComponent then
          mkAdjustStatus "both" (Some (modifier m)) None
        else predefinedRulesLoop row rawName mappedComponent rest
  end.

Definition getAdjustedComponentByModifierPredefinedRules (row : Row) : AdjustStatus :=
  let rawName := RAW_LAB_NAME row in
  let mappedComponent := rowPart row COMPONENT in
  if negb (Js.truthy rawName) || negb (Js.truthy mappedComponent)
  then mkAdjustStatus "blank" None None
  else predefinedRulesLoop row rawName mappedComponent componentModifiers.

(** [/\b(IgA|IgE|IgG[1234]?|IgM)\b/i] *)
Definition igxRegex : list Js.Alt :=
  Js.wordsCI ["IgA"; "IgE"; "IgG1"; "IgG2"; "IgG3"; "IgG4"; "IgG"; "IgM"].

(** [extractIgX(name)]: the match with its letters put in the case
    [I], [g], upper case; [None] is [null]. *)
Definition extractIgX (name : string) : option string :=
  match Js.searchFrom igxRegex None name with
  | None => None
  | Some (a, rest) =>
      let m1 := Js.take (String.length (Js.lit a)) rest in
      Some (Js.toUpperCase (Js.take 1 m1) +:+
            Js.toLowerCase (Js.take 1 (Js.drop 1 m1)) +:+
            Js.toUpperCase (Js.take 1 (Js.drop 2 m1)) +:+
            Js.drop 3 m1)
  end.

Definition getAdjustedComponentByModifierIgX (row : Row) : AdjustStatus :=
  match extractIgX (RAW_LAB_NAME row), extractIgX (rowPart row COMPONENT) with
  | Some igxInName, Some igxInComp =>
      if negb (Js.strictEq igxInName igxInComp)
      then mkAdjustStatus "fixed" (Some "IgX")
             (Some (Js.replaceFirst (rowPart row COMPONENT) igxInComp igxInName))
      else mkAdjustStatus "none" None None
  | _, _ => mkAdjustStatus "none" None None
  end.

Definition getAdjustedComponentByModifier (row : Row) : AdjustStatus :=
  let result := getAdjustedComponentByModifierPredefinedRules row in
  if Js.truthyU (adj_component result) || Js.strictEq (adj_status result) "blank"
  then result
  else getAdjustedComponentByModifierIgX row.

(** [defaultSpecimenPerClass] *)
Definition defaultSpecimenPerClass (cls : string) : option string :=
  if Js.strictEq cls "CHEM" then Some "Ser/Plas"
  else if Js.strictEq cls "DRUG/TOX" then Some "Ser/Plas"
  else if Js.strictEq cls "HEM/BC" then Some "Bld"
  else if Js.strictEq cls "COAG" then Some "PPP"
  else if Js.strictEq cls "MICRO" then Some "Ser"
  else None.

(** [getDefaultSpecimen(row)]; [None] is [undefined]. *)
Definition getDefaultSpecimen (row : Row) : option string :=
  defaultSpecimenPerClass (rowPart row CLASS).

(** A row with the given name, component and class and nothing else. *)
Definition bareRow (name component cls : string) : Row :=
  mkRow None "" name "" "" "" "" ""
    (mkParts cls component "" "" "" "" "")
    "" "" "" None "" "" "" IssuesUnset "" "" TargetUnset.

(** The cases the module prints when run on its own. *)

(** *** The extraction framework *)

(** The [pattern] of a configuration entry: one string or an array. *)
Inductive Pattern : Type :=
  | PatString (p : string)
  | PatList (ps : list string).

Definition patternList (p : Pattern) : list string :=
  match p with PatString s => [s] | PatList l => l end.

(** The custom [extract] functions of the table. *)
Inductive CustomExtract : Type :=
  | ExtractHours.   (* the [extract] of the [RAW_UNIT] time entry *)

(** A configuration entry as written in the tables. *)
Record RawRuleConfig : Type := mkRawRuleConfig {
  cfg_selector : option string;
  cfg_pattern : option Pattern;
  cfg_regex : option (list Js.Alt);
  cfg_partName : option string;
  cfg_mapToClass : option (list string);
  cfg_unless : option (list Js.Alt);
  cfg_extract : option CustomExtract
}.

(** An entry [defaultLoincPartExtractionConfigMapper] has completed. *)
Record Extractor : Type := mkExtractor {
  ext_type : PartType;
  ext_selector : option string;
  ext_pattern : list string;
  ext_regex : list Js.Alt;
  ext_partName : string;
  ext_mapToClassIncl : option (list string);
  ext_mapToClassExcl : option (list string);
  ext_unless : option (list Js.Alt);
  ext_extract : option CustomExtract
}.

(** [defaultLoincPartExtractionConfigMapper(partType, rawRuleConfig)];
    [None] when it throws: an entry with neither pattern nor regular
    expression, or with no part name and no single-string pattern. *)
Definition defaultLoincPartExtractionConfigMapper (partType : PartType)
    (rawRuleConfig : RawRuleConfig) : option Extractor :=
  match cfg_regex rawRuleConfig, cfg_pattern rawRuleConfig, cfg_mapToClass rawRuleConfig with
  | None, None, _ => None
  | None, Some (PatString EmptyString), _ => None
  | _, _, Some [] => None   (* [mapToClass[0][0]] on an empty array *)
  | _, _, _ =>
      let partName :=
        match cfg_partName rawRuleConfig, cfg_pattern rawRuleConfig with
        | Some n, _ => if Js.truthy n then Some n else
                         match cfg_pattern rawRuleConfig with
                         | Some (PatString p) => if Js.truthy p then Some p else None
                         | _ => None
                         end
        | None, Some (PatString p) => if Js.truthy p then Some p else None
        | None, _ => None
        end in
      match partName with
      | None => None
      | Some partName =>
          let regex :=
            match cfg_regex rawRuleConfig with
            | Some r => r
            | None => Js.wordsCI (default [] (patternList <$> cfg_pattern rawRuleConfig))
            end in
          let excl :=
            match cfg_mapToClass rawRuleConfig with
            | Some (c :: _) => Js.startsWith c "!"
            | _ => false
            end in
          Some (mkExtractor partType (cfg_selector rawRuleConfig)
                  (default [] (patternList <$> cfg_pattern rawRuleConfig))
                  regex partName
                  (if excl then None else cfg_mapToClass rawRuleConfig)
                  (if excl
                   then (map (λ x, Js.trim (Js.drop 1 x))) <$> cfg_mapToClass rawRuleConfig
                   else None)
                  (cfg_unless rawRuleConfig) (cfg_extract rawRuleConfig))
      end
  end.

(** [toFilterOut(rule, text, row)], with [applyRestrictions] true; the row
    is given by its class, [None] when the row has none. *)
Definition toFilterOut (rule : Extractor) (text : string) (rowClass : option string) : bool :=
  match ext_mapToClassIncl rule with
  | Some incl => negb (Js.includesU incl rowClass)
  | None => false
  end ||
  match ext_mapToClassExcl rule with
  | Some excl => Js.includesU excl rowClass
  | None => false
  end ||
  match ext_unless rule with
  | Some unless => Js.test unless text
  | None => false
  end.

Fixpoint takeDigits (s : string) : string * string :=
  match s with
  | String c s' =>
      if Js.isDigit c then let '(d, r) := takeDigits s' in (String c d, r)
      else (EmptyString, s)
  | EmptyString => (EmptyString, EmptyString)
  end.

(** A match of [\s*([0-9]+)\s*(h|hr|hrs|hour|hours)\s*$] with the [i] flag
    at the start of [s]: the digits. *)
Definition hoursAfterSlash (s : string) : option string :=
  let '(digits, rest) := takeDigits (Js.trimStart s) in
  if Js.truthy digits &&
     Js.includes ["h"; "hr"; "hrs"; "hour"; "hours"] (Js.toLowerCase (Js.trim rest))
  then Some digits else None.

(** [unit.match(/\/\s*([0-9]+)\s*(h|hr|hrs|hour|hours)\s*$/i)]: the first
    group of the leftmost match. *)
Fixpoint matchHours (s : string) : option string :=
  match s with
  | EmptyString => None
  | String c s' =>
      match (if bool_decide (c = "/"%char) then hoursAfterSlash s' else None) with
      | Some d => Some d
      | None => matchHours s'
      end
  end.

(** [extractor.extract(text, row)]; [None] is [null]. *)
Definition extract (e : Extractor) (text : string) (rowClass : option string)
    : option string :=
  match ext_extract e with
  | Some ExtractHours => (λ d, d +:+ "H") <$> matchHours text
  | None =>
      if Js.truthy text && Js.test (ext_regex e) text && negb (toFilterOut e text rowClass)
      then Some (ext_partName e) else None
  end.

(** An element of the list [runExtractors] returns. *)
Record Extracted : Type := mkExtracted {
  x_type : PartType;
  x_value : string;
  x_pattern : list string
}.

(** [runExtractors(sourceValue, extractors, row, selectors)], the selector
    being absent or one name. *)
Definition runExtractors (sourceValue : string) (extractors : list Extractor)
    (rowClass : option string) (selector : option string) : list Extracted :=
  if negb (Js.truthy sourceValue) then []
  else
    omap (λ extractor,
      if match selector with
         | None => true
         | Some sel => if Js.truthy sel then bool_decide (ext_selector extractor = Some sel)
                       else true
         end
      then match extract extractor sourceValue rowClass with
           | Some extractedName =>
               if Js.truthy extractedName
               then Some (mkExtracted (ext_type extractor) extractedName (ext_pattern extractor))
               else None
           | None => None
           end
      else None) extractors.

Definition cfgWords (patterns : list string) (partName : string)
    (mapToClass : option (list string)) (unless : option (list Js.Alt)) : RawRuleConfig :=
  mkRawRuleConfig None (Some (PatList patterns)) None (Some partName) mapToClass unless None.

Definition cfgWord (pattern : string) (partName : option string) : RawRuleConfig :=
  mkRawRuleConfig None (Some (PatString pattern)) None partName None None None.

Definition rawSpecimenExtractors : list RawRuleConfig :=
  [ cfgWords ["CSF"; "CEREBROSPINAL FLUID"] "CSF" None None;
    cfgWords ["Urine"; "UA"; "Ur"; "urn"] "Urine" (Some ["!ALLERGY"]) None;
    cfgWords ["saliva"; "oral fld"; "oral fluid"] "Saliva" None None;
    cfgWords ["plasma"; "plas"] "Ser/Plas" (Some ["!CELLMARK"; "!HEM/BC"]) None;
    cfgWords ["red blood cell"; "red blood cells"; "RBC"; "RBCs"] "RBC"
      (Some ["CHEM"; "DRUG/TOX"]) None;
    cfgWords ["white blood cell"; "white blood cells"; "WBC"] "WBC" (Some ["NEVER"]) None;
    cfgWords ["leukocyte"; "leukocytes"; "leucocyte"; "leucocytes"] "WBC" (Some ["CHEM"]) None;
    cfgWords ["platelet"; "platelets"] "Platelets" (Some ["NEVER"])
      (Some [Js.mkAlt true "poor plasma" true true; Js.mkAlt true "rich plasma" true true]);
    cfgWord "Bld" None;
    cfgWord "whole blood" (Some "Bld");
    cfgWords ["Stool"; "feces"; "fecal"] "Stool" None None;
    cfgWord "serum" (Some "Ser/Plas");
    cfgWord "tissue" (Some "Tiss");
    cfgWord "pleural fluid" (Some "Plr fld");
    cfgWord "pericardial fluid" (Some "Pericard fld");
    cfgWord "peritoneal fluid" (Some "Periton fld");
    cfgWord "dialysis fluid" (Some "Dial fld");
    cfgWords ["Body fluid"; "Body fld"] "Body fld" (Some ["!UA"]) None;
    cfgWords ["Amniotic Fluid"; "Amnio fld"] "Amnio fld" None None;
    cfgWords ["fluid"] "Body fld" (Some ["!UA"]) (Some [Js.mkAlt true "influenz" false true]);
    cfgWords ["fld"] "Body fld" (Some ["!UA"])
      (Some [Js.mkAlt true "flu" false true; Js.mkAlt true "influenz" false true]);
    cfgWord "adrenal vein" (Some "Adrenal vein");
    cfgWord "renal vein" (Some "Renal vein");
    cfgWords ["DBS"; "Dried blood spot"] "Bld.dot" None None;
    mkRawRuleConfig None (Some (PatString "Hair")) None (Some "Hair") None
      (Some (Js.wordsCI ["animal"; "horse"; "cow"])) None;
    cfgWord "breath" (Some "Exhl gas");
    cfgWords ["inferior vena cava"; "IVC"] "Vena cava.inferior" None None;
    cfgWords ["Right adrenal vein"; "R adrenal Vein"] "Adrenal vein.right" None None;
    cfgWords ["Left adrenal vein"; "L adrenal Vein"] "Adrenal vein.left" None None;
    cfgWords ["blood capillary"; "capillary blood"] "BldC" None None;
    cfgWord "Semen" (Some "Semen");
    mkRawRuleConfig None (Some (PatString "POC")) None (Some "Bld") (Some ["NEVER"]) None None ].

Definition rawTimeExtractors : list RawRuleConfig :=
  [ mkRawRuleConfig (Some "RAW_LAB_NAME") (Some (PatString "random")) None (Some "Pt")
      None None None;
    mkRawRuleConfig (Some "RAW_LAB_NAME") (Some (PatString "spot")) None (Some "Pt")
      (Some ["NEVER"]) None None;
    (* the regular expression of this entry is used by its own [extract] only *)
    mkRawRuleConfig (Some "RAW_UNIT") None (Some []) (Some "N/A") None None
      (Some ExtractHours) ].

(** The tables are completed when the module is loaded; an entry that
    throws stops the program there. *)
Definition loadExtractors (partType : PartType) (raws : list RawRuleConfig)
    : option (list Extractor) :=
  mapM (defaultLoincPartExtractionConfigMapper partType) raws.

Definition specimenExtractors : list Extractor :=
  default [] (loadExtractors SYSTEM rawSpecimenExtractors).

Definition timeExtractors : list Extractor :=
  default [] (loadExtractors TIME rawTimeExtractors).

(** [extractSpecimen(row)] *)
Definition extractSpecimen (row : Row) : list Extracted :=
  runExtractors (RAW_LAB_NAME row) specimenExtractors (Some (rowPart row CLASS)) None.

(** [extractTime(sourceValue, selector)]: no row is given, so the class
    read by the class filters is [undefined]. *)
Definition extractTime (sourceValue selector : string) : list Extracted :=
  runExtractors sourceValue timeExtractors None (Some selector).

End LabNameParser.

(** ** Effects of the row-processing code

    The functions that work on a data row mutate it in place and may throw.
    They are written in a monad whose state is the row.  A thrown exception
    is the result [None]; the row and the trace reached so far are kept.

    The trace is ghost state.  It records, in program order, every
    assignment to [row.ALGO_JUDGEMENT] and every call of the inference
    engine and of the candidate matcher, so that what a pass over a record
    does, and never does, can be stated. *)
Module Eff.
Import PcnRow.

Inductive Event : Type :=
  | EvJudgement (value : string)   (* [row.ALGO_JUDGEMENT = value] *)
  | EvInferAndValidate             (* [inferAndValidate(row, ...)] is entered *)
  | EvReplaceAndFind.              (* [replaceAndFind(...)] is entered *)

Definition M (A : Type) : Type := Row → option A * Row * list Event.

Definition ret {A} (a : A) : M A := λ row, (Some a, row, []).

Definition bind {A B} (m : M A) (k : A → M B) : M B :=
  λ row,
    match m row with
    | (Some a, row1, ev1) =>
        match k a row1 with (r, row2, ev2) => (r, row2, ev1 ++ ev2) end
    | (None, row1, ev1) => (None, row1, ev1)
    end.

#[export] Instance M_ret : MRet M := @ret.
#[export] Instance M_bind : MBind M := λ A B k m, bind m k.

(** [throw new Error(...)], and any [TypeError] of the runtime. *)
Definition throw {A} : M A := λ row, (None, row, []).

(** Read the row. *)
Definition get : M Row := λ row, (Some row, row, []).

(** Assign to fields of the row. *)
Definition modify (f : Row → Row) : M unit := λ row, (Some tt, f row, []).

Definition emit (e : Event) : M unit := λ row, (Some tt, row, [e]).

(** [row.ALGO_JUDGEMENT = value] *)
Definition setJudgement (value : string) : M unit :=
  emit (EvJudgement value) ;; modify (set_ALGO_JUDGEMENT value).

(** [list.forEach(x => body(x))] *)
Fixpoint forEach {A} (l : list A) (body : A → M unit) : M unit :=
  match l with
  | [] => mret tt
  | x :: rest => body x ;; forEach rest body
  end.

Definition result {A} (x : option A * Row * list Event) : option A := x.1.1.
Definition finalRow {A} (x : option A * Row * list Event) : Row := x.1.2.
Definition trace {A} (x : option A * Row * list Event) : list Event := x.2.

(** The values assigned to [ALGO_JUDGEMENT], in order. *)
Definition judgements (evs : list Event) : list string :=
  omap (λ e, match e with EvJudgement v => Some v | _ => None end) evs.

End Eff.

(** ** The module-level globals

    What [initAsyncGlobals] and [getMgr] store once before any row is
    processed.  The catalogue utilities are those of [LoincUtils]; the unit
    collaborators (the unit-to-properties table and the unit-to-UCUM mapper
    manager, both loaded from spreadsheets and an external UCUM validator)
    are taken as given functions, and so is what the run time is free to
    choose. *)
Module Globals.
Import LoincUtils.

Record Env : Type := mkEnv {
  loincTableUtil : LoincTableUtil;
  (** [getUnitProperties(unit)] *)
  getUnitProperties : string → list string;
  (** [loincTableUtil.getPctUnitPropertiesByClass(lnClass)] *)
  getPctUnitPropertiesByClass : string → list string;
  (** [getStdPartName(name, type)] *)
  getStdPartName : string → PartType → string;
  (** [ucumMapperMgr.mapToUcum(unit, {loinc, isCI}).ucum] *)
  mapToUcum : string → string → bool → option string;
  (** [ucumMapperMgr.mapWith(mapper, unit, {isCI, loinc, validate: false}).ucum] *)
  mapWith : string → string → bool → string → option string;
  (** [ucumMapperMgr.getMapperNames()] *)
  getMapperNames : list string;
  (** The array [sets.sort(...)] leaves in [setAND] when one of the sets
      is not a [Set], which the language leaves to the run time *)
  sortBySize : list Common.SetArg → list Common.SetArg
}.

End Globals.

(** ** pcornetValidationMgr.js: the compatibility test and the inference
    engine *)
Module PcornetValidationMgr.
Import LoincUtils LoincPartSynonyms PcnRow LabNameParser Eff Globals.

Definition bothInList (plist : list string) (p1 p2 : option string) : bool :=
  Js.includesU plist p1 && Js.includesU plist p2.

(** [getPartSynonyms(partType, p) || []] for a possibly [undefined] name,
    which as a property key reads ["undefined"]. *)
Definition synonymsOrEmpty (partType : PartType) (p : option string) : list string :=
  default [] (getPartSynonyms partType (default "undefined" p)).

(** [partsCompatible(partType, p1, p2, row)] *)
Definition partsCompatible (partType : PartType) (p1 p2 : option string)
    (row : option Row) : bool :=
  let lnClass := match row with Some r => rowPart r CLASS | None => "" end in
  if Js.strictEqU p1 p2 || (negb (Js.truthyU p1) && negb (Js.truthyU p2)) then true
  else if negb (Js.truthyU p1) || negb (Js.truthyU p2) then false
  else if bool_decide (partType = SCALE) && bothInList ["Qn"; "OrdQn"] p1 p2 then true
  else if bool_decide (partType = SYSTEM) &&
          ((Js.strictEq lnClass "UA" && bothInList ["Urine"; "Urine sed"] p1 p2) ||
           (Js.strictEq lnClass "COAG" && bothInList ["PPP"; "Plas"; "Ser/Plas"] p1 p2) ||
           bothInList ["Ser"; "Plas"; "Ser/Plas"; "Ser/Plas/Bld"] p1 p2 ||
           bothInList ["Urine"; "Urine+Ser"; "Urine+Ser/Plas"] p1 p2 ||
           bothInList ["CSF"; "Ser+CSF"; "Ser/Plas+CSF"] p1 p2)
  then true
  else Js.includesU (synonymsOrEmpty partType p1) p2 ||
       Js.includesU (synonymsOrEmpty partType p2) p1.

(** The name of a part type, as the field name it is in the sources. *)
Definition partTypeName (pt : PartType) : string :=
  match pt with
  | CLASS => "CLASS" | COMPONENT => "COMPONENT" | PROPERTY => "PROPERTY"
  | TIME => "TIME" | SYSTEM => "SYSTEM" | SCALE => "SCALE" | METHOD => "METHOD"
  end.

(** [addRowUpdates(row, 'ALGO_MAPPING_ISSUES', newValues)], the only field
    it is called for: the values not yet in the list are pushed.  When the
    field holds a non-empty string, [includes] is the substring test of
    strings and the first value that is not a substring is pushed to the
    string, which has no [push]. *)
Definition addRowUpdates (newValues : list string) : M unit :=
  row ← get;
  match ALGO_MAPPING_ISSUES row with
  | IssuesText (String c text) =>
      if forallb (λ value, (0 <=? Js.indexOf (String c text) value)%Z) newValues
      then mret tt else throw
  | field =>
      let currValues := match field with IssuesList l => l | _ => [] end in
      modify (set_ALGO_MAPPING_ISSUES (IssuesList
        (foldl (λ acc value, if Js.includes acc value then acc else acc ++ [value])
               currValues newValues)))
  end.

(** [addAlgoMappingIssue(row, type, confidence)] *)
Definition addAlgoMappingIssue (type : string) (confidence : Q) : M unit :=
  addRowUpdates [type].

(** [obj[key] = value] on an object kept in insertion order. *)
Fixpoint assocSet {A} (key : PartType) (value : A) (obj : list (PartType * A))
    : list (PartType * A) :=
  match obj with
  | [] => [(key, value)]
  | (k, v) :: rest =>
      if decide (k = key) then (k, value) :: rest else (k, v) :: assocSet key value rest
  end.

(** [addInferredLoincParts(row, loincPart, newPartNames, inferType)] *)
Definition addInferredLoincParts (loincPart : PartType) (newPartNames : list string)
    (inferType : string) : M unit :=
  match newPartNames with
  | [] => throw
  | _ =>
      row ← get;
      let entry := default (mkInferredEntry [] []) (inferredEntry row loincPart) in
      let entry' :=
        foldl (λ e partName,
                 if Js.includes (names e) partName then e
                 else mkInferredEntry (names e ++ [partName]) (types e ++ [inferType]))
              entry newPartNames in
      modify (set_inferred (Some (assocSet loincPart entry' (default [] (inferred row)))))
  end.

(** [addAlgoIssueAndJudgementIfPartsDisagree(row, partType,
    inferredPartNames, confidence, absenceOK)] *)
Definition addAlgoIssueAndJudgementIfPartsDisagree (partType : PartType)
    (inferredPartNames : list string) (confidence : Q) (absenceOK : bool) : M bool :=
  row ← get;
  if match inferredPartNames with [] => true | _ => false end ||
     (absenceOK && negb (Js.truthy (rowPart row partType)))
  then mret false
  else
    let inferredWithSynonyms := addPartSynonyms partType inferredPartNames in
    if negb (Js.truthy (rowPart row partType)) ||
       negb (existsb (λ partName,
               partsCompatible partType (Some partName) (Some (rowPart row partType))
                 (Some row)) inferredWithSynonyms)
    then
      addAlgoMappingIssue (partTypeName partType) confidence ;;
      setJudgement "INCORRECT_aj" ;;
      mret true
    else mret false.

Section Mgr.
Variable env : Env.

(** [inferComponentByModifier(row)] *)
Definition inferComponentByModifier : M unit :=
  row ← get;
  let status := getAdjustedComponentByModifier row in
  match adj_component status with
  | Some component =>
      if Js.truthy component then
        if hasLoincWithPart (loincTableUtil env) COMPONENT component then
          addInferredLoincParts COMPONENT [component] "inferred" ;;
          addAlgoIssueAndJudgementIfPartsDisagree COMPONENT [component] (8 # 10) true ;;
          mret tt
        else mret tt
      else mret tt
  | None => mret tt
  end.

(** [inferLoincSystem(row)] *)
Definition inferLoincSystem : M unit :=
  row ← get;
  let sysUpper := Js.toUpperCase (rowPart row SYSTEM) in
  let parsed := map x_value (extractSpecimen row) in
  let '(type, inferredSystem) :=
    if match parsed with [] => true | _ => false end && Js.truthy sysUpper &&
       Js.startsWith sysUpper "BLD" && negb (Js.strictEq sysUpper "BLD") &&
       Js.strictEq (rowPart row CLASS) "HEM/BC"
    then ("inferred", ["Bld"])
    else ("parsed", parsed) in
  match inferredSystem with
  | [] => mret tt
  | _ =>
      addInferredLoincParts SYSTEM inferredSystem type ;;
      addAlgoIssueAndJudgementIfPartsDisagree SYSTEM inferredSystem (6 # 10) true ;;
      mret tt
  end.

(** [s.match(/^[0-9]+H$/)] *)
Definition isHours (s : string) : bool :=
  let '(digits, rest) := takeDigits s in
  Js.truthy digits && Js.strictEq rest "H".

(** [inferLoincTime(row)] *)
Definition inferLoincTime : M unit :=
  row ← get;
  let mappedToProp := rowPart row PROPERTY in
  let fromUnit := map x_value (extractTime (RAW_UNIT row) "RAW_UNIT") in
  let '(inferredTime, inferredProperty) :=
    match fromUnit with
    | t0 :: _ =>
        (fromUnit,
         if isHours t0 && Js.endsWith mappedToProp "Cnc"
         then Some [Js.dropLast 3 mappedToProp +:+ "Rat"] else None)
    | [] =>
        let fromName := map x_value (extractTime (RAW_LAB_NAME row) "RAW_LAB_NAME") in
        (fromName,
         match fromName with
         | t0 :: _ =>
             if Js.strictEq t0 "Pt" && Js.endsWith mappedToProp "Rat"
             then Some [Js.dropLast 3 mappedToProp +:+ "Cnc"] else None
         | [] => None
         end)
    end in
  match inferredTime with
  | [] => mret tt
  | _ =>
      addInferredLoincParts TIME inferredTime "parsed" ;;
      addAlgoIssueAndJudgementIfPartsDisagree TIME inferredTime (5 # 10) true ;;
      mret tt
  end ;;
  match inferredProperty with
  | Some prop =>
      addInferredLoincParts PROPERTY prop "inferred" ;;
      addAlgoIssueAndJudgementIfPartsDisagree PROPERTY prop (6 # 10) true ;;
      mret tt
  | None => mret tt
  end.

(** [inferScaleAndProperty(row, altUnits, unitProperties, rowNum)] *)
Definition inferScaleAndProperty (altUnits unitProperties : list string) : M unit :=
  row ← get;
  let unitProperties :=
    if (0 <=? Js.indexOf (RAW_UNIT row) "%")%Z
    then getPctUnitPropertiesByClass env (rowPart row CLASS)
    else unitProperties in
  let isInterpretation :=
    (0 <=? Js.indexOf (Js.toUpperCase (RAW_LAB_NAME row)) "INTERPRETATION")%Z in
  let scale :=
    if isInterpretation then Some ["Nom"; "Nar"; "Ord"; "Doc"]
    else if Js.truthy (RAW_UNIT row) then Some ["Qn"] else None in
  match scale with
  | Some scale =>
      disagree ← addAlgoIssueAndJudgementIfPartsDisagree SCALE scale 1 true;
      if disagree : bool then addInferredLoincParts SCALE scale "inferred" else mret tt
  | None => mret tt
  end ;;
  let property :=
    if isInterpretation then Some ["Imp"]
    else match unitProperties with [] => None | _ => Some unitProperties end in
  match property with
  | Some property =>
      disagree ← addAlgoIssueAndJudgementIfPartsDisagree PROPERTY property (6 # 10) true;
      if disagree : bool then addInferredLoincParts PROPERTY property "inferred" else mret tt
  | None => mret tt
  end.

(** [s.replace(/\s*]\s*$/, '')] *)
Definition stripClosingBracket (s : string) : string :=
  let t := Js.trimEnd s in
  if Js.endsWith t "]" then Js.trimEnd (Js.dropLast 1 t) else s.

(** [extractHpfLpf(unitOrMethod)]; [None] is [null]. *)
Definition extractHpfLpf (unitOrMethod : string) : option string :=
  if negb (Js.truthy unitOrMethod) then None
  else
    let u := stripClosingBracket (Js.toUpperCase unitOrMethod) in
    if Js.endsWith u "HPF" then Some "HPF"
    else if Js.endsWith u "LPF" then Some "LPF" else None.

(** [a || b] on possibly [null] strings that are not empty when present. *)
Definition orElse (a b : option string) : option string :=
  match a with Some _ => a | None => b end.

(** [inferWithHfpLpf(row, altUnits, unitProperties, rowNum)] *)
Definition inferWithHfpLpf (altUnits unitProperties : list string) : M unit :=
  row ← get;
  let rawXpf := foldl (λ acc unit, orElse acc (extractHpfLpf unit)) None altUnits in
  match rawXpf with
  | Some rawXpf =>
      let methodXpf := extractHpfLpf (rowPart row METHOD) in
      let mappedXpf := orElse methodXpf (extractHpfLpf (EX_UCUM row)) in
      match mappedXpf with
      | Some mappedXpf =>
          if negb (Js.strictEq mappedXpf rawXpf) then
            addAlgoMappingIssue (Js.join "-" [mappedXpf; rawXpf]) 1 ;;
            setJudgement "INCORRECT_aj" ;;
            match methodXpf with
            | Some _ =>
                addInferredLoincParts METHOD
                  [Js.replaceFirst (rowPart row METHOD) mappedXpf rawXpf] "inferred"
            | None => mret tt
            end
          else mret tt
      | None => mret tt
      end
  | None => mret tt
  end.

(** [inferLoincPartsUAxPF(row)] *)
Definition inferLoincPartsUAxPF : M unit :=
  row ← get;
  let rawXpf := extractHpfLpf (RAW_UNIT row) in
  let mappedXpf := orElse (extractHpfLpf (rowPart row METHOD)) (extractHpfLpf (EX_UCUM row)) in
  let methodWrong :=
    negb (Js.strictEqU rawXpf mappedXpf) &&
    (bool_decide (is_Some mappedXpf) || Js.startsWith (rowPart row METHOD) "Microscopy.light") in
  match rawXpf with
  | Some rawXpf =>
      if Js.strictEq (rowPart row CLASS) "UA" &&
         (negb (Js.strictEq (rowPart row SCALE) "Qn") ||
          negb (Js.strictEq (rowPart row PROPERTY) "Naric") || methodWrong)
      then
        addInferredLoincParts SYSTEM ["Urine"; "Urine sed"] "inferred" ;;
        (if negb (Js.strictEq (rowPart row SCALE) "Qn") then
           addInferredLoincParts SCALE ["Qn"] "inferred" ;;
           addAlgoIssueAndJudgementIfPartsDisagree SCALE ["Qn"] (5 # 10) true ;;
           mret tt
         else mret tt) ;;
        (if negb (Js.strictEq (rowPart row PROPERTY) "Naric") then
           addInferredLoincParts PROPERTY ["Naric"] "inferred" ;;
           addAlgoIssueAndJudgementIfPartsDisagree PROPERTY ["Naric"] (5 # 10) true ;;
           mret tt
         else mret tt) ;;
        (if methodWrong then
           let method := ["Microscopy.light." +:+ rawXpf] in
           addInferredLoincParts METHOD method "inferred" ;;
           addAlgoIssueAndJudgementIfPartsDisagree METHOD method (5 # 10) true ;;
           mret tt
         else mret tt)
      else mret tt
  | None => mret tt
  end.

(** [name.match(/^CD([0-9]+) ANTIBODY$/i)]: the first group. *)
Definition matchCDxAntibody (name : string) : option string :=
  if Js.startsWithCI name "CD" then
    let '(digits, rest) := takeDigits (Js.drop 2 name) in
    if Js.truthy digits && Js.strictEq (Js.toUpperCase rest) " ANTIBODY"
    then Some digits else None
  else None.

(** [inferLoincPartsCDxAntibody(row)] *)
Definition inferLoincPartsCDxAntibody : M unit :=
  row ← get;
  match matchCDxAntibody (RAW_LAB_NAME row) with
  | Some num =>
      if negb (Js.strictEq (rowPart row CLASS) "CELLMARK") &&
         Js.truthy (SPECIMEN_SOURCE row) &&
         Js.strictEq (Js.toUpperCase (SPECIMEN_SOURCE row)) "BLD" &&
         Js.truthy (RAW_UNIT row) && (0 <=? Js.indexOf (RAW_UNIT row) "%")%Z
      then
        forEach [ (COMPONENT, "Cells.CD" +:+ num +:+ "/100 cells");
                  (CLASS, "CELLMARK"); (PROPERTY, "NFr"); (SCALE, "Qn");
                  (TIME, "Pt"); (SYSTEM, "Bld") ]
          (λ '(partType, value),
             if negb (Js.strictEq (rowPart row partType) value) then
               addInferredLoincParts partType [value] "inferred" ;;
               addAlgoIssueAndJudgementIfPartsDisagree partType [value] (5 # 10) true ;;
               mret tt
             else mret tt)
      else mret tt
  | None => mret tt
  end.

(** [(obj[key] = obj[key] || []).push(value)] on an object with string keys
    kept in insertion order. *)
Fixpoint pushTo (key : string) (value : string) (obj : list (string * list string))
    : list (string * list string) :=
  match obj with
  | [] => [(key, [value])]
  | (k, vs) :: rest =>
      if Js.strictEq k key then (k, vs ++ [value]) :: rest
      else (k, vs) :: pushTo key value rest
  end.

(** [combineInferredParts(row)]: the inferred names of each part type are
    grouped by how they were obtained and rendered into [parsed_parts] and
    [inferred_parts]. *)
Definition combineInferredParts : M unit :=
  row ← get;
  match inferred row with
  | None => mret tt
  | Some inf =>
      let mergedByInferType :=
        foldl (λ merged '(partType, info),
                 let typesToParts :=
                   foldl (λ acc '(name, type), pushTo type name acc) []
                         (zip (names info) (types info)) in
                 foldl (λ merged '(type, names),
                          pushTo (type +:+ "_parts")
                            (partTypeName partType +:+ "=[" +:+
                             Js.join "," (Js.sortStrings names) +:+ "]")
                            merged)
                       merged typesToParts)
              [] inf in
      forEach mergedByInferType
        (λ '(f, parts),
           if Js.strictEq f "inferred_parts" then modify (set_inferred_parts (Js.join "; " parts))
           else if Js.strictEq f "parsed_parts" then modify (set_parsed_parts (Js.join "; " parts))
           else mret tt)
  end.

(** [getXformedRawUnit(row)] *)
Definition getXformedRawUnit (row : Row) : string :=
  let rawUnit := RAW_UNIT row in
  if Js.truthy rawUnit then
    if Js.test (Js.wordsCS ["IU"]) rawUnit &&
       Js.test [Js.mkAlt false "ase" true true] (RAW_LAB_NAME row)
    then Js.replaceFirstMatch (Js.wordsCS ["IU"]) "U" rawUnit
    else if Js.endsWith rawUnit " Cr" then Js.trim (Js.dropLast 3 rawUnit)
    else rawUnit
  else rawUnit.

(** [Object.keys] of the object filled with the elements of a list as
    keys. *)
Definition uniqueKeys (l : list string) : list string := Js.objectKeys l.

(** [inferAndValidate(row, altUnits, rowNum)] *)
Definition inferAndValidate (altUnits : list string) (rowNum : nat) : M unit :=
  emit EvInferAndValidate ;;
  let propsOfUnits := uniqueKeys (concat (map (getUnitProperties env) altUnits)) in
  row ← get;
  (if Js.boolStrictEqString (negb (Js.truthy (ALGO_JUDGEMENT row))) "NON_QN" &&
      negb (Js.startsWith (ALGO_JUDGEMENT row) "WACKO")
   then setJudgement "CORRECT_aj" else mret tt) ;;
  inferComponentByModifier ;;
  inferLoincSystem ;;
  inferLoincTime ;;
  inferScaleAndProperty altUnits propsOfUnits ;;
  inferWithHfpLpf altUnits propsOfUnits ;;
  inferLoincPartsUAxPF ;;
  inferLoincPartsCDxAntibody ;;
  row ← get;
  let props := default [rowPart row PROPERTY] (inferredNames row PROPERTY) in
  (if Js.strictEq (rowPart row SYSTEM) "Urine" && Js.includes props "SRto" &&
      negb (Js.endsWith (rowPart row COMPONENT) "/Creatinine")
   then
     let component := rowPart row COMPONENT +:+ "/Creatinine" in
     if hasLoincWithPart (loincTableUtil env) COMPONENT component then
       addInferredLoincParts COMPONENT [component] "inferred" ;;
       addAlgoIssueAndJudgementIfPartsDisagree COMPONENT [component] (8 # 10) true ;;
       mret tt
     else mret tt
   else mret tt) ;;
  combineInferredParts.

End Mgr.

End PcornetValidationMgr.

(** ** altLoincSuggesterGen6.js: the candidate matcher *)
Module Matcher.
Import LoincUtils LoincPartSynonyms PcnRow LabNameParser PcornetValidationMgr.

(** The target term: for each part type the acceptable names, or [None]
    ([null]) when the part is not to be compared. *)
Abbreviation TargetTermParts := (Parts (option (list string))).

(** What [isAltLoinc] returns: [{matched}] or [{matched, relaxations}]. *)
Record MatchStatus : Type := mkMatchStatus {
  matched : bool;
  status_relaxations : option (list string)
}.

(** [shouldTryDefaultSpecimen(row)]: the function returns [false] on its
    first line (``DISALBED FOR NOW''); the statements after it are never
    reached. *)
Definition shouldTryDefaultSpecimen (row : Row) : bool := false.

(** [relaxedComponentMatch(row, targetLoincParts, candidateLoincParts,
    relaxations)]: whether the component is accepted, and the relaxations
    pushed.  [None] is a [TypeError]: a method called on the [undefined]
    first element of an empty component array, or on a [null] property
    list. *)
Definition relaxedComponentMatch (row : Row) (targetLoincParts : TargetTermParts)
    (candidateLoincParts : PartsInfo) : option (bool * list string) :=
  let candidateComp := Js.first (getPart (parts candidateLoincParts) COMPONENT) in
  let targetComp := Js.first (default [] (getPart targetLoincParts COMPONENT)) in
  (* the first [if] and its [else if] *)
  step1 ←
    (if (0 <=? Js.indexOf (RAW_UNIT row) "%")%Z then
       targetComp ← targetComp;
       if (Js.indexOf targetComp "/" <? 0)%Z then
         candidateComp ← candidateComp;
         if (0 <? Js.indexOf candidateComp "/")%Z then
           let relaxedTarget :=
             if negb (Js.test (Js.containsCI "crystal") (RAW_LAB_NAME row)) &&
                Js.endsWith targetComp " crystals" &&
                negb (Js.test (Js.containsCI "crystal") candidateComp)
             then Js.dropLast 9 targetComp else targetComp in
           if Js.startsWith candidateComp (relaxedTarget +:+ "/") ||
              Js.strictEq (relaxedTarget +:+ " actual/Normal") candidateComp
           then Some (Some (true,
                  [if Js.strictEq relaxedTarget targetComp then "COMP-denom for %"
                   else "COMP-denom for %, dropping crystals"]))
           else Some (Some (false, []))
         else Some None
       else Some None
     else Some None);
  step1 ←
    match step1 with
    | Some r => Some r
    | None =>
        (* the [else if] branch *)
        property ← getPart targetLoincParts PROPERTY;
        if Js.includes property "NCnc" &&
           Js.strictEqU (Some (default "undefined" candidateComp +:+ "/100 leukocytes"))
                        targetComp
        then Some (true, ["matchPart: NCnc ignoring " +:+ Js.dquote +:+ "/100 leukocytes" +:+
                          Js.dquote])
        else Some (false, [])
    end;
  let '(matched, relaxations) := step1 in
  step2 ←
    (if negb matched then
       property ← getPart targetLoincParts PROPERTY;
       if existsb (λ p, Js.truthy p && Js.endsWith p "Cnc") property then
         targetComp ← targetComp;
         if Js.endsWith targetComp " actual/Normal" &&
            Js.strictEqU (Some (Js.dropLast 14 targetComp)) candidateComp
         then Some (true, relaxations ++ ["matchPart: dropping actual/Normal for ACnc"])
         else Some (matched, relaxations)
       else Some (matched, relaxations)
     else Some (matched, relaxations));
  let '(matched, relaxations) := step2 in
  let targetText := default "undefined" targetComp in
  let '(matched, relaxations) :=
    if negb matched && negb (Js.test (Js.containsCI "fragments") (RAW_LAB_NAME row)) &&
       Js.test (Js.containsCI "fragments") targetText &&
       Js.strictEqU
         (Some (Js.trim (Js.replaceFirstMatch
            [Js.mkAlt false " fragments" false true; Js.mkAlt false "fragments" false true]
            "" targetText)))
         candidateComp
    then (true, relaxations ++ ["matchPart: dropping fragments"])
    else (matched, relaxations) in
  let '(matched, relaxations) :=
    if negb matched && negb (Js.test (Js.containsCI "nucleated") (RAW_LAB_NAME row)) &&
       Js.test (Js.containsCI ".nucleated") targetText &&
       Js.strictEqU
         (Some (Js.trim (Js.replaceFirstMatch (Js.containsCI ".nucleated") "" targetText)))
         candidateComp
    then (true, relaxations ++ ["matchPart: dropping .nucleated"])
    else (matched, relaxations) in
  Some (matched, relaxations).

(** The exact rule of [matchPart]: the part is skipped, or both sides are
    empty, or the candidate has one of the target names. *)
Definition exactMatch (partType : PartType) (srcParts : TargetTermParts)
    (candidateLoincParts : PartsInfo) : bool :=
  let candidates := getPart (parts candidateLoincParts) partType in
  match getPart srcParts partType with
  | None => true
  | Some src =>
      (bool_decide (length src = 0) && bool_decide (length candidates = 0)) ||
      existsb (λ e, Js.includes candidates e) src
  end.

(** [matchPart(context, partType, srcParts, candidateLoincParts,
    currRelaxLevel, relaxations)]: whether the part matches and the
    relaxations pushed; [None] when it throws. *)
Definition matchPart (row : Row) (partType : PartType) (srcParts : TargetTermParts)
    (candidateLoincParts : PartsInfo) (currRelaxLevel : nat)
    : option (bool * list string) :=
  let candidates := getPart (parts candidateLoincParts) partType in
  if exactMatch partType srcParts candidateLoincParts then Some (true, [])
  else
    match partType with
    | METHOD =>
        if bool_decide (0 < currRelaxLevel) && bool_decide (length candidates = 0)
        then Some (true, ["METHOD-empty-ok"])
        else if bool_decide (1 < currRelaxLevel)
        then Some (true, ["METHOD-match-waived"])
        else Some (false, [])
    | CLASS =>
        if bool_decide (2 < currRelaxLevel)
        then Some (true, ["CLASS-match-waived"])
        else Some (false, [])
    | COMPONENT => relaxedComponentMatch row srcParts candidateLoincParts
    | SYSTEM =>
        let matched :=
          existsb (λ sys, partsCompatible SYSTEM (Some sys) (Js.first candidates) (Some row))
                  (default [] (getPart srcParts SYSTEM)) in
        if negb matched && shouldTryDefaultSpecimen row &&
           partsCompatible SYSTEM (getDefaultSpecimen row) (Js.first candidates) (Some row)
        then None   (* the tag is pushed, then [defaultSys], not defined, is read *)
        else if negb matched && Js.strictEqU (Js.first candidates) (Some "XXX")
        then Some (true, ["specimen-xxx-match-waived"])
        else Some (matched, [])
    | _ => Some (false, [])
    end.

(** The mismatches counted by [isAltLoinc]. *)
Record Mismatches : Type := mkMismatches {
  mm_count : nat;
  mm_parts : list PartType     (* the part types [mismatches[pt] = true] *)
}.

(** The [for] loop of [isAltLoinc] over the part types left: the mismatches
    and the relaxations at its end.  It stops once a third part fails. *)
Fixpoint matchLoop (row : Row) (targetTermParts : TargetTermParts)
    (candidateLoincParts : PartsInfo) (currRelaxLevel : nat)
    (partTypes : list PartType) (mismatches : Mismatches) (relaxations : list string)
    : option (Mismatches * list string) :=
  match partTypes with
  | [] => Some (mismatches, relaxations)
  | partType :: rest =>
      '(ok, pushed) ←
        matchPart row partType targetTermParts candidateLoincParts currRelaxLevel;
      if ok : bool then
        matchLoop row targetTermParts candidateLoincParts currRelaxLevel rest
          mismatches (relaxations ++ pushed)
      else
        let mismatches' :=
          mkMismatches (mm_count mismatches + 1) (mm_parts mismatches ++ [partType]) in
        if bool_decide (2 < mm_count mismatches')
        then Some (mismatches', relaxations ++ pushed)
        else matchLoop row targetTermParts candidateLoincParts currRelaxLevel rest
               mismatches' (relaxations ++ pushed)
  end.

Definition maxRelaxLevel : nat := 3.

(** The test that sends [isAltLoinc] to the next level. *)
Definition shouldRelax (mismatches : Mismatches) : bool :=
  let has pt := bool_decide (pt ∈ mm_parts mismatches) in
  (bool_decide (mm_count mismatches = 1) && (has METHOD || has CLASS)) ||
  (bool_decide (mm_count mismatches = 2) && has METHOD && has CLASS).

(** [isAltLoinc(refLoincParts, partTypesAndAltNames, targetTermParts,
    candidateLoincParts, context, currRelaxLevel)].  The first two
    parameters are not read by the function and are left out; of the
    context only the row is read.  [None] when a part comparison throws. *)
Equations isAltLoinc (row : Row) (targetTermParts : TargetTermParts)
    (candidateLoincParts : PartsInfo) (currRelaxLevel : nat)
    : option MatchStatus by wf (maxRelaxLevel - currRelaxLevel) lt :=
  isAltLoinc row targetTermParts candidateLoincParts currRelaxLevel
    with matchLoop row targetTermParts candidateLoincParts currRelaxLevel
           PartTypeList (mkMismatches 0 []) [] => {
    | None => None
    | Some (mismatches, relaxations)
        with decide (mm_count mismatches = 0) => {
        | left _ =>
            Some (mkMatchStatus true
                    (match relaxations with [] => None | _ => Some relaxations end))
        | right _ with decide (currRelaxLevel < maxRelaxLevel) => {
            | left _ =>
                if shouldRelax mismatches
                then isAltLoinc row targetTermParts candidateLoincParts (currRelaxLevel + 1)
                else Some (mkMatchStatus false None)
            | right _ => Some (mkMatchStatus false None) } } }.
Next Obligation. unfold maxRelaxLevel in *. lia. Qed.

End Matcher.

(** ** altLoincSuggesterGen6.js: scoring and selection *)
Module Selector.
Import LoincUtils PcnRow LabNameParser PcornetValidationMgr.

(** [replacementParts]: an object from part type to a list of names, or to
    [null] when the part is not to be compared; in insertion order. *)
Abbreviation ReplacementParts := (list (PartType * option (list string))).

(** An element of [allMatches]: the deep copy of a catalogue entry, with
    the fields [replaceAndFind], [executeRulesForRecord] and
    [selectBestMatch] add to it.  [None] is a field not set. *)
Record LoincMatch : Type := mkLoincMatch {
  m_info : PartsInfo;
  m_relaxations : option (list string);
  m_altLoincParts : ReplacementParts;
  m_RULE_NUM : option Z;
  m_score : option float
}.

Definition set_score (v : float) (m : LoincMatch) : LoincMatch :=
  mkLoincMatch (m_info m) (m_relaxations m) (m_altLoincParts m) (m_RULE_NUM m) (Some v).

Definition set_RULE_NUM (v : Z) (m : LoincMatch) : LoincMatch :=
  mkLoincMatch (m_info m) (m_relaxations m) (m_altLoincParts m) (Some v) (m_score m).

(** [m[part][0]] *)
Definition matchPart0 (m : LoincMatch) (part : PartType) : option string :=
  Js.first (getPart (parts (m_info m)) part).

(** An array length as a number. *)
Definition lengthToNumber {A} (l : list A) : float :=
  PrimFloat.of_uint63 (Uint63.of_Z (Z.of_nat (length l))).

Section Scoring.
(** [Math.pow], which the language leaves to the implementation. *)
Variable Math_pow : float → float → float.
Variable row : Row.

(** The number of part types on which the match agrees with the row: with
    one of the inferred names when there are any, else with the row's own
    part. *)
Definition countMatchingParts (m : LoincMatch) : nat :=
  foldl (λ acc part,
           match inferredNames row part with
           | Some (n :: ns) =>
               if existsb (λ name, Js.strictEqU (Some name) (matchPart0 m part)) (n :: ns)
               then acc + 1 else acc
           | _ =>
               if (negb (Js.truthy (rowPart row part)) && negb (Js.truthyU (matchPart0 m part))) ||
                  Js.strictEqU (Some (rowPart row part)) (matchPart0 m part)
               then acc + 1 else acc
           end)
        0 PartTypeList.

(** The body of [candidates.forEach] in [selectBestMatch]: the score. *)
Definition computeScore (m : LoincMatch) : float :=
  let score := 50%float in
  let score :=
    match m_relaxations m with
    | Some relaxations =>
        (score - 25 * Math_pow (lengthToNumber relaxations) 0.25)%float
    | None => score
    end in
  let score :=
    if Js.strictEq (STATUS (m_info m)) "DEPRECATED" then (score - 20)%float else score in
  let score :=
    if Js.strictEq (STATUS (m_info m)) "DISCOURAGED" then (score - 10)%float else score in
  let score :=
    if Js.strictEq (rowPart row SYSTEM) "XXX" &&
       negb (bool_decide (is_Some (inferredNames row SYSTEM)))
    then
      if partsCompatible SYSTEM (matchPart0 m SYSTEM) (Some (SPECIMEN_SOURCE row)) (Some row) ||
         partsCompatible SYSTEM (matchPart0 m SYSTEM) (getDefaultSpecimen row) (Some row)
      then (score + 35)%float else score
    else score in
  let count := countMatchingParts m in
  let score :=
    if Js.truthy (RAW_UNIT row) && Js.strictEq (RAW_UNIT row) (EXAMPLE_UCUM_UNITS (m_info m))
    then (score + 10)%float else score in
  let score :=
    if bool_decide (count = length PartTypeList) then (score + 50)%float else score in
  score.

(** [x.score < y.score] on scores that may not be set. *)
Definition scoreLt (x y : LoincMatch) : bool :=
  match m_score x, m_score y with
  | Some vx, Some vy => PrimFloat.ltb vx vy
  | _, _ => false
  end.

(** [candidates.sort(getSort([m => m.score, true]))].  The comparison
    function returns a positive number exactly when the first score is
    lower, so an element moves behind those of higher score and stays
    before those of equal score that came after it. *)
Fixpoint insertByScore (x : LoincMatch) (l : list LoincMatch) : list LoincMatch :=
  match l with
  | [] => [x]
  | y :: l' => if scoreLt x y then y :: insertByScore x l' else x :: l
  end.

Definition sortByScore (l : list LoincMatch) : list LoincMatch :=
  foldr insertByScore [] l.

(** The loop that removes, from index 1 on, the candidates whose number has
    been seen. *)
Fixpoint dropSeen (loincSeen : gset string) (candidates : list LoincMatch)
    : list LoincMatch :=
  match candidates with
  | [] => []
  | c :: rest =>
      if decide (LOINC_NUM (m_info c) ∈ loincSeen) then dropSeen loincSeen rest
      else c :: dropSeen ({[LOINC_NUM (m_info c)]} ∪ loincSeen) rest
  end.

(** [selectBestMatch(allMatches, row, rules)]: the pair it returns, [None]
    for [null]. *)
Definition selectBestMatch (allMatches : list LoincMatch)
    : option LoincMatch * option (list LoincMatch) :=
  match allMatches with
  | [] => (None, None)
  | [m] => (Some m, Some [])
  | _ =>
      let candidates := map (λ m, set_score (computeScore m) m) allMatches in
      match sortByScore candidates with
      | [] => (None, Some [])     (* not reached: the list is not empty *)
      | c0 :: rest =>
          (Some c0, Some (dropSeen {[LOINC_NUM (m_info c0)]} rest))
      end
  end.

End Scoring.

(** A model of [Math.pow(x, 0.25)] by two correctly rounded square roots,
    for running the selector on examples. *)
Definition powQuarter (x y : float) : float := PrimFloat.sqrt (PrimFloat.sqrt x).

End Selector.

(** ** altLoincSuggesterGen6.js: the passes over the data rows

    [validateAndSuggest] runs three passes over the rows: the preparation
    and validation of each row, the search for a better term, and the
    formatting of the computed columns.  Each pass works on one row at a
    time; the only state shared between rows is the catalogue
    [loincToParts], whose part arrays [replaceAndFind] extends in place.
    The catalogue is therefore passed to, and returned by, the functions of
    the second pass, while the part index, built once when the table is
    loaded, is read from the environment. *)
Module Suggester.
Import LoincUtils LoincPartSynonyms PcnRow LabNameParser Eff Globals.
Import PcornetValidationMgr Matcher Selector.

Abbreviation Catalog := (gmap string PartsInfo).

(** A rule of the guiding table: its executor type and its number. *)
Record Rule : Type := mkRule {
  ruleType : string;     (* [rule._ruleType] *)
  RULE_NUM : Z
}.

(** The only rule [validateAndSuggest] runs. *)
Definition generalRule : Rule := mkRule "GeneralReplace" 99999.

(** What [replaceAndFind] returns; [None] is a field not set. *)
Record ReplaceResult : Type := mkReplaceResult {
  r_altLoincParts : ReplacementParts;
  r_error : option string;
  r_altLoincs : option (list LoincMatch);
  r_targetTerm : option TargetTermInfo
}.

(** [delimitedToList(value, ';')] of [common.js] *)
Definition delimitedToList (value : string) : list string :=
  List.filter Js.truthy (map Js.trim (Js.splitOn ";" value)).

(** [getInitialRowStatus(row)] *)
Definition getInitialRowStatus (loincToParts : Catalog) (row : Row) : string :=
  if negb (Js.truthy (LAB_LOINC row)) ||
     match Js.getProp loincToParts (LAB_LOINC row) with
     | Js.Undefined => true
     | _ => false       (* an entry, or a member of [Object.prototype] *)
     end
  then "WACKO_INVALID_LOINC"
  else if negb (Js.truthy (RAW_LAB_NAME row)) || Js.noLetters (RAW_LAB_NAME row)
  then "WACKO_NUMERIC_RAW_NAME"
  else if Js.strictEq (INC_CATEGORY row) "non qn" then "NON_QN"
  else "CORRECT_aj".

(** [isExcludeStatus(row)] *)
Definition isExcludeStatus (row : Row) : bool :=
  Js.includes ["WACKO_INVALID_LOINC"; "WACKO_NUMERIC_RAW_NAME"; "NON_QN"]
    (ALGO_JUDGEMENT row).

(** The body of [pcnRows.forEach] in [addLoincPartsFillMissingColumns]. *)
Definition addLoincPartsFillMissingColumns (loincToParts : Catalog) (index : nat)
    : M unit :=
  row ← get;
  (if ROW_NUM row is None
   then modify (set_ROW_NUM (Some (Z.of_nat index + 2)%Z)) else mret tt) ;;
  match Js.getProp loincToParts (LAB_LOINC row) with
  | Js.Own loinc =>
      modify (set_loincColumns (LONG_COMMON_NAME loinc) (EXAMPLE_UCUM_UNITS loinc)
                (tabulate (partValue loinc)))
  | Js.Inherited _ =>
      (* [copyFields] finds neither column in the member and writes the
         empty string; then [loinc[part]] is [undefined] and has no [0] *)
      modify (λ r, set_loincColumns "" "" (rowParts r) r) ;;
      throw
  | Js.Undefined => mret tt
  end.

(** [pcnSpcmMapping] *)
Definition pcnSpcmMapping (spcm : string) : option string :=
  if Js.strictEq spcm "SER_PLAS" then Some "Ser/Plas"
  else if Js.strictEq spcm "BODY_FLD" then Some "Body fld"
  else if Js.strictEq spcm "PLR_FLD" then Some "Plr fld"
  else if Js.strictEq spcm "RESPIRATOR" then Some "Respiratory"
  else if Js.strictEq spcm "UN" then Some ""
  else None.

(** The assignment of the computed columns in [preProcessAndValidate]: each
    is set to the empty string. *)
Definition clearComputedFields (r : Row) : Row :=
  mkRow (ROW_NUM r) (LAB_LOINC r) (RAW_LAB_NAME r) (RAW_UNIT r) (SPECIMEN_SOURCE r)
    (INC_CATEGORY r) (ROW_LONG_COMMON_NAME r) (EX_UCUM r) (rowParts r)
    "" "" "" None "" "" "" IssuesUnset "" "" TargetUnset.

(** [row.ALGO_MAPPING_ISSUES] as a condition: an array, even empty, and a
    non-empty string are truthy. *)
Definition issuesTruthy (f : IssuesField) : bool :=
  match f with
  | IssuesUnset => false
  | IssuesList _ => true
  | IssuesText text => Js.truthy text
  end.

(** [(row.TARGET_TERM = row.TARGET_TERM || []).push(targetTerm)]: a
    non-empty string has no [push]. *)
Definition pushTargetTerm (targetTerm : TargetTermInfo) : M unit :=
  row ← get;
  match TARGET_TERM row with
  | TargetList terms => modify (set_TARGET_TERM (TargetList (terms ++ [targetTerm])))
  | TargetText (String _ _) => throw
  | _ => modify (set_TARGET_TERM (TargetList [targetTerm]))
  end.

(** [getAltPartsFromInferred(row)]: the inferred names of each part type,
    copied, unless they are the row's own part alone. *)
Definition getAltPartsFromInferred (row : Row) : ReplacementParts :=
  foldl (λ acc '(partType, entry),
           let partNames := names entry in
           if negb (bool_decide (length partNames = 1)) ||
              negb (Js.strictEqU (Js.first partNames) (Some (rowPart row partType)))
           then assocSet partType (Some partNames) acc
           else acc)
        [] (default [] (inferred row)).

(** [replacementParts[partType]] with [hasOwnProperty]: [None] when the
    object has no such key, [Some None] when the key holds [null]. *)
Definition ownPart (replacementParts : ReplacementParts) (partType : PartType)
    : option (option (list string)) :=
  snd <$> find (λ e, bool_decide (fst e = partType)) replacementParts.

(** The entry of the filter built by [replaceAndFind] for one part type of
    the target term. *)
Definition filterPart (part : PartType) (targetNames : list string) : list string :=
  let names := match targetNames with [] => [""] | _ => targetNames end in
  if bool_decide (part = SYSTEM) then
    let names := names ++ ["XXX"] in
    if existsb (λ name, Js.includes ["Urine"; "CSF"] name) names then
      names ++ (if Js.includes names "Urine"
                then ["Urine+Ser"; "Urine+Ser/Plas"]
                else ["Ser+CSF"; "Ser/Plas+CSF"])
    else names
  else names.

(** [Object.values(targetTermParts).map(...).join('; ')] *)
Definition targetTermText (targetTermParts : TargetTermParts) : string :=
  Js.join "; "
    (map (λ partType,
            match getPart targetTermParts partType with
            | Some names =>
                let text := Js.join "," names in
                if Js.truthy text then text else "-"
            | None => "*"
            end)
         PartTypeList).

Section Passes.
Variable env : Env.
(** [Math.pow] *)
Variable Math_pow : float → float → float.
(** The order in which [Set.prototype.forEach] visits the elements of the
    set the part index returns. *)
Variable setOrder : gset string → list string.

(** [normalizeSPECIMEN_SOURCE(row)] *)
Definition normalizeSPECIMEN_SOURCE : M unit :=
  row ← get;
  let spcList :=
    foldl (λ spcList spcm,
             let mapped := default "" (pcnSpcmMapping spcm) in
             let stdPartName :=
               if Js.truthy mapped then mapped else getStdPartName env spcm SYSTEM in
             if negb (Js.truthy stdPartName) then spcList
             else if negb (Js.includes spcList stdPartName) then spcList ++ [stdPartName]
             else spcList)
          [] (delimitedToList (SPECIMEN_SOURCE row)) in
  modify (set_SPECIMEN_SOURCE (match spcList with [spc] => spc | _ => "" end)).

(** [convertToUcum(row)] *)
Definition convertToUcum : M unit :=
  modify (set_ucum_converted "") ;;
  row ← get;
  let rawUnit := getXformedRawUnit row in
  if Js.truthy rawUnit then
    let loinc := LAB_LOINC row in
    let exact := mapToUcum env rawUnit loinc false in
    modify (set_ucum_converted
              (if Js.truthyU exact then Js.orEmpty exact
               else Js.orEmpty (mapToUcum env rawUnit loinc true)))
  else mret tt.

(** [getAllPossibleUnits(row)] *)
Definition getAllPossibleUnits (row : Row) : list string :=
  let uniqUnits := if Js.strictEq (RAW_UNIT row) "nm" then ["nmol/mL"; "nmol"] else [] in
  let uniqUnits :=
    if Js.truthy (ucum_converted row) then uniqUnits ++ [ucum_converted row]
    else uniqUnits in
  let unit := getXformedRawUnit row in
  let uniqUnits :=
    if Js.truthy unit then
      foldl (λ uniqUnits mapper,
               foldl (λ uniqUnits isCI,
                        let ucum := mapWith env mapper unit isCI (LAB_LOINC row) in
                        if Js.truthyU ucum then uniqUnits ++ [Js.orEmpty ucum]
                        else uniqUnits)
                     uniqUnits [false; true])
            (uniqUnits ++ [unit]) (getMapperNames env)
    else uniqUnits in
  Js.objectKeys uniqUnits.

(** The body of [pcnRows.forEach] in [preProcessAndValidate].  The name is
    a string already; the catalogue is the one loaded. *)
Definition preProcessRow (loincToParts : Catalog) (rowNum : nat) : M unit :=
  emit (EvJudgement "") ;;
  modify clearComputedFields ;;
  normalizeSPECIMEN_SOURCE ;;
  convertToUcum ;;
  row ← get;
  setJudgement (getInitialRowStatus loincToParts row) ;;
  row ← get;
  if negb (isExcludeStatus row) then
    let units := getAllPossibleUnits row in
    inferAndValidate env units rowNum
  else mret tt.

(** [replaceAndFind(loinc, replacementParts, context)]: the result and the
    catalogue after the call.  [addPartSynonyms] extends in place the
    arrays of the target term, which are those of [replacementParts] where
    it has the part type and those of the catalogue entry of [loinc]
    elsewhere. *)
Definition replaceAndFind (loincToParts : Catalog) (loinc : string)
    (replacementParts : ReplacementParts) (rule : Rule)
    : M (ReplaceResult * Catalog) :=
  emit EvReplaceAndFind ;;
  row ← get;
  let replacementParts :=
    if negb (bool_decide (is_Some (ownPart replacementParts SYSTEM))) &&
       Js.strictEq (rowPart row SYSTEM) "XXX"
    then (SYSTEM, None) :: replacementParts
    else replacementParts in
  match loincToParts !! loinc with
  | None =>
      mret (mkReplaceResult replacementParts (Some ("Unknown LOINC: " +:+ loinc))
              None None,
            loincToParts)
  | Some refPartsInfo =>
      let targetTermParts : TargetTermParts :=
        tabulate (λ partType,
          match ownPart replacementParts partType with
          | Some None => None
          | Some (Some partNames) => Some (addPartSynonyms partType partNames)
          | None => Some (addPartSynonyms partType (getPart (parts refPartsInfo) partType))
          end) in
      (* the arrays extended in place *)
      let replacementParts :=
        map (λ '(partType, partNames),
               (partType, addPartSynonyms partType <$> partNames))
            replacementParts in
      let refPartsInfo :=
        mkPartsInfo (LOINC_NUM refPartsInfo) (LONG_COMMON_NAME refPartsInfo)
          (STATUS refPartsInfo) (EXAMPLE_UCUM_UNITS refPartsInfo)
          (tabulate (λ partType,
             match ownPart replacementParts partType with
             | None => addPartSynonyms partType (getPart (parts refPartsInfo) partType)
             | Some _ => getPart (parts refPartsInfo) partType
             end)) in
      let loincToParts := <[loinc := refPartsInfo]> loincToParts in
      let filterParts :=
        omap (λ part, (λ partNames, (part, filterPart part partNames)) <$>
                        getPart targetTermParts part)
             [PROPERTY; TIME; SYSTEM; SCALE] in
      (* [getLoincForParts] throws, or returns a value with no [forEach] *)
      loincsToCheck ←
        match getLoincForParts (sortBySize env) (loincTableUtil env) filterParts with
        | Some (Common.IsSet loincs) => mret loincs
        | _ => throw
        end;
      altLoincs ←
        foldl (λ (acc : M (list LoincMatch)) candidate,
                 altLoincs ← acc;
                 if Js.strictEq candidate (LOINC_NUM refPartsInfo) then mret altLoincs
                 else
                   match loincToParts !! candidate with
                   | None => throw
                   | Some candidateLoincPartsInfo =>
                       match isAltLoinc row targetTermParts candidateLoincPartsInfo 0 with
                       | None => throw
                       | Some status =>
                           if matched status
                           then mret (altLoincs ++
                                      [mkLoincMatch candidateLoincPartsInfo
                                         (status_relaxations status) replacementParts
                                         None None])
                           else mret altLoincs
                       end
                   end)
              (mret []) (setOrder loincsToCheck);
      mret (mkReplaceResult replacementParts None (Some altLoincs)
              (Some (mkTargetTermInfo (RULE_NUM rule) (targetTermText targetTermParts))),
            loincToParts)
  end.

(** [executeGeneralRule(rule, recLnParts, unit, unitProperties, row,
    rowNum)]; the result [None] is [null]. *)
Definition executeGeneralRule (loincToParts : Catalog) (rule : Rule)
    (recLnParts : option PartsInfo) : M (option ReplaceResult * Catalog) :=
  row ← get;
  let altParts := getAltPartsFromInferred row in
  if bool_decide (length altParts = 0) && negb (shouldTryDefaultSpecimen row)
  then mret (None, loincToParts)
  else
    match recLnParts with
    | None => throw
    | Some recLnParts =>
        '(result, loincToParts) ←
          replaceAndFind loincToParts (LOINC_NUM recLnParts) altParts rule;
        mret (Some result, loincToParts)
    end.

(** [executeRulesForRecord(recLnParts, unit, unitProperties, rules, row,
    rowNum)] *)
Definition executeRulesForRecord (loincToParts : Catalog)
    (recLnParts : option PartsInfo) (unit : string) (unitProperties : list string)
    (rules : list Rule) : M (list LoincMatch * Catalog) :=
  foldl (λ (acc : M (list LoincMatch * Catalog)) rule,
           '(altLoincs, loincToParts) ← acc;
           row ← get;
           '(result, loincToParts) ←
             (if shouldTryDefaultSpecimen row || issuesTruthy (ALGO_MAPPING_ISSUES row)
              then
                if Js.strictEq (ruleType rule) "GeneralReplace"
                then executeGeneralRule loincToParts rule recLnParts
                else mret (None, loincToParts)
              else mret (None, loincToParts));
           match result with
           | None => mret (altLoincs, loincToParts)
           | Some result =>
               match r_targetTerm result with
               | Some targetTerm => pushTargetTerm targetTerm
               | None => mret tt
               end ;;
               mret (altLoincs ++
                       map (set_RULE_NUM (RULE_NUM rule)) (default [] (r_altLoincs result)),
                     loincToParts)
           end)
        (mret ([], loincToParts)) rules.

(** The body of [pcnRows.forEach] in [executeRules]: the catalogue after
    the row. *)
Definition executeRulesRow (loincToParts : Catalog) (rules : list Rule) (rowNum : nat)
    : M Catalog :=
  row ← get;
  if isExcludeStatus row then mret loincToParts
  else
    let recLoincParts := loincToParts !! LAB_LOINC row in
    let units := getAllPossibleUnits row in
    let units := match units with [] => ["NA-NA"] | _ => units end in
    '(allMatches, loincToParts) ←
      foldl (λ (acc : M (list LoincMatch * Catalog)) unit,
               '(allMatches, loincToParts) ← acc;
               let propOfUnit := getUnitProperties env unit in
               '(altLoincs4Unit, loincToParts) ←
                 executeRulesForRecord loincToParts recLoincParts unit propOfUnit rules;
               mret (allMatches ++ altLoincs4Unit, loincToParts))
            (mret ([], loincToParts)) units;
    match allMatches with
    | [] => mret loincToParts
    | _ =>
        row ← get;
        match selectBestMatch Math_pow row allMatches with
        | (Some bestMatch, Some rest) =>
            let relaxations := Js.distinct (default [] (m_relaxations bestMatch)) in
            modify (set_SGG (LOINC_NUM (m_info bestMatch))
                      (LONG_COMMON_NAME (m_info bestMatch)) "") ;;
            modify (set_RULE_RELAXED_BY (Js.join "; " relaxations)) ;;
            setJudgement "FIXED" ;;
            row ← get;
            modify (set_SGG (SGG_LOINC row) (SGG_LONG_COMMON_NAME row)
                      (Js.join "; "
                         (map (λ m, LOINC_NUM (m_info m) +:+ ":{" +:+
                                    LONG_COMMON_NAME (m_info m) +:+ "}") rest))) ;;
            mret loincToParts
        | _ => throw
        end
    end.

(** [reformatValuesToString(row)]: a non-empty string in either field has
    neither [join] nor [reduce]. *)
Definition reformatValuesToString : M unit :=
  row ← get;
  match ALGO_MAPPING_ISSUES row with
  | IssuesText (String _ _) => throw
  | field =>
      let issues := match field with IssuesList l => l | _ => [] end in
      modify (set_ALGO_MAPPING_ISSUES (IssuesText (Js.join "; " issues)))
  end ;;
  match TARGET_TERM row with
  | TargetText (String _ _) => throw
  | field =>
      let terms := match field with TargetList l => l | _ => [] end in
      modify (set_TARGET_TERM
                (TargetText (Js.join "; " (Js.objectKeys (map tt_term terms)))))
  end.

(** What [validateAndSuggest] does to one row, pass after pass; between
    the passes the other rows of the batch are worked on, which changes the
    catalogue only.  [loaded] is the catalogue the first pass reads and
    [loincToParts] the one the second pass finds. *)
Definition processRow (loaded loincToParts : Catalog) (rowNum : nat) : M Catalog :=
  addLoincPartsFillMissingColumns loaded rowNum ;;
  preProcessRow loaded rowNum ;;
  loincToParts ← executeRulesRow loincToParts [generalRule] rowNum;
  reformatValuesToString ;;
  mret loincToParts.

(** One pass over the rows of the batch, in order: the body is run on each
    row with the state the rows before it left.  [None] when the body
    throws on a row. *)
Fixpoint forEachRow {St} (body : St → nat → M St) (state : St) (index : nat)
    (pcnRows : list Row) : option (St * list Row) :=
  match pcnRows with
  | [] => Some (state, [])
  | row :: rest =>
      match body state index row with
      | (Some state, row, _) =>
          '(state, rest) ← forEachRow body state (S index) rest;
          Some (state, row :: rest)
      | (None, _, _) => None
      end
  end.

(** [validateAndSuggest(pcnRows)]: the rows and the catalogue after it. *)
Definition validateAndSuggest (loincToParts : Catalog) (pcnRows : list Row)
    : option (list Row * Catalog) :=
  '(_, pcnRows) ←
    forEachRow (λ _ index, addLoincPartsFillMissingColumns loincToParts index)
      tt 0 pcnRows;
  '(_, pcnRows) ←
    forEachRow (λ _ rowNum, preProcessRow loincToParts rowNum) tt 0 pcnRows;
  '(loincToParts, pcnRows) ←
    forEachRow (λ loincToParts rowNum, executeRulesRow loincToParts [generalRule] rowNum)
      loincToParts 0 pcnRows;
  '(_, pcnRows) ← forEachRow (λ _ _, reformatValuesToString) tt 0 pcnRows;
  Some (pcnRows, loincToParts).

End Passes.

End Suggester.
(** * Properties *)

(** ** Facts about [Js] *)
Module JsFacts.
Import Js.

Lemma truthy_true s : truthy s = true ↔ s ≠ "".
Proof. destruct s; simpl; split; congruence. Qed.

Lemma truthy_false s : truthy s = false ↔ s = "".
Proof. destruct s; simpl; split; congruence. Qed.

Lemma strictEq_true a b : strictEq a b = true ↔ a = b.
Proof. unfold strictEq. by rewrite bool_decide_eq_true. Qed.

Lemma strictEq_sym a b : strictEq a b = strictEq b a.
Proof. unfold strictEq. apply bool_decide_ext. split; congruence. Qed.

Lemma strictEqU_sym a b : strictEqU a b = strictEqU b a.
Proof. unfold strictEqU. apply bool_decide_ext. split; congruence. Qed.

Lemma strictEqU_refl a : strictEqU a a = true.
Proof. unfold strictEqU. by apply bool_decide_eq_true. Qed.

Lemma includes_true a x : includes a x = true ↔ x ∈ a.
Proof.
  unfold includes. rewrite existsb_exists. split.
  - intros (y & Hy & Heq). apply strictEq_true in Heq. subst.
    by apply list_elem_of_In.
  - intros Hx. exists x. split; [by apply list_elem_of_In|].
    by apply strictEq_true.
Qed.

Example test_word_boundary :
  test (wordsCI ["free"]) "T4 FREE, serum" = true ∧
  test (wordsCI ["free"]) "freedom" = false ∧
  test [mkAlt true "fr" false true; mkAlt false "free" true true] "movefree" = true ∧
  test (wordsCS ["IU"]) "iu/L" = false ∧ test (wordsCS ["IU"]) "IU/L" = true.
Proof. vm_compute. auto 10. Qed.

Example string_helpers :
  indexOf "mg/dL" "/" = 2%Z ∧ indexOf "mg" "/" = (-1)%Z ∧
  endsWith "Oxalate crystals" " crystals" = true ∧
  dropLast 9 "Oxalate crystals" = "Oxalate" ∧
  trim "  a b " = "a b" ∧
  replaceFirst "IgG Ab IgG" "IgG" "IgM" = "IgM Ab IgG".
Proof. vm_compute. auto 10. Qed.

End JsFacts.

(** ** Facts about [Common] *)
Module CommonFacts.
Import Common.

Lemma elem_of_foldl_union (x : string) (rest : list (gset string)) (s : gset string) :
  x ∈ foldl (∪) s rest ↔ x ∈ s ∨ ∃ s', s' ∈ rest ∧ x ∈ s'.
Proof.
  revert s. induction rest as [|r rest IH]; intros s; simpl.
  - split; [by left|]. intros [?|(s' & Hs' & _)]; [done|]. by apply elem_of_nil in Hs'.
  - rewrite IH, elem_of_union. split.
    + intros [[?|?]|(s' & Hs' & ?)]; [by left| |].
      * right. exists r. split; [left|done].
      * right. exists s'. split; [by right|done].
    + intros [?|(s' & Hs' & ?)]; [by left; left|].
      apply elem_of_cons in Hs' as [->|Hs']; [by left; right|].
      right. by exists s'.
Qed.

Lemma elem_of_setOR (x : string) (sets : list (gset string)) :
  x ∈ setOR sets ↔ ∃ s, s ∈ sets ∧ x ∈ s.
Proof.
  destruct sets as [|s [|s2 rest]]; simpl.
  - split; [set_solver|]. intros (s & Hs & _). by apply elem_of_nil in Hs.
  - split.
    + intros ?. exists s. split; [left|done].
    + intros (s' & Hs' & ?). apply list_elem_of_singleton in Hs'. by subst.
  - change (foldl union (s ∪ s2) rest) with (foldl union s (s2 :: rest)).
    rewrite elem_of_foldl_union. split.
    + intros [?|(s' & Hs' & ?)].
      * exists s. split; [left|done].
      * exists s'. split; [by right|done].
    + intros (s' & Hs' & ?). apply elem_of_cons in Hs' as [->|Hs']; [by left|].
      right. by exists s'.
Qed.

Lemma elem_of_setAND (x : string) (sets : list (gset string)) :
  sets ≠ [] → x ∈ setAND sets ↔ ∀ s, s ∈ sets → x ∈ s.
Proof.
  destruct sets as [|s [|s2 rest]]; [done| |]; intros _.
  - simpl. split.
    + intros ? s' Hs'. apply list_elem_of_singleton in Hs'. by subst.
    + intros H. apply H. left.
  - unfold setAND. rewrite elem_of_filter, forallb_forall. split.
    + intros [Hall Hx] s' Hs'. apply elem_of_cons in Hs' as [->|Hs']; [done|].
      apply list_elem_of_In in Hs'. specialize (Hall _ Hs').
      by apply bool_decide_eq_true in Hall.
    + intros H. split.
      * intros s' Hs'. apply bool_decide_eq_true, H. right.
        by apply list_elem_of_In.
      * apply H. left.
Qed.

End CommonFacts.

(** ** Facts about [LoincUtils] *)
Module LoincUtilsFacts.
Import LoincUtils.

Lemma PartTypeList_complete (pt : PartType) : pt ∈ PartTypeList.
Proof. unfold PartTypeList. destruct pt; set_solver. Qed.

Lemma getPart_tabulate {A} (f : PartType → A) pt : getPart (tabulate f) pt = f pt.
Proof. by destruct pt. Qed.

Lemma getPart_setPart {A} (p : Parts A) pt pt' v :
  getPart (setPart p pt v) pt' = if decide (pt = pt') then v else getPart p pt'.
Proof. by destruct pt, pt'. Qed.

Lemma wfPartArray_key a : wfPartArray a → Js.arrayToString a = Js.orEmpty (Js.first a).
Proof.
  intros [->|(v & Hv & ->)]; [done|]. simpl.
  apply JsFacts.truthy_true in Hv. by rewrite Hv.
Qed.

Lemma addLoincRow_wf l2p row : wfCatalog l2p → wfCatalog (addLoincRow l2p row).
Proof.
  intros Hwf loinc rec pt. unfold addLoincRow.
  rewrite lookup_insert. case_decide as Heq.
  - intros [= <-]. simpl. rewrite getPart_tabulate.
    destruct (Js.truthy _) eqn:Ht; [right|by left].
    eexists. split; [|done]. by apply JsFacts.truthy_true.
  - apply Hwf.
Qed.

Lemma buildLoincToParts_wf loincs : wfCatalog (buildLoincToParts loincs).
Proof.
  unfold buildLoincToParts.
  assert (Hgen : ∀ acc, wfCatalog acc → wfCatalog (foldl addLoincRow acc loincs)).
  { induction loincs as [|row rest IH]; intros acc Hacc; simpl; [done|].
    apply IH. by apply addLoincRow_wf. }
  apply Hgen. intros loinc rec pt Hl. by rewrite lookup_empty in Hl.
Qed.

(** What the index of one part type holds: under a key, the numbers of the
    entries whose part array converts to that key. *)
Lemma elem_of_index_fold (pt : PartType) (l2p : gmap string PartsInfo)
    (key loinc : string) :
  loinc ∈ default ∅ (map_fold (indexAdd pt) ∅ l2p !! key) ↔
  ∃ rec, l2p !! loinc = Some rec ∧ Js.arrayToString (getPart (parts rec) pt) = key.
Proof.
  apply (map_fold_weak_ind (λ index m,
    loinc ∈ default ∅ (index !! key) ↔
    ∃ rec, m !! loinc = Some rec ∧ Js.arrayToString (getPart (parts rec) pt) = key)).
  - rewrite lookup_empty. simpl. split; [set_solver|].
    intros (rec & Hl & _). by rewrite lookup_empty in Hl.
  - clear l2p. intros i rec m index Hi IH. unfold indexAdd.
    destruct (decide (Js.arrayToString (getPart (parts rec) pt) = key)) as [Hk|Hk].
    + rewrite Hk, lookup_insert_eq. simpl. rewrite elem_of_union, IH, elem_of_singleton.
      split.
      * intros [(rec' & Hl & Hk')| ->].
        -- exists rec'. split; [|done]. rewrite lookup_insert_ne; [done|].
           intros ->. congruence.
        -- exists rec. by rewrite lookup_insert_eq.
      * intros (rec' & Hl & Hk'). destruct (decide (i = loinc)) as [->|Hne]; [by right|].
        left. exists rec'. by rewrite lookup_insert_ne in Hl.
    + rewrite lookup_insert_ne by done. rewrite IH. split.
      * intros (rec' & Hl & Hk'). exists rec'. split; [|done].
        rewrite lookup_insert_ne; [done|]. intros ->. congruence.
      * intros (rec' & Hl & Hk'). exists rec'. split; [|done].
        destruct (decide (i = loinc)) as [->|Hne].
        -- rewrite lookup_insert_eq in Hl. congruence.
        -- by rewrite lookup_insert_ne in Hl.
Qed.

(** A key is in the index exactly when some entry carries it. *)
Lemma index_fold_is_Some (pt : PartType) (l2p : gmap string PartsInfo) (key : string) :
  is_Some (map_fold (indexAdd pt) ∅ l2p !! key) ↔
  ∃ loinc rec, l2p !! loinc = Some rec ∧ Js.arrayToString (getPart (parts rec) pt) = key.
Proof.
  apply (map_fold_weak_ind (λ index m,
    is_Some (index !! key) ↔
    ∃ loinc rec, m !! loinc = Some rec ∧ Js.arrayToString (getPart (parts rec) pt) = key)).
  - rewrite lookup_empty. split; [by intros []|].
    intros (loinc & rec & Hl & _). by rewrite lookup_empty in Hl.
  - clear l2p. intros i rec m index Hi IH. unfold indexAdd.
    destruct (decide (Js.arrayToString (getPart (parts rec) pt) = key)) as [Hk|Hk].
    + rewrite Hk, lookup_insert_eq. split; [|by eauto].
      intros _. exists i, rec. by rewrite lookup_insert_eq.
    + rewrite lookup_insert_ne by done. rewrite IH. split.
      * intros (loinc & rec' & Hl & Hk'). exists loinc, rec'. split; [|done].
        rewrite lookup_insert_ne; [done|]. intros ->. congruence.
      * intros (loinc & rec' & Hl & Hk'). exists loinc, rec'. split; [|done].
        destruct (decide (i = loinc)) as [->|Hne].
        -- rewrite lookup_insert_eq in Hl. congruence.
        -- by rewrite lookup_insert_ne in Hl.
Qed.

(** *** The query of the part index *)

Lemma inherited_true key : Js.inherited key = true ↔ key ∈ Js.objectPrototypeMembers.
Proof. unfold Js.inherited. apply JsFacts.includes_true. Qed.

Lemma getProp_plain {A} (obj : gmap string A) key :
  Js.inherited key = false →
  Js.getProp obj key = match obj !! key with Some a => Js.Own a | None => Js.Undefined end.
Proof. intros Hkey. unfold Js.getProp. by rewrite Hkey. Qed.

Lemma getProp_own {A} (obj : gmap string A) key a :
  Js.getProp obj key = Js.Own a ↔ obj !! key = Some a.
Proof.
  unfold Js.getProp. destruct (obj !! key) as [a'|].
  - split; congruence.
  - destruct (Js.inherited key); split; congruence.
Qed.

Lemma getProp_member {A} (obj : gmap string A) key :
  obj !! key = None → Js.inherited key = true → Js.getProp obj key = Js.Inherited key.
Proof. intros Hnone Hkey. unfold Js.getProp. by rewrite Hnone, Hkey. Qed.

(** The part names of a query that are looked up as they are written: none
    is the name of a member of [Object.prototype]. *)
Definition plainNames (partNames : list string) : Prop :=
  Forall (λ partName, Js.inherited partName = false) partNames.

Definition plainQuery (partTypeNames : list (PartType * list string)) : Prop :=
  Forall (λ entry, plainNames entry.2) partTypeNames.

(** The numbers a query asks for: for each part type the union of the sets
    of its names, and the intersection of these unions. *)
Definition queried (partIndexes : PartIndexes)
    (partTypeNames : list (PartType * list string)) : gset string :=
  Common.setAND
    (map (λ '(partType, partNames),
            Common.setOR (map (λ partName,
                                 default ∅ (getPart partIndexes partType !! partName))
                              partNames))
         partTypeNames).

Lemma indexedOrEmpty_plain index partName :
  Js.inherited partName = false →
  indexedOrEmpty index partName = Common.IsSet (default ∅ (index !! partName)).
Proof.
  intros Hname. unfold indexedOrEmpty. rewrite getProp_plain by done.
  by destruct (index !! partName).
Qed.

Lemma mapM_asSet_IsSet (sets : list (gset string)) :
  mapM Common.asSet (map Common.IsSet sets) = Some sets.
Proof. induction sets as [|s sets IH]; [done|]. cbn. rewrite IH. done. Qed.

Lemma setORValues_sets (sets : list (gset string)) :
  Common.setORValues (map Common.IsSet sets) = Some (Common.IsSet (Common.setOR sets)).
Proof.
  destruct sets as [|s [|s2 rest]]; [done..|].
  unfold Common.setORValues. change (map Common.IsSet (s :: s2 :: rest))
    with (Common.IsSet s :: Common.IsSet s2 :: map Common.IsSet rest) at 1.
  cbv iota beta. by rewrite mapM_asSet_IsSet.
Qed.

Lemma setANDValues_sets sortBySize (sets : list (gset string)) :
  Common.setANDValues sortBySize (map Common.IsSet sets)
  = Some (Common.IsSet (Common.setAND sets)).
Proof.
  destruct sets as [|s [|s2 rest]]; [done..|].
  unfold Common.setANDValues. change (map Common.IsSet (s :: s2 :: rest))
    with (Common.IsSet s :: Common.IsSet s2 :: map Common.IsSet rest) at 1.
  cbv iota beta. by rewrite mapM_asSet_IsSet.
Qed.

Lemma map_indexedOrEmpty_plain index partNames :
  plainNames partNames →
  map (indexedOrEmpty index) partNames
  = map Common.IsSet (map (λ partName, default ∅ (index !! partName)) partNames).
Proof.
  induction 1 as [|partName rest Hname _ IH]; [done|]. cbn.
  by rewrite indexedOrEmpty_plain, IH.
Qed.

(** A query whose names are all looked up as written returns a [Set]: the
    numbers it asks for. *)
Lemma getLoincForPartsInternal_plain sortBySize partIndexes partTypeNames :
  plainQuery partTypeNames →
  getLoincForPartsInternal sortBySize partIndexes partTypeNames
  = Some (Common.IsSet (queried partIndexes partTypeNames)).
Proof.
  intros Hplain. unfold getLoincForPartsInternal, queried.
  assert (HtoAND :
    mapM (λ '(partType, partNames),
            Common.setORValues (map (indexedOrEmpty (getPart partIndexes partType)) partNames))
         partTypeNames
    = Some (map Common.IsSet
              (map (λ '(partType, partNames),
                      Common.setOR (map (λ partName,
                                           default ∅ (getPart partIndexes partType !! partName))
                                        partNames))
                   partTypeNames))).
  { induction Hplain as [|[partType partNames] rest Hnames _ IH]; [done|].
    cbn. simpl in Hnames. rewrite map_indexedOrEmpty_plain by done.
    rewrite setORValues_sets. cbn. rewrite IH. done. }
  rewrite HtoAND. cbn. apply setANDValues_sets.
Qed.

(** The numbers of the entries that have a value for a part type, an
    absent part counting as the empty string. *)
Lemma elem_of_indexed (loincs : list LoincRow) (t : PartType) (v loinc : string) :
  loinc ∈ default ∅ (getPart (loincPartIndexex (getLoincTableUtil loincs)) t !! v) ↔
  ∃ rec, loincToParts (getLoincTableUtil loincs) !! loinc = Some rec ∧
         partValue rec t = v.
Proof.
  unfold getLoincTableUtil. simpl.
  unfold buildLoincPartsIndex. rewrite getPart_tabulate, elem_of_index_fold.
  split; intros (rec & Hl & Hk); exists rec; (split; [done|]).
  - rewrite <- Hk. symmetry. apply wfPartArray_key.
    eapply (buildLoincToParts_wf loincs); eauto.
  - rewrite <- Hk. apply wfPartArray_key.
    eapply (buildLoincToParts_wf loincs); eauto.
Qed.

(** A value is a key of the index of a part type exactly when an entry has
    it. *)
Lemma indexed_is_Some (loincs : list LoincRow) (t : PartType) (v : string) :
  is_Some (getPart (loincPartIndexex (getLoincTableUtil loincs)) t !! v) ↔
  ∃ loinc rec, loincToParts (getLoincTableUtil loincs) !! loinc = Some rec ∧
               partValue rec t = v.
Proof.
  unfold getLoincTableUtil. simpl.
  unfold buildLoincPartsIndex. rewrite getPart_tabulate, index_fold_is_Some.
  split; intros (loinc & rec & Hl & Hk); exists loinc, rec; (split; [done|]).
  - rewrite <- Hk. symmetry. apply wfPartArray_key.
    eapply (buildLoincToParts_wf loincs); eauto.
  - rewrite <- Hk. apply wfPartArray_key.
    eapply (buildLoincToParts_wf loincs); eauto.
Qed.

(** C1.  The query [{t: [v]}] on the index of a loaded catalogue, for every
    part type [t] and part value [v].  When [v] is not the name of a member
    of [Object.prototype], the query returns the set of the numbers of the
    entries whose value for [t] is [v], an absent part counting as the
    empty string.  When [v] names such a member and no entry has the value,
    the query returns that member, which is not a set, though the function
    is documented to return a set of numbers. *)
Theorem getLoincForParts_single (sortBySize : list Common.SetArg → list Common.SetArg)
    (loincs : list LoincRow) (t : PartType) (v : string) :
  let carried loinc :=
    ∃ rec, loincToParts (getLoincTableUtil loincs) !! loinc = Some rec ∧
           partValue rec t = v in
  (Js.inherited v = false →
   ∃ found, getLoincForParts sortBySize (getLoincTableUtil loincs) [(t, [v])]
            = Some (Common.IsSet found) ∧
            ∀ loinc, loinc ∈ found ↔ carried loinc) ∧
  (Js.inherited v = true → (∀ loinc, ¬ carried loinc) →
   getLoincForParts sortBySize (getLoincTableUtil loincs) [(t, [v])]
   = Some (Common.NotSet v)).
Proof.
  intros carried. split.
  - intros Hv. eexists. split.
    + unfold getLoincForParts. apply getLoincForPartsInternal_plain.
      repeat constructor. exact Hv.
    + intros loinc. unfold queried. simpl. apply elem_of_indexed.
  - intros Hv Hnone. unfold getLoincForParts, getLoincForPartsInternal. cbn.
    unfold indexedOrEmpty. rewrite getProp_member; [done| |done].
    apply eq_None_not_Some. intros Hsome.
    apply indexed_is_Some in Hsome as (loinc & rec & Hl & Hk).
    apply (Hnone loinc). by exists rec.
Qed.

(** The query for the value ["constructor"] on a table of one row. *)
Example getLoincForParts_constructor sortBySize :
  let glucose := mkLoincRow "2345-7" "Glucose [Mass/volume] in Serum or Plasma" "ACTIVE"
                   "mg/dL" (mkParts "CHEM" "Glucose" "MCnc" "Pt" "Ser/Plas" "Qn" "") in
  getLoincForParts sortBySize (getLoincTableUtil [glucose]) [(COMPONENT, ["constructor"])]
  = Some (Common.NotSet "constructor") ∧
  getLoincForParts sortBySize (getLoincTableUtil [glucose]) [(COMPONENT, ["Glucose"])]
  = Some (Common.IsSet {["2345-7"]}).
Proof. intros glucose. split; by vm_compute. Qed.

End LoincUtilsFacts.

(** ** Facts about [PcornetValidationMgr] *)
Module PcornetValidationMgrFacts.
Import LoincUtils LoincPartSynonyms PcnRow LabNameParser Eff PcornetValidationMgr.

Lemma bothInList_sym plist p1 p2 : bothInList plist p1 p2 = bothInList plist p2 p1.
Proof. unfold bothInList. apply andb_comm. Qed.

(** C10. The part-compatibility test is reflexive and symmetric: for every
    part type, part values (empty and [undefined] included) and row,
    [partsCompatible(t, p, p, row)] is true and
    [partsCompatible(t, p1, p2, row)] equals
    [partsCompatible(t, p2, p1, row)]. *)
Theorem partsCompatible_refl_sym (t : PartType) (p1 p2 : option string)
    (row : option Row) :
  partsCompatible t p1 p1 row = true ∧
  partsCompatible t p1 p2 row = partsCompatible t p2 p1 row.
Proof.
  split.
  - unfold partsCompatible. by rewrite JsFacts.strictEqU_refl.
  - unfold partsCompatible.
    rewrite (JsFacts.strictEqU_sym p2 p1), (andb_comm (negb (Js.truthyU p2))),
      (orb_comm (negb (Js.truthyU p2))).
    rewrite !(bothInList_sym _ p2 p1).
    by rewrite (orb_comm (Js.includesU (synonymsOrEmpty t p2) p1)).
Qed.

Example partsCompatible_cases :
  partsCompatible SYSTEM (Some "Ser") (Some "Plas") None = true ∧
  partsCompatible SYSTEM (Some "Bld") (Some "Ser/Plas/Bld") None = true ∧
  partsCompatible SYSTEM (Some "Urine") (Some "Ser/Plas") None = false ∧
  partsCompatible SYSTEM None (Some "") None = true ∧
  partsCompatible SYSTEM (Some "XXX") (Some "Ser") None = false ∧
  partsCompatible SCALE (Some "Qn") (Some "OrdQn") None = true.
Proof. vm_compute. auto 10. Qed.

End PcornetValidationMgrFacts.

(** ** Facts about [LoincPartSynonyms] *)
Module LoincPartSynonymsFacts.
Import LoincUtils LoincPartSynonyms.

Example addPartSynonyms_SYSTEM :
  addPartSynonyms SYSTEM ["Ser"; "whatever"; "Ser/Plas"]
  = ["Ser"; "whatever"; "Ser/Plas"; "Plas"].
Proof. vm_compute. reflexivity. Qed.

Example addPartSynonyms_PROPERTY :
  addPartSynonyms PROPERTY ["ACnc"; "Ser"; "Ser/Plas"] = ["ACnc"; "Ser"; "Ser/Plas"].
Proof. reflexivity. Qed.

End LoincPartSynonymsFacts.

(** ** Facts about [LabNameParser] *)
Module LabNameParserFacts.
Import LoincUtils PcnRow LabNameParser.

(** The cases the module prints when run on its own, and two more.  A
    modifier found on both sides yields no component, so the dispatcher goes
    on to the IgX rule. *)
Example adjusted_component_cases :
  getAdjustedComponentByModifierPredefinedRules
    (bareRow "xx post-dialysis" "abc^post dialysis" "CHEM")
    = mkAdjustStatus "both" (Some "^post dialysis") None ∧
  getAdjustedComponentByModifier (bareRow "xx post-dialysis" "abc^post dialysis" "CHEM")
    = mkAdjustStatus "none" None None ∧
  adj_component
    (getAdjustedComponentByModifier (bareRow "xx postdialysis" "abc^post-dialysis" "CHEM"))
    = Some "abc^post-dialysis^post dialysis" ∧
  adj_component (getAdjustedComponentByModifier (bareRow "move free" "what free" "CHEM"))
    = Some "what free.free" ∧
  adj_status
    (getAdjustedComponentByModifierPredefinedRules (bareRow "movefree" "what.free" "CHEM"))
    = "both" ∧
  getAdjustedComponentByModifier (bareRow "HSV igm" "Herpes simplex virus Ab.IgG" "MICRO")
    = mkAdjustStatus "fixed" (Some "IgX") (Some "Herpes simplex virus Ab.IgM") ∧
  adj_component (getAdjustedComponentByModifier (bareRow "Calcium" "Calcium.free" "CHEM"))
    = Some "Calcium".
Proof. vm_compute. auto 10. Qed.

Lemma extractors_loaded :
  is_Some (loadExtractors SYSTEM rawSpecimenExtractors) ∧
  is_Some (loadExtractors TIME rawTimeExtractors).
Proof. split; vm_compute; eauto. Qed.

(** The cases the module prints when run on its own, the row of class
    [ALLERGY], and a few time cases. *)
Example extraction_cases :
  let specimen text :=
    map x_value (extractSpecimen (bareRow text "" "ALLERGY")) in
  specimen "blah plasma or serum" = ["Ser/Plas"; "Ser/Plas"] ∧
  specimen "some whole blood test" = ["Bld"] ∧
  specimen "partial blood" = [] ∧
  specimen "PH OF BODY FLUID" = ["Body fld"; "Body fld"] ∧
  specimen "xyz poc urine" = [] ∧
  specimen "oral fluid" = ["Saliva"; "Body fld"] ∧
  map x_value (extractSpecimen (bareRow "mouse urine" "" "CHEM")) = ["Urine"] ∧
  map x_value (extractTime "some-2/24H" "RAW_UNIT") = ["24H"] ∧
  map x_value (extractTime "mg/ 6 Hrs " "RAW_UNIT") = ["6H"] ∧
  map x_value (extractTime "some-4/24Hx" "RAW_UNIT") = [] ∧
  map x_value (extractTime "some-1/24" "RAW_UNIT") = [] ∧
  map x_value (extractTime "some random spot test" "RAW_LAB_NAME") = ["Pt"] ∧
  map x_value (extractTime "spot test" "RAW_LAB_NAME") = [].
Proof. vm_compute. repeat split. Qed.

End LabNameParserFacts.

(** ** Facts about [Matcher] *)
Module MatcherFacts.
Import LoincUtils LoincPartSynonyms PcnRow LabNameParser PcornetValidationMgr Matcher.

(** [isAltLoinc] unfolded once. *)
Lemma isAltLoinc_unfold row T C level :
  isAltLoinc row T C level =
  match matchLoop row T C level PartTypeList (mkMismatches 0 []) [] with
  | None => None
  | Some (mismatches, relaxations) =>
      if decide (mm_count mismatches = 0) then
        Some (mkMatchStatus true
                (match relaxations with [] => None | _ => Some relaxations end))
      else if decide (level < maxRelaxLevel) then
        if shouldRelax mismatches then isAltLoinc row T C (level + 1)
        else Some (mkMatchStatus false None)
      else Some (mkMatchStatus false None)
  end.
Proof.
  rewrite isAltLoinc_equation_1.
  destruct (matchLoop _ _ _ _ _ _ _) as [[mm relax]|]; [|reflexivity].
  cbn [isAltLoinc_unfold_clause_1].
  destruct (decide (mm_count mm = 0)); [reflexivity|].
  cbn [isAltLoinc_unfold_clause_1_clause_2].
  destruct (decide (level < maxRelaxLevel)); reflexivity.
Qed.

(** Only the component comparison can throw. *)
Lemma matchPart_total row pt T C level :
  pt ≠ COMPONENT → is_Some (matchPart row pt T C level).
Proof.
  intros Hpt. unfold matchPart, shouldTryDefaultSpecimen.
  destruct (exactMatch pt T C); [by eexists|].
  destruct pt; try done; cbn; rewrite ?andb_false_r; cbn;
    repeat (match goal with |- context [if ?b then _ else _] => destruct b end);
    by eexists.
Qed.

Section Level.
Context (row : Row) (T : TargetTermParts) (C : PartsInfo).

(** The part fails at the level: [matchPart] returns [false]. *)
Definition partFails (level : nat) (pt : PartType) : Prop :=
  fst <$> matchPart row pt T C level = Some false.

#[local] Instance partFails_dec level pt : Decision (partFails level pt).
Proof. unfold partFails. apply _. Defined.

(** The part types that fail at the level, in the order of the loop;
    [None] when a comparison throws. *)
Definition mismatchedParts (level : nat) : option (list PartType) :=
  if forallb (λ pt, bool_decide (is_Some (matchPart row pt T C level))) PartTypeList
  then Some (filter (partFails level) PartTypeList)
  else None.

(** The loop when no comparison throws: it counts the failing parts, and
    stops at three. *)
Lemma matchLoop_counts level pts mm relax :
  (∀ pt, pt ∈ pts → is_Some (matchPart row pt T C level)) →
  ∃ mm' relax',
    matchLoop row T C level pts mm relax = Some (mm', relax') ∧
    ((mm_count mm + length (filter (partFails level) pts) ≤ 2)%nat →
       mm' = mkMismatches (mm_count mm + length (filter (partFails level) pts))
               (mm_parts mm ++ filter (partFails level) pts)) ∧
    ((2 < mm_count mm + length (filter (partFails level) pts))%nat →
       (mm_count mm ≤ 2)%nat → mm_count mm' = 3).
Proof.
  revert mm relax. induction pts as [|pt pts IH]; intros mm relax Hsome.
  - exists mm, relax. simpl. split; [done|]. split; [|lia].
    intros _. rewrite Nat.add_0_r, app_nil_r. by destruct mm.
  - destruct (Hsome pt) as [[ok pushed] Hpt]; [left|].
    assert (Hrest : ∀ pt', pt' ∈ pts → is_Some (matchPart row pt' T C level)).
    { intros pt' Hin. apply Hsome. by right. }
    assert (Hfail : partFails level pt ↔ ok = false).
    { unfold partFails. rewrite Hpt. cbn. split; congruence. }
    rewrite filter_cons.
    specialize (λ mm relax, IH mm relax Hrest).
    set (fails := filter (partFails level) pts) in *. clearbody fails.
    cbn [matchLoop]. rewrite Hpt. cbn.
    destruct ok.
    + destruct (IH mm (relax ++ pushed)) as (mm' & relax' & Heq & Hle & Hgt).
      exists mm', relax'. split; [done|].
      case_decide as Hf; [apply Hfail in Hf; done|]. done.
    + case_decide as Hf; [|by destruct Hf; apply Hfail].
      cbn [length]. case_bool_decide as Hcount; cbn in Hcount.
      * eexists _, _. split; [done|]. cbn. split; intros; [exfalso|]; lia.
      * destruct (IH (mkMismatches (mm_count mm + 1) (mm_parts mm ++ [pt]))
                    (relax ++ pushed)) as (mm' & relax' & Heq & Hle & Hgt).
        exists mm', relax'. split; [done|]. cbn in Hle, Hgt. split.
        -- intros Hc. rewrite Hle by lia. f_equal; [lia|].
           by rewrite <- app_assoc.
        -- intros Hc Hmm. apply Hgt; lia.
Qed.

(** A loop that ends with as many mismatches as it started with has seen
    every part match. *)
Lemma matchLoop_no_new_mismatch level pts mm relax mm' relax' :
  matchLoop row T C level pts mm relax = Some (mm', relax') →
  (mm_count mm ≤ mm_count mm')%nat ∧
  (mm_count mm' = mm_count mm →
   ∀ pt, pt ∈ pts → ∃ pushed, matchPart row pt T C level = Some (true, pushed)).
Proof.
  revert mm relax. induction pts as [|pt pts IH]; intros mm relax; cbn [matchLoop].
  - intros [= <- <-]. split; [done|]. intros _ pt Hin. by apply elem_of_nil in Hin.
  - destruct (matchPart row pt T C level) as [[ok pushed]|] eqn:Hpt; cbn; [|done].
    destruct ok.
    + intros Heq. apply IH in Heq as [Hle Hall]. split; [done|].
      intros Hc pt' Hin. apply elem_of_cons in Hin as [->|Hin]; [by eexists|].
      by apply Hall.
    + case_bool_decide as Hcount; cbn in Hcount.
      * intros [= <- <-]. cbn. split; lia.
      * intros Heq. apply IH in Heq as [Hle Hall]. cbn in Hle. split; lia.
Qed.

(** When every part matches, the loop reports no new mismatch. *)
Lemma matchLoop_all_match level pts mm relax :
  (∀ pt, pt ∈ pts → ∃ pushed, matchPart row pt T C level = Some (true, pushed)) →
  ∃ relax', matchLoop row T C level pts mm relax = Some (mm, relax').
Proof.
  revert relax. induction pts as [|pt pts IH]; intros relax Hall; cbn [matchLoop].
  - by eexists.
  - destruct (Hall pt) as [pushed Hpt]; [left|]. rewrite Hpt. cbn.
    apply IH. intros pt' Hin. apply Hall. by right.
Qed.

(** A part that matches at a level matches at every higher level. *)
Lemma matchPart_mono pt level level' pushed :
  (level ≤ level')%nat →
  matchPart row pt T C level = Some (true, pushed) →
  ∃ pushed', matchPart row pt T C level' = Some (true, pushed').
Proof.
  intros Hle. unfold matchPart, shouldTryDefaultSpecimen.
  destruct (exactMatch pt T C); [by eexists|].
  destruct pt; try (by eexists); cbn.
  - (* CLASS *)
    repeat case_bool_decide; try (by eexists); try lia; intros [= ]; done.
  - (* METHOD *)
    repeat (case_bool_decide; cbn); try (by eexists); try lia; intros [= ]; done.
Qed.

Lemma PartTypeList_NoDup : NoDup PartTypeList.
Proof. compute_done. Qed.

(** A failing set confined to METHOD and CLASS is one of three. *)
Lemma confined_mismatches level :
  (∀ pt, pt ∈ filter (partFails level) PartTypeList → pt = METHOD ∨ pt = CLASS) →
  filter (partFails level) PartTypeList ∈
    [ []; [CLASS]; [METHOD]; [CLASS; METHOD] ].
Proof.
  unfold PartTypeList. rewrite !filter_cons, filter_nil.
  destruct (decide (partFails level COMPONENT)).
  { intros H. destruct (H COMPONENT) as [?|?]; [|done..]. case_decide; set_solver. }
  destruct (decide (partFails level PROPERTY)).
  { intros H. destruct (H PROPERTY) as [?|?]; [|done..]. case_decide; set_solver. }
  destruct (decide (partFails level TIME)).
  { intros H. destruct (H TIME) as [?|?]; [|done..]. case_decide; set_solver. }
  destruct (decide (partFails level SYSTEM)).
  { intros H. destruct (H SYSTEM) as [?|?]; [|done..]. case_decide; set_solver. }
  destruct (decide (partFails level SCALE)).
  { intros H. destruct (H SCALE) as [?|?]; [|done..]. case_decide; set_solver. }
  intros _. repeat case_decide; set_solver.
Qed.


(** Acceptance at a level carries over to the next one. *)
Lemma isAltLoinc_accept_next (level : nat) :
  matched <$> isAltLoinc row T C level = Some true →
  matched <$> isAltLoinc row T C (level + 1) = Some true.
Proof.
  rewrite (isAltLoinc_unfold row T C level).
  destruct (matchLoop row T C level PartTypeList _ _) as [[mm relax]|] eqn:Heq; [|done].
  destruct (decide (mm_count mm = 0)) as [Hzero|Hnz].
  - intros _. apply matchLoop_no_new_mismatch in Heq as [_ Hall].
    specialize (Hall Hzero).
    destruct (matchLoop_all_match (level + 1) PartTypeList (mkMismatches 0 []) [])
      as [relax' Heq'].
    { intros pt Hin. destruct (Hall pt Hin) as [pushed Hpt].
      eapply matchPart_mono; [|done]. lia. }
    rewrite isAltLoinc_unfold, Heq'. by cbn.
  - destruct (decide (level < maxRelaxLevel)%nat); [|done].
    by destruct (shouldRelax mm).
Qed.

(** C3. Relaxation is monotone in the level: a candidate accepted when the
    matcher is invoked at level [N] is accepted when it is invoked at any
    level above [N]. *)
Theorem isAltLoinc_monotone (N M : nat) :
  matched <$> isAltLoinc row T C N = Some true →
  (N < M)%nat →
  matched <$> isAltLoinc row T C M = Some true.
Proof.
  intros Hacc Hlt.
  assert (Hgen : ∀ k, matched <$> isAltLoinc row T C (N + k) = Some true).
  { induction k as [|k IH].
    - by rewrite Nat.add_0_r.
    - replace (N + S k) with (N + k + 1) by lia. by apply isAltLoinc_accept_next. }
  replace M with (N + (M - N)) by lia. apply Hgen.
Qed.

(** The synonym groups of a part type are the only values of its map. *)
Lemma partSynonymsMap_range pt m name group :
  partSynonymsMap pt = Some m → m !! name = Some group →
  ∃ groups, partSynonyms pt = Some groups ∧ group ∈ groups.
Proof.
  unfold partSynonymsMap. destruct (partSynonyms pt) as [groups|]; [|done].
  intros [= <-] Hlook. exists groups. split; [done|].
  assert (Hgen : ∀ (gs : list (list string)) (m0 : gmap string (list string)),
            foldl (λ m group, foldl (λ m partName, <[partName := group]> m) m group) m0 gs
              !! name = Some group →
            m0 !! name = Some group ∨ group ∈ gs).
  { induction gs as [|g gs IH]; intros m0; cbn [foldl]; [by left|].
    intros H. apply IH in H as [H|H]; [|right; by right].
    assert (Hin : ∀ (ns : list string) (m1 : gmap string (list string)),
              foldl (λ m partName, <[partName := g]> m) m1 ns !! name = Some group →
              m1 !! name = Some group ∨ group = g).
    { induction ns as [|n ns IHn]; intros m1; cbn [foldl]; [by left|].
      intros H'. apply IHn in H' as [H'|H']; [|by right].
      rewrite lookup_insert in H'. case_decide; [right; congruence|by left]. }
    apply Hin in H as [H| ->]; [by left|right; left]. }
  apply Hgen in Hlook as [Hlook|?]; [|done]. by rewrite lookup_empty in Hlook.
Qed.

(** No synonym group holds the unspecified system. *)
Lemma synonyms_without_XXX (p : option string) :
  Js.includes (synonymsOrEmpty SYSTEM p) "XXX" = false.
Proof.
  unfold synonymsOrEmpty, getPartSynonyms.
  destruct (partSynonymsMap SYSTEM) as [m|] eqn:Hm; [|done].
  destruct (m !! default "undefined" p) as [group|] eqn:Hg; [|done].
  destruct (partSynonymsMap_range SYSTEM m _ group Hm Hg) as (groups & Hgs & Hin).
  injection Hgs as <-.
  repeat (apply elem_of_cons in Hin as [->|Hin]; [by vm_compute|]).
  by apply elem_of_nil in Hin.
Qed.

(** A system other than the unspecified one is not compatible with it. *)
Lemma partsCompatible_XXX (sys : string) (r : option Row) :
  sys ≠ "XXX" → partsCompatible SYSTEM (Some sys) (Some "XXX") r = false.
Proof.
  intros Hne. unfold partsCompatible, bothInList.
  assert (Heq : Js.strictEqU (Some sys) (Some "XXX") = false).
  { apply bool_decide_eq_false. congruence. }
  assert (H2 : Js.includes (synonymsOrEmpty SYSTEM (Some "XXX")) sys = false).
  { by vm_compute. }
  rewrite Heq. cbn [Js.includesU].
  rewrite synonyms_without_XXX, H2.
  repeat match goal with
         | |- context [Js.includes (?a :: ?l) "XXX"] =>
             let b := eval vm_compute in (Js.includes (a :: l) "XXX") in
             change (Js.includes (a :: l) "XXX") with b
         end.
  rewrite !andb_false_r.
  cbn [Js.truthyU]. destruct (Js.truthy sys); cbn; done.
Qed.

(** The claim C8 as it is worded: when the exact rule fails for SYSTEM, the
    part is still accepted, with the tag "matched-with-default-specimen",
    if the candidate's system is compatible with the record's specimen hint
    or with the default specimen of its class; and with the tag
    "specimen-xxx-match-waived" if the candidate's system is "XXX". *)
Definition systemRelaxationAsWorded (level : nat) : Prop :=
  exactMatch SYSTEM T C = false →
  let candidate := Js.first (getPart (parts C) SYSTEM) in
  ((partsCompatible SYSTEM (Some (SPECIMEN_SOURCE row)) candidate (Some row) = true ∨
    partsCompatible SYSTEM (getDefaultSpecimen row) candidate (Some row) = true) →
   matchPart row SYSTEM T C level = Some (true, ["matched-with-default-specimen"])) ∧
  (candidate = Some "XXX" →
   matchPart row SYSTEM T C level = Some (true, ["specimen-xxx-match-waived"])).

(** C8, amended. When the exact rule fails for SYSTEM: the part is accepted,
    with no tag, if one of the target's system names is compatible with the
    candidate's system; it is accepted with the tag
    "specimen-xxx-match-waived" if the candidate's system is "XXX"; and it
    is rejected otherwise.  Neither the record's specimen hint nor the
    default specimen of its class is consulted. *)
Theorem matchPart_SYSTEM_relaxed (level : nat) :
  exactMatch SYSTEM T C = false →
  let candidate := Js.first (getPart (parts C) SYSTEM) in
  let compatible :=
    existsb (λ sys, partsCompatible SYSTEM (Some sys) candidate (Some row))
            (default [] (getPart T SYSTEM)) in
  (compatible = true → matchPart row SYSTEM T C level = Some (true, [])) ∧
  (candidate = Some "XXX" →
     matchPart row SYSTEM T C level = Some (true, ["specimen-xxx-match-waived"])) ∧
  (compatible = false → candidate ≠ Some "XXX" →
     matchPart row SYSTEM T C level = Some (false, [])).
Proof.
  intros Hexact candidate compatible.
  assert (Hmp : matchPart row SYSTEM T C level =
                if negb compatible && Js.strictEqU candidate (Some "XXX")
                then Some (true, ["specimen-xxx-match-waived"])
                else Some (compatible, [])).
  { unfold matchPart, shouldTryDefaultSpecimen. rewrite Hexact.
    by rewrite andb_false_r. }
  rewrite Hmp. split; [|split].
  - by intros ->.
  - intros HX.
    assert (Hc : compatible = false).
    { unfold compatible. apply not_true_iff_false. rewrite existsb_exists.
      intros (sys & Hin & Hcomp). rewrite HX in Hcomp.
      destruct (decide (sys = "XXX")) as [->|Hne];
        [|by rewrite partsCompatible_XXX in Hcomp].
      unfold exactMatch in Hexact.
      destruct (getPart T SYSTEM) as [src|]; [|done].
      apply orb_false_iff in Hexact as [_ Hexact].
      apply not_true_iff_false in Hexact. apply Hexact.
      apply existsb_exists. exists "XXX". split; [done|].
      apply JsFacts.includes_true. unfold candidate, Js.first in HX.
      destruct (getPart (parts C) SYSTEM) as [|c0 cs]; [done|].
      injection HX as ->. left. }
    rewrite Hc, HX. by rewrite JsFacts.strictEqU_refl.
  - intros -> Hne.
    assert (Hs : Js.strictEqU candidate (Some "XXX") = false).
    { by apply bool_decide_eq_false. }
    by rewrite Hs.
Qed.

End Level.

(** *** A worked record

    A record of class CHEM mapped to a serum/plasma glucose term, with a
    specimen hint of serum/plasma, whose name mentions urine: the target
    term asks for urine. *)
Definition urineRow : Row :=
  mkRow (Some 2%Z) "2345-7" "GLUCOSE URINE" "mg/dL" "Ser/Plas" ""
    "Glucose [Mass/volume] in Serum or Plasma" "mg/dL"
    (mkParts "CHEM" "Glucose" "MCnc" "Pt" "Ser/Plas" "Qn" "")
    "" "" "" None "" "" "" IssuesUnset "" "" TargetUnset.

Definition urineTarget : TargetTermParts :=
  mkParts (Some ["CHEM"]) (Some ["Glucose"]) (Some ["MCnc"]) (Some ["Pt"])
    (Some ["Urine"]) (Some ["Qn"]) (Some ["Test strip"]).

(** Candidates that differ from the target in their system or method. *)
Definition serumCandidate : PartsInfo :=
  mkPartsInfo "2339-0" "Glucose [Mass/volume] in Blood" "ACTIVE" "mg/dL"
    (mkParts ["CHEM"] ["Glucose"] ["MCnc"] ["Pt"] ["Ser/Plas"] ["Qn"] ["Test strip"]).

Definition unspecifiedCandidate : PartsInfo :=
  mkPartsInfo "2341-6" "Glucose [Mass/volume] in Specimen" "ACTIVE" "mg/dL"
    (mkParts ["CHEM"] ["Glucose"] ["MCnc"] ["Pt"] ["XXX"] ["Qn"] ["Test strip"]).

Definition urineNoMethodCandidate : PartsInfo :=
  mkPartsInfo "2350-7" "Glucose [Mass/volume] in Urine" "ACTIVE" "mg/dL"
    (mkParts ["CHEM"] ["Glucose"] ["MCnc"] ["Pt"] ["Urine"] ["Qn"] []).

Example isAltLoinc_cases :
  isAltLoinc urineRow urineTarget urineNoMethodCandidate 0
    = Some (mkMatchStatus true (Some ["METHOD-empty-ok"])) ∧
  isAltLoinc urineRow urineTarget unspecifiedCandidate 0
    = Some (mkMatchStatus true (Some ["specimen-xxx-match-waived"])) ∧
  isAltLoinc urineRow urineTarget serumCandidate 0
    = Some (mkMatchStatus false None).
Proof. vm_compute. auto. Qed.

(** The hypotheses of C3 hold for a candidate without method: it is
    accepted from level 0, through the escalation to level 1. *)
Lemma isAltLoinc_monotone_witness :
  (matched <$> isAltLoinc urineRow urineTarget urineNoMethodCandidate 0 = Some true ∧
   (0 < 3)%nat) ∧
  matched <$> isAltLoinc urineRow urineTarget urineNoMethodCandidate 3 = Some true.
Proof.
  split; [split; [reflexivity|lia]|].
  apply (isAltLoinc_monotone urineRow urineTarget urineNoMethodCandidate 0 3);
    [reflexivity|lia].
Defined.

(** C8 as worded fails: the candidate's system is compatible with the
    record's specimen hint, and with the default specimen of class CHEM,
    yet the SYSTEM part is rejected. *)
Lemma systemRelaxation_counterexample :
  ¬ systemRelaxationAsWorded urineRow urineTarget serumCandidate 0.
Proof.
  intros H. destruct (H eq_refl) as [H1 _].
  assert (Hcompat : partsCompatible SYSTEM (Some (SPECIMEN_SOURCE urineRow))
            (Js.first (getPart (parts serumCandidate) SYSTEM)) (Some urineRow) = true)
    by reflexivity.
  specialize (H1 (or_introl Hcompat)). vm_compute in H1. discriminate H1.
Qed.

(** The hypothesis of the amended C8 holds for the candidate of unspecified
    system, which gets the waiver. *)
Lemma matchPart_SYSTEM_relaxed_witness :
  exactMatch SYSTEM urineTarget unspecifiedCandidate = false ∧
  matchPart urineRow SYSTEM urineTarget unspecifiedCandidate 0
    = Some (true, ["specimen-xxx-match-waived"]).
Proof.
  split; [reflexivity|].
  pose proof (matchPart_SYSTEM_relaxed urineRow urineTarget unspecifiedCandidate 0
                eq_refl) as H.
  cbv zeta in H. destruct H as (_ & H & _). apply H. reflexivity.
Defined.

End MatcherFacts.

(** ** Facts about [Selector] *)
Module SelectorFacts.
Import LoincUtils LoincPartSynonyms PcnRow LabNameParser PcornetValidationMgr.
Import Matcher Selector.

(** *** The order of floating-point numbers that are not NaN *)

Ltac sf_cases :=
  repeat match goal with
         | s : bool |- _ => destruct s
         end;
  cbn in *; try congruence; try done.

Ltac cmp_cases :=
  repeat match goal with
         | |- context [PosDef.Pos.compare_cont Eq ?a ?b] =>
             change (PosDef.Pos.compare_cont Eq a b) with (Pos.compare a b)
         | H : context [PosDef.Pos.compare_cont Eq ?a ?b] |- _ =>
             change (PosDef.Pos.compare_cont Eq a b) with (Pos.compare a b) in H
         | |- context [Z.compare ?a ?b] => destruct (Z.compare_spec a b)
         | H : context [Z.compare ?a ?b] |- _ => destruct (Z.compare_spec a b)
         | |- context [Pos.compare ?a ?b] => destruct (Pos.compare_spec a b)
         | H : context [Pos.compare ?a ?b] |- _ => destruct (Pos.compare_spec a b)
         end;
  simpl in *; try congruence; try lia.

Lemma SFltb_asym a b : SFltb a b = true → SFltb b a = false.
Proof.
  unfold SFltb, SFcompare.
  destruct a as [sa|sa| |sa ma ea], b as [sb|sb| |sb mb eb]; sf_cases; cmp_cases.
Qed.

Lemma SFltb_negtrans a b c :
  a ≠ S754_nan → b ≠ S754_nan → c ≠ S754_nan →
  SFltb a b = false → SFltb b c = false → SFltb a c = false.
Proof.
  unfold SFltb, SFcompare.
  destruct a as [sa|sa| |sa ma ea], b as [sb|sb| |sb mb eb], c as [sc|sc| |sc mc ec];
    intros; sf_cases; cmp_cases.
Qed.

Lemma SFltb_false_leb a b :
  a ≠ S754_nan → b ≠ S754_nan → SFltb a b = false → SFleb b a = true.
Proof.
  unfold SFltb, SFleb, SFcompare.
  destruct a as [sa|sa| |sa ma ea], b as [sb|sb| |sb mb eb]; intros; sf_cases; cmp_cases.
Qed.

Lemma is_nan_false x : is_nan x = false → Prim2SF x ≠ S754_nan.
Proof.
  unfold is_nan. rewrite FloatAxioms.eqb_spec. intros H Hn. rewrite Hn in H. by cbn in H.
Qed.

Lemma float_ltb_asym x y : (x <? y)%float = true → (y <? x)%float = false.
Proof. rewrite !FloatAxioms.ltb_spec. apply SFltb_asym. Qed.

Lemma float_ltb_negtrans x y z :
  is_nan x = false → is_nan y = false → is_nan z = false →
  (x <? y)%float = false → (y <? z)%float = false → (x <? z)%float = false.
Proof.
  intros Hx Hy Hz. rewrite !FloatAxioms.ltb_spec.
  apply SFltb_negtrans; by apply is_nan_false.
Qed.

Lemma float_ltb_false_leb x y :
  is_nan x = false → is_nan y = false →
  (x <? y)%float = false → (y <=? x)%float = true.
Proof.
  intros Hx Hy. rewrite FloatAxioms.ltb_spec, FloatAxioms.leb_spec.
  apply SFltb_false_leb; by apply is_nan_false.
Qed.

(** *** Sorting and the removal of duplicates *)

(** The match has a score, and it is a number. *)
Definition scored (m : LoincMatch) : Prop :=
  ∃ v, m_score m = Some v ∧ is_nan v = false.

(** The first match is not below the second. *)
Definition notBelow (x y : LoincMatch) : Prop := scoreLt x y = false.

(** [LOINC_NUM] of a match *)
Abbreviation num m := (LOINC_NUM (m_info m)).

Lemma notBelow_trans x y z :
  scored x → scored y → scored z → notBelow x y → notBelow y z → notBelow x z.
Proof.
  intros (vx & Hx & Nx) (vy & Hy & Ny) (vz & Hz & Nz). unfold notBelow, scoreLt.
  rewrite Hx, Hy, Hz. by apply float_ltb_negtrans.
Qed.

Lemma scoreLt_notBelow x y : scoreLt x y = true → notBelow y x.
Proof.
  unfold notBelow, scoreLt. destruct (m_score x), (m_score y); try done.
  apply float_ltb_asym.
Qed.

Lemma insertByScore_perm x l : insertByScore x l ≡ₚ x :: l.
Proof.
  induction l as [|y l IH]; cbn; [done|].
  destruct (scoreLt x y); [|done]. rewrite IH. apply Permutation_swap.
Qed.

Lemma sortByScore_perm l : sortByScore l ≡ₚ l.
Proof.
  induction l as [|x l IH]; cbn; [done|].
  by rewrite insertByScore_perm, IH.
Qed.

Lemma insertByScore_sorted x l :
  scored x → Forall scored l →
  StronglySorted notBelow l → StronglySorted notBelow (insertByScore x l).
Proof.
  intros Hx Hl Hs. induction Hs as [|y l Hs IH Hy]; cbn.
  - repeat constructor.
  - apply Forall_cons in Hl as [Hsy Hl]. destruct (scoreLt x y) eqn:Hlt.
    + constructor; [by apply IH|].
      rewrite insertByScore_perm. constructor; [by apply scoreLt_notBelow|done].
    + constructor; [by constructor|]. constructor; [done|].
      rewrite Forall_forall in Hy, Hl |- *. intros z Hz.
      apply (notBelow_trans x y z); auto.
Qed.

Lemma sortByScore_sorted l :
  Forall scored l → StronglySorted notBelow (sortByScore l).
Proof.
  induction l as [|x l IH]; intros Hl; cbn; [constructor|].
  apply Forall_cons in Hl as [Hx Hl]. apply insertByScore_sorted; [done| |by apply IH].
  by rewrite sortByScore_perm.
Qed.

Lemma dropSeen_subseteq seen l : dropSeen seen l ⊆ l.
Proof.
  revert seen. induction l as [|c l IH]; intros seen; cbn; [done|].
  case_decide.
  - intros x Hx. right. by apply (IH seen).
  - intros x Hx. apply elem_of_cons in Hx as [->|Hx]; [left|right; by eapply IH].
Qed.

Lemma dropSeen_fresh seen l c : c ∈ dropSeen seen l → num c ∉ seen.
Proof.
  revert seen. induction l as [|c' l IH]; intros seen; cbn.
  - intros H. by apply elem_of_nil in H.
  - case_decide as Hin; [apply IH|].
    intros H. apply elem_of_cons in H as [->|H]; [done|].
    apply IH in H. set_solver.
Qed.

Lemma dropSeen_NoDup seen l : NoDup (map (λ m, num m) (dropSeen seen l)).
Proof.
  revert seen. induction l as [|c l IH]; intros seen; cbn; [constructor|].
  case_decide as Hin; [apply IH|].
  cbn. constructor; [|apply IH].
  intros Hc. apply list_elem_of_fmap in Hc as (c' & Heq & Hc').
  apply dropSeen_fresh in Hc'. set_solver.
Qed.

(** The first match is scored at least as high as the second. *)
Definition scoreGe (x y : LoincMatch) : Prop :=
  ∃ vx vy, m_score x = Some vx ∧ m_score y = Some vy ∧ (vy <=? vx)%float = true.

Lemma float_leb_refl x : is_nan x = false → (x <=? x)%float = true.
Proof.
  intros Hx. apply float_ltb_false_leb; [done..|].
  destruct (x <? x)%float eqn:Hlt; [|done]. by rewrite (float_ltb_asym x x Hlt) in Hlt.
Qed.

Lemma notBelow_scoreGe x y : scored x → scored y → notBelow x y → scoreGe x y.
Proof.
  intros (vx & Hx & Nx) (vy & Hy & Ny) Hxy. exists vx, vy. repeat split; try done.
  unfold notBelow, scoreLt in Hxy. rewrite Hx, Hy in Hxy. by apply float_ltb_false_leb.
Qed.

Lemma scoreGe_refl x : scored x → scoreGe x x.
Proof.
  intros (vx & Hx & Nx). exists vx, vx. repeat split; try done. by apply float_leb_refl.
Qed.

(** A match the loop keeps is the first of its number, and its number was
    not seen before the loop. *)
Lemma dropSeen_first seen l c :
  c ∈ dropSeen seen l →
  ∃ l1 l2, l = l1 ++ c :: l2 ∧ (num c ∉ seen) ∧ Forall (λ x, num x ≠ num c) l1.
Proof.
  revert seen. induction l as [|c' l IH]; intros seen; cbn.
  - intros H. by apply elem_of_nil in H.
  - case_decide as Hin.
    + intros Hc. destruct (IH _ Hc) as (l1 & l2 & -> & Hseen & Hl1).
      exists (c' :: l1), l2. split; [done|]. split; [done|].
      constructor; [|done]. intros Heq. by rewrite Heq in Hin.
    + intros Hc. apply elem_of_cons in Hc as [->|Hc].
      * exists [], l. by repeat split.
      * destruct (IH _ Hc) as (l1 & l2 & -> & Hseen & Hl1).
        exists (c' :: l1), l2. split; [done|]. split; [set_solver|].
        constructor; [|done]. set_solver.
Qed.

(** The number of every match is seen before the loop or kept by it. *)
Lemma dropSeen_covers seen l x :
  x ∈ l → num x ∈ seen ∨ num x ∈ map (λ m, num m) (dropSeen seen l).
Proof.
  revert seen. induction l as [|c l IH]; intros seen Hx; cbn.
  - by apply elem_of_nil in Hx.
  - apply elem_of_cons in Hx as [->|Hx].
    + case_decide as Hin; [by left|]. right. cbn. left.
    + case_decide as Hin; [by apply IH|].
      destruct (IH ({[num c]} ∪ seen) Hx) as [Hseen|Hkept].
      * apply elem_of_union in Hseen as [Hc|Hseen]; [|by left].
        apply elem_of_singleton in Hc. right. cbn. rewrite Hc. left.
      * right. cbn. by right.
Qed.

Lemma StronglySorted_after {A} (R : relation A) l1 c l2 :
  StronglySorted R (l1 ++ c :: l2) → Forall (R c) l2.
Proof.
  induction l1 as [|x l1 IH]; cbn; intros Hs; apply StronglySorted_inv in Hs as [Hs Hx];
    [done|by apply IH].
Qed.

Lemma dropSeen_sorted (R : relation LoincMatch) seen l :
  StronglySorted R l → StronglySorted R (dropSeen seen l).
Proof.
  intros Hs. revert seen. induction Hs as [|c l Hs IH Hc]; intros seen; cbn.
  - constructor.
  - case_decide; [apply IH|]. constructor; [apply IH|].
    rewrite Forall_forall in Hc |- *. intros x Hx. apply Hc.
    by apply dropSeen_subseteq in Hx.
Qed.

Section Scoring.
Context (Math_pow : float → float → float) (row : Row).

(** What [selectBestMatch] returns for two candidates or more: the head and
    the tail of the scored candidates sorted, the tail without the numbers
    already seen. *)
Lemma selectBestMatch_many m1 m2 ms :
  ∃ c0 sorted,
    sortByScore (map (λ m, set_score (computeScore Math_pow row m) m) (m1 :: m2 :: ms))
      = c0 :: sorted ∧
    selectBestMatch Math_pow row (m1 :: m2 :: ms)
      = (Some c0, Some (dropSeen {[num c0]} sorted)).
Proof.
  unfold selectBestMatch.
  destruct (sortByScore _) as [|c0 sorted] eqn:Hsort.
  - apply (f_equal length) in Hsort. rewrite (sortByScore_perm _) in Hsort. done.
  - by exists c0, sorted.
Qed.

(** C5. For every non-empty list of accepted candidates whose scores are
    numbers, the selector returns a primary suggestion and alternates that
    are candidates of the list, as passed or with their score set, and
    among which the entry number of every candidate of the list occurs.
    The score of the primary suggestion is at least the score of every
    alternate, and no entry number occurs twice among the primary
    suggestion and the alternates.  When the list has two candidates or
    more, each candidate returned carries its computed score; the primary
    suggestion is scored at least as high as every candidate of the list;
    each candidate returned is scored at least as high as the candidates of
    the list that have its entry number; and the candidates returned are in
    descending order of score. *)
Theorem selectBestMatch_sound (allMatches : list LoincMatch) :
  allMatches ≠ [] →
  Forall (λ m, is_nan (computeScore Math_pow row m) = false) allMatches →
  ∃ best rest,
    selectBestMatch Math_pow row allMatches = (Some best, Some rest) ∧
    (∀ c, c ∈ best :: rest →
       c ∈ allMatches ∨
       ∃ m, m ∈ allMatches ∧ c = set_score (computeScore Math_pow row m) m) ∧
    (∀ m, m ∈ allMatches → num m ∈ map (λ c, num c) (best :: rest)) ∧
    (∀ alt, alt ∈ rest →
       ∃ vb va, m_score best = Some vb ∧ m_score alt = Some va ∧
                (va <=? vb)%float = true) ∧
    NoDup (map (λ m, num m) (best :: rest)) ∧
    ((2 ≤ length allMatches)%nat →
       (∀ c, c ∈ best :: rest →
          ∃ m, m ∈ allMatches ∧ c = set_score (computeScore Math_pow row m) m) ∧
       (∀ m, m ∈ allMatches →
          ∃ vb, m_score best = Some vb ∧
                (computeScore Math_pow row m <=? vb)%float = true) ∧
       (∀ c m, c ∈ best :: rest → m ∈ allMatches → num m = num c →
          ∃ vc, m_score c = Some vc ∧
                (computeScore Math_pow row m <=? vc)%float = true) ∧
       StronglySorted scoreGe (best :: rest)).
Proof.
  intros Hne Hnan. destruct allMatches as [|m1 [|m2 ms]]; [done| |].
  - exists m1, []. split; [done|]. split; [|split; [|split; [|split; [|]]]].
    + intros c Hc. by left.
    + intros m Hm. apply list_elem_of_singleton in Hm as ->. cbn. left.
    + intros alt H. by apply elem_of_nil in H.
    + cbn. apply NoDup_singleton.
    + cbn. lia.
  - destruct (selectBestMatch_many m1 m2 ms) as (c0 & sorted & Hsort & ->).
    set (allMatches := m1 :: m2 :: ms) in *.
    set (candidates := map _ allMatches) in Hsort.
    assert (Hscored : Forall scored candidates).
    { unfold candidates. rewrite Forall_fmap. eapply Forall_impl; [exact Hnan|].
      intros m Hm. by eexists. }
    pose proof (sortByScore_sorted candidates Hscored) as Hs. rewrite Hsort in Hs.
    assert (Hperm : c0 :: sorted ≡ₚ candidates).
    { rewrite <- Hsort. apply sortByScore_perm. }
    assert (Hscored' : Forall scored (c0 :: sorted)) by (by rewrite Hperm).
    assert (Hcand : ∀ c, c ∈ c0 :: sorted →
              ∃ m, m ∈ allMatches ∧ c = set_score (computeScore Math_pow row m) m).
    { intros c Hc. rewrite Hperm in Hc. unfold candidates in Hc.
      apply list_elem_of_fmap in Hc as (m & -> & Hm). by exists m. }
    assert (Hback : ∀ m, m ∈ allMatches →
              set_score (computeScore Math_pow row m) m ∈ c0 :: sorted).
    { intros m Hm. rewrite Hperm. unfold candidates.
      apply list_elem_of_fmap. by exists m. }
    assert (Hreturned : ∀ c, c ∈ c0 :: dropSeen {[num c0]} sorted → c ∈ c0 :: sorted).
    { intros c Hc. apply elem_of_cons in Hc as [->|Hc]; [left|right].
      by apply dropSeen_subseteq in Hc. }
    pose proof Hs as Hs0. apply StronglySorted_inv in Hs0 as [Hsorted Hhead].
    rewrite Forall_forall in Hhead.
    pose proof Hscored' as Hscored0. apply Forall_cons in Hscored0 as [Hc0 Hsc].
    rewrite Forall_forall in Hsc.
    assert (Htop : ∀ c, c ∈ c0 :: sorted → scoreGe c0 c).
    { intros c Hc. apply elem_of_cons in Hc as [->|Hc]; [by apply scoreGe_refl|].
      apply notBelow_scoreGe; auto. }
    assert (Hgroup : ∀ c x, c ∈ c0 :: dropSeen {[num c0]} sorted → x ∈ c0 :: sorted →
              num x = num c → scoreGe c x).
    { intros c x Hc Hx Hnum. apply elem_of_cons in Hc as [->|Hc]; [by apply Htop|].
      destruct (dropSeen_first _ _ _ Hc) as (l1 & l2 & Hsplit & Hseen & Hl1).
      rewrite Forall_forall in Hl1.
      assert (Hcs : scored c).
      { apply Hsc. rewrite Hsplit. apply elem_of_app. right. left. }
      apply elem_of_cons in Hx as [->|Hx]; [set_solver|].
      rewrite Hsplit in Hx. apply elem_of_app in Hx as [Hx|Hx].
      { by destruct (Hl1 x Hx). }
      apply elem_of_cons in Hx as [->|Hx]; [by apply scoreGe_refl|].
      rewrite Hsplit in Hsorted. apply StronglySorted_after in Hsorted as Hafter.
      rewrite Forall_forall in Hafter.
      apply notBelow_scoreGe; [done| |by apply Hafter].
      apply Hsc. rewrite Hsplit. apply elem_of_app. right. by right. }
    exists c0, (dropSeen {[num c0]} sorted). split; [done|].
    split; [|split; [|split; [|split; [|]]]].
    + intros c Hc. right. by apply Hcand, Hreturned.
    + intros m Hm. pose proof (Hback m Hm) as Hin. cbn.
      apply elem_of_cons in Hin as [Heq|Hin].
      * rewrite <- Heq. cbn. left.
      * destruct (dropSeen_covers {[num c0]} sorted _ Hin) as [Hseen|Hkept].
        -- apply elem_of_singleton in Hseen. cbn in Hseen. rewrite Hseen. left.
        -- right. exact Hkept.
    + intros alt Halt.
      destruct (Htop alt) as (vb & va & Hb & Ha & Hle).
      { right. by apply dropSeen_subseteq in Halt. }
      by exists vb, va.
    + cbn. constructor; [|apply dropSeen_NoDup].
      intros Hc. apply list_elem_of_fmap in Hc as (c' & Heq & Hc').
      apply dropSeen_fresh in Hc'. set_solver.
    + intros _. split; [|split; [|split]].
      * intros c Hc. by apply Hcand, Hreturned.
      * intros m Hm. destruct (Htop _ (Hback m Hm)) as (vb & vm & Hb & Hm' & Hle).
        cbn in Hm'. injection Hm' as <-. by exists vb.
      * intros c m Hc Hm Hnum.
        destruct (Hgroup c _ Hc (Hback m Hm)) as (vc & vm & Hvc & Hm' & Hle); [done|].
        cbn in Hm'. injection Hm' as <-. by exists vc.
      * constructor.
        -- apply dropSeen_sorted.
           clear -Hsorted Hsc. induction Hsorted as [|x l Hl IH Hx]; constructor.
           ++ apply IH. intros y Hy. apply Hsc. by right.
           ++ rewrite Forall_forall in Hx |- *. intros y Hy.
              apply notBelow_scoreGe; [apply Hsc; left|apply Hsc; by right|by apply Hx].
        -- rewrite Forall_forall. intros c Hc. apply Htop. right.
           by apply dropSeen_subseteq in Hc.
Qed.

(** *** The score, as worded and as computed *)

(** A part value is absent: there is no name, or the name is empty. *)
Definition absent (p : option string) : Prop := p = None ∨ p = Some "".

#[local] Instance absent_dec p : Decision (absent p).
Proof. unfold absent. apply _. Defined.

(** The relaxation tags a candidate carries. *)
Definition relaxationTags (m : LoincMatch) : list string := default [] (m_relaxations m).

(** The waiver for a record of unspecified system: the system of the record
    is the sentinel "XXX" and no system is inferred for it, so that the
    system is not compared when candidates are searched. *)
Definition waiverApplies : Prop :=
  rowPart row SYSTEM = "XXX" ∧ inferredNames row SYSTEM = None.

#[local] Instance waiverApplies_dec : Decision waiverApplies.
Proof. unfold waiverApplies. apply _. Defined.

(** The groups of system names that stand for one another, for a record of
    class [cls]. *)
Definition systemGroups (cls : string) : list (list string) :=
  (if decide (cls = "UA") then [["Urine"; "Urine sed"]] else []) ++
  (if decide (cls = "COAG") then [["PPP"; "Plas"; "Ser/Plas"]] else []) ++
  [ ["Ser"; "Plas"; "Ser/Plas"; "Ser/Plas/Bld"];
    ["Urine"; "Urine+Ser"; "Urine+Ser/Plas"];
    ["CSF"; "Ser+CSF"; "Ser/Plas+CSF"] ].

(** The second name is a synonym of the first in the table of synonyms. *)
Definition synonymOf (a b : string) : Prop :=
  b ∈ default [] (getPartSynonyms SYSTEM a).

(** Two system names are compatible for a record of class [cls]: they are
    the same, or both are absent, or both are names of one group, or one is
    a synonym of the other. *)
Definition compatibleSystems (cls : string) (p1 p2 : option string) : Prop :=
  p1 = p2 ∨ (absent p1 ∧ absent p2) ∨
  match p1, p2 with
  | Some a, Some b =>
      a ≠ "" ∧ b ≠ "" ∧
      (Exists (λ group, a ∈ group ∧ b ∈ group) (systemGroups cls) ∨
       synonymOf a b ∨ synonymOf b a)
  | _, _ => False
  end.

#[local] Instance compatibleSystems_dec cls p1 p2 : Decision (compatibleSystems cls p1 p2).
Proof. unfold compatibleSystems, synonymOf. destruct p1, p2; apply _. Defined.

(** The system of the candidate is compatible with the specimen the record
    declares or with the default specimen of the record's class. *)
Definition specimenCompatible (m : LoincMatch) : Prop :=
  compatibleSystems (rowPart row CLASS) (matchPart0 m SYSTEM) (Some (SPECIMEN_SOURCE row)) ∨
  compatibleSystems (rowPart row CLASS) (matchPart0 m SYSTEM) (getDefaultSpecimen row).

#[local] Instance specimenCompatible_dec m : Decision (specimenCompatible m).
Proof. unfold specimenCompatible. apply _. Defined.

(** The record has a raw unit, and it is literally the example unit of the
    candidate.  A record whose unit cell is empty has no raw unit. *)
Definition rawUnitEquals (m : LoincMatch) : Prop :=
  RAW_UNIT row ≠ "" ∧ RAW_UNIT row = EXAMPLE_UCUM_UNITS (m_info m).

#[local] Instance rawUnitEquals_dec m : Decision (rawUnitEquals m).
Proof. unfold rawUnitEquals. apply _. Defined.

(** The candidate matches the record on a part type with no relaxation:
    its name for the type is literally one of the names inferred for the
    record when there are any, and else the record's own name, both being
    absent counting as a match. *)
Definition agreesOn (m : LoincMatch) (part : PartType) : Prop :=
  match inferredNames row part with
  | Some (n :: ns) => Exists (λ name, matchPart0 m part = Some name) (n :: ns)
  | _ => (rowPart row part = "" ∧ absent (matchPart0 m part)) ∨
         matchPart0 m part = Some (rowPart row part)
  end.

#[local] Instance agreesOn_dec m part : Decision (agreesOn m part).
Proof. unfold agreesOn. destruct (inferredNames row part) as [[|n ns]|]; apply _. Defined.

(** The candidate matches every one of the seven part types. *)
Definition matchesEveryPart (m : LoincMatch) : Prop := ∀ part, agreesOn m part.

Lemma PartTypeList_all part : part ∈ PartTypeList.
Proof. destruct part; unfold PartTypeList; set_solver. Qed.

Lemma matchesEveryPart_list m : Forall (agreesOn m) PartTypeList ↔ matchesEveryPart m.
Proof.
  rewrite Forall_forall. split.
  - intros H part. apply H, PartTypeList_all.
  - intros H part _. apply H.
Qed.

#[local] Instance matchesEveryPart_dec m : Decision (matchesEveryPart m).
Proof.
  destruct (decide (Forall (agreesOn m) PartTypeList)) as [Hall|Hnot].
  - left. by apply matchesEveryPart_list.
  - right. intros Hall. apply Hnot. by apply matchesEveryPart_list.
Defined.

(** The score of the claim, its terms in the order they are worded, which
    is the order the code adds them in. *)
Definition scoreAsWorded (m : LoincMatch) : float :=
  let score := (50 - 25 * Math_pow (lengthToNumber (relaxationTags m)) 0.25)%float in
  let score :=
    if decide (STATUS (m_info m) = "DEPRECATED") then (score - 20)%float else score in
  let score :=
    if decide (STATUS (m_info m) = "DISCOURAGED") then (score - 10)%float else score in
  let score :=
    if decide (waiverApplies ∧ specimenCompatible m) then (score + 35)%float else score in
  let score := if decide (rawUnitEquals m) then (score + 10)%float else score in
  let score := if decide (matchesEveryPart m) then (score + 50)%float else score in
  score.

(** The claim C4 as worded: every candidate passed to the selector and
    returned by it carries the score of the claim. *)
Definition scoresAsWorded (allMatches : list LoincMatch) : Prop :=
  ∀ best rest c,
    selectBestMatch Math_pow row allMatches = (Some best, Some rest) →
    c ∈ best :: rest →
    ∃ m, m ∈ allMatches ∧ c = set_score (scoreAsWorded m) m.

(** **** The conditions of the code and those of the claim *)

Lemma waiverApplies_code :
  Js.strictEq (rowPart row SYSTEM) "XXX" &&
  negb (bool_decide (is_Some (inferredNames row SYSTEM))) = true ↔ waiverApplies.
Proof.
  unfold waiverApplies.
  rewrite andb_true_iff, JsFacts.strictEq_true, negb_true_iff, bool_decide_eq_false.
  split; intros [Hx Hi]; (split; [done|]).
  - destruct (inferredNames row SYSTEM); [|done]. destruct Hi. by eexists.
  - rewrite Hi. by intros [? ?].
Qed.

Lemma bothInList_names plist a b :
  bothInList plist (Some a) (Some b) = true ↔ a ∈ plist ∧ b ∈ plist.
Proof.
  unfold bothInList. cbn [Js.includesU].
  by rewrite andb_true_iff, !JsFacts.includes_true.
Qed.

Lemma truthyU_absent p : Js.truthyU p = false ↔ absent p.
Proof.
  unfold absent. destruct p as [s|]; cbn.
  - rewrite JsFacts.truthy_false. split; [intros ->; by right|].
    intros [?|[= ->]]; done.
  - split; [by left|done].
Qed.

(** [partsCompatible] on systems decides the compatibility of systems. *)
Lemma partsCompatible_SYSTEM r p1 p2 :
  partsCompatible SYSTEM p1 p2 (Some r) = true ↔
  compatibleSystems (rowPart r CLASS) p1 p2.
Proof.
  unfold partsCompatible, compatibleSystems.
  destruct (Js.strictEqU p1 p2) eqn:Heq.
  { apply bool_decide_eq_true in Heq. cbn [orb]. split; [by left|done]. }
  unfold Js.strictEqU in Heq. apply bool_decide_eq_false in Heq. cbn [orb].
  destruct (Js.truthyU p1) eqn:H1; cbn [negb andb orb].
  2:{ apply truthyU_absent in H1. destruct (Js.truthyU p2) eqn:H2; cbn [negb].
      - split; [done|]. intros [?|[[_ Hab]|Hint]]; [done| |].
        + apply truthyU_absent in Hab. congruence.
        + destruct p1 as [a|], p2 as [b|]; try done.
          destruct Hint as (Ha & _). destruct H1 as [?|[= ->]]; done.
      - apply truthyU_absent in H2. split; [|done]. intros _. right. by left. }
  destruct (Js.truthyU p2) eqn:H2; cbn [negb].
  2:{ split; [done|]. intros [?|[[Hab _]|Hint]]; [done| |].
      - apply truthyU_absent in Hab. congruence.
      - destruct p1 as [a|], p2 as [b|]; try done.
        destruct Hint as (_ & Hb & _). cbn in H2. apply JsFacts.truthy_false in H2. done. }
  destruct p1 as [a|], p2 as [b|]; try done. cbn in H1, H2.
  apply JsFacts.truthy_true in H1, H2.
  rewrite (bool_decide_eq_false_2 (SYSTEM = SCALE)) by done.
  rewrite (bool_decide_eq_true_2 (SYSTEM = SYSTEM)) by done. cbn [andb].
  match goal with
  | |- (if ?g then true else ?s) = true ↔ _ =>
      assert (Hg : g = true ↔
                Exists (λ group, a ∈ group ∧ b ∈ group) (systemGroups (rowPart r CLASS)));
      [|assert (Hs : s = true ↔ synonymOf a b ∨ synonymOf b a);
        [|destruct g, s; split; try done;
          try (intros _; right; right; repeat (split; [done|]); tauto);
          intros [?|[[Hab _]|(_ & _ & Hc)]];
          [done|apply truthyU_absent in Hab; cbn in Hab;
                apply JsFacts.truthy_false in Hab; done|tauto]]]
  end.
  - unfold systemGroups.
    rewrite !orb_true_iff, !andb_true_iff, !JsFacts.strictEq_true, !bothInList_names.
    rewrite !Exists_app, !Exists_cons, Exists_nil.
    destruct (decide (rowPart r CLASS = "UA")) as [Hua|Hua];
      destruct (decide (rowPart r CLASS = "COAG")) as [Hcoag|Hcoag];
      rewrite ?Exists_cons, ?Exists_nil; tauto.
  - unfold synonymOf, synonymsOrEmpty. cbn [default Js.includesU].
    by rewrite orb_true_iff, !JsFacts.includes_true.
Qed.

Lemma specimenCompatible_code m :
  partsCompatible SYSTEM (matchPart0 m SYSTEM) (Some (SPECIMEN_SOURCE row)) (Some row) ||
  partsCompatible SYSTEM (matchPart0 m SYSTEM) (getDefaultSpecimen row) (Some row) = true
  ↔ specimenCompatible m.
Proof.
  unfold specimenCompatible. by rewrite orb_true_iff, !partsCompatible_SYSTEM.
Qed.

Lemma rawUnitEquals_code m :
  Js.truthy (RAW_UNIT row) &&
  Js.strictEq (RAW_UNIT row) (EXAMPLE_UCUM_UNITS (m_info m)) = true ↔ rawUnitEquals m.
Proof.
  unfold rawUnitEquals.
  by rewrite andb_true_iff, JsFacts.truthy_true, JsFacts.strictEq_true.
Qed.

(** The test [countMatchingParts] makes for one part type. *)
Definition countsPart (m : LoincMatch) (part : PartType) : bool :=
  match inferredNames row part with
  | Some (n :: ns) => existsb (λ name, Js.strictEqU (Some name) (matchPart0 m part)) (n :: ns)
  | _ => (negb (Js.truthy (rowPart row part)) && negb (Js.truthyU (matchPart0 m part))) ||
         Js.strictEqU (Some (rowPart row part)) (matchPart0 m part)
  end.

Lemma countsPart_agreesOn m part : countsPart m part = true ↔ agreesOn m part.
Proof.
  unfold countsPart, agreesOn.
  assert (Helse :
    (negb (Js.truthy (rowPart row part)) && negb (Js.truthyU (matchPart0 m part))) ||
    Js.strictEqU (Some (rowPart row part)) (matchPart0 m part) = true ↔
    (rowPart row part = "" ∧ absent (matchPart0 m part)) ∨
    matchPart0 m part = Some (rowPart row part)).
  { rewrite orb_true_iff, andb_true_iff, !negb_true_iff, JsFacts.truthy_false,
      truthyU_absent.
    unfold Js.strictEqU. rewrite bool_decide_eq_true. split.
    - intros [?|?]; [by left|by right].
    - intros [?|?]; [by left|by right]. }
  destruct (inferredNames row part) as [[|n ns]|]; [exact Helse| |exact Helse].
  rewrite existsb_exists, Exists_exists. split.
  - intros (name & Hin & Heq). exists name. split; [by apply list_elem_of_In|].
    unfold Js.strictEqU in Heq. by apply bool_decide_eq_true in Heq.
  - intros (name & Hin & Heq). exists name. split; [by apply list_elem_of_In|].
    unfold Js.strictEqU. by apply bool_decide_eq_true.
Qed.

Lemma countMatchingParts_step m acc parts :
  let counted :=
    foldl (λ acc part,
             match inferredNames row part with
             | Some (n :: ns) =>
                 if existsb (λ name, Js.strictEqU (Some name) (matchPart0 m part)) (n :: ns)
                 then acc + 1 else acc
             | _ =>
                 if (negb (Js.truthy (rowPart row part)) &&
                     negb (Js.truthyU (matchPart0 m part))) ||
                    Js.strictEqU (Some (rowPart row part)) (matchPart0 m part)
                 then acc + 1 else acc
             end)
          acc parts in
  (acc ≤ counted ≤ acc + length parts)%nat ∧
  (counted = (acc + length parts)%nat ↔ Forall (λ part, countsPart m part = true) parts).
Proof.
  cbv zeta. revert acc. induction parts as [|part parts IH]; intros acc; cbn [foldl length].
  - split; [lia|]. split; [constructor|lia].
  - match goal with
    | |- context [foldl ?f ?a parts] =>
        assert (Hstep : a = if countsPart m part then (acc + 1)%nat else acc)
    end.
    { unfold countsPart. by destruct (inferredNames row part) as [[|n ns]|]. }
    rewrite Hstep. destruct (countsPart m part) eqn:Hpart.
    + destruct (IH (acc + 1)%nat) as [Hle Hiff]. split; [lia|].
      rewrite Forall_cons. split.
      * intros Hc. split; [done|]. apply Hiff. lia.
      * intros [_ Hall]. apply Hiff in Hall. lia.
    + destruct (IH acc) as [Hle Hiff]. split; [lia|].
      rewrite Forall_cons. split; [lia|]. intros [Hc _]. congruence.
Qed.

(** The count of the code is seven exactly when the candidate matches
    every one of the seven part types. *)
Lemma countMatchingParts_full m :
  countMatchingParts row m = length PartTypeList ↔ matchesEveryPart m.
Proof.
  unfold countMatchingParts.
  destruct (countMatchingParts_step m 0 PartTypeList) as [_ Hiff]. cbv zeta in Hiff.
  rewrite Nat.add_0_l in Hiff. rewrite Hiff, <- matchesEveryPart_list.
  apply Forall_iff. intros part. apply countsPart_agreesOn.
Qed.

Lemma if_decide {A} (b : bool) (P : Prop) `{Decision P} (x y : A) :
  (b = true ↔ P) → (if b then x else y) = (if decide P then x else y).
Proof.
  intros Hb. destruct b, (decide P) as [HP|HP]; try done.
  - destruct HP. by apply Hb.
  - by apply Hb in HP.
Qed.

(** The score the code computes is the score of the claim, [Math.pow]
    giving 0 for 0 as the language has it. *)
Lemma computeScore_worded m :
  Math_pow 0 0.25 = 0%float →
  computeScore Math_pow row m = scoreAsWorded m.
Proof.
  intros Hpow. unfold computeScore, scoreAsWorded. cbv zeta.
  assert (Htags :
    match m_relaxations m with
    | Some relaxations => (50 - 25 * Math_pow (lengthToNumber relaxations) 0.25)%float
    | None => 50%float
    end = (50 - 25 * Math_pow (lengthToNumber (relaxationTags m)) 0.25)%float).
  { unfold relaxationTags. destruct (m_relaxations m); cbn [default]; [done|].
    change (lengthToNumber []) with 0%float. by rewrite Hpow. }
  rewrite Htags.
  set (s0 := (50 - 25 * Math_pow (lengthToNumber (relaxationTags m)) 0.25)%float).
  rewrite !(if_decide (Js.strictEq (STATUS (m_info m)) "DEPRECATED")
              (STATUS (m_info m) = "DEPRECATED")) by apply JsFacts.strictEq_true.
  set (s1 := if decide (STATUS (m_info m) = "DEPRECATED") then _ else _).
  rewrite !(if_decide (Js.strictEq (STATUS (m_info m)) "DISCOURAGED")
              (STATUS (m_info m) = "DISCOURAGED")) by apply JsFacts.strictEq_true.
  set (s2 := if decide (STATUS (m_info m) = "DISCOURAGED") then _ else _).
  assert (Hwaived :
    (if Js.strictEq (rowPart row SYSTEM) "XXX" &&
        negb (bool_decide (is_Some (inferredNames row SYSTEM)))
     then
       if partsCompatible SYSTEM (matchPart0 m SYSTEM) (Some (SPECIMEN_SOURCE row))
            (Some row) ||
          partsCompatible SYSTEM (matchPart0 m SYSTEM) (getDefaultSpecimen row) (Some row)
       then (s2 + 35)%float else s2
     else s2)
    = if decide (waiverApplies ∧ specimenCompatible m) then (s2 + 35)%float else s2).
  { pose proof waiverApplies_code as Hw. pose proof (specimenCompatible_code m) as Hc.
    destruct (_ && _); destruct (_ || _);
      destruct (decide (waiverApplies ∧ specimenCompatible m)) as [[Hw' Hc']|Hno];
      try done.
    - destruct Hno. split; [by apply Hw|by apply Hc].
    - apply Hc in Hc'. done.
    - apply Hw in Hw'. done.
    - apply Hw in Hw'. done. }
  rewrite Hwaived.
  set (s3 := if decide (waiverApplies ∧ specimenCompatible m) then _ else _).
  rewrite (if_decide _ (rawUnitEquals m) _ _ (rawUnitEquals_code m)).
  set (s4 := if decide (rawUnitEquals m) then _ else _).
  apply if_decide. rewrite bool_decide_eq_true. apply countMatchingParts_full.
Qed.

(** **** Matching every part and the relaxations of the matcher *)

(** A target term covers the record: where it asks for a comparison, its
    names include the names inferred for the record when there are any,
    and else the record's own name, none when the record has none. *)
Definition targetCovers (target : TargetTermParts) : Prop :=
  ∀ part targetNames,
    getPart target part = Some targetNames →
    match inferredNames row part with
    | Some (n :: ns) => n :: ns ⊆ targetNames
    | _ => if decide (rowPart row part = "") then targetNames = []
           else rowPart row part ∈ targetNames
    end.

(** No part array of the candidate starts with the empty name. *)
Definition properParts (m : LoincMatch) : Prop :=
  ∀ part, matchPart0 m part ≠ Some "".

Lemma agreesOn_exactMatch target m part :
  targetCovers target → properParts m → agreesOn m part →
  exactMatch part target (m_info m) = true.
Proof.
  intros Hcovers Hproper Hagrees. unfold exactMatch.
  destruct (getPart target part) as [targetNames|] eqn:Htarget; [|done].
  specialize (Hcovers part targetNames Htarget). unfold agreesOn in Hagrees.
  specialize (Hproper part). unfold matchPart0, Js.first in *.
  set (candidates := getPart (parts (m_info m)) part) in *.
  assert (Hfound : ∀ name, name ∈ targetNames → head candidates = Some name →
            existsb (λ e, Js.includes candidates e) targetNames = true).
  { intros name Hin Hhead. apply existsb_exists. exists name.
    split; [by apply list_elem_of_In|]. apply JsFacts.includes_true.
    destruct candidates as [|c cs]; [done|]. injection Hhead as ->. left. }
  assert (Helse :
    (rowPart row part = "" ∧ absent (head candidates)) ∨
    head candidates = Some (rowPart row part) →
    (if decide (rowPart row part = "") then targetNames = []
     else rowPart row part ∈ targetNames) →
    bool_decide (length targetNames = 0) && bool_decide (length candidates = 0)
    || existsb (λ e, Js.includes candidates e) targetNames = true).
  { intros Hcase Hcov. destruct (decide (rowPart row part = "")) as [Hempty|Hname].
    - subst targetNames. destruct Hcase as [[_ [Hnone|Hsome]]|Hsome]; [|done|].
      + destruct candidates; [done|done].
      + by rewrite Hempty in Hsome.
    - destruct Hcase as [[? _]|Hsome]; [done|].
      rewrite (Hfound _ Hcov Hsome). apply orb_true_r. }
  destruct (inferredNames row part) as [[|n ns]|]; [by apply Helse| |by apply Helse].
  apply Exists_exists in Hagrees as (name & Hin & Hhead).
  rewrite (Hfound name); [apply orb_true_r|by apply Hcovers|done].
Qed.

Lemma matchLoop_exact target C level parts mismatches relaxations :
  (∀ part, part ∈ parts → exactMatch part target C = true) →
  matchLoop row target C level parts mismatches relaxations
  = Some (mismatches, relaxations).
Proof.
  revert relaxations. induction parts as [|part parts IH]; intros relaxations Hall;
    cbn [matchLoop]; [done|].
  unfold matchPart. rewrite (Hall part) by left. cbn. rewrite app_nil_r.
  apply IH. intros part' Hin. apply Hall. by right.
Qed.

(** A candidate that matches every one of the seven part types is accepted
    by the matcher at once, with no relaxation. *)
Lemma matchesEveryPart_accepted target m :
  targetCovers target → properParts m → matchesEveryPart m →
  isAltLoinc row target (m_info m) 0 = Some (mkMatchStatus true None).
Proof.
  intros Hcovers Hproper Hall. rewrite MatcherFacts.isAltLoinc_unfold.
  rewrite (matchLoop_exact target (m_info m) 0 PartTypeList); [done|].
  intros part _. by apply agreesOn_exactMatch.
Qed.


End Scoring.

(** *** A worked record

    A urinalysis record without unit whose name mentions urine while its
    term is one of serum, and the candidate terms the matcher accepts for
    it: a term of urine with the method of the record, a discouraged term
    of urine sediment, accepted as compatible with urine, and a term of
    urine without method, accepted with a relaxation. *)
Definition noUnitRow : Row :=
  mkRow (Some 7%Z) "2753-2" "PH URINE" "" "" ""
    "pH of Serum or Plasma" ""
    (mkParts "UA" "pH" "LsCnc" "Pt" "Ser/Plas" "Qn" "Test strip")
    "" "" "" (Some [(SYSTEM, mkInferredEntry ["Urine"] ["parsed"])]) "" "" ""
    (IssuesList ["SYSTEM"]) "INCORRECT_aj" "" TargetUnset.

Definition urineCandidate (n name status : string) (sys meth : list string)
    (relax : option (list string)) : LoincMatch :=
  mkLoincMatch
    (mkPartsInfo n name status ""
       (mkParts ["UA"] ["pH"] ["LsCnc"] ["Pt"] sys ["Qn"] meth))
    relax [(SYSTEM, Some ["Urine"])] (Some 99999%Z) None.

Definition stripCandidate : LoincMatch :=
  urineCandidate "5803-2" "pH of Urine by Test strip" "ACTIVE"
    ["Urine"] ["Test strip"] None.

Definition sedCandidate : LoincMatch :=
  urineCandidate "50560-2" "pH of Urine sediment by Test strip" "DISCOURAGED"
    ["Urine sed"] ["Test strip"] None.

Definition plainCandidate : LoincMatch :=
  urineCandidate "2756-5" "pH of Urine" "ACTIVE" ["Urine"] [] (Some ["METHOD-empty-ok"]).

(** The target term of the record: the inferred system, and the parts of
    the record's term elsewhere. *)
Definition noUnitTarget : TargetTermParts :=
  mkParts (Some ["UA"]) (Some ["pH"]) (Some ["LsCnc"]) (Some ["Pt"]) (Some ["Urine"])
    (Some ["Qn"]) (Some ["Test strip"]).

(** The three candidates are as the matcher accepts them. *)
Example noUnitRow_accepted :
  Forall (λ m, isAltLoinc noUnitRow noUnitTarget (m_info m) 0
               = Some (mkMatchStatus true (m_relaxations m)))
    [stripCandidate; sedCandidate; plainCandidate].
Proof.
  repeat constructor;
    repeat (rewrite MatcherFacts.isAltLoinc_unfold; vm_compute; try reflexivity).
Qed.

(** A record of glucose of unspecified system, declared of serum, and two
    candidates for it found with the system left out of the comparison. *)
Definition unspecifiedRow : Row :=
  mkRow (Some 8%Z) "2347-3" "GLUCOSE" "mg/dL" "Ser" ""
    "Glucose [Moles/volume] in Unspecified specimen" "mmol/L"
    (mkParts "CHEM" "Glucose" "SCnc" "Pt" "XXX" "Qn" "")
    "" "" "" (Some [(PROPERTY, mkInferredEntry ["MCnc"] ["unit"])]) "" "" "mg/dL"
    (IssuesList ["PROPERTY"]) "INCORRECT_aj" "" TargetUnset.

Definition glucoseCandidate (n name sys : string) : LoincMatch :=
  mkLoincMatch
    (mkPartsInfo n name "ACTIVE" "mg/dL"
       (mkParts ["CHEM"] ["Glucose"] ["MCnc"] ["Pt"] [sys] ["Qn"] []))
    None [(SYSTEM, None); (PROPERTY, Some ["MCnc"])] (Some 99999%Z) None.

Definition serumGlucose : LoincMatch :=
  glucoseCandidate "2345-7" "Glucose [Mass/volume] in Serum or Plasma" "Ser/Plas".

Definition unspecifiedGlucose : LoincMatch :=
  glucoseCandidate "2349-9" "Glucose [Mass/volume] in Unspecified specimen" "XXX".

Example selectBestMatch_cases :
  selectBestMatch powQuarter noUnitRow
      [plainCandidate; sedCandidate; stripCandidate; plainCandidate]
    = (Some (set_score 100 stripCandidate),
       Some [set_score 40 sedCandidate; set_score 25 plainCandidate]) ∧
  selectBestMatch powQuarter unspecifiedRow [serumGlucose; unspecifiedGlucose]
    = (Some (set_score 110 unspecifiedGlucose), Some [set_score 95 serumGlucose]) ∧
  selectBestMatch powQuarter noUnitRow [plainCandidate]
    = (Some plainCandidate, Some []) ∧
  selectBestMatch powQuarter noUnitRow [] = (None, None).
Proof. vm_compute. auto. Qed.

(** The score of the claim on the candidates: 100 for the match on every
    part; 40 for the discouraged term, whose system is compatible with the
    inferred one and not the same; 25 for the term accepted with one
    relaxation; 95 for the term of serum, which gets the 35 and the 10 and
    differs from the record in its system; 110 for the term of unspecified
    system, which gets the 10 and the 50. *)
Example scoreAsWorded_cases :
  map (scoreAsWorded powQuarter noUnitRow) [stripCandidate; sedCandidate; plainCandidate]
    = [100; 40; 25]%float ∧
  map (scoreAsWorded powQuarter unspecifiedRow) [serumGlucose; unspecifiedGlucose]
    = [95; 110]%float ∧
  map (computeScore powQuarter noUnitRow) [stripCandidate; sedCandidate; plainCandidate]
    = [100; 40; 25]%float ∧
  map (computeScore powQuarter unspecifiedRow) [serumGlucose; unspecifiedGlucose]
    = [95; 110]%float.
Proof. vm_compute. auto. Qed.

(** The hypotheses of C5 hold for the candidates of the record found for
    two of its units. *)
Lemma selectBestMatch_sound_witness :
  let allMatches := [plainCandidate; sedCandidate; stripCandidate; plainCandidate] in
  allMatches ≠ [] ∧
  Forall (λ m, is_nan (computeScore powQuarter noUnitRow m) = false) allMatches ∧
  ∃ best rest,
    selectBestMatch powQuarter noUnitRow allMatches = (Some best, Some rest) ∧
    (∀ m, m ∈ allMatches → num m ∈ map (λ c, num c) (best :: rest)) ∧
    (∀ alt, alt ∈ rest →
       ∃ vb va, m_score best = Some vb ∧ m_score alt = Some va ∧
                (va <=? vb)%float = true) ∧
    NoDup (map (λ m, num m) (best :: rest)) ∧
    StronglySorted scoreGe (best :: rest).
Proof.
  assert (Hnan : Forall (λ m, is_nan (computeScore powQuarter noUnitRow m) = false)
                   [plainCandidate; sedCandidate; stripCandidate; plainCandidate]).
  { repeat constructor. }
  split; [discriminate|]. split; [exact Hnan|].
  destruct (selectBestMatch_sound powQuarter noUnitRow
              [plainCandidate; sedCandidate; stripCandidate; plainCandidate])
    as (best & rest & Hsel & _ & Hnums & Hge & Hnd & Hmany); [discriminate|exact Hnan|].
  exists best, rest. split; [exact Hsel|]. split; [exact Hnums|]. split; [exact Hge|].
  split; [exact Hnd|]. apply Hmany. cbn. lia.
Defined.



End SelectorFacts.

(** ** Reasoning about the row-processing code

    [sat I P m]: whatever the row, the computation [m] leaves it in a state
    related to the initial one by [I], and every event it records satisfies
    [P]; both hold whether or not [m] throws. *)
Module EffFacts.
Import PcnRow Eff.

Class RowInv (I : Row → Row → Prop) : Prop := {
  inv_refl : ∀ r, I r r;
  inv_trans : ∀ a b c, I a b → I b c → I a c
}.

Definition sat (I : Row → Row → Prop) (P : Event → Prop) {A} (m : M A) : Prop :=
  ∀ row, I row (finalRow (m row)) ∧ Forall P (trace (m row)).

(** [returns m]: the computation never throws. *)
Definition returns {A} (m : M A) : Prop := ∀ row, is_Some (result (m row)).

Lemma bind_run {A B} (m : M A) (k : A → M B) row :
  (m ≫= k) row =
  match m row with
  | (Some a, row1, ev1) =>
      match k a row1 with (r, row2, ev2) => (r, row2, ev1 ++ ev2) end
  | (None, row1, ev1) => (None, row1, ev1)
  end.
Proof. reflexivity. Qed.

Lemma get_bind_run {B} (k : Row → M B) row : (get ≫= k) row = k row row.
Proof. rewrite bind_run. simpl. by destruct (k row row) as [[r row2] ev2]. Qed.

Lemma ret_bind_run {A B} (a : A) (k : A → M B) row : (mret a ≫= k) row = k a row.
Proof. rewrite bind_run. simpl. by destruct (k a row) as [[r row2] ev2]. Qed.

Lemma modify_bind_run {B} f (k : unit → M B) row :
  (modify f ≫= k) row = k tt (f row).
Proof. rewrite bind_run. simpl. by destruct (k tt (f row)) as [[r row2] ev2]. Qed.

Section Sat.
Context (I : Row → Row → Prop) (P : Event → Prop) `{!RowInv I}.

Lemma sat_ret {A} (a : A) : sat I P (mret a).
Proof. intros row. split; [apply inv_refl|constructor]. Qed.

Lemma sat_throw {A} : sat I P (@throw A).
Proof. intros row. split; [apply inv_refl|constructor]. Qed.

Lemma sat_get : sat I P get.
Proof. intros row. split; [apply inv_refl|constructor]. Qed.

Lemma sat_modify f : (∀ r, I r (f r)) → sat I P (modify f).
Proof. intros Hf row. split; [apply Hf|constructor]. Qed.

Lemma sat_emit e : P e → sat I P (emit e).
Proof. intros He row. split; [apply inv_refl|by repeat constructor]. Qed.

Lemma sat_bind {A B} (m : M A) (k : A → M B) :
  sat I P m → (∀ a, sat I P (k a)) → sat I P (m ≫= k).
Proof.
  intros Hm Hk row. rewrite bind_run.
  destruct (Hm row) as [Hi Hp]. destruct (m row) as [[[a|] row1] ev1]; [|done].
  destruct (Hk a row1) as [Hi' Hp']. destruct (k a row1) as [[r row2] ev2].
  unfold finalRow, trace in *. simpl in *. split.
  - by eapply inv_trans.
  - by apply Forall_app.
Qed.

Lemma sat_setJudgement value :
  P (EvJudgement value) → (∀ r, I r (set_ALGO_JUDGEMENT value r)) →
  sat I P (setJudgement value).
Proof.
  intros Hp Hi. unfold setJudgement. apply sat_bind; [by apply sat_emit|].
  intros _. by apply sat_modify.
Qed.

Lemma sat_forEach {A} (l : list A) (body : A → M unit) :
  (∀ x, sat I P (body x)) → sat I P (forEach l body).
Proof.
  intros Hb. induction l as [|x l IH]; simpl; [apply sat_ret|].
  apply sat_bind; [apply Hb|]. intros _. apply IH.
Qed.

Lemma sat_foldl {A B} (f : M B → A → M B) (l : list A) (init : M B) :
  sat I P init → (∀ acc x, sat I P acc → sat I P (f acc x)) → sat I P (foldl f init l).
Proof.
  intros Hinit Hf. revert init Hinit.
  induction l as [|x l IH]; intros init Hinit; simpl; [done|].
  apply IH. by apply Hf.
Qed.

End Sat.

Lemma sat_weaken (I I' : Row → Row → Prop) (P P' : Event → Prop) {A} (m : M A) :
  (∀ r r', I r r' → I' r r') → (∀ e, P e → P' e) → sat I P m → sat I' P' m.
Proof.
  intros Hi Hp Hm row. destruct (Hm row) as [H1 H2]. split; [by apply Hi|].
  eapply Forall_impl; [exact H2|exact Hp].
Qed.

(** The relation that keeps the value of [f]. *)
Definition keeps {X} (f : Row → X) : Row → Row → Prop := λ r r', f r' = f r.

#[export] Instance keeps_inv {X} (f : Row → X) : RowInv (keeps f).
Proof. split; unfold keeps; [done|congruence]. Qed.

Definition anyRow : Row → Row → Prop := λ _ _, True.

#[export] Instance anyRow_inv : RowInv anyRow.
Proof. by split. Qed.

Definition anyEvent : Event → Prop := λ _, True.

(** *** Computations that return

    [hoare Pre m Post Ev]: from a row that satisfies [Pre], the computation
    [m] does not throw, its result and the row it leaves satisfy [Post], and
    the events it records satisfy [Ev]. *)
Definition hoare {A} (Pre : Row → Prop) (m : M A) (Post : A → Row → Prop)
    (Ev : Event → Prop) : Prop :=
  ∀ row, Pre row →
    ∃ a row' ev, m row = (Some a, row', ev) ∧ Post a row' ∧ Forall Ev ev.

Lemma hoare_ret {A} (Pre : Row → Prop) (a : A) (Post : A → Row → Prop) Ev :
  (∀ r, Pre r → Post a r) → hoare Pre (mret a) Post Ev.
Proof. intros H row Hpre. exists a, row, []. by repeat split; [apply H|]. Qed.

Lemma hoare_get (Pre : Row → Prop) (Post : Row → Row → Prop) Ev :
  (∀ r, Pre r → Post r r) → hoare Pre get Post Ev.
Proof. intros H row Hpre. exists row, row, []. by repeat split; [apply H|]. Qed.

Lemma hoare_modify (Pre : Row → Prop) f (Post : unit → Row → Prop) Ev :
  (∀ r, Pre r → Post tt (f r)) → hoare Pre (modify f) Post Ev.
Proof. intros H row Hpre. exists tt, (f row), []. by repeat split; [apply H|]. Qed.

Lemma hoare_emit (Pre : Row → Prop) e (Post : unit → Row → Prop) (Ev : Event → Prop) :
  Ev e → (∀ r, Pre r → Post tt r) → hoare Pre (emit e) Post Ev.
Proof.
  intros He H row Hpre. exists tt, row, [e].
  repeat split; [by apply H|by repeat constructor].
Qed.

Lemma hoare_bind {A B} (Pre : Row → Prop) (m : M A) (Mid : A → Row → Prop)
    (k : A → M B) (Post : B → Row → Prop) Ev :
  hoare Pre m Mid Ev → (∀ a, hoare (Mid a) (k a) Post Ev) → hoare Pre (m ≫= k) Post Ev.
Proof.
  intros Hm Hk row Hpre. destruct (Hm row Hpre) as (a & row1 & ev1 & Hrun & Hmid & Hev1).
  destruct (Hk a row1 Hmid) as (b & row2 & ev2 & Hrun' & Hpost & Hev2).
  exists b, row2, (ev1 ++ ev2). rewrite bind_run, Hrun, Hrun'.
  repeat split; [done|by apply Forall_app].
Qed.

Lemma hoare_conseq {A} (Pre Pre' : Row → Prop) (m : M A) (Post Post' : A → Row → Prop)
    (Ev Ev' : Event → Prop) :
  (∀ r, Pre' r → Pre r) → (∀ a r, Post a r → Post' a r) → (∀ e, Ev e → Ev' e) →
  hoare Pre m Post Ev → hoare Pre' m Post' Ev'.
Proof.
  intros Hpre Hpost Hev Hm row Hrow.
  destruct (Hm row (Hpre row Hrow)) as (a & row' & ev & Hrun & Hp & He).
  exists a, row', ev. repeat split; [done|by apply Hpost|].
  eapply Forall_impl; [exact He|exact Hev].
Qed.

Lemma hoare_setJudgement (Pre : Row → Prop) value (Post : unit → Row → Prop)
    (Ev : Event → Prop) :
  Ev (EvJudgement value) → (∀ r, Pre r → Post tt (set_ALGO_JUDGEMENT value r)) →
  hoare Pre (setJudgement value) Post Ev.
Proof.
  intros He H. unfold setJudgement.
  apply (hoare_bind _ _ (λ _, Pre)); [by apply hoare_emit|].
  intros []. by apply hoare_modify.
Qed.

(** A computation that keeps [Inv] and returns. *)
Definition keepsInv (Inv : Row → Prop) {A} (m : M A) : Prop :=
  hoare Inv m (λ _, Inv) anyEvent.

Lemma keepsInv_bind (Inv : Row → Prop) {A B} (m : M A) (k : A → M B) :
  keepsInv Inv m → (∀ a, keepsInv Inv (k a)) → keepsInv Inv (m ≫= k).
Proof. intros Hm Hk. eapply hoare_bind; [exact Hm|exact Hk]. Qed.

Lemma keepsInv_ret (Inv : Row → Prop) {A} (a : A) : keepsInv Inv (mret a).
Proof. by apply hoare_ret. Qed.

Lemma keepsInv_get (Inv : Row → Prop) : keepsInv Inv get.
Proof. by apply hoare_get. Qed.

Lemma keepsInv_modify (Inv : Row → Prop) f :
  (∀ r, Inv r → Inv (f r)) → keepsInv Inv (modify f).
Proof. intros H. by apply hoare_modify. Qed.

Lemma keepsInv_emit (Inv : Row → Prop) e : keepsInv Inv (emit e).
Proof. by apply hoare_emit. Qed.

Lemma keepsInv_setJudgement (Inv : Row → Prop) value :
  (∀ r, Inv r → Inv (set_ALGO_JUDGEMENT value r)) → keepsInv Inv (setJudgement value).
Proof. intros H. by apply hoare_setJudgement. Qed.

Lemma keepsInv_forEach (Inv : Row → Prop) {A} (l : list A) (body : A → M unit) :
  (∀ x, keepsInv Inv (body x)) → keepsInv Inv (forEach l body).
Proof.
  intros Hb. induction l as [|x l IH]; simpl; [apply keepsInv_ret|].
  apply keepsInv_bind; [apply Hb|]. intros _. apply IH.
Qed.

Lemma keepsInv_foldl (Inv : Row → Prop) {A B} (f : M B → A → M B) (l : list A)
    (init : M B) :
  keepsInv Inv init → (∀ acc x, keepsInv Inv acc → keepsInv Inv (f acc x)) →
  keepsInv Inv (foldl f init l).
Proof.
  intros Hinit Hf. revert init Hinit.
  induction l as [|x l IH]; intros init Hinit; simpl; [done|].
  apply IH. by apply Hf.
Qed.

Ltac keeps_step :=
  lazymatch goal with
  | |- keepsInv _ (mbind _ _) => apply keepsInv_bind; [|intros ?]
  | |- keepsInv _ (mret _) => apply keepsInv_ret
  | |- keepsInv _ get => apply keepsInv_get
  | |- keepsInv _ (emit _) => apply keepsInv_emit
  | |- keepsInv _ (forEach _ _) => apply keepsInv_forEach; intros ?
  | |- keepsInv _ (foldl _ _ _) => apply keepsInv_foldl; [|intros ? ? ?]
  | |- keepsInv _ (match ?x with _ => _ end) => destruct x eqn:?
  end.

(** *** Runs

    [runs m row a row' Ev]: from [row] the computation returns [a] and
    leaves [row'], recording events that satisfy [Ev]. *)
Definition runs {A} (m : M A) (row : Row) (a : A) (row' : Row) (Ev : Event → Prop)
    : Prop :=
  ∃ ev, m row = (Some a, row', ev) ∧ Forall Ev ev.

Lemma runs_ret {A} (a : A) row Ev : runs (mret a) row a row Ev.
Proof. by exists []. Qed.

Lemma runs_get row Ev : runs get row row row Ev.
Proof. by exists []. Qed.

Lemma runs_modify f row Ev : runs (modify f) row tt (f row) Ev.
Proof. by exists []. Qed.

Lemma runs_emit e row (Ev : Event → Prop) : Ev e → runs (emit e) row tt row Ev.
Proof. intros He. exists [e]. split; [done|by repeat constructor]. Qed.

Lemma runs_bind {A B} (m : M A) (k : A → M B) row a row1 b row2 Ev :
  runs m row a row1 Ev → runs (k a) row1 b row2 Ev → runs (m ≫= k) row b row2 Ev.
Proof.
  intros (ev1 & Hm & He1) (ev2 & Hk & He2). exists (ev1 ++ ev2).
  rewrite bind_run, Hm, Hk. split; [done|by apply Forall_app].
Qed.

Lemma runs_setJudgement value row (Ev : Event → Prop) :
  Ev (EvJudgement value) →
  runs (setJudgement value) row tt (set_ALGO_JUDGEMENT value row) Ev.
Proof.
  intros He. unfold setJudgement. eapply runs_bind; [by apply runs_emit|].
  apply runs_modify.
Qed.

Lemma runs_result {A} (m : M A) row a row' Ev :
  runs m row a row' Ev →
  result (m row) = Some a ∧ finalRow (m row) = row' ∧ Forall Ev (trace (m row)).
Proof. intros (ev & -> & He). done. Qed.

Ltac runs_step :=
  lazymatch goal with
  | |- runs (mbind _ _) _ _ _ _ => eapply runs_bind
  | |- runs (mret _) _ _ _ _ => apply runs_ret
  | |- runs get _ _ _ _ => apply runs_get
  | |- runs (modify _) _ _ _ _ => apply runs_modify
  | |- runs (emit _) _ _ _ _ => apply runs_emit
  | |- runs (setJudgement _) _ _ _ _ => apply runs_setJudgement
  end.

(** *** Traces in two phases

    [phased P1 P2 m]: the events [m] records are events that satisfy [P1]
    followed by events that satisfy [P2]. *)
Definition phased (P1 P2 : Event → Prop) {A} (m : M A) : Prop :=
  ∀ row, ∃ t1 t2, trace (m row) = t1 ++ t2 ∧ Forall P1 t1 ∧ Forall P2 t2.

Lemma phased_first (P1 P2 : Event → Prop) {A} (m : M A) :
  sat anyRow P1 m → phased P1 P2 m.
Proof.
  intros Hm row. destruct (Hm row) as [_ H]. exists (trace (m row)), [].
  by rewrite app_nil_r.
Qed.

Lemma phased_second (P1 P2 : Event → Prop) {A} (m : M A) :
  sat anyRow P2 m → phased P1 P2 m.
Proof. intros Hm row. destruct (Hm row) as [_ H]. by exists [], (trace (m row)). Qed.

Lemma phased_bind_first (P1 P2 : Event → Prop) {A B} (m : M A) (k : A → M B) :
  sat anyRow P1 m → (∀ a, phased P1 P2 (k a)) → phased P1 P2 (m ≫= k).
Proof.
  intros Hm Hk row. rewrite bind_run. destruct (Hm row) as [_ H1].
  destruct (m row) as [[[a|] row1] ev1]; unfold trace in *; simpl in *.
  - destruct (Hk a row1) as (t1 & t2 & Heq & Ht1 & Ht2).
    destruct (k a row1) as [[r row2] ev2]. unfold trace in *. simpl in *.
    exists (ev1 ++ t1), t2. rewrite Heq, app_assoc. by rewrite Forall_app.
  - exists ev1, []. by rewrite app_nil_r.
Qed.

Lemma phased_bind_second (P1 P2 : Event → Prop) {A B} (m : M A) (k : A → M B) :
  phased P1 P2 m → (∀ a, sat anyRow P2 (k a)) → phased P1 P2 (m ≫= k).
Proof.
  intros Hm Hk row. rewrite bind_run. destruct (Hm row) as (t1 & t2 & Heq & Ht1 & Ht2).
  destruct (m row) as [[[a|] row1] ev1]; unfold trace in *; simpl in *.
  - destruct (Hk a row1) as [_ H2].
    destruct (k a row1) as [[r row2] ev2]. unfold trace in *. simpl in *.
    exists t1, (t2 ++ ev2). rewrite Heq, app_assoc. by rewrite Forall_app.
  - by exists t1, t2.
Qed.

(** In a trace in two phases, what follows an event that the first phase
    excludes belongs to the second phase. *)
Lemma phased_after (P1 P2 : Event → Prop) (t1 t2 pre post : list Event) e :
  t1 ++ t2 = pre ++ e :: post → Forall P1 t1 → Forall P2 t2 → ¬ P1 e → Forall P2 post.
Proof.
  revert pre. induction t1 as [|x t1 IH]; intros pre Heq H1 H2 Hne; simpl in *.
  - subst t2. apply Forall_app in H2 as [_ H2]. by apply Forall_cons in H2 as [_ H2].
  - apply Forall_cons in H1 as [Hx H1]. destruct pre as [|y pre]; simpl in *.
    + injection Heq as -> _. done.
    + injection Heq as _ Heq. by eapply IH.
Qed.

(** One step of a proof of [sat]: the shape of the computation is followed. *)
Ltac sat_step :=
  lazymatch goal with
  | |- sat _ _ (mbind _ _) => apply sat_bind; try tc_solve; [|intros ?]
  | |- sat _ _ (mret _) => apply sat_ret; tc_solve
  | |- sat _ _ throw => apply sat_throw; tc_solve
  | |- sat _ _ get => apply sat_get; tc_solve
  | |- sat _ _ (forEach _ _) => apply sat_forEach; try tc_solve; intros ?
  | |- sat _ _ (foldl _ _ _) => apply sat_foldl; try tc_solve; [|intros ? ? ?]
  | |- sat _ _ (match ?x with _ => _ end) => destruct x eqn:?
  end.

End EffFacts.

(** ** Facts about the inference engine of [PcornetValidationMgr] *)
Module InferenceFacts.
Import LoincUtils LoincPartSynonyms PcnRow LabNameParser Eff Globals.
Import PcornetValidationMgr EffFacts.

(** What the checks of the inference engine do to a row and record: they
    assign the mapping issues and the judgement ["INCORRECT_aj"]. *)
Class AllowsIssue (I : Row → Row → Prop) (P : Event → Prop) : Prop := {
  allow_issues : ∀ r v, I r (set_ALGO_MAPPING_ISSUES v r);
  allow_incorrect : ∀ r, I r (set_ALGO_JUDGEMENT "INCORRECT_aj" r);
  allow_event_incorrect : P (EvJudgement "INCORRECT_aj")
}.

(** What the rest of the engine does: it assigns the inferred parts and
    their two renderings. *)
Class AllowsInference (I : Row → Row → Prop) (P : Event → Prop) : Prop := {
  allow_inferred : ∀ r v, I r (set_inferred v r);
  allow_inferred_parts : ∀ r v, I r (set_inferred_parts v r);
  allow_parsed_parts : ∀ r v, I r (set_parsed_parts v r);
  allow_event_infer : P EvInferAndValidate
}.

Ltac issue_leaf :=
  first
    [ apply sat_modify; try tc_solve; intros; apply allow_issues
    | apply sat_setJudgement; try tc_solve;
      [apply allow_event_incorrect | apply allow_incorrect] ].

Ltac inf_leaf :=
  first
    [ issue_leaf
    | apply sat_modify; try tc_solve; intros;
      first [ apply allow_inferred | apply allow_inferred_parts | apply allow_parsed_parts ]
    | apply sat_emit; try tc_solve; apply allow_event_infer ].

Section Issues.
Context (I : Row → Row → Prop) (P : Event → Prop).
Context `{!RowInv I} `{!AllowsIssue I P}.

Lemma addRowUpdates_sat newValues : sat I P (addRowUpdates newValues).
Proof. unfold addRowUpdates. repeat first [sat_step | issue_leaf]. Qed.

Lemma addAlgoMappingIssue_sat type confidence :
  sat I P (addAlgoMappingIssue type confidence).
Proof. apply addRowUpdates_sat. Qed.

Lemma addAlgoIssueAndJudgementIfPartsDisagree_sat partType names confidence absenceOK :
  sat I P (addAlgoIssueAndJudgementIfPartsDisagree partType names confidence absenceOK).
Proof.
  unfold addAlgoIssueAndJudgementIfPartsDisagree.
  repeat first [apply addAlgoMappingIssue_sat | sat_step | issue_leaf].
Qed.

End Issues.

Section Inference.
Context (env : Env) (I : Row → Row → Prop) (P : Event → Prop).
Context `{!RowInv I} `{!AllowsIssue I P} `{!AllowsInference I P}.

Lemma addInferredLoincParts_sat loincPart newPartNames inferType :
  sat I P (addInferredLoincParts loincPart newPartNames inferType).
Proof. unfold addInferredLoincParts. repeat first [sat_step | inf_leaf]. Qed.

Ltac inf_step :=
  first [ apply addAlgoMappingIssue_sat; tc_solve
        | apply addInferredLoincParts_sat
        | apply addAlgoIssueAndJudgementIfPartsDisagree_sat; tc_solve
        | sat_step | inf_leaf ].

Lemma inferComponentByModifier_sat : sat I P (inferComponentByModifier env).
Proof. unfold inferComponentByModifier. repeat inf_step. Qed.

Lemma inferLoincSystem_sat : sat I P inferLoincSystem.
Proof. unfold inferLoincSystem. repeat inf_step. Qed.

Lemma inferLoincTime_sat : sat I P inferLoincTime.
Proof. unfold inferLoincTime. repeat inf_step. Qed.

Lemma inferScaleAndProperty_sat altUnits unitProperties :
  sat I P (inferScaleAndProperty env altUnits unitProperties).
Proof. unfold inferScaleAndProperty. repeat inf_step. Qed.

Lemma inferWithHfpLpf_sat altUnits unitProperties :
  sat I P (inferWithHfpLpf altUnits unitProperties).
Proof. unfold inferWithHfpLpf. repeat inf_step. Qed.

Lemma inferLoincPartsUAxPF_sat : sat I P inferLoincPartsUAxPF.
Proof. unfold inferLoincPartsUAxPF. repeat inf_step. Qed.

Lemma inferLoincPartsCDxAntibody_sat : sat I P inferLoincPartsCDxAntibody.
Proof. unfold inferLoincPartsCDxAntibody. repeat inf_step. Qed.

Lemma combineInferredParts_sat : sat I P combineInferredParts.
Proof. unfold combineInferredParts. repeat inf_step. Qed.

(** The guard of the assignment of ["CORRECT_aj"] compares a boolean with
    a string and never holds. *)
Lemma inferAndValidate_sat altUnits rowNum :
  sat I P (inferAndValidate env altUnits rowNum).
Proof.
  unfold inferAndValidate.
  repeat first
    [ apply inferComponentByModifier_sat | apply inferLoincSystem_sat
    | apply inferLoincTime_sat | apply inferScaleAndProperty_sat
    | apply inferWithHfpLpf_sat | apply inferLoincPartsUAxPF_sat
    | apply inferLoincPartsCDxAntibody_sat | apply combineInferredParts_sat
    | inf_step ].
  cbn in *. discriminate.
Qed.

End Inference.

(** *** The inferred parts *)

(** The names [addInferredLoincParts] pushes to an entry. *)
Definition addNames (inferType : string) (e : InferredEntry) (newPartNames : list string)
    : InferredEntry :=
  foldl (λ e partName,
           if Js.includes (names e) partName then e
           else mkInferredEntry (names e ++ [partName]) (types e ++ [inferType]))
        e newPartNames.
Arguments addNames : simpl never.

Lemma addInferredLoincParts_run loincPart partName rest inferType row :
  addInferredLoincParts loincPart (partName :: rest) inferType row =
  (Some tt,
   set_inferred
     (Some (assocSet loincPart
              (addNames inferType
                 (default (mkInferredEntry [] []) (inferredEntry row loincPart))
                 (partName :: rest))
              (default [] (inferred row))))
     row,
   []).
Proof. reflexivity. Qed.

Lemma find_assocSet {A} (key key' : PartType) (value : A) obj :
  snd <$> find (λ e, bool_decide (fst e = key')) (assocSet key value obj) =
  if decide (key = key') then Some value
  else snd <$> find (λ e, bool_decide (fst e = key')) obj.
Proof.
  induction obj as [|[k v] obj IH]; simpl.
  - case_decide as Hk; [by rewrite bool_decide_eq_true_2|by rewrite bool_decide_eq_false_2].
  - destruct (decide (k = key)) as [->|Hne]; simpl.
    + case_decide as Hk; [by rewrite bool_decide_eq_true_2|by rewrite bool_decide_eq_false_2].
    + destruct (bool_decide (k = key')) eqn:Hk'; simpl.
      * apply bool_decide_eq_true in Hk' as ->. by rewrite decide_False.
      * apply IH.
Qed.

Lemma inferredEntry_set_inferred obj row pt :
  inferredEntry (set_inferred (Some obj) row) pt =
  snd <$> find (λ e, bool_decide (fst e = pt)) obj.
Proof. reflexivity. Qed.

Lemma elem_of_addNames inferType e l name :
  name ∈ names (addNames inferType e l) ↔ name ∈ names e ∨ name ∈ l.
Proof.
  unfold addNames. revert e. induction l as [|x l IH]; intros e; simpl.
  - split; [by left|]. intros [H|H]; [done|by apply elem_of_nil in H].
  - rewrite IH, elem_of_cons. destruct (Js.includes (names e) x) eqn:Hx; simpl.
    + apply JsFacts.includes_true in Hx. split; [tauto|].
      intros [H|[->|H]]; tauto.
    + rewrite elem_of_app, list_elem_of_singleton. tauto.
Qed.

Lemma addNames_prefix inferType e l : names e `prefix_of` names (addNames inferType e l).
Proof.
  unfold addNames. revert e. induction l as [|x l IH]; intros e; simpl; [done|].
  etrans; [|apply IH]. destruct (Js.includes (names e) x); simpl; [done|].
  by apply prefix_app_r.
Qed.

(** An entry is well formed when its names are distinct and each has its
    type. *)
Definition wfEntry (e : InferredEntry) : Prop :=
  NoDup (names e) ∧ length (names e) = length (types e).

Lemma addNames_wf inferType e l : wfEntry e → wfEntry (addNames inferType e l).
Proof.
  unfold addNames. revert e. induction l as [|x l IH]; intros e He; simpl; [done|].
  apply IH. destruct (Js.includes (names e) x) eqn:Hx; [done|].
  destruct He as [Hnd Hlen]. split; simpl.
  - apply NoDup_app. split; [done|]. split; [|apply NoDup_singleton].
    intros y Hy Hy'. apply list_elem_of_singleton in Hy' as ->.
    apply JsFacts.includes_true in Hy. congruence.
  - rewrite !length_app. simpl. lia.
Qed.

(** *** The component inferred from the modifiers *)

Lemma hasLoincWithPart_spec loincs pt name :
  hasLoincWithPart (getLoincTableUtil loincs) pt name = true ↔
  (∃ loinc rec, loincToParts (getLoincTableUtil loincs) !! loinc = Some rec ∧
                partValue rec pt = name) ∨
  Js.inherited name = true.
Proof.
  unfold hasLoincWithPart, Js.getProp.
  pose proof (LoincUtilsFacts.indexed_is_Some loincs pt name) as Hidx.
  destruct (getPart (loincPartIndexex (getLoincTableUtil loincs)) pt !! name) as [s|].
  - split; [|done]. intros _. left. apply Hidx. by eexists.
  - destruct (Js.inherited name); split; try done; [by right|].
    intros [Hcarried|Hmember]; [|done]. apply Hidx in Hcarried. by destruct Hcarried.
Qed.

(** The names of a part type that a step has added to the inferred parts. *)
Definition namesOf (row : Row) (pt : PartType) : list string :=
  default [] (inferredNames row pt).

(** The component names of the row are those of the initial row and
    [component]. *)
Definition addsOnly (component : string) : Row → Row → Prop :=
  λ r r', ∀ name, name ∈ namesOf r' COMPONENT → name ∈ namesOf r COMPONENT ∨ name = component.

#[local] Instance addsOnly_inv component : RowInv (addsOnly component).
Proof.
  split; unfold addsOnly.
  - intros r name. by left.
  - intros a b c Hab Hbc name Hn. destruct (Hbc name Hn) as [H| ->]; [|by right].
    by apply Hab.
Qed.

#[local] Instance addsOnly_issue component : AllowsIssue (addsOnly component) anyEvent.
Proof. split; [intros r v name|intros r name|done]; by left. Qed.

Lemma addInferredLoincParts_addsOnly component :
  sat (addsOnly component) anyEvent (addInferredLoincParts COMPONENT [component] "inferred").
Proof.
  intros row. rewrite addInferredLoincParts_run. unfold finalRow, trace. simpl.
  split; [|constructor]. intros name. unfold namesOf, inferredNames.
  rewrite inferredEntry_set_inferred, find_assocSet, decide_True by done. simpl.
  rewrite elem_of_addNames, list_elem_of_singleton.
  intros [H|H]; [left|by right]. by destruct (inferredEntry row COMPONENT).
Qed.

(** The checks that follow an inference leave the inferred parts as they
    are. *)
Definition sameInferred : Row → Row → Prop := λ r r', inferred r' = inferred r.

#[local] Instance sameInferred_inv : RowInv sameInferred.
Proof. split; unfold sameInferred; [done|]. intros a b c Hab Hbc. congruence. Qed.

#[local] Instance sameInferred_issue : AllowsIssue sameInferred anyEvent.
Proof. by split. Qed.

(** C9.  What the component-modifier inference adds to the inferred parts
    of a record, the part index being that of a loaded catalogue.  A
    COMPONENT name it adds is the COMPONENT of some entry of the catalogue,
    or the name of a member of [Object.prototype].  A component built by
    adding or removing a modifier that no entry carries is discarded,
    unless it is such a name: then it is added, though no entry carries it
    and the function is documented to record a component only if it exists
    in the table. *)
Theorem inferComponentByModifier_adds (loincs : list LoincRow) (env : Env) (row : Row) :
  loincTableUtil env = getLoincTableUtil loincs →
  let out := inferComponentByModifier env row in
  let carried name :=
    ∃ loinc rec, loincToParts (getLoincTableUtil loincs) !! loinc = Some rec ∧
                 partValue rec COMPONENT = name in
  (∀ name, name ∈ namesOf (finalRow out) COMPONENT → name ∉ namesOf row COMPONENT →
     carried name ∨ Js.inherited name = true) ∧
  (∀ component,
     adj_component (getAdjustedComponentByModifier row) = Some component →
     ¬ carried component → Js.inherited component = false →
     out = (Some tt, row, [])) ∧
  (∀ component,
     adj_component (getAdjustedComponentByModifier row) = Some component →
     Js.inherited component = true →
     component ∈ namesOf (finalRow out) COMPONENT).
Proof.
  intros Henv out carried. subst out. unfold inferComponentByModifier.
  rewrite get_bind_run, Henv.
  destruct (adj_component (getAdjustedComponentByModifier row)) as [component|];
    [|split; [by intros name Hin Hnot|done]].
  destruct (Js.truthy component) eqn:Htruthy.
  2:{ apply JsFacts.truthy_false in Htruthy as ->.
      split; [by intros name Hin Hnot|]. split; [done|]. by intros c [= <-]. }
  destruct (hasLoincWithPart (getLoincTableUtil loincs) COMPONENT component) eqn:Hhas.
  - apply hasLoincWithPart_spec in Hhas. split; [|split].
    + intros name Hin Hnot.
      assert (Hsat : sat (addsOnly component) anyEvent
                (addInferredLoincParts COMPONENT [component] "inferred" ;;
                 addAlgoIssueAndJudgementIfPartsDisagree COMPONENT [component] (8 # 10) true ;;
                 mret tt)).
      { apply sat_bind; [tc_solve|apply addInferredLoincParts_addsOnly|]. intros _.
        apply sat_bind; [tc_solve| |intros _; apply sat_ret; tc_solve].
        apply addAlgoIssueAndJudgementIfPartsDisagree_sat; tc_solve. }
      destruct (Hsat row) as [Hadds _]. destruct (Hadds name Hin) as [H| ->]; done.
    + intros c [= <-] Hnone Hplain. destruct Hhas as [Hcarried|Hmember]; [done|congruence].
    + intros c [= <-] _. rewrite bind_run, addInferredLoincParts_run.
      assert (Hsat : sat sameInferred anyEvent
                (addAlgoIssueAndJudgementIfPartsDisagree COMPONENT [component] (8 # 10) true ;;
                 mret tt)).
      { apply sat_bind; [tc_solve| |intros _; apply sat_ret; tc_solve].
        apply addAlgoIssueAndJudgementIfPartsDisagree_sat; tc_solve. }
      match goal with
      | |- context [(?m ≫= ?k) ?r] =>
          destruct (Hsat r) as [Hsame _]; destruct ((m ≫= k) r) as [[res r'] ev]
      end.
      unfold finalRow in *. simpl in *. unfold namesOf, inferredNames, inferredEntry.
      rewrite Hsame. simpl. rewrite find_assocSet, decide_True by done. simpl.
      apply elem_of_addNames. right. by left.
  - split; [by intros name Hin Hnot|]. split; [done|].
    intros c [= <-] Hmember. apply not_true_iff_false in Hhas. destruct Hhas.
    apply hasLoincWithPart_spec. by right.
Qed.

End InferenceFacts.

(** ** Facts about the passes of [Suggester] *)
Module SuggesterFacts.
Import LoincUtils LoincPartSynonyms PcnRow LabNameParser Eff Globals.
Import PcornetValidationMgr Matcher Selector Suggester EffFacts InferenceFacts.

(** The values [getInitialRowStatus] returns. *)
Definition initialStatuses : list string :=
  ["WACKO_INVALID_LOINC"; "WACKO_NUMERIC_RAW_NAME"; "NON_QN"; "CORRECT_aj"].

Lemma getInitialRowStatus_range loincToParts row :
  getInitialRowStatus loincToParts row ∈ initialStatuses.
Proof.
  unfold getInitialRowStatus, initialStatuses.
  repeat match goal with |- context [if ?b then _ else _] => destruct b end;
    set_solver.
Qed.

(** What the first pass does to a row and records. *)
Class AllowsPrepare (I : Row → Row → Prop) (P : Event → Prop) : Prop := {
  allow_ROW_NUM : ∀ r v, I r (set_ROW_NUM v r);
  allow_loincColumns : ∀ r a b c, I r (set_loincColumns a b c r);
  allow_clear : ∀ r, I r (clearComputedFields r);
  allow_SPECIMEN_SOURCE : ∀ r v, I r (set_SPECIMEN_SOURCE v r);
  allow_ucum_converted : ∀ r v, I r (set_ucum_converted v r);
  allow_initial : ∀ r v, v ∈ initialStatuses → I r (set_ALGO_JUDGEMENT v r);
  allow_event_clear : P (EvJudgement "");
  allow_event_initial : ∀ v, v ∈ initialStatuses → P (EvJudgement v)
}.

(** What the second and third passes do to a row and record. *)
Class AllowsSuggest (I : Row → Row → Prop) (P : Event → Prop) : Prop := {
  allow_TARGET_TERM : ∀ r v, I r (set_TARGET_TERM v r);
  allow_SGG : ∀ r a b c, I r (set_SGG a b c r);
  allow_RULE_RELAXED_BY : ∀ r v, I r (set_RULE_RELAXED_BY v r);
  allow_issues_text : ∀ r v, I r (set_ALGO_MAPPING_ISSUES (IssuesText v) r);
  allow_fixed : ∀ r, I r (set_ALGO_JUDGEMENT "FIXED" r);
  allow_event_fixed : P (EvJudgement "FIXED");
  allow_event_replace : P EvReplaceAndFind
}.

Ltac prepare_leaf :=
  first
    [ apply sat_modify; try tc_solve; intros;
      first [ apply allow_ROW_NUM | apply allow_loincColumns | apply allow_clear
            | apply allow_SPECIMEN_SOURCE | apply allow_ucum_converted ]
    | apply sat_emit; try tc_solve; apply allow_event_clear
    | apply sat_setJudgement; try tc_solve;
      [ apply allow_event_initial, getInitialRowStatus_range
      | intros; apply allow_initial, getInitialRowStatus_range ] ].

Ltac suggest_leaf :=
  first
    [ assumption
    | apply sat_modify; try tc_solve; intros;
      first [ apply allow_TARGET_TERM | apply allow_SGG | apply allow_RULE_RELAXED_BY
            | apply allow_issues_text ]
    | apply sat_emit; try tc_solve; apply allow_event_replace
    | apply sat_setJudgement; try tc_solve; [apply allow_event_fixed | apply allow_fixed] ].

Section Passes.
Context (env : Env) (Math_pow : float → float → float).
Context (setOrder : gset string → list string).

Section Prepare.
Context (I : Row → Row → Prop) (P : Event → Prop).
Context `{!RowInv I} `{!AllowsPrepare I P}.

Lemma addLoincPartsFillMissingColumns_sat loincToParts index :
  sat I P (addLoincPartsFillMissingColumns loincToParts index).
Proof.
  unfold addLoincPartsFillMissingColumns. repeat first [sat_step | prepare_leaf].
Qed.

Lemma normalizeSPECIMEN_SOURCE_sat : sat I P (normalizeSPECIMEN_SOURCE env).
Proof. unfold normalizeSPECIMEN_SOURCE. repeat first [sat_step | prepare_leaf]. Qed.

Lemma convertToUcum_sat : sat I P (convertToUcum env).
Proof. unfold convertToUcum. repeat first [sat_step | prepare_leaf]. Qed.

Lemma preProcessRow_sat `{!AllowsIssue I P} `{!AllowsInference I P} loincToParts rowNum :
  sat I P (preProcessRow env loincToParts rowNum).
Proof.
  unfold preProcessRow.
  repeat first [ apply normalizeSPECIMEN_SOURCE_sat | apply convertToUcum_sat
               | apply inferAndValidate_sat; tc_solve | sat_step | prepare_leaf ].
Qed.

End Prepare.

Section Suggest.
Context (I : Row → Row → Prop) (P : Event → Prop).
Context `{!RowInv I} `{!AllowsSuggest I P}.

Lemma pushTargetTerm_sat targetTerm : sat I P (pushTargetTerm targetTerm).
Proof. unfold pushTargetTerm. repeat first [sat_step | suggest_leaf]. Qed.

Lemma replaceAndFind_sat loincToParts loinc replacementParts rule :
  sat I P (replaceAndFind env setOrder loincToParts loinc replacementParts rule).
Proof. unfold replaceAndFind. repeat first [sat_step | suggest_leaf]. Qed.

Lemma executeGeneralRule_sat loincToParts rule recLnParts :
  sat I P (executeGeneralRule env setOrder loincToParts rule recLnParts).
Proof.
  unfold executeGeneralRule.
  repeat first [apply replaceAndFind_sat | sat_step | suggest_leaf].
Qed.

Lemma executeRulesForRecord_sat loincToParts recLnParts unit unitProperties rules :
  sat I P (executeRulesForRecord env setOrder loincToParts recLnParts unit
             unitProperties rules).
Proof.
  unfold executeRulesForRecord.
  repeat first [ apply executeGeneralRule_sat | apply pushTargetTerm_sat
               | sat_step | suggest_leaf ].
Qed.

Lemma executeRulesRow_sat loincToParts rules rowNum :
  sat I P (executeRulesRow env Math_pow setOrder loincToParts rules rowNum).
Proof.
  unfold executeRulesRow.
  repeat first [apply executeRulesForRecord_sat | sat_step | suggest_leaf].
Qed.

Lemma reformatValuesToString_sat : sat I P reformatValuesToString.
Proof. unfold reformatValuesToString. repeat first [sat_step | suggest_leaf]. Qed.

End Suggest.

Lemma processRow_sat (I : Row → Row → Prop) (P : Event → Prop)
    `{!RowInv I} `{!AllowsPrepare I P} `{!AllowsIssue I P} `{!AllowsInference I P}
    `{!AllowsSuggest I P} loaded loincToParts rowNum :
  sat I P (processRow env Math_pow setOrder loaded loincToParts rowNum).
Proof.
  unfold processRow.
  repeat first [ apply addLoincPartsFillMissingColumns_sat; tc_solve
               | apply preProcessRow_sat; tc_solve
               | apply executeRulesRow_sat; tc_solve
               | apply reformatValuesToString_sat; tc_solve
               | sat_step ].
Qed.

(** *** The judgement along a pass *)

(** The events of the first phase: the judgement is not set to
    ["INCORRECT_aj"]; those of the second: it is not set to
    ["CORRECT_aj"]. *)
Definition notIncorrect (e : Event) : Prop := e ≠ EvJudgement "INCORRECT_aj".
Definition notCorrect (e : Event) : Prop := e ≠ EvJudgement "CORRECT_aj".

#[local] Instance notIncorrect_prepare : AllowsPrepare anyRow notIncorrect.
Proof.
  split; try done. intros v Hv [= ->]. unfold initialStatuses in Hv.
  repeat (apply elem_of_cons in Hv as [Hv|Hv]; [discriminate|]).
  by apply elem_of_nil in Hv.
Qed.

#[local] Instance notCorrect_issue : AllowsIssue anyRow notCorrect.
Proof. by split. Qed.

#[local] Instance notCorrect_inference : AllowsInference anyRow notCorrect.
Proof. by split. Qed.

#[local] Instance notCorrect_suggest : AllowsSuggest anyRow notCorrect.
Proof. by split. Qed.

Lemma preProcessRow_phased loincToParts rowNum :
  phased notIncorrect notCorrect (preProcessRow env loincToParts rowNum).
Proof.
  unfold preProcessRow.
  apply phased_bind_first; [apply sat_emit; try tc_solve; done|]. intros _.
  apply phased_bind_first; [apply sat_modify; try tc_solve; done|]. intros _.
  apply phased_bind_first; [apply normalizeSPECIMEN_SOURCE_sat; tc_solve|]. intros _.
  apply phased_bind_first; [apply convertToUcum_sat; tc_solve|]. intros _.
  apply phased_bind_first; [apply sat_get; tc_solve|]. intros row.
  apply phased_bind_first.
  { apply sat_setJudgement; try tc_solve; [|done].
    apply allow_event_initial, getInitialRowStatus_range. }
  intros _. apply phased_second.
  repeat first [apply inferAndValidate_sat; tc_solve | sat_step].
Qed.

Lemma processRow_phased loaded loincToParts rowNum :
  phased notIncorrect notCorrect
    (processRow env Math_pow setOrder loaded loincToParts rowNum).
Proof.
  unfold processRow.
  apply phased_bind_first; [apply addLoincPartsFillMissingColumns_sat; tc_solve|].
  intros _. apply phased_bind_second; [apply preProcessRow_phased|]. intros _.
  repeat first [ apply executeRulesRow_sat; tc_solve
               | apply reformatValuesToString_sat; tc_solve | sat_step ].
Qed.

(** C6. Along the three passes over one record, once the judgement has
    been set to ["INCORRECT_aj"], no later step sets it to ["CORRECT_aj"]. *)
Theorem judgement_never_reverts (loaded loincToParts : Catalog) (rowNum : nat)
    (row : Row) (pre post : list Event) :
  trace (processRow env Math_pow setOrder loaded loincToParts rowNum row)
    = pre ++ EvJudgement "INCORRECT_aj" :: post →
  EvJudgement "CORRECT_aj" ∉ post.
Proof.
  intros Htrace.
  destruct (processRow_phased loaded loincToParts rowNum row)
    as (t1 & t2 & Heq & Ht1 & Ht2).
  rewrite Heq in Htrace.
  assert (Hpost : Forall notCorrect post).
  { eapply (phased_after notIncorrect notCorrect); eauto. }
  rewrite Forall_forall in Hpost. intros Hin. by apply (Hpost _ Hin).
Qed.

(** *** Records with an invalid code *)

(** Neither the inference engine nor the candidate matcher is entered. *)
Definition quiet (e : Event) : Prop := e ≠ EvInferAndValidate ∧ e ≠ EvReplaceAndFind.

(** The code of the record is read from the catalogue as it is written:
    it is a key of the catalogue, or it is not the name of a member of
    [Object.prototype]. *)
Definition readable (loincToParts : Catalog) (row : Row) : Prop :=
  loincToParts !! LAB_LOINC row = None → Js.inherited (LAB_LOINC row) = false.

Lemma readable_getProp loincToParts row :
  readable loincToParts row →
  Js.getProp loincToParts (LAB_LOINC row)
  = match loincToParts !! LAB_LOINC row with
    | Some entry => Js.Own entry
    | None => Js.Undefined
    end.
Proof.
  intros Hread. unfold Js.getProp.
  destruct (loincToParts !! LAB_LOINC row) eqn:Hl; [done|]. by rewrite (Hread Hl).
Qed.

Lemma addLoincPartsFillMissingColumns_any loincToParts index row Ev :
  readable loincToParts row →
  ∃ row', runs (addLoincPartsFillMissingColumns loincToParts index) row tt row' Ev ∧
          LAB_LOINC row' = LAB_LOINC row ∧ RAW_LAB_NAME row' = RAW_LAB_NAME row ∧
          INC_CATEGORY row' = INC_CATEGORY row.
Proof.
  intros Hread. unfold addLoincPartsFillMissingColumns.
  pose proof (readable_getProp loincToParts row Hread) as Hprop.
  destruct (ROW_NUM row) eqn:Hnum, (loincToParts !! LAB_LOINC row) eqn:Hl;
    eexists; (split; [eapply runs_bind; [apply runs_get|]; cbv beta; rewrite Hnum, Hprop;
                      repeat runs_step|done]).
Qed.

(** A code that reads as a member of [Object.prototype] stops the first
    pass: the two copied columns are emptied, and reading the class of the
    member throws. *)
Lemma addLoincPartsFillMissingColumns_member loincToParts index row :
  loincToParts !! LAB_LOINC row = None → Js.inherited (LAB_LOINC row) = true →
  ∃ row', addLoincPartsFillMissingColumns loincToParts index row = (None, row', []).
Proof.
  intros Hnone Hmember. unfold addLoincPartsFillMissingColumns.
  rewrite get_bind_run.
  assert (Hprop : Js.getProp loincToParts (LAB_LOINC row) = Js.Inherited (LAB_LOINC row)).
  { unfold Js.getProp. by rewrite Hnone, Hmember. }
  destruct (ROW_NUM row); rewrite Hprop; by eexists.
Qed.

Lemma normalizeSPECIMEN_SOURCE_runs row Ev :
  ∃ spc, runs (normalizeSPECIMEN_SOURCE env) row tt (set_SPECIMEN_SOURCE spc row) Ev.
Proof. unfold normalizeSPECIMEN_SOURCE. eexists. repeat runs_step. Qed.

Lemma convertToUcum_runs row Ev :
  ∃ ucum, runs (convertToUcum env) row tt (set_ucum_converted ucum row) Ev.
Proof.
  unfold convertToUcum.
  destruct (Js.truthy (getXformedRawUnit (set_ucum_converted "" row))) eqn:Hraw.
  - eexists. eapply runs_bind; [apply runs_modify|].
    eapply runs_bind; [apply runs_get|]. cbv beta zeta. rewrite Hraw.
    apply (runs_modify (set_ucum_converted _) (set_ucum_converted "" row)).
  - exists "". eapply runs_bind; [apply runs_modify|].
    eapply runs_bind; [apply runs_get|]. cbv beta zeta. rewrite Hraw. apply runs_ret.
Qed.

(** The row the first pass leaves when the initial status excludes it. *)
Definition excludedRow (status spc ucum : string) (row : Row) : Row :=
  set_ALGO_JUDGEMENT status
    (set_ucum_converted ucum (set_SPECIMEN_SOURCE spc (clearComputedFields row))).

Definition excludeStatuses : list string :=
  ["WACKO_INVALID_LOINC"; "WACKO_NUMERIC_RAW_NAME"; "NON_QN"].

Lemma preProcessRow_excluded loincToParts rowNum row :
  getInitialRowStatus loincToParts row ∈ excludeStatuses →
  ∃ spc ucum,
    runs (preProcessRow env loincToParts rowNum) row tt
      (excludedRow (getInitialRowStatus loincToParts row) spc ucum row) quiet.
Proof.
  intros Hstatus. unfold preProcessRow.
  destruct (normalizeSPECIMEN_SOURCE_runs (clearComputedFields row) quiet) as (spc & Hspc).
  destruct (convertToUcum_runs (set_SPECIMEN_SOURCE spc (clearComputedFields row)) quiet)
    as (ucum & Hucum).
  exists spc, ucum.
  eapply runs_bind; [by apply runs_emit|].
  eapply runs_bind; [apply runs_modify|].
  eapply runs_bind; [exact Hspc|].
  eapply runs_bind; [exact Hucum|].
  eapply runs_bind; [apply runs_get|]. cbv beta.
  change (getInitialRowStatus loincToParts
            (set_ucum_converted ucum (set_SPECIMEN_SOURCE spc (clearComputedFields row))))
    with (getInitialRowStatus loincToParts row).
  eapply runs_bind; [by apply runs_setJudgement|].
  eapply runs_bind; [apply runs_get|]. cbv beta.
  assert (Hex : isExcludeStatus
            (set_ALGO_JUDGEMENT (getInitialRowStatus loincToParts row)
               (set_ucum_converted ucum
                  (set_SPECIMEN_SOURCE spc (clearComputedFields row)))) = true).
  { unfold isExcludeStatus. apply JsFacts.includes_true. exact Hstatus. }
  rewrite Hex. apply runs_ret.
Qed.

Lemma executeRulesRow_excluded loincToParts rules rowNum row :
  ALGO_JUDGEMENT row ∈ excludeStatuses →
  runs (executeRulesRow env Math_pow setOrder loincToParts rules rowNum) row
    loincToParts row quiet.
Proof.
  intros Hstatus. unfold executeRulesRow.
  eapply runs_bind; [apply runs_get|]. cbv beta.
  assert (Hex : isExcludeStatus row = true).
  { unfold isExcludeStatus. by apply JsFacts.includes_true. }
  rewrite Hex. apply runs_ret.
Qed.

Lemma reformatValuesToString_unset row :
  ALGO_MAPPING_ISSUES row = IssuesUnset → TARGET_TERM row = TargetUnset →
  runs reformatValuesToString row tt
    (set_TARGET_TERM (TargetText "") (set_ALGO_MAPPING_ISSUES (IssuesText "") row)) quiet.
Proof.
  intros Hissues Hterm. unfold reformatValuesToString.
  eapply runs_bind; [apply runs_get|]. cbv beta. rewrite Hissues, Hterm.
  eapply runs_bind; [apply runs_modify|]. apply runs_modify.
Qed.

(** The three passes on a record that the first pass excludes. *)
Lemma processRow_excluded loaded loincToParts rowNum row :
  readable loaded row →
  getInitialRowStatus loaded row ∈ excludeStatuses →
  ∃ row' spc ucum,
    runs (processRow env Math_pow setOrder loaded loincToParts rowNum) row loincToParts
      (set_TARGET_TERM (TargetText "")
         (set_ALGO_MAPPING_ISSUES (IssuesText "")
            (excludedRow (getInitialRowStatus loaded row) spc ucum row'))) quiet ∧
    LAB_LOINC row' = LAB_LOINC row ∧ RAW_LAB_NAME row' = RAW_LAB_NAME row ∧
    INC_CATEGORY row' = INC_CATEGORY row.
Proof.
  intros Hread Hstatus. unfold processRow.
  destruct (addLoincPartsFillMissingColumns_any loaded rowNum row quiet Hread)
    as (row' & Hfill & Hloinc & Hname & Hcat).
  assert (Heq : getInitialRowStatus loaded row' = getInitialRowStatus loaded row).
  { unfold getInitialRowStatus. by rewrite Hloinc, Hname, Hcat. }
  rewrite <- Heq in Hstatus.
  destruct (preProcessRow_excluded loaded rowNum row' Hstatus) as (spc & ucum & Hpre).
  exists row', spc, ucum. rewrite <- Heq. split; [|done].
  eapply runs_bind; [exact Hfill|].
  eapply runs_bind; [exact Hpre|].
  eapply runs_bind; [by apply executeRulesRow_excluded|].
  eapply runs_bind; [by apply reformatValuesToString_unset|].
  apply runs_ret.
Qed.

(** A code is invalid when it is empty, or when it is not a key of the
    catalogue and does not read as a member of [Object.prototype]. *)
Definition invalidCode (loaded : Catalog) (row : Row) : Prop :=
  LAB_LOINC row = "" ∨
  (loaded !! LAB_LOINC row = None ∧ Js.inherited (LAB_LOINC row) = false).

Lemma invalidCode_readable loaded row : invalidCode loaded row → readable loaded row.
Proof. intros [Hl|[_ Hl]] _; [by rewrite Hl|done]. Qed.

Lemma invalid_status loaded row :
  invalidCode loaded row → getInitialRowStatus loaded row = "WACKO_INVALID_LOINC".
Proof.
  unfold getInitialRowStatus, Js.getProp. intros [Hl|[Hl Hplain]]; rewrite Hl; [done|].
  by rewrite Hplain, orb_true_r.
Qed.

(** The status of a record whose code reads as a member of
    [Object.prototype]: the code is taken for a code of the catalogue. *)
Lemma member_status loaded row :
  Js.inherited (LAB_LOINC row) = true →
  getInitialRowStatus loaded row ≠ "WACKO_INVALID_LOINC".
Proof.
  intros Hmember. unfold getInitialRowStatus, Js.getProp.
  assert (Htruthy : Js.truthy (LAB_LOINC row) = true).
  { destruct (LAB_LOINC row); [done|done]. }
  rewrite Htruthy, Hmember. simpl.
  destruct (loaded !! LAB_LOINC row); simpl;
    repeat match goal with |- context [if ?b then _ else _] => destruct b end; done.
Qed.

(** A record with an invalid code, when the collaborators of the first
    pass return: the three passes leave the catalogue as it was; the
    judgement is ["WACKO_INVALID_LOINC"]; neither the inference engine nor
    the candidate matcher is entered; and the inferred parts, the mapping
    issues and the suggested terms are empty. *)
Lemma invalid_code_skipped (loaded loincToParts : Catalog) (rowNum : nat) (row : Row) :
  invalidCode loaded row →
  let out := processRow env Math_pow setOrder loaded loincToParts rowNum row in
  result out = Some loincToParts ∧
  ALGO_JUDGEMENT (finalRow out) = "WACKO_INVALID_LOINC" ∧
  (EvInferAndValidate ∉ trace out) ∧ (EvReplaceAndFind ∉ trace out) ∧
  inferred (finalRow out) = None ∧
  inferred_parts (finalRow out) = "" ∧ parsed_parts (finalRow out) = "" ∧
  ALGO_MAPPING_ISSUES (finalRow out) = IssuesText "" ∧
  SGG_LOINC (finalRow out) = "" ∧ SGG_LONG_COMMON_NAME (finalRow out) = "" ∧
  SGG_OTHER (finalRow out) = "".
Proof.
  intros Hinvalid out. subst out.
  pose proof (invalid_status loaded row Hinvalid) as Hstatus.
  destruct (processRow_excluded loaded loincToParts rowNum row)
    as (row' & spc & ucum & Hruns & _).
  { by apply invalidCode_readable. }
  { rewrite Hstatus. unfold excludeStatuses. left. }
  apply runs_result in Hruns as (-> & -> & Htrace). rewrite Hstatus.
  rewrite Forall_forall in Htrace.
  repeat split; try done.
  - intros Hin. by destruct (Htrace _ Hin).
  - intros Hin. by destruct (Htrace _ Hin).
Qed.

(** One pass over the rows stops at a row on which its body throws. *)
Lemma forEachRow_throws {St} (body : St → nat → M St) (pcnRows : list Row) (row : Row) :
  row ∈ pcnRows →
  (∀ state index, result (body state index row) = None) →
  ∀ state index, forEachRow body state index pcnRows = None.
Proof.
  intros Hin Hthrows. induction pcnRows as [|r rest IH]; intros state index.
  { by apply elem_of_nil in Hin. }
  simpl. apply elem_of_cons in Hin as [<-|Hin].
  - specialize (Hthrows state index). unfold result in Hthrows.
    by destruct (body state index row) as [[[s|] r'] ev].
  - destruct (body state index r) as [[[s|] r'] ev]; [|done].
    by rewrite (IH Hin).
Qed.

(** C7.  A record whose code is not in the catalogue and is the name of a
    member of [Object.prototype] is not excluded as a record with an
    invalid code: [getInitialRowStatus] takes the member for an entry, and
    before that the first pass throws on the record, so that the batch
    that holds it is aborted. *)
Theorem member_code_aborts (loaded : Catalog) (pcnRows : list Row) (row : Row) :
  row ∈ pcnRows →
  loaded !! LAB_LOINC row = None → Js.inherited (LAB_LOINC row) = true →
  validateAndSuggest env Math_pow setOrder loaded pcnRows = None ∧
  getInitialRowStatus loaded row ≠ "WACKO_INVALID_LOINC" ∧
  ∀ loincToParts rowNum,
    result (processRow env Math_pow setOrder loaded loincToParts rowNum row) = None ∧
    trace (processRow env Math_pow setOrder loaded loincToParts rowNum row) = [].
Proof.
  intros Hin Hnone Hmember. split; [|split].
  - unfold validateAndSuggest.
    rewrite (forEachRow_throws _ pcnRows row Hin); [done|].
    intros [] index.
    by destruct (addLoincPartsFillMissingColumns_member loaded index row Hnone Hmember)
      as (row' & ->).
  - by apply member_status.
  - intros loincToParts rowNum. unfold processRow. rewrite bind_run.
    by destruct (addLoincPartsFillMissingColumns_member loaded rowNum row Hnone Hmember)
      as (row' & ->).
Qed.

End Passes.

(** *** A worked batch

    A small catalogue, a unit table that knows three units, and records
    mapped to the serum glucose and to the testosterone term. *)
Definition labTable : list LoincRow :=
  [ mkLoincRow "2345-7" "Glucose [Mass/volume] in Serum or Plasma" "ACTIVE" "mg/dL"
      (mkParts "CHEM" "Glucose" "MCnc" "Pt" "Ser/Plas" "Qn" "");
    mkLoincRow "2350-7" "Glucose [Mass/volume] in Urine" "ACTIVE" "mg/dL"
      (mkParts "CHEM" "Glucose" "MCnc" "Pt" "Urine" "Qn" "");
    mkLoincRow "5792-7" "Glucose [Mass/volume] in Urine by Test strip" "ACTIVE" "mg/dL"
      (mkParts "UA" "Glucose" "MCnc" "Pt" "Urine" "Qn" "Test strip");
    mkLoincRow "2341-6" "Glucose [Mass/volume] in Specimen" "ACTIVE" "mg/dL"
      (mkParts "CHEM" "Glucose" "MCnc" "Pt" "XXX" "Qn" "");
    mkLoincRow "14749-6" "Glucose [Moles/volume] in Serum or Plasma" "ACTIVE" "mmol/L"
      (mkParts "CHEM" "Glucose" "SCnc" "Pt" "Ser/Plas" "Qn" "");
    mkLoincRow "2986-8" "Testosterone [Mass/volume] in Serum or Plasma" "ACTIVE" "ng/dL"
      (mkParts "CHEM" "Testosterone" "MCnc" "Pt" "Ser/Plas" "Qn" "");
    mkLoincRow "2991-8" "Testosterone Free [Mass/volume] in Serum or Plasma" "ACTIVE"
      "pg/mL"
      (mkParts "CHEM" "Testosterone.free" "MCnc" "Pt" "Ser/Plas" "Qn" "") ].

Definition labEnv : Env :=
  mkEnv (getLoincTableUtil labTable)
    (λ unit, if Js.strictEq unit "mg/dL" || Js.strictEq unit "ng/dL" then ["MCnc"]
             else if Js.strictEq unit "mmol/L" then ["SCnc"] else [])
    (λ _, [])
    (LoincUtils.getStdPartName labTable)
    (λ unit _ _, if Js.strictEq unit "mg/dL" then Some unit else None)
    (λ _ unit _ _, if Js.strictEq unit "mg/dL" then Some unit else None)
    ["rule-based"]
    (λ sets, sets).

Definition labCatalog : Catalog := loincToParts (loincTableUtil labEnv).

(** A sheet row as it is loaded: the computed columns empty. *)
Definition sheetRow (loinc name unit specimen : string) : Row :=
  mkRow None loinc name unit specimen "" "" "" (mkParts "" "" "" "" "" "" "")
    "" "" "" None "" "" "" IssuesUnset "" "" TargetUnset.

Definition urineGlucoseRow : Row := sheetRow "2345-7" "GLUCOSE URINE" "mg/dL" "UR".
Definition unknownCodeRow : Row := sheetRow "99999-9" "GLUCOSE URINE" "mg/dL" "UR".

(** A record whose code is the name of a member of [Object.prototype], and
    a record mapped to a component that is such a name followed by a
    modifier. *)
Definition memberCodeRow : Row := sheetRow "constructor" "GLUCOSE URINE" "mg/dL" "UR".
Definition memberComponentRow : Row := bareRow "TESTOSTERONE" "constructor.free" "CHEM".

(** A record of free testosterone mapped to the testosterone term, with the
    columns of that term filled in. *)
Definition freeTestosteroneRow : Row :=
  finalRow (addLoincPartsFillMissingColumns labCatalog 0
              (sheetRow "2986-8" "TESTOSTERONE FREE" "ng/dL" "")).

Definition runRow (row : Row) :=
  processRow labEnv powQuarter elements labCatalog labCatalog 0 row.

Example processRow_cases :
  judgements (trace (runRow urineGlucoseRow)) = [""; "CORRECT_aj"; "INCORRECT_aj"; "FIXED"] ∧
  SGG_LOINC (finalRow (runRow urineGlucoseRow)) = "2350-7" ∧
  TARGET_TERM (finalRow (runRow urineGlucoseRow))
    = TargetText "CHEM; Glucose; MCnc; Pt; Urine; Qn; -" ∧
  ALGO_MAPPING_ISSUES (finalRow (runRow urineGlucoseRow)) = IssuesText "SYSTEM" ∧
  judgements (trace (runRow unknownCodeRow)) = [""; "WACKO_INVALID_LOINC"] ∧
  result (runRow memberCodeRow) = None ∧ trace (runRow memberCodeRow) = [].
Proof. vm_compute. repeat split. Qed.

(** The hypothesis of C6 holds for the urine record. *)
Lemma judgement_never_reverts_witness :
  let pre := [EvJudgement ""; EvJudgement "CORRECT_aj"; EvInferAndValidate] in
  let post := [EvReplaceAndFind; EvJudgement "FIXED"] in
  trace (runRow urineGlucoseRow) = pre ++ EvJudgement "INCORRECT_aj" :: post ∧
  EvJudgement "CORRECT_aj" ∉ post.
Proof.
  intros pre post.
  assert (Htrace : trace (processRow labEnv powQuarter elements labCatalog
                            labCatalog 0 urineGlucoseRow)
                   = pre ++ EvJudgement "INCORRECT_aj" :: post)
    by (vm_compute; reflexivity).
  split; [exact Htrace|].
  apply (judgement_never_reverts labEnv powQuarter elements labCatalog
           labCatalog 0 urineGlucoseRow pre post). exact Htrace.
Defined.

(** The record of unknown code is skipped. *)
Example invalid_code_skipped_case :
  invalidCode labCatalog unknownCodeRow ∧
  result (runRow unknownCodeRow) = Some labCatalog ∧
  ALGO_JUDGEMENT (finalRow (runRow unknownCodeRow)) = "WACKO_INVALID_LOINC".
Proof.
  assert (Hinvalid : invalidCode labCatalog unknownCodeRow)
    by (right; split; vm_compute; reflexivity).
  split; [exact Hinvalid|].
  pose proof (invalid_code_skipped labEnv powQuarter elements labCatalog
                labCatalog 0 unknownCodeRow Hinvalid) as H.
  cbv zeta in H. destruct H as (H1 & H2 & _). split; [exact H1|exact H2].
Qed.

(** The hypotheses of C7 hold for the record whose code is ["constructor"]:
    the batch of the urine record and of that record is aborted, and the
    status the record would be given is ["CORRECT_aj"]. *)
Lemma member_code_aborts_witness :
  (memberCodeRow ∈ [urineGlucoseRow; memberCodeRow] ∧
   labCatalog !! LAB_LOINC memberCodeRow = None ∧
   Js.inherited (LAB_LOINC memberCodeRow) = true) ∧
  validateAndSuggest labEnv powQuarter elements labCatalog [urineGlucoseRow; memberCodeRow]
  = None ∧
  getInitialRowStatus labCatalog memberCodeRow = "CORRECT_aj".
Proof.
  assert (Hin : memberCodeRow ∈ [urineGlucoseRow; memberCodeRow]) by (right; left).
  assert (Hnone : labCatalog !! LAB_LOINC memberCodeRow = None) by (vm_compute; reflexivity).
  assert (Hmember : Js.inherited (LAB_LOINC memberCodeRow) = true) by reflexivity.
  split; [by repeat split|].
  destruct (member_code_aborts labEnv powQuarter elements labCatalog
              [urineGlucoseRow; memberCodeRow] memberCodeRow Hin Hnone Hmember)
    as (Hbatch & _ & _).
  split; [exact Hbatch|]. vm_compute. reflexivity.
Defined.

(** The hypothesis of C9 holds for the catalogue of the example.  For the
    record mapped to ["constructor.free"] whose name has no such modifier,
    the component ["constructor"] is added to the inferred parts, and no
    entry of the catalogue has that component. *)
Lemma inferComponentByModifier_adds_witness :
  (loincTableUtil labEnv = getLoincTableUtil labTable) ∧
  adj_component (getAdjustedComponentByModifier memberComponentRow) = Some "constructor" ∧
  "constructor"
    ∈ namesOf (finalRow (inferComponentByModifier labEnv memberComponentRow)) COMPONENT ∧
  map_Forall (λ _ rec, partValue rec COMPONENT ≠ "constructor")
    (loincToParts (getLoincTableUtil labTable)).
Proof.
  assert (Hadj : adj_component (getAdjustedComponentByModifier memberComponentRow)
                 = Some "constructor") by (vm_compute; reflexivity).
  split; [reflexivity|]. split; [exact Hadj|]. split.
  - destruct (inferComponentByModifier_adds labTable labEnv memberComponentRow eq_refl)
      as (_ & _ & Hadded).
    apply (Hadded "constructor" Hadj). reflexivity.
  - apply (bool_decide_unpack _). vm_compute. reflexivity.
Defined.

(** The inference on the record of free testosterone adds a component of
    the catalogue. *)
Example inferComponentByModifier_case :
  namesOf (finalRow (inferComponentByModifier labEnv freeTestosteroneRow)) COMPONENT
    = ["Testosterone.free"].
Proof. vm_compute. reflexivity. Qed.

End SuggesterFacts.

(** ** More facts about [Common] and [LoincUtils]: queries, names and
    percent properties *)
Module CatalogueFacts.
Import Common LoincUtils.

(** The union and the intersection of [common.js]: an element is in
    [setOR] of some sets exactly when one of them has it, and in [setAND]
    exactly when there is at least one set and all of them have it; so the
    intersection of no sets is empty. *)
Theorem setOR_setAND_membership (x : string) (sets : list (gset string)) :
  (x ∈ setOR sets ↔ ∃ s, s ∈ sets ∧ x ∈ s) ∧
  (x ∈ setAND sets ↔ sets ≠ [] ∧ ∀ s, s ∈ sets → x ∈ s).
Proof.
  split; [apply CommonFacts.elem_of_setOR|].
  destruct (decide (sets = [])) as [->|Hne].
  - simpl. split; [by intros H; apply not_elem_of_empty in H|by intros [? _]].
  - rewrite (CommonFacts.elem_of_setAND x sets Hne). split; [by intros H|by intros [_ H]].
Qed.

(** [hasLoincWithPart] is true exactly of the names that some entry of the
    loaded catalogue carries for the part type, the empty name standing for
    an absent part, and of the names of the members of [Object.prototype],
    whether an entry carries them or not. *)
Theorem hasLoincWithPart_exact (loincs : list LoincRow) (pt : PartType) (name : string) :
  hasLoincWithPart (getLoincTableUtil loincs) pt name = true ↔
  (∃ loinc rec, loincToParts (getLoincTableUtil loincs) !! loinc = Some rec ∧
                partValue rec pt = name) ∨
  name ∈ Js.objectPrototypeMembers.
Proof.
  rewrite InferenceFacts.hasLoincWithPart_spec.
  by rewrite LoincUtilsFacts.inherited_true.
Qed.

Lemma queried_spec (loincs : list LoincRow)
    (query : list (PartType * list string)) (loinc : string) :
  loinc ∈ LoincUtilsFacts.queried (loincPartIndexex (getLoincTableUtil loincs)) query ↔
  query ≠ [] ∧
  ∃ rec, loincToParts (getLoincTableUtil loincs) !! loinc = Some rec ∧
         ∀ pt partNames, (pt, partNames) ∈ query → partValue rec pt ∈ partNames.
Proof.
  unfold LoincUtilsFacts.queried, getLoincTableUtil. simpl.
  set (l2p := buildLoincToParts loincs).
  set (toAND := map _ query).
  assert (Hone : ∀ pt partNames,
            loinc ∈ setOR (map (λ partName,
                       default ∅ (getPart (buildLoincPartsIndex l2p) pt !! partName))
                     partNames) ↔
            ∃ rec, l2p !! loinc = Some rec ∧ partValue rec pt ∈ partNames).
  { intros pt partNames. rewrite CommonFacts.elem_of_setOR. split.
    - intros (s & Hs & Hin). apply list_elem_of_fmap in Hs as (partName & -> & Hname).
      unfold buildLoincPartsIndex in Hin.
      rewrite LoincUtilsFacts.getPart_tabulate, LoincUtilsFacts.elem_of_index_fold in Hin.
      destruct Hin as (rec & Hl & Hk). exists rec. split; [done|].
      unfold partValue. rewrite <- LoincUtilsFacts.wfPartArray_key, Hk; [done|].
      eapply (LoincUtilsFacts.buildLoincToParts_wf loincs); eauto.
    - intros (rec & Hl & Hin). eexists. split.
      + apply list_elem_of_fmap. eexists. split; [reflexivity|exact Hin].
      + unfold buildLoincPartsIndex.
        rewrite LoincUtilsFacts.getPart_tabulate, LoincUtilsFacts.elem_of_index_fold.
        exists rec. split; [done|]. apply LoincUtilsFacts.wfPartArray_key.
        eapply (LoincUtilsFacts.buildLoincToParts_wf loincs); eauto. }
  destruct query as [|[pt0 names0] query'].
  - simpl. split; [by intros H; apply not_elem_of_empty in H|by intros [? _]].
  - assert (Hne : toAND ≠ []) by done.
    rewrite (CommonFacts.elem_of_setAND loinc toAND Hne). split.
    + intros Hall. split; [done|].
      assert (H0 : ∃ rec, l2p !! loinc = Some rec ∧ partValue rec pt0 ∈ names0).
      { apply Hone, Hall. left. }
      destruct H0 as (rec & Hl & _). exists rec. split; [done|].
      intros pt partNames Hq.
      assert (H1 : ∃ rec', l2p !! loinc = Some rec' ∧ partValue rec' pt ∈ partNames).
      { apply Hone, Hall. unfold toAND. apply list_elem_of_fmap.
        exists (pt, partNames). by split. }
      destruct H1 as (rec' & Hl' & Hin). congruence.
    + intros (_ & rec & Hl & Hall) s Hs. unfold toAND in Hs.
      apply list_elem_of_fmap in Hs as ([pt partNames] & -> & Hq).
      apply Hone. exists rec. split; [done|]. by apply Hall.
Qed.

Lemma mapM_throws {A B} (f : A → option B) (l : list A) x :
  x ∈ l → f x = None → mapM f l = None.
Proof.
  intros Hin Hx. induction l as [|y l IH]; [by apply elem_of_nil in Hin|].
  cbn. apply elem_of_cons in Hin as [<-|Hin]; [by rewrite Hx|].
  destruct (f y); [|done]. cbn. by rewrite (IH Hin).
Qed.

(** [setOR] of two values or more, of which one is not a set, throws. *)
Lemma setORValues_throws (args : list SetArg) member :
  NotSet member ∈ args → (2 ≤ length args)%nat → setORValues args = None.
Proof.
  intros Hin Hlen. destruct args as [|a [|b rest]]; [simpl in Hlen; lia..|].
  unfold setORValues. by rewrite (mapM_throws asSet _ (NotSet member) Hin).
Qed.

(** The query of the part index.  When none of its names is the name of a
    member of [Object.prototype], the numbers returned are those of the
    entries that have, for every part type of the query, one of the names
    listed for it; a query without part type returns nothing, and so does a
    query with an empty list of names.  When a part type lists two names or
    more, one of them the name of such a member that no entry has, the
    query throws. *)
Theorem getLoincForParts_and_or (sortBySize : list SetArg → list SetArg)
    (loincs : list LoincRow) (query : list (PartType * list string)) :
  let util := getLoincTableUtil loincs in
  ((∀ pt partNames partName,
      (pt, partNames) ∈ query → partName ∈ partNames → partName ∉ Js.objectPrototypeMembers) →
   ∃ found,
     getLoincForParts sortBySize util query = Some (IsSet found) ∧
     ∀ loinc, loinc ∈ found ↔
       query ≠ [] ∧
       ∃ rec, loincToParts util !! loinc = Some rec ∧
              ∀ pt partNames, (pt, partNames) ∈ query → partValue rec pt ∈ partNames) ∧
  (∀ pt partNames member,
     (pt, partNames) ∈ query → member ∈ partNames → (2 ≤ length partNames)%nat →
     member ∈ Js.objectPrototypeMembers →
     (∀ loinc rec, loincToParts util !! loinc = Some rec → partValue rec pt ≠ member) →
     getLoincForParts sortBySize util query = None).
Proof.
  intros util. split.
  - intros Hplain. exists (LoincUtilsFacts.queried (loincPartIndexex util) query). split.
    + unfold getLoincForParts. apply LoincUtilsFacts.getLoincForPartsInternal_plain.
      apply Forall_forall. intros [pt partNames] Hq. apply Forall_forall.
      intros partName Hname. simpl in Hname.
      apply not_true_iff_false. rewrite LoincUtilsFacts.inherited_true.
      by apply (Hplain pt partNames).
    + intros loinc. apply queried_spec.
  - intros pt partNames member Hq Hin Hlen Hmember Hnone.
    unfold getLoincForParts, getLoincForPartsInternal.
    rewrite (mapM_throws _ query (pt, partNames) Hq); [done|].
    apply (setORValues_throws _ member); [|by rewrite length_map].
    apply list_elem_of_fmap. exists member. split; [|done].
    unfold indexedOrEmpty. rewrite LoincUtilsFacts.getProp_member; [done| |].
    + apply eq_None_not_Some. intros Hsome.
      apply LoincUtilsFacts.indexed_is_Some in Hsome as (loinc & rec & Hl & Hk).
      by apply (Hnone loinc rec).
    + by apply LoincUtilsFacts.inherited_true.
Qed.

(** *** The entries of the catalogue *)

(** The columns an entry copies from the row that creates it. *)
Definition header (rec : PartsInfo) : string * string * string * string :=
  (LOINC_NUM rec, LONG_COMMON_NAME rec, STATUS rec, EXAMPLE_UCUM_UNITS rec).

Definition rowHeader (row : LoincRow) : string * string * string * string :=
  (row_LOINC_NUM row, row_LONG_COMMON_NAME row, row_STATUS row,
   row_EXAMPLE_UCUM_UNITS row).

(** The part arrays an entry gets from a row. *)
Definition rowArrays (row : LoincRow) : Parts (list string) :=
  tabulate (λ partType,
    let v := getPart (row_parts row) partType in if Js.truthy v then [v] else []).

Lemma addLoincRow_other l2p row n :
  row_LOINC_NUM row ≠ n → addLoincRow l2p row !! n = l2p !! n.
Proof. intros Hne. unfold addLoincRow. by rewrite lookup_insert_ne. Qed.

Lemma addLoincRow_same l2p row :
  ∃ rec, addLoincRow l2p row !! row_LOINC_NUM row = Some rec ∧
         parts rec = rowArrays row ∧
         header rec = match l2p !! row_LOINC_NUM row with
                      | Some old => header old
                      | None => rowHeader row
                      end.
Proof.
  unfold addLoincRow. rewrite lookup_insert_eq. eexists. split; [done|].
  split; [done|]. by destruct (l2p !! row_LOINC_NUM row).
Qed.

Lemma foldl_addLoincRow_other loincs l2p n :
  Forall (λ r, row_LOINC_NUM r ≠ n) loincs →
  foldl addLoincRow l2p loincs !! n = l2p !! n.
Proof.
  revert l2p. induction loincs as [|row rest IH]; intros l2p H; simpl; [done|].
  apply Forall_cons in H as [Hrow Hrest]. rewrite IH by done.
  by apply addLoincRow_other.
Qed.

Lemma foldl_addLoincRow_header loincs l2p n rec :
  l2p !! n = Some rec →
  ∃ rec', foldl addLoincRow l2p loincs !! n = Some rec' ∧ header rec' = header rec.
Proof.
  revert l2p rec. induction loincs as [|row rest IH]; intros l2p rec Hl; simpl.
  - by exists rec.
  - destruct (decide (row_LOINC_NUM row = n)) as [<-|Hne].
    + destruct (addLoincRow_same l2p row) as (rec1 & Hl1 & _ & Hh). rewrite Hl in Hh.
      destruct (IH _ _ Hl1) as (rec' & Hl' & Hh'). exists rec'. split; [done|congruence].
    + apply IH. by rewrite addLoincRow_other.
Qed.

Lemma buildLoincToParts_app l1 l2 :
  buildLoincToParts (l1 ++ l2) = foldl addLoincRow (buildLoincToParts l1) l2.
Proof. unfold buildLoincToParts. apply foldl_app. Qed.

(** An entry of the loaded catalogue is keyed by its own number, and a
    number is a key exactly when a row of the table carries it. *)
Lemma buildLoincToParts_lookup (loincs : list LoincRow) (n : string) :
  (is_Some (buildLoincToParts loincs !! n) ↔
   ∃ row, row ∈ loincs ∧ row_LOINC_NUM row = n) ∧
  (∀ rec, buildLoincToParts loincs !! n = Some rec → LOINC_NUM rec = n).
Proof.
  induction loincs as [|row rest IH] using rev_ind.
  - split.
    + split; [by intros [? H]|]. intros (row & Hrow & _). by apply elem_of_nil in Hrow.
    + intros rec H. change (buildLoincToParts []) with (∅ : gmap string PartsInfo) in H.
      by rewrite lookup_empty in H.
  - destruct IH as [IH1 IH2]. rewrite buildLoincToParts_app. simpl.
    destruct (decide (row_LOINC_NUM row = n)) as [<-|Hne].
    + destruct (addLoincRow_same (buildLoincToParts rest) row) as (rec & Hl & _ & Hh).
      split.
      * split; [|by rewrite Hl; eauto]. intros _. exists row. split; [|done].
        apply elem_of_app. right. left.
      * intros rec' Hl'. rewrite Hl in Hl'. injection Hl' as <-.
        destruct (buildLoincToParts rest !! row_LOINC_NUM row) as [old|] eqn:Hold.
        -- specialize (IH2 old eq_refl). unfold header in Hh. congruence.
        -- unfold header, rowHeader in Hh. congruence.
    + rewrite addLoincRow_other by done. split; [|done]. rewrite IH1. split.
      * intros (r & Hr & Hn). exists r. split; [|done]. apply elem_of_app. by left.
      * intros (r & Hr & Hn). exists r. split; [|done].
        apply elem_of_app in Hr as [Hr|Hr]; [done|].
        apply list_elem_of_singleton in Hr. congruence.
Qed.

(** What [loincToParts[n]] reads in the loaded catalogue.  It is the entry
    of the number [n], which holds that number, exactly when a row of the
    table carries [n].  When no row does, it is [undefined], unless [n] is
    the name of a member of [Object.prototype]: then it is that member. *)
Theorem buildLoincToParts_keys (loincs : list LoincRow) (n : string) :
  let carried := ∃ row, row ∈ loincs ∧ row_LOINC_NUM row = n in
  match Js.getProp (buildLoincToParts loincs) n with
  | Js.Own rec => carried ∧ LOINC_NUM rec = n
  | Js.Inherited member => ¬ carried ∧ member = n ∧ n ∈ Js.objectPrototypeMembers
  | Js.Undefined => ¬ carried ∧ n ∉ Js.objectPrototypeMembers
  end.
Proof.
  intros carried. destruct (buildLoincToParts_lookup loincs n) as [Hkey Hnum].
  unfold Js.getProp. destruct (buildLoincToParts loincs !! n) as [rec|] eqn:Hl.
  - split; [|by apply Hnum]. apply Hkey. by eexists.
  - assert (Hnot : ¬ carried).
    { intros Hc. apply Hkey in Hc. by destruct Hc. }
    destruct (Js.inherited n) eqn:Hmember.
    + split; [done|]. split; [done|]. by apply LoincUtilsFacts.inherited_true.
    + split; [done|]. rewrite <- LoincUtilsFacts.inherited_true. congruence.
Qed.

(** When the table lists a number more than once, its entry keeps the
    name, the status and the example unit of the first row that carries the
    number and gets the parts of the last one. *)
Theorem buildLoincToParts_duplicates (before after before' after' : list LoincRow)
    (first last : LoincRow) :
  before ++ first :: after = before' ++ last :: after' →
  row_LOINC_NUM last = row_LOINC_NUM first →
  Forall (λ r, row_LOINC_NUM r ≠ row_LOINC_NUM first) before →
  Forall (λ r, row_LOINC_NUM r ≠ row_LOINC_NUM first) after' →
  ∃ rec, buildLoincToParts (before ++ first :: after) !! row_LOINC_NUM first = Some rec ∧
         header rec = rowHeader first ∧ parts rec = rowArrays last.
Proof.
  intros Heq Hnum Hbefore Hafter.
  (* the header, from the first row *)
  assert (Hhead : ∃ rec, buildLoincToParts (before ++ first :: after)
                           !! row_LOINC_NUM first = Some rec ∧
                         header rec = rowHeader first).
  { rewrite buildLoincToParts_app. simpl.
    destruct (addLoincRow_same (buildLoincToParts before) first) as (rec1 & Hl1 & _ & Hh).
    unfold buildLoincToParts in Hh at 1.
    rewrite foldl_addLoincRow_other, lookup_empty in Hh by done.
    destruct (foldl_addLoincRow_header after _ _ _ Hl1) as (rec & Hl & Hh').
    exists rec. split; [done|congruence]. }
  (* the parts, from the last row *)
  assert (Hparts : ∃ rec, buildLoincToParts (before' ++ last :: after')
                            !! row_LOINC_NUM first = Some rec ∧
                          parts rec = rowArrays last).
  { rewrite buildLoincToParts_app. simpl. rewrite foldl_addLoincRow_other by done.
    rewrite <- Hnum.
    destruct (addLoincRow_same (buildLoincToParts before') last) as (rec & Hl & Hp & _).
    by exists rec. }
  rewrite <- Heq in Hparts. destruct Hhead as (rec & Hl & Hh).
  destruct Hparts as (rec' & Hl' & Hp). exists rec. split; [done|]. split; [done|].
  congruence.
Qed.

(** *** Standard part names *)

Lemma toLowerCase_empty s : Js.toLowerCase s = "" → s = "".
Proof. by destruct s. Qed.

Lemma partLowerToName_snoc loincs row pt :
  getPart (partLowerToName (loincs ++ [row])) pt =
  let v := getPart (row_parts row) pt in
  if Js.truthy v then <[Js.toLowerCase v := v]> (getPart (partLowerToName loincs) pt)
  else getPart (partLowerToName loincs) pt.
Proof.
  unfold partLowerToName. rewrite foldl_app. simpl.
  by rewrite LoincUtilsFacts.getPart_tabulate.
Qed.

Lemma partLowerToName_lookup loincs pt key :
  (∀ v, getPart (partLowerToName loincs) pt !! key = Some v →
        ∃ row, row ∈ loincs ∧ getPart (row_parts row) pt = v ∧ v ≠ "" ∧
               Js.toLowerCase v = key) ∧
  ((∃ row, row ∈ loincs ∧ getPart (row_parts row) pt ≠ "" ∧
           Js.toLowerCase (getPart (row_parts row) pt) = key) →
   is_Some (getPart (partLowerToName loincs) pt !! key)).
Proof.
  induction loincs as [|row rest [IH1 IH2]] using rev_ind.
  - split.
    + intros v H. unfold partLowerToName in H. simpl in H.
      rewrite LoincUtilsFacts.getPart_tabulate, lookup_empty in H. done.
    + intros (row & Hrow & _). by apply elem_of_nil in Hrow.
  - rewrite partLowerToName_snoc. cbv zeta.
    destruct (Js.truthy (getPart (row_parts row) pt)) eqn:Ht.
    + apply JsFacts.truthy_true in Ht. split.
      * intros v. rewrite lookup_insert. case_decide as Hk.
        -- intros [= <-]. exists row. split; [|done]. apply elem_of_app. right. left.
        -- intros H. destruct (IH1 v H) as (r & Hr & Hv). exists r. split; [|done].
           apply elem_of_app. by left.
      * intros (r & Hr & Hne & Hk). rewrite lookup_insert. case_decide; [by eauto|].
        apply IH2. exists r. split; [|done].
        apply elem_of_app in Hr as [Hr|Hr]; [done|].
        apply list_elem_of_singleton in Hr. congruence.
    + apply JsFacts.truthy_false in Ht. split.
      * intros v H. destruct (IH1 v H) as (r & Hr & Hv). exists r. split; [|done].
        apply elem_of_app. by left.
      * intros (r & Hr & Hne & Hk). apply IH2. exists r. split; [|done].
        apply elem_of_app in Hr as [Hr|Hr]; [done|].
        apply list_elem_of_singleton in Hr. congruence.
Qed.

(** [getStdPartName] on ASCII text, for a name that does not read, once
    trimmed and in lower case, as the name of a member of
    [Object.prototype].  It finds a part name whatever its letter case and
    the white space around it: the result is not empty exactly when a row of
    the table carries, for the part type, a name equal to the trimmed input
    up to letter case, and it is then such a name of the table.  An empty or
    blank input gives the empty string. *)
Theorem getStdPartName_exact (loincs : list LoincRow) (name : string) (type : PartType) :
  Js.isAscii name = true →
  (∀ row, row ∈ loincs → Js.isAscii (getPart (row_parts row) type) = true) →
  Js.toLowerCase (Js.trim name) ∉ Js.objectPrototypeMembers →
  let std := getStdPartName loincs name type in
  (std ≠ "" ↔
   ∃ row, row ∈ loincs ∧ getPart (row_parts row) type ≠ "" ∧
          Js.toLowerCase (getPart (row_parts row) type) = Js.toLowerCase (Js.trim name)) ∧
  (std ≠ "" →
   ∃ row, row ∈ loincs ∧ getPart (row_parts row) type = std ∧
          Js.toLowerCase std = Js.toLowerCase (Js.trim name)).
Proof.
  intros _ _ _ std. subst std. unfold getStdPartName.
  destruct (partLowerToName_lookup loincs type (Js.toLowerCase (Js.trim name)))
    as [Hsound Hcomplete].
  assert (Hblank : Js.toLowerCase (Js.trim name) = "" →
            ¬ ∃ row, row ∈ loincs ∧ getPart (row_parts row) type ≠ "" ∧
                     Js.toLowerCase (getPart (row_parts row) type)
                       = Js.toLowerCase (Js.trim name)).
  { intros Hb (row & _ & Hne & Heq). rewrite Hb in Heq.
    by apply toLowerCase_empty in Heq. }
  destruct (Js.truthy name) eqn:Hname.
  - cbv zeta. destruct (Js.truthy (Js.toLowerCase (Js.trim name))) eqn:Hlow.
    + destruct (getPart (partLowerToName loincs) type !! Js.toLowerCase (Js.trim name))
        as [v|] eqn:Hl.
      * destruct (Hsound v eq_refl) as (row & Hrow & Hv & Hne & Hk).
        apply JsFacts.truthy_true in Hne as Ht. simpl. rewrite Ht. split.
        -- split; [|done]. intros _. exists row. by rewrite Hv.
        -- intros _. by exists row.
      * simpl. split; [|done]. split; [done|]. intros H. apply Hcomplete in H.
        by destruct H.
    + apply JsFacts.truthy_false in Hlow. split; [|done]. split; [done|].
      intros H. by apply Hblank in H.
  - apply JsFacts.truthy_false in Hname. subst name. split; [|done]. split; [done|].
    intros H. by apply Hblank in H.
Qed.

(** *** The percent properties of a class *)

Lemma pctPropsByClass_snoc pctProps table loinc :
  pctPropsByClass pctProps (table ++ [loinc]) =
  let acc := pctPropsByClass pctProps table in
  let property := getPart (row_parts loinc) PROPERTY in
  let lnClass := getPart (row_parts loinc) CLASS in
  if Js.includes pctProps property then
    let current := default [] (acc !! lnClass) in
    <[lnClass := if Js.includes current property then current
                 else current ++ [property]]> acc
  else acc.
Proof. unfold pctPropsByClass. by rewrite foldl_app. Qed.

Lemma pctPropsByClass_spec pctProps table lnClass :
  NoDup (default [] (pctPropsByClass pctProps table !! lnClass)) ∧
  (is_Some (pctPropsByClass pctProps table !! lnClass) ↔
   ∃ loinc, loinc ∈ table ∧ getPart (row_parts loinc) CLASS = lnClass ∧
            getPart (row_parts loinc) PROPERTY ∈ pctProps) ∧
  (∀ p, p ∈ default [] (pctPropsByClass pctProps table !! lnClass) ↔
        ∃ loinc, loinc ∈ table ∧ getPart (row_parts loinc) CLASS = lnClass ∧
                 getPart (row_parts loinc) PROPERTY = p ∧ p ∈ pctProps).
Proof.
  induction table as [|loinc rest (IHnd & IHsome & IHin)] using rev_ind.
  - change (pctPropsByClass pctProps []) with (∅ : gmap string (list string)).
    rewrite lookup_empty. simpl. split; [constructor|]. split.
    + split; [by intros [? ?]|]. intros (l & Hl & _). by apply elem_of_nil in Hl.
    + intros p. split; [by intros H; apply elem_of_nil in H|].
      intros (l & Hl & _). by apply elem_of_nil in Hl.
  - rewrite pctPropsByClass_snoc. cbv zeta.
    set (acc := pctPropsByClass pctProps rest) in *.
    assert (Hext : ∀ (Q : LoincRow → Prop),
              (∃ l, l ∈ rest ++ [loinc] ∧ Q l) ↔ (∃ l, l ∈ rest ∧ Q l) ∨ Q loinc).
    { intros Q. split.
      - intros (l & Hl & HQ). apply elem_of_app in Hl as [Hl|Hl]; [left; by exists l|].
        apply list_elem_of_singleton in Hl as ->. by right.
      - intros [(l & Hl & HQ)|HQ].
        + exists l. split; [apply elem_of_app; by left|done].
        + exists loinc. split; [apply elem_of_app; right; left|done]. }
    destruct (Js.includes pctProps (getPart (row_parts loinc) PROPERTY)) eqn:Hinc.
    + apply JsFacts.includes_true in Hinc.
      destruct (decide (getPart (row_parts loinc) CLASS = lnClass)) as [Hc|Hc].
      * rewrite Hc, lookup_insert_eq. cbn [from_option default id].
        destruct (Js.includes (default [] (acc !! lnClass))
                    (getPart (row_parts loinc) PROPERTY)) eqn:Hcur.
        -- apply JsFacts.includes_true in Hcur. split; [done|]. split.
           ++ split; [|by eauto]. intros _. exists loinc.
              split; [apply elem_of_app; right; left|done].
           ++ intros p. rewrite IHin, (Hext (λ l, _ ∧ _ ∧ _)). split; [by left|].
              intros [H|(_ & <- & _)]; [done|]. by apply IHin.
        -- apply not_true_iff_false in Hcur. rewrite JsFacts.includes_true in Hcur.
           split; [|split].
           ++ apply NoDup_app. split; [done|]. split; [|apply NoDup_singleton].
              intros x Hx Hx'. apply list_elem_of_singleton in Hx' as ->. done.
           ++ split; [|by eauto]. intros _. exists loinc.
              split; [apply elem_of_app; right; left|done].
           ++ intros p. rewrite elem_of_app, list_elem_of_singleton, IHin,
                (Hext (λ l, _ ∧ _ ∧ _)).
              split; (intros [H|H]; [by left|right]).
              ** by subst p.
              ** by destruct H as (_ & <- & _).
      * rewrite lookup_insert_ne by done. split; [done|]. split.
        -- rewrite IHsome, (Hext (λ l, _ ∧ _)). split; [by left|].
           intros [H|[H _]]; done.
        -- intros p. rewrite IHin, (Hext (λ l, _ ∧ _ ∧ _)). split; [by left|].
           intros [H|[H _]]; done.
    + apply not_true_iff_false in Hinc. rewrite JsFacts.includes_true in Hinc.
      split; [done|]. split.
      * rewrite IHsome, (Hext (λ l, _ ∧ _)). split; [by left|].
        intros [H|[_ H]]; done.
      * intros p. rewrite IHin, (Hext (λ l, _ ∧ _ ∧ _)). split; [by left|].
        intros [H|(_ & <- & H)]; done.
Qed.

(** [getFuncForPctUnitPropertiesByClass] throws exactly when no row of
    class COAG has a property the unit "%" allows.  Otherwise the function
    it returns gives, for a class, the list without repetition of the
    properties that "%" allows and a row of the class carries, ACnc left
    out for COAG; for a class name that is the name of a member of
    [Object.prototype] and has no such row, it gives that member and not a
    list. *)
Theorem getFuncForPctUnitPropertiesByClass_spec (pctProps : list string)
    (loincTable : list LoincRow) :
  let carried lnClass p :=
    ∃ loinc, loinc ∈ loincTable ∧ getPart (row_parts loinc) CLASS = lnClass ∧
             getPart (row_parts loinc) PROPERTY = p ∧ p ∈ pctProps in
  (getFuncForPctUnitPropertiesByClass pctProps loincTable = None ↔
   ¬ ∃ p, carried "COAG" p) ∧
  (∀ f, getFuncForPctUnitPropertiesByClass pctProps loincTable = Some f →
        ∀ lnClass,
          match f lnClass with
          | Js.Own props =>
              NoDup props ∧
              (∀ p, p ∈ props ↔ carried lnClass p ∧ ¬ (lnClass = "COAG" ∧ p = "ACnc")) ∧
              (props = [] → lnClass ∈ Js.objectPrototypeMembers → ∃ p, carried lnClass p)
          | Js.Inherited member =>
              member = lnClass ∧ lnClass ∈ Js.objectPrototypeMembers ∧
              ¬ ∃ p, carried lnClass p
          | Js.Undefined => False
          end).
Proof.
  intros carried. unfold getFuncForPctUnitPropertiesByClass.
  destruct (pctPropsByClass_spec pctProps loincTable "COAG") as (Hnd & Hsome & Hin).
  destruct (pctPropsByClass pctProps loincTable !! "COAG") as [coag|] eqn:Hcoag.
  - split.
    + split; [done|]. intros Hnone. exfalso. apply Hnone.
      destruct (proj1 Hsome) as (loinc & Hl & Hc & Hp); [by eauto|].
      exists (getPart (row_parts loinc) PROPERTY), loinc. done.
    + intros f [= <-] lnClass. unfold Js.getProp.
      assert (Hrow : ∀ l, is_Some (pctPropsByClass pctProps loincTable !! l) →
                          ∃ p, carried l p).
      { intros l Hl.
        destruct (pctPropsByClass_spec pctProps loincTable l) as (_ & Hsome' & _).
        apply Hsome' in Hl as (loinc & Hl & Hc & Hp).
        exists (getPart (row_parts loinc) PROPERTY), loinc. done. }
      destruct (decide (lnClass = "COAG")) as [->|Hne].
      * rewrite lookup_insert_eq. simpl in *. split; [|split].
        -- apply NoDup_ListNoDup, List.NoDup_filter, NoDup_ListNoDup, Hnd.
        -- intros p. rewrite list_elem_of_In, filter_In, <- list_elem_of_In, Hin.
           rewrite negb_true_iff. unfold Js.strictEq. rewrite bool_decide_eq_false.
           split; intros [H1 H2]; (split; [done|]); [by intros [_ ?]|].
           intros ->. by apply H2.
        -- intros _ _. apply Hrow. rewrite Hcoag. by eexists.
      * rewrite lookup_insert_ne by done.
        destruct (pctPropsByClass_spec pctProps loincTable lnClass)
          as (Hnd' & Hsome' & Hin').
        destruct (pctPropsByClass pctProps loincTable !! lnClass) as [props|] eqn:Hl.
        -- simpl in *. split; [done|]. split.
           ++ intros p. rewrite Hin'. split; [|by intros [H _]].
              intros H. split; [done|]. by intros [? _].
           ++ intros _ _. apply Hrow. rewrite Hl. by eexists.
        -- assert (Hnone : ¬ ∃ p, carried lnClass p).
           { intros (p & loinc & Hrowin & Hc & Hp & Hpp).
             assert (H : is_Some (None : option (list string))); [|by destruct H].
             apply Hsome'. exists loinc. by rewrite Hp. }
           destruct (Js.inherited lnClass) eqn:Hmember.
           ++ split; [done|]. split; [|done]. by apply LoincUtilsFacts.inherited_true.
           ++ simpl in *. split; [constructor|]. split.
              ** intros p. rewrite Hin'. split; [|by intros [H _]].
                 intros H. split; [done|]. by intros [? _].
              ** intros _ Hm. apply LoincUtilsFacts.inherited_true in Hm. congruence.
  - split; [|done]. split; [|done]. intros _ (p & loinc & Hl & Hc & Hp & Hpp).
    assert (H : is_Some (None : option (list string))); [|by destruct H].
    apply Hsome. exists loinc. by rewrite Hp.
Qed.

(** The standard name of [" ser/plas "], a specimen of the table below. *)
Lemma getStdPartName_exact_witness :
  let table := [mkLoincRow "2345-7" "Glucose [Mass/volume] in Serum or Plasma" "ACTIVE"
                  "mg/dL" (mkParts "CHEM" "Glucose" "MCnc" "Pt" "Ser/Plas" "Qn" "")] in
  getStdPartName table " ser/plas " SYSTEM = "Ser/Plas" ∧
  ∃ row, row ∈ table ∧ getPart (row_parts row) SYSTEM = "Ser/Plas" ∧
         Js.toLowerCase "Ser/Plas" = Js.toLowerCase (Js.trim " ser/plas ").
Proof.
  intros table. split; [reflexivity|].
  destruct (getStdPartName_exact table " ser/plas " SYSTEM) as [_ Hname].
  - reflexivity.
  - intros row Hrow. apply list_elem_of_singleton in Hrow as ->. reflexivity.
  - apply (bool_decide_unpack _). vm_compute. reflexivity.
  - apply Hname. discriminate.
Defined.

(** A table that lists the number 2345-7 twice, with different names and
    parts. *)
Definition twiceFirst : LoincRow :=
  mkLoincRow "2345-7" "Glucose [Mass/volume] in Serum or Plasma" "ACTIVE" "mg/dL"
    (mkParts "CHEM" "Glucose" "MCnc" "Pt" "Ser/Plas" "Qn" "").

Definition twiceLast : LoincRow :=
  mkLoincRow "2345-7" "Glucose [Moles/volume] in Serum or Plasma" "DEPRECATED" "mmol/L"
    (mkParts "CHEM" "Glucose" "SCnc" "Pt" "Ser/Plas" "Qn" "").

(** The entry of the number listed twice has the name of the first row and
    the parts of the second. *)
Lemma buildLoincToParts_duplicates_witness :
  row_LOINC_NUM twiceLast = row_LOINC_NUM twiceFirst ∧
  ∃ rec, buildLoincToParts ([] ++ twiceFirst :: [twiceLast]) !! "2345-7" = Some rec ∧
         header rec = rowHeader twiceFirst ∧ parts rec = rowArrays twiceLast.
Proof.
  split; [reflexivity|].
  apply (buildLoincToParts_duplicates [] [twiceLast] [twiceFirst] [] twiceFirst twiceLast).
  - reflexivity.
  - reflexivity.
  - constructor.
  - constructor.
Defined.

End CatalogueFacts.

(** ** More facts about [LabNameParser]: adjusted components and times *)
Module ParserFacts.
Import LoincUtils PcnRow LabNameParser PcornetValidationMgr.

Lemma predefinedRulesLoop_cases row rawName mappedComponent mods :
  let r := predefinedRulesLoop row rawName mappedComponent mods in
  (adj_status r = "none" ∧ adj_component r = None) ∨
  (adj_status r = "both" ∧ adj_component r = None) ∨
  (adj_status r = "name" ∧
   ∃ m, m ∈ mods ∧ adj_component r = Some (mappedComponent +:+ modifier m)) ∨
  (adj_status r = "component" ∧
   ∃ m, m ∈ mods ∧
        adj_component r = Some (Js.dropLast (String.length (modifier m)) mappedComponent)).
Proof.
  induction mods as [|m rest IH]; simpl; [by left|].
  assert (Hrest :
    let r := predefinedRulesLoop row rawName mappedComponent rest in
    (adj_status r = "none" ∧ adj_component r = None) ∨
    (adj_status r = "both" ∧ adj_component r = None) ∨
    (adj_status r = "name" ∧
     ∃ m', m' ∈ m :: rest ∧ adj_component r = Some (mappedComponent +:+ modifier m')) ∨
    (adj_status r = "component" ∧
     ∃ m', m' ∈ m :: rest ∧
           adj_component r
             = Some (Js.dropLast (String.length (modifier m')) mappedComponent))).
  { cbv zeta in *. destruct IH as [H|[H|[[H (m' & Hm & Hc)]|[H (m' & Hm & Hc)]]]];
      [by left|by right; left|right; right; left|right; right; right];
      (split; [done|]); exists m'; (split; [by right|done]). }
  repeat match goal with |- context [if ?b then _ else _] => destruct b end;
    try exact Hrest; simpl.
  - right. right. left. split; [done|]. exists m. split; [left|done].
  - right. right. right. split; [done|]. exists m. split; [left|done].
  - right. left. done.
Qed.

(** The adjustment of the component by modifiers never reports the status
    ["both"]: a modifier found on both sides sends the dispatcher on to the
    IgX rule.  The status is ["blank"] exactly when the name or the mapped
    component is empty, and a component is proposed exactly under the
    statuses ["name"], ["component"] and ["fixed"]. *)
Theorem getAdjustedComponentByModifier_statuses (row : Row) :
  let r := getAdjustedComponentByModifier row in
  adj_status r ∈ ["blank"; "name"; "component"; "fixed"; "none"] ∧
  (adj_status r = "blank" ↔ RAW_LAB_NAME row = "" ∨ rowPart row COMPONENT = "") ∧
  (is_Some (adj_component r) ↔ adj_status r ∈ ["name"; "component"; "fixed"]).
Proof.
  assert (Hnone : ∀ r, adj_status r = "none" → adj_component r = None →
            adj_status r ∈ ["blank"; "name"; "component"; "fixed"; "none"] ∧
            adj_status r ≠ "blank" ∧
            (is_Some (adj_component r) ↔ adj_status r ∈ ["name"; "component"; "fixed"])).
  { intros r -> ->. split; [by repeat constructor|]. split; [done|].
    split; [by intros [? ?]|]. intros H.
    repeat (apply elem_of_cons in H as [H|H]; [done|]). by apply elem_of_nil in H. }
  assert (Hsome : ∀ r s, adj_status r = s → s ∈ ["name"; "component"; "fixed"] →
            is_Some (adj_component r) →
            adj_status r ∈ ["blank"; "name"; "component"; "fixed"; "none"] ∧
            adj_status r ≠ "blank" ∧
            (is_Some (adj_component r) ↔ adj_status r ∈ ["name"; "component"; "fixed"])).
  { intros r s Heq Hs Hc. rewrite Heq.
    assert (Hcases : s = "name" ∨ s = "component" ∨ s = "fixed").
    { repeat (apply elem_of_cons in Hs as [Hs|Hs]; [tauto|]). by apply elem_of_nil in Hs. }
    split; [|split].
    - destruct Hcases as [-> | [-> | ->]]; by repeat constructor.
    - by destruct Hcases as [-> | [-> | ->]].
    - by split. }
  assert (Higx : let r := getAdjustedComponentByModifierIgX row in
            adj_status r ∈ ["blank"; "name"; "component"; "fixed"; "none"] ∧
            adj_status r ≠ "blank" ∧
            (is_Some (adj_component r) ↔ adj_status r ∈ ["name"; "component"; "fixed"])).
  { unfold getAdjustedComponentByModifierIgX.
    destruct (extractIgX (RAW_LAB_NAME row)) as [a|]; [|by apply Hnone].
    destruct (extractIgX (rowPart row COMPONENT)) as [b|]; [|by apply Hnone].
    destruct (negb (Js.strictEq a b)); [|by apply Hnone].
    apply (Hsome _ "fixed"); [done|by repeat constructor|by eexists]. }
  unfold getAdjustedComponentByModifier, getAdjustedComponentByModifierPredefinedRules.
  cbv zeta in *.
  pose proof (predefinedRulesLoop_cases row (RAW_LAB_NAME row)
                (rowPart row COMPONENT) componentModifiers) as Hloop.
  cbv zeta in Hloop. revert Hloop.
  generalize (predefinedRulesLoop row (RAW_LAB_NAME row) (rowPart row COMPONENT)
                componentModifiers).
  intros r0 Hloop.
  assert (Hempty : adj_status (mkAdjustStatus "blank" None None)
                     ∈ ["blank"; "name"; "component"; "fixed"; "none"] ∧
                   (is_Some (adj_component (mkAdjustStatus "blank" None None)) ↔
                    adj_status (mkAdjustStatus "blank" None None)
                      ∈ ["name"; "component"; "fixed"])).
  { split; [by left|]. split; [by intros [? ?]|]. cbn [adj_status]. intros H.
    repeat (apply elem_of_cons in H as [H|H]; [done|]). by apply elem_of_nil in H. }
  destruct (Js.truthy (RAW_LAB_NAME row)) eqn:Hname; cbn [negb orb].
  - destruct (Js.truthy (rowPart row COMPONENT)) eqn:Hcomp; cbn [negb orb].
    + apply JsFacts.truthy_true in Hname, Hcomp.
      assert (Hgoal : ∀ r,
                adj_status r ∈ ["blank"; "name"; "component"; "fixed"; "none"] ∧
                adj_status r ≠ "blank" ∧
                (is_Some (adj_component r)
                 ↔ adj_status r ∈ ["name"; "component"; "fixed"]) →
                adj_status r ∈ ["blank"; "name"; "component"; "fixed"; "none"] ∧
                (adj_status r = "blank"
                 ↔ RAW_LAB_NAME row = "" ∨ rowPart row COMPONENT = "") ∧
                (is_Some (adj_component r)
                 ↔ adj_status r ∈ ["name"; "component"; "fixed"])).
      { intros r (H1 & H2 & H3). split; [done|]. split; [|done].
        split; [done|]. by intros [?|?]. }
      destruct Hloop as [[Hs Hc]|[[Hs Hc]|[[Hs (m & _ & Hc)]|[Hs (m & _ & Hc)]]]];
        rewrite ?Hc, ?Hs; cbn [Js.truthyU orb].
      * apply Hgoal, Higx.
      * apply Hgoal, Higx.
      * destruct (Js.truthy (rowPart row COMPONENT +:+ modifier m)); cbn [orb].
        -- apply Hgoal, (Hsome _ "name"); [done|by repeat constructor|by rewrite Hc].
        -- apply Hgoal, Higx.
      * destruct (Js.truthy (Js.dropLast _ _)); cbn [orb].
        -- apply Hgoal, (Hsome _ "component"); [done|by repeat constructor|by rewrite Hc].
        -- apply Hgoal, Higx.
    + apply JsFacts.truthy_false in Hcomp. destruct Hempty as [H1 H2].
      split; [exact H1|]. split; [|exact H2]. split; [by right|done].
  - apply JsFacts.truthy_false in Hname. destruct Hempty as [H1 H2].
    split; [exact H1|]. split; [|exact H2]. split; [by left|done].
Qed.

(** *** The times extracted *)

Ltac eval_decides :=
  repeat match goal with
         | |- context [bool_decide (?a = ?b)] =>
             let v := eval vm_compute in (bool_decide (a = b)) in
             change (bool_decide (a = b)) with v
         end.

Lemma extractTime_unit unit :
  map x_value (extractTime unit "RAW_UNIT") =
  match matchHours unit with
  | Some d => [d +:+ "H"]
  | None => []
  end.
Proof.
  unfold extractTime, runExtractors.
  let t := eval vm_compute in timeExtractors in change timeExtractors with t.
  destruct (Js.truthy unit) eqn:Hu.
  - cbn [negb omap list_omap ext_selector]. eval_decides.
    cbn [Js.truthy extract ext_extract fmap option_fmap option_map].
    destruct (matchHours unit) as [d|]; [|done].
    cbn [fmap option_fmap option_map].
    assert (Ht : Js.truthy (d +:+ "H") = true) by (by destruct d).
    by rewrite Ht.
  - apply JsFacts.truthy_false in Hu. by subst unit.
Qed.

Lemma extractTime_name name :
  map x_value (extractTime name "RAW_LAB_NAME") =
  if Js.truthy name && Js.test (Js.wordsCI ["random"]) name then ["Pt"] else [].
Proof.
  unfold extractTime, runExtractors.
  let t := eval vm_compute in timeExtractors in change timeExtractors with t.
  destruct (Js.truthy name) eqn:Hu.
  - cbn [negb omap list_omap ext_selector]. eval_decides.
    cbn [Js.truthy extract ext_extract ext_regex ext_partName toFilterOut
         ext_mapToClassIncl ext_mapToClassExcl ext_unless Js.includesU negb orb andb].
    rewrite Hu, !andb_false_r. cbn [andb orb negb].
    change (Js.wordsCI ["random"]) with [Js.mkAlt true "random" true true].
    destruct (Js.test _ name); done.
  - apply JsFacts.truthy_false in Hu. by subst name.
Qed.

(** The string is made of decimal digits. *)
Fixpoint allDigits (s : string) : bool :=
  match s with
  | EmptyString => true
  | String c s' => Js.isDigit c && allDigits s'
  end.

Lemma takeDigits_allDigits s : allDigits (fst (takeDigits s)) = true.
Proof.
  induction s as [|c s IH]; simpl; [done|].
  destruct (Js.isDigit c) eqn:Hc; [|done].
  destruct (takeDigits s) as [d r]. simpl in *. by rewrite Hc, IH.
Qed.

Lemma takeDigits_app d rest :
  allDigits d = true → Js.isDigit (default "x"%char (Js.headChar rest)) = false →
  takeDigits (d +:+ rest) = (d, rest).
Proof.
  intros Hd Hrest. induction d as [|c d IH]; simpl in *.
  - destruct rest as [|c r]; [done|]. simpl in *. by rewrite Hrest.
  - apply andb_true_iff in Hd as [Hc Hd]. by rewrite Hc, IH.
Qed.

Lemma matchHours_digits unit d :
  matchHours unit = Some d → d ≠ "" ∧ allDigits d = true.
Proof.
  induction unit as [|c unit IH]; simpl; [done|].
  destruct (bool_decide (c = "/"%char)); [|exact IH].
  unfold hoursAfterSlash.
  pose proof (takeDigits_allDigits (Js.trimStart unit)) as Hall.
  destruct (takeDigits (Js.trimStart unit)) as [digits rest]. simpl in Hall.
  destruct (Js.truthy digits) eqn:Ht; cbn [andb]; [|exact IH].
  match goal with |- context [if ?b then _ else _] => destruct b end; [|exact IH].
  intros [= <-]. split; [by apply JsFacts.truthy_true|done].
Qed.

(** The times the parser extracts.  From a unit it extracts at most one
    time, of the form of a number followed by H, which is the form
    [inferLoincTime] tests for; from a name it extracts Pt, once, exactly
    when the name has the word random: the entry for the word spot is
    disabled. *)
Theorem extractTime_values (text : string) :
  (∀ v, v ∈ map x_value (extractTime text "RAW_UNIT") → isHours v = true) ∧
  (length (extractTime text "RAW_UNIT") ≤ 1)%nat ∧
  map x_value (extractTime text "RAW_LAB_NAME")
    = (if Js.truthy text && Js.test (Js.wordsCI ["random"]) text then ["Pt"] else []).
Proof.
  split; [|split].
  - intros v. rewrite extractTime_unit.
    destruct (matchHours text) as [d|] eqn:Hd; [|by intros H; apply elem_of_nil in H].
    intros Hv. apply list_elem_of_singleton in Hv as ->.
    apply matchHours_digits in Hd as [Hne Hall]. unfold isHours.
    rewrite (takeDigits_app d "H" Hall eq_refl).
    apply JsFacts.truthy_true in Hne. by rewrite Hne.
  - rewrite <- (length_map x_value), extractTime_unit.
    destruct (matchHours text); simpl; lia.
  - apply extractTime_name.
Qed.

End ParserFacts.

(** ** More facts about [LoincPartSynonyms] *)
Module SynonymFacts.
Import LoincUtils LoincPartSynonyms.

(** The names of another group pushed to an array. *)
Definition pushNew (acc synonyms : list string) : list string :=
  foldl (λ acc syno, if Js.includes acc syno then acc else acc ++ [syno]) acc synonyms.

Lemma pushNew_spec acc synonyms :
  acc `prefix_of` pushNew acc synonyms ∧
  (∀ x, x ∈ pushNew acc synonyms ↔ x ∈ acc ∨ x ∈ synonyms) ∧
  (NoDup acc → NoDup (pushNew acc synonyms)).
Proof.
  unfold pushNew. revert acc.
  induction synonyms as [|s rest IH]; intros acc; simpl.
  - split; [done|]. split; [|done]. intros x. split; [by left|].
    intros [H|H]; [done|by apply elem_of_nil in H].
  - destruct (IH (if Js.includes acc s then acc else acc ++ [s])) as (Hp & Hin & Hnd).
    destruct (Js.includes acc s) eqn:Hs.
    + apply JsFacts.includes_true in Hs. split; [done|]. split; [|done].
      intros x. rewrite Hin, elem_of_cons. split; [tauto|].
      intros [H|[->|H]]; tauto.
    + apply not_true_iff_false in Hs. rewrite JsFacts.includes_true in Hs.
      split; [|split].
      * etrans; [|exact Hp]. by apply prefix_app_r.
      * intros x. rewrite Hin, elem_of_app, list_elem_of_singleton, elem_of_cons. tauto.
      * intros Hacc. apply Hnd. apply NoDup_app. split; [done|].
        split; [|apply NoDup_singleton].
        intros x Hx Hx'. apply list_elem_of_singleton in Hx' as ->. done.
Qed.

Lemma pushNew_id acc synonyms : synonyms ⊆ acc → pushNew acc synonyms = acc.
Proof.
  unfold pushNew. induction synonyms as [|s rest IH]; intros Hsub; simpl; [done|].
  assert (Hs : Js.includes acc s = true).
  { apply JsFacts.includes_true, Hsub. left. }
  rewrite Hs. apply IH. intros x Hx. apply Hsub. by right.
Qed.

(** The groups of the table as the map holds them. *)
Lemma partSynonymsMap_entries t m name group :
  partSynonymsMap t = Some m → m !! name = Some group →
  t = SYSTEM ∧ name ∈ group ∧
  group ∈ [ ["Ser"; "Plas"; "Ser/Plas"]; ["Bld"; "Ser/Plas/Bld"]; ["xxxx-1"; "xxxxx-2"] ].
Proof.
  destruct t; try done. intros [= <-] Hl.
  apply elem_of_map_to_list in Hl. revert Hl.
  match goal with
  | |- _ ∈ map_to_list ?m → _ =>
      let l := eval vm_compute in (map_to_list m) in
      change (map_to_list m) with l
  end.
  intros Hl. split; [done|].
  repeat (apply elem_of_cons in Hl as [[= -> ->]|Hl];
          [split; by repeat constructor|]).
  by apply elem_of_nil in Hl.
Qed.

Lemma getPartSynonyms_self t name group :
  getPartSynonyms t name = Some group → name ∈ group.
Proof.
  unfold getPartSynonyms. destruct (partSynonymsMap t) as [m|] eqn:Hm; [|done].
  intros Hl. by destruct (partSynonymsMap_entries t m name group Hm Hl) as (_ & Hn & _).
Qed.

Lemma getPartSynonyms_closed t name group x :
  getPartSynonyms t name = Some group → x ∈ group →
  getPartSynonyms t x = Some group.
Proof.
  unfold getPartSynonyms. destruct (partSynonymsMap t) as [m|] eqn:Hm; [|done].
  intros Hl Hx. destruct (partSynonymsMap_entries t m name group Hm Hl) as (-> & Hn & Hg).
  injection Hm as <-.
  repeat (apply elem_of_cons in Hg as [->|Hg];
          [repeat (apply elem_of_cons in Hx as [->|Hx]; [by vm_compute|]);
           by apply elem_of_nil in Hx|]).
  by apply elem_of_nil in Hg.
Qed.

(** Being synonyms is a partial equivalence on the part names that do not
    read as a member of [Object.prototype] (for such a name the lookup of
    the code finds the inherited member, which is no list of names): a name
    that has synonyms is among them, and the synonyms of a name have the
    same synonyms as the name. *)
Theorem getPartSynonyms_equivalence (t : PartType) (a b : string) :
  a ∉ Js.objectPrototypeMembers →
  let synonyms name := default [] (getPartSynonyms t name) in
  (is_Some (getPartSynonyms t a) → a ∈ synonyms a) ∧
  (b ∈ synonyms a → a ∈ synonyms b ∧ synonyms b = synonyms a).
Proof.
  intros _. cbv zeta. split.
  - intros [g Hg]. rewrite Hg. simpl. by apply (getPartSynonyms_self t).
  - destruct (getPartSynonyms t a) as [g|] eqn:Hg; simpl;
      [|by intros H; apply elem_of_nil in H].
    intros Hb. rewrite (getPartSynonyms_closed t a g b Hg Hb). simpl.
    split; [|done]. by apply (getPartSynonyms_self t).
Qed.

(** The synonyms of "Ser" and of "Plas" are the same three names. *)
Lemma getPartSynonyms_equivalence_witness :
  ("Ser" ∉ Js.objectPrototypeMembers) ∧
  (let synonyms name := default [] (getPartSynonyms SYSTEM name) in
   (is_Some (getPartSynonyms SYSTEM "Ser") → "Ser" ∈ synonyms "Ser") ∧
   ("Plas" ∈ synonyms "Ser" →
    "Ser" ∈ synonyms "Plas" ∧ synonyms "Plas" = synonyms "Ser")).
Proof.
  assert (Hplain : "Ser" ∉ Js.objectPrototypeMembers).
  { apply (bool_decide_unpack _). vm_compute. reflexivity. }
  split; [exact Hplain|].
  exact (getPartSynonyms_equivalence SYSTEM "Ser" "Plas" Hplain).
Defined.

(** [addPartSynonyms] on names none of which reads as a member of
    [Object.prototype] (on such a name the code iterates over the inherited
    member and throws): it keeps the names given, in their places, and
    appends the synonyms of each that are not there yet, so the names of
    the result are the names given and their synonyms.  Names that are
    distinct stay distinct, and a second call adds nothing. *)
Theorem addPartSynonyms_spec (t : PartType) (partNames : list string) :
  (∀ name, name ∈ partNames → name ∉ Js.objectPrototypeMembers) →
  partNames `prefix_of` addPartSynonyms t partNames ∧
  (∀ x, x ∈ addPartSynonyms t partNames ↔
        x ∈ partNames ∨
        ∃ name, name ∈ partNames ∧ x ∈ default [] (getPartSynonyms t name)) ∧
  (NoDup partNames → NoDup (addPartSynonyms t partNames)) ∧
  addPartSynonyms t (addPartSynonyms t partNames) = addPartSynonyms t partNames.
Proof.
  intros _. unfold addPartSynonyms, getPartSynonyms.
  destruct (partSynonymsMap t) as [m|] eqn:Hm.
  2:{ split; [done|]. split; [|done]. intros x. split; [by left|].
      intros [H|(n & _ & H)]; [done|by apply elem_of_nil in H]. }
  assert (Hgen : ∀ names acc,
            let r := foldl (λ acc name, pushNew acc (default [] (m !! name))) acc names in
            acc `prefix_of` r ∧
            (∀ x, x ∈ r ↔ x ∈ acc ∨ ∃ n, n ∈ names ∧ x ∈ default [] (m !! n)) ∧
            (NoDup acc → NoDup r)).
  { induction names as [|n names IH]; intros acc; simpl.
    - split; [done|]. split; [|done]. intros x. split; [by left|].
      intros [H|(n & H & _)]; [done|by apply elem_of_nil in H].
    - destruct (IH (pushNew acc (default [] (m !! n)))) as (Hp & Hin & Hnd).
      destruct (pushNew_spec acc (default [] (m !! n))) as (Hp' & Hin' & Hnd').
      split; [by etrans|]. split; [|by auto].
      intros x. rewrite Hin, Hin'. split.
      + intros [[H|H]|(n' & Hn' & H)]; [by left| |].
        * right. exists n. split; [left|done].
        * right. exists n'. split; [by right|done].
      + intros [H|(n' & Hn' & H)]; [by left; left|].
        apply elem_of_cons in Hn' as [->|Hn']; [by left; right|].
        right. by exists n'. }
  change (λ acc name, foldl (λ acc0 syno,
            if Js.includes acc0 syno then acc0 else acc0 ++ [syno])
            acc (default [] (m !! name)))
    with (λ acc name, pushNew acc (default [] (m !! name))).
  destruct (Hgen partNames partNames) as (Hp & Hin & Hnd). cbv zeta in *.
  set (r := foldl _ partNames partNames) in *.
  split; [done|]. split; [done|]. split; [done|].
  (* a second call *)
  assert (Hclosed : ∀ n, n ∈ r → default [] (m !! n) ⊆ r).
  { intros n Hn x Hx. apply Hin. apply Hin in Hn as [Hn|(n0 & Hn0 & Hn)].
    - right. by exists n.
    - right. exists n0. split; [done|].
      destruct (m !! n0) as [g|] eqn:Hg; [|by apply elem_of_nil in Hn]. simpl in Hn.
      assert (Hsyn : getPartSynonyms t n0 = Some g) by (unfold getPartSynonyms; by rewrite Hm).
      pose proof (getPartSynonyms_closed t n0 g n Hsyn Hn) as Hgn.
      unfold getPartSynonyms in Hgn. rewrite Hm in Hgn. rewrite Hgn in Hx. done. }
  assert (Hid : ∀ names, names ⊆ r →
            foldl (λ acc name, pushNew acc (default [] (m !! name))) r names = r).
  { induction names as [|n names IH]; intros Hsub; simpl; [done|].
    rewrite pushNew_id.
    - apply IH. intros x Hx. apply Hsub. by right.
    - apply Hclosed, Hsub. left. }
  by apply Hid.
Qed.

(** The test data of the module: the synonym "Plas" is appended. *)
Lemma addPartSynonyms_spec_witness :
  let partNames := ["Ser"; "whatever"; "Ser/Plas"] in
  (∀ name, name ∈ partNames → name ∉ Js.objectPrototypeMembers) ∧
  addPartSynonyms SYSTEM partNames = ["Ser"; "whatever"; "Ser/Plas"; "Plas"] ∧
  partNames `prefix_of` addPartSynonyms SYSTEM partNames ∧
  addPartSynonyms SYSTEM (addPartSynonyms SYSTEM partNames)
    = addPartSynonyms SYSTEM partNames.
Proof.
  assert (Hplain : ∀ name, name ∈ ["Ser"; "whatever"; "Ser/Plas"] →
                           name ∉ Js.objectPrototypeMembers).
  { intros name Hname. apply (bool_decide_unpack _).
    repeat (apply elem_of_cons in Hname as [->|Hname]; [vm_compute; reflexivity|]).
    by apply elem_of_nil in Hname. }
  split; [exact Hplain|]. split; [reflexivity|].
  destruct (addPartSynonyms_spec SYSTEM ["Ser"; "whatever"; "Ser/Plas"] Hplain)
    as (Hprefix & _ & _ & Hagain).
  split; [exact Hprefix|exact Hagain].
Defined.

End SynonymFacts.



(** ** The state the inference engine keeps *)
Module EngineFacts.
Import LoincUtils LoincPartSynonyms PcnRow LabNameParser Eff Globals.
Import PcornetValidationMgr EffFacts InferenceFacts.

(** Either no issue has been recorded and the judgement is the one the
    engine was entered with, or the issues are a list of distinct tokens,
    not empty, and the judgement is ["INCORRECT_aj"]. *)
Definition flagged (j0 : string) (r : Row) : Prop :=
  (ALGO_MAPPING_ISSUES r = IssuesUnset ∧ ALGO_JUDGEMENT r = j0) ∨
  (∃ issues, issues ≠ [] ∧ NoDup issues ∧
             ALGO_MAPPING_ISSUES r = IssuesList issues ∧
             ALGO_JUDGEMENT r = "INCORRECT_aj").

(** The inferred parts, when there are any, have one entry for each of
    their part types, and each entry holds names that are distinct, at
    least one, with a type for each. *)
Definition inferredWf (r : Row) : Prop :=
  match inferred r with
  | None => True
  | Some inf =>
      NoDup (map fst inf) ∧
      Forall (λ e, wfEntry (snd e) ∧ names (snd e) ≠ []) inf
  end.

(** The tokens recorded as mapping issues: the part types, and the two
    disagreements on the microscope field. *)
Definition issueTokens : list string :=
  map partTypeName PartTypeList ++ ["HPF-LPF"; "LPF-HPF"].

(** The issues recorded so far. *)
Definition issuesOf (r : Row) : list string :=
  match ALGO_MAPPING_ISSUES r with IssuesList issues => issues | _ => [] end.

Definition tokensOk (r : Row) : Prop := ∀ t, t ∈ issuesOf r → t ∈ issueTokens.

(** Every part type recorded as an issue, those of [except] apart, has
    inferred names. *)
Definition backed (except : list PartType) (r : Row) : Prop :=
  ∀ pt, pt ∉ except → partTypeName pt ∈ issuesOf r → is_Some (inferredEntry r pt).

Definition engineInvX (j0 : string) (except : list PartType) (r : Row) : Prop :=
  flagged j0 r ∧ inferredWf r ∧ tokensOk r ∧ backed except r.

Definition engineInv (j0 : string) (r : Row) : Prop := engineInvX j0 [] r.

Lemma assocSet_keys {A} (key : PartType) (value : A) obj :
  NoDup (map fst obj) → 
  NoDup (map fst (assocSet key value obj)) ∧
  ∀ k, k ∈ map fst (assocSet key value obj) ↔ k = key ∨ k ∈ map fst obj.
Proof.
  induction obj as [|[k v] obj IH]; simpl; intros Hnd.
  - split; [apply NoDup_singleton|]. intros k. rewrite list_elem_of_singleton.
    split; [by left|]. intros [H|H]; [done|by apply elem_of_nil in H].
  - apply NoDup_cons in Hnd as [Hk Hnd]. destruct (IH Hnd) as [IH1 IH2].
    destruct (decide (k = key)) as [->|Hne]; simpl.
    + split; [by apply NoDup_cons|]. intros k'. rewrite elem_of_cons. tauto.
    + split.
      * apply NoDup_cons. split; [|done]. rewrite IH2. intros [H|H]; done.
      * intros k'. rewrite !elem_of_cons, IH2. tauto.
Qed.

Lemma assocSet_Forall {A} (Q : PartType * A → Prop) key value obj :
  Q (key, value) → Forall Q obj → Forall Q (assocSet key value obj).
Proof.
  intros Hq. induction obj as [|[k v] obj IH]; simpl; intros Hall.
  - by repeat constructor.
  - apply Forall_cons in Hall as [Hkv Hall].
    destruct (decide (k = key)) as [->|Hne]; constructor; auto.
Qed.

Lemma inferredEntry_wf r pt e :
  inferredWf r → inferredEntry r pt = Some e → wfEntry e ∧ names e ≠ [].
Proof.
  unfold inferredWf, inferredEntry. destruct (inferred r) as [inf|]; [|done].
  intros [_ Hall] Hfind.
  destruct (find _ inf) as [[k v]|] eqn:Hf; [|done]. injection Hfind as <-.
  apply find_some in Hf as [Hin _].
  rewrite Forall_forall in Hall. apply (Hall (k, v)). by apply list_elem_of_In.
Qed.

(** A record without issue and without inferred parts. *)
Lemma engineInv_cleared r :
  ALGO_MAPPING_ISSUES r = IssuesUnset → inferred r = None →
  engineInv (ALGO_JUDGEMENT r) r.
Proof.
  intros Hissues Hinferred.
  split; [by left|]. split; [unfold inferredWf; by rewrite Hinferred|].
  split; intros t; unfold issuesOf; rewrite Hissues;
    [by intros H; apply elem_of_nil in H|].
  by intros _ H; apply elem_of_nil in H.
Qed.

Lemma partTypeName_token pt : partTypeName pt ∈ issueTokens.
Proof. destruct pt; unfold issueTokens; cbn; by repeat constructor. Qed.

Lemma partTypeName_inj pt pt' : partTypeName pt = partTypeName pt' → pt = pt'.
Proof. by destruct pt, pt'. Qed.

(** The engine does not throw as long as the issues are not a text. *)
Lemma addInferredLoincParts_backs j0 except loincPart newPartNames inferType :
  newPartNames ≠ [] → (∀ pt, pt ∈ except → pt = loincPart) →
  hoare (engineInvX j0 except)
    (addInferredLoincParts loincPart newPartNames inferType)
    (λ _ r, engineInv j0 r ∧ is_Some (inferredEntry r loincPart)) anyEvent.
Proof.
  intros Hne Hex row (Hflag & Hwf & Htok & Hback).
  destruct newPartNames as [|partName rest]; [done|].
  rewrite addInferredLoincParts_run. eexists _, _, _. split; [reflexivity|].
  split; [|constructor].
  set (entry := default (mkInferredEntry [] []) (inferredEntry row loincPart)).
  set (entry' := addNames inferType entry (partName :: rest)).
  assert (Hfind : ∀ pt,
            inferredEntry
              (set_inferred (Some (assocSet loincPart entry' (default [] (inferred row)))) row)
              pt
            = if decide (loincPart = pt) then Some entry' else inferredEntry row pt).
  { intros pt. rewrite inferredEntry_set_inferred, find_assocSet.
    case_decide; [done|]. unfold inferredEntry. by destruct (inferred row). }
  split; [|rewrite Hfind, decide_True by done; by eexists].
  split; [exact Hflag|]. split; [|split; [exact Htok|]].
  - unfold inferredWf. cbn [inferred set_inferred].
    assert (Hentry : wfEntry entry).
    { unfold entry. destruct (inferredEntry row loincPart) as [e|] eqn:He; simpl.
      - by apply (inferredEntry_wf row loincPart).
      - split; [constructor|done]. }
    assert (Hinf : NoDup (map fst (default [] (inferred row))) ∧
                   Forall (λ e, wfEntry (snd e) ∧ names (snd e) ≠ [])
                          (default [] (inferred row))).
    { unfold inferredWf in Hwf. destruct (inferred row); [done|].
      split; [constructor|constructor]. }
    destruct Hinf as [Hnd Hall]. split.
    + by apply assocSet_keys.
    + apply assocSet_Forall; [|done]. simpl. split; [by apply addNames_wf|].
      intros Hnil.
      assert (Hin : partName ∈ names entry').
      { apply elem_of_addNames. right. left. }
      rewrite Hnil in Hin. by apply elem_of_nil in Hin.
  - intros pt _ Hpt. rewrite Hfind. case_decide; [by eexists|].
    apply Hback; [|exact Hpt]. intros Hin. by apply Hex in Hin.
Qed.

Lemma addInferredLoincParts_keeps j0 loincPart newPartNames inferType :
  newPartNames ≠ [] →
  keepsInv (engineInv j0) (addInferredLoincParts loincPart newPartNames inferType).
Proof.
  intros Hne row Hrow.
  destruct (addInferredLoincParts_backs j0 [] loincPart newPartNames inferType Hne)
    with (row := row) as (a & row' & ev & Hrun & [Hpost _] & Hev); [|done|].
  - intros pt H. by apply elem_of_nil in H.
  - by exists a, row', ev.
Qed.

(** An issue is recorded and the judgement set.  The part type of the
    issue, when it is one, has inferred names or is among [except']. *)
Lemma flag_keeps j0 except except' (Pre : Row → Prop) type confidence {B}
    (k : unit → M B) (Post : B → Row → Prop) Ev :
  type ∈ issueTokens →
  (∀ r, Pre r → engineInvX j0 except r) →
  (∀ r pt, Pre r → partTypeName pt = type →
           pt ∈ except' ∨ is_Some (inferredEntry r pt)) →
  (∀ pt, pt ∈ except → pt ∈ except') →
  (∀ u, hoare (engineInvX j0 except') (k u) Post Ev) →
  Ev (EvJudgement "INCORRECT_aj") →
  hoare Pre
    (addAlgoMappingIssue type confidence ;; setJudgement "INCORRECT_aj" ≫= k) Post Ev.
Proof.
  intros Htype Hpre Hpart Hsub Hk Hev row Hrow.
  destruct (Hpre row Hrow) as (Hflag & Hwf & Htok & Hback).
  set (current := issuesOf row).
  set (row2 := set_ALGO_JUDGEMENT "INCORRECT_aj"
                 (set_ALGO_MAPPING_ISSUES
                    (IssuesList (SynonymFacts.pushNew current [type])) row)).
  assert (Hrun : (addAlgoMappingIssue type confidence ;; setJudgement "INCORRECT_aj" ≫= k)
                   row
                 = let '(r, row', ev) := k tt row2 in
                   (r, row', EvJudgement "INCORRECT_aj" :: ev)).
  { unfold addAlgoMappingIssue, addRowUpdates. rewrite bind_run, get_bind_run.
    destruct Hflag as [[Hi Hj]|(issues & Hne & Hnd & Hi & Hj)];
      subst current row2; unfold issuesOf; rewrite Hi; cbn -[setJudgement];
      unfold setJudgement; rewrite !bind_run; cbn; 
      by destruct (k () _) as [[? ?] ?]. }
  destruct (SynonymFacts.pushNew_spec current [type]) as (Hp & Hin & Hnd).
  assert (Hinv : engineInvX j0 except' row2).
  { split; [|split; [exact Hwf|split]].
    - right. exists (SynonymFacts.pushNew current [type]). split; [|split; [|done]].
      + intros Hnil. assert (H : type ∈ SynonymFacts.pushNew current [type]).
        { apply Hin. right. left. }
        rewrite Hnil in H. by apply elem_of_nil in H.
      + apply Hnd. subst current. unfold issuesOf.
        destruct Hflag as [[-> _]|(issues & _ & H & -> & _)]; [constructor|done].
    - intros t Ht. change (issuesOf row2) with (SynonymFacts.pushNew current [type]) in Ht.
      apply Hin in Ht as [Ht|Ht]; [by apply Htok|].
      by apply list_elem_of_singleton in Ht as ->.
    - intros pt Hpt Hissue.
      change (issuesOf row2) with (SynonymFacts.pushNew current [type]) in Hissue.
      change (inferredEntry row2 pt) with (inferredEntry row pt).
      apply Hin in Hissue as [Hissue|Hissue].
      + apply Hback; [|done]. intros Hex. by apply Hpt, Hsub.
      + apply list_elem_of_singleton in Hissue.
        destruct (Hpart row pt Hrow Hissue) as [Hex|Hsome]; done. }
  destruct (Hk tt row2 Hinv) as (b & row' & ev & Hk' & Hpost & Hevs).
  exists b, row', (EvJudgement "INCORRECT_aj" :: ev). rewrite Hrun, Hk'.
  split; [done|]. split; [done|]. by constructor.
Qed.

Lemma hoare_assume {A} (Pre : Row → Prop) (Q : Prop) (m : M A) Post Ev :
  (Q → hoare Pre m Post Ev) → hoare (λ r, Pre r ∧ Q) m Post Ev.
Proof. intros H row [Hpre Hq]. by apply H. Qed.

(** The check, entered with the invariant: when it records the issue, the
    part type is left to be backed, and the names are not empty. *)
Lemma disagree_first j0 partType partNames confidence absenceOK :
  hoare (engineInv j0)
    (addAlgoIssueAndJudgementIfPartsDisagree partType partNames confidence absenceOK)
    (λ b r, if b : bool then engineInvX j0 [partType] r ∧ partNames ≠ []
            else engineInv j0 r) anyEvent.
Proof.
  unfold addAlgoIssueAndJudgementIfPartsDisagree.
  apply (hoare_bind _ _ (λ _, engineInv j0)); [by apply hoare_get|]. intros row.
  destruct partNames as [|partName rest]; cbn [orb].
  - by apply hoare_ret.
  - repeat match goal with |- context [if ?b then _ else _] => destruct b end;
      try (by apply hoare_ret).
    all: apply (flag_keeps j0 [] [partType]);
      [ apply partTypeName_token | done
      | intros r pt _ Heq; left; apply partTypeName_inj in Heq as ->; left
      | intros pt H; by apply elem_of_nil in H
      | intros _; by apply hoare_ret | done ].
Qed.

(** The check, entered when the part type has inferred names. *)
Lemma disagree_backed j0 partType partNames confidence absenceOK :
  hoare (λ r, engineInv j0 r ∧ is_Some (inferredEntry r partType))
    (addAlgoIssueAndJudgementIfPartsDisagree partType partNames confidence absenceOK)
    (λ _, engineInv j0) anyEvent.
Proof.
  unfold addAlgoIssueAndJudgementIfPartsDisagree.
  apply (hoare_bind _ _ (λ _ r, engineInv j0 r ∧ is_Some (inferredEntry r partType)));
    [by apply hoare_get|].
  intros row.
  destruct partNames as [|partName rest]; cbn [orb].
  - apply hoare_ret. by intros r [H _].
  - repeat match goal with |- context [if ?b then _ else _] => destruct b end;
      try (apply hoare_ret; by intros r [H _]).
    all: apply (flag_keeps j0 [] []);
      [ apply partTypeName_token | by intros r [H _]
      | intros r pt [_ Hsome] Heq; right; by apply partTypeName_inj in Heq as ->
      | done
      | intros _; by apply hoare_ret | done ].
Qed.

(** The names are added, then checked. *)
Lemma add_then_disagree j0 partType partNames inferType confidence absenceOK :
  partNames ≠ [] →
  keepsInv (engineInv j0)
    (addInferredLoincParts partType partNames inferType ;;
     addAlgoIssueAndJudgementIfPartsDisagree partType partNames confidence absenceOK ;;
     mret tt).
Proof.
  intros Hne. eapply hoare_bind.
  { apply (addInferredLoincParts_backs j0 []); [done|].
    intros pt H. by apply elem_of_nil in H. }
  intros u. eapply hoare_bind; [apply disagree_backed|]. intros b. by apply hoare_ret.
Qed.

(** The names are checked, and added when the check records an issue. *)
Lemma disagree_then_add j0 partType partNames confidence inferType :
  keepsInv (engineInv j0)
    (disagree ← addAlgoIssueAndJudgementIfPartsDisagree partType partNames confidence true;
     if disagree : bool then addInferredLoincParts partType partNames inferType
     else mret tt).
Proof.
  eapply hoare_bind; [apply disagree_first|]. intros [|].
  - intros row [Hinv Hne].
    destruct (addInferredLoincParts_backs j0 [partType] partType partNames inferType Hne)
      with (row := row) as (a & row' & ev & Hrun & [Hpost _] & Hev); [|done|].
    + intros pt Hpt. by apply list_elem_of_singleton in Hpt.
    + by exists a, row', ev.
  - by apply keepsInv_ret.
Qed.

Lemma extractHpfLpf_values unitOrMethod v :
  extractHpfLpf unitOrMethod = Some v → v = "HPF" ∨ v = "LPF".
Proof.
  unfold extractHpfLpf. destruct (negb _); [done|].
  destruct (Js.endsWith _ "HPF"); [intros [= <-]; by left|].
  destruct (Js.endsWith _ "LPF"); [intros [= <-]; by right|done].
Qed.

Lemma orElse_values a b v :
  orElse a b = Some v → a = Some v ∨ b = Some v.
Proof. destruct a; simpl; auto. Qed.

Lemma foldl_orElse_values acc units v :
  foldl (λ acc unit, orElse acc (extractHpfLpf unit)) acc units = Some v →
  acc = Some v ∨ v = "HPF" ∨ v = "LPF".
Proof.
  revert acc. induction units as [|u units IH]; intros acc; simpl; [by left|].
  intros H. apply IH in H as [H|H]; [|by right].
  apply orElse_values in H as [H|H]; [by left|]. right. by eapply extractHpfLpf_values.
Qed.

Ltac eng_leaf j0 :=
  first
    [ apply keepsInv_ret
    | apply add_then_disagree; repeat case_match; congruence
    | apply disagree_then_add
    | apply addInferredLoincParts_keeps; repeat case_match; congruence
    | by apply keepsInv_modify; intros ? (? & ? & ? & ?) ].

Ltac eng_step j0 :=
  first
    [ eng_leaf j0
    | keeps_step
    | lazymatch goal with
      | |- hoare ?I ?m (λ _, ?I) anyEvent => change (keepsInv I m)
      end ].

Section Engine.
Context (env : Env) (j0 : string).

Lemma inferComponentByModifier_keeps : keepsInv (engineInv j0) (inferComponentByModifier env).
Proof. unfold inferComponentByModifier. repeat eng_step j0. Qed.

Lemma inferLoincSystem_keeps : keepsInv (engineInv j0) inferLoincSystem.
Proof. unfold inferLoincSystem. repeat eng_step j0. Qed.

Lemma inferLoincTime_keeps : keepsInv (engineInv j0) inferLoincTime.
Proof. unfold inferLoincTime. repeat eng_step j0. Qed.

Lemma inferScaleAndProperty_keeps altUnits unitProperties :
  keepsInv (engineInv j0) (inferScaleAndProperty env altUnits unitProperties).
Proof. unfold inferScaleAndProperty. repeat eng_step j0. Qed.

Lemma inferWithHfpLpf_keeps altUnits unitProperties :
  keepsInv (engineInv j0) (inferWithHfpLpf altUnits unitProperties).
Proof.
  unfold inferWithHfpLpf. apply keepsInv_bind; [apply keepsInv_get|]. intros row.
  destruct (foldl _ None altUnits) as [rawXpf|] eqn:Hraw; [|apply keepsInv_ret].
  destruct (orElse _ _) as [mappedXpf|] eqn:Hmapped; [|apply keepsInv_ret].
  destruct (negb (Js.strictEq mappedXpf rawXpf)) eqn:Hdiff; [|apply keepsInv_ret].
  apply negb_true_iff, not_true_iff_false in Hdiff.
  rewrite JsFacts.strictEq_true in Hdiff.
  assert (Hr : rawXpf = "HPF" ∨ rawXpf = "LPF").
  { by apply foldl_orElse_values in Hraw as [Hraw|Hraw]. }
  assert (Hm : mappedXpf = "HPF" ∨ mappedXpf = "LPF").
  { apply orElse_values in Hmapped as [H|H]; by eapply extractHpfLpf_values. }
  apply (flag_keeps j0 [] []); [| done | | done | | done].
  - unfold issueTokens. destruct Hr as [-> | ->], Hm as [-> | ->]; try done;
      cbn; by repeat constructor.
  - intros r pt _ Heq. exfalso.
    destruct Hr as [-> | ->], Hm as [-> | ->]; try done; by destruct pt.
  - intros _. destruct (extractHpfLpf (rowPart row METHOD)); [|apply keepsInv_ret].
    by apply addInferredLoincParts_keeps.
Qed.

Lemma inferLoincPartsUAxPF_keeps : keepsInv (engineInv j0) inferLoincPartsUAxPF.
Proof. unfold inferLoincPartsUAxPF. repeat eng_step j0. Qed.

Lemma inferLoincPartsCDxAntibody_keeps : keepsInv (engineInv j0) inferLoincPartsCDxAntibody.
Proof. unfold inferLoincPartsCDxAntibody. repeat eng_step j0. Qed.

Lemma combineInferredParts_keeps : keepsInv (engineInv j0) combineInferredParts.
Proof. unfold combineInferredParts. repeat eng_step j0. Qed.

(** [inferAndValidate] keeps the invariant: it never throws on a row whose
    issue column is unset or a list. *)
Lemma inferAndValidate_keeps altUnits rowNum :
  keepsInv (engineInv j0) (inferAndValidate env altUnits rowNum).
Proof.
  unfold inferAndValidate.
  repeat first
    [ apply inferComponentByModifier_keeps | apply inferLoincSystem_keeps
    | apply inferLoincTime_keeps | apply inferScaleAndProperty_keeps
    | apply inferWithHfpLpf_keeps | apply inferLoincPartsUAxPF_keeps
    | apply inferLoincPartsCDxAntibody_keeps | apply combineInferredParts_keeps
    | eng_step j0 ].
Qed.

End Engine.

(** The inference engine on a cleared record, when it returns (on a unit
    or specimen cell that holds no text the code throws).  Either it has
    recorded no mapping issue and left the judgement as it was, or it has
    left a non-empty list of distinct issues and the judgement
    ["INCORRECT_aj"].  An issue is the name of a part type or one of
    HPF-LPF and LPF-HPF, and a part type recorded as an issue has inferred
    names.  Each part type that has inferred names has at least one, the
    names are distinct, and each has its type. *)
Theorem inferAndValidate_flags (env : Env) (altUnits : list string) (rowNum : nat)
    (row row' : Row) (events : list Event) :
  ALGO_MAPPING_ISSUES row = IssuesUnset → inferred row = None →
  inferAndValidate env altUnits rowNum row = (Some tt, row', events) →
  ((ALGO_MAPPING_ISSUES row' = IssuesUnset ∧ ALGO_JUDGEMENT row' = ALGO_JUDGEMENT row) ∨
   (∃ issues, issues ≠ [] ∧ NoDup issues ∧
              ALGO_MAPPING_ISSUES row' = IssuesList issues ∧
              ALGO_JUDGEMENT row' = "INCORRECT_aj" ∧
              (∀ issue, issue ∈ issues →
                 issue ∈ ["HPF-LPF"; "LPF-HPF"] ∨
                 ∃ partType, issue = partTypeName partType ∧
                             is_Some (inferredEntry row' partType)))) ∧
  (∀ inf partType entry,
     inferred row' = Some inf → (partType, entry) ∈ inf →
     names entry ≠ [] ∧ NoDup (names entry) ∧
     length (types entry) = length (names entry)).
Proof.
  intros Hissues Hinferred Hreturns.
  destruct (inferAndValidate_keeps env (ALGO_JUDGEMENT row) altUnits rowNum row)
    as ([] & row0 & events0 & Hrun & (Hflag & Hwf & Htok & Hback) & _).
  { by apply engineInv_cleared. }
  rewrite Hreturns in Hrun. injection Hrun as <- <-. split.
  - destruct Hflag as [H|(issues & Hne & Hnd & Hi & Hj)]; [by left|]. right.
    exists issues. repeat (split; [done|]). intros issue Hin.
    assert (Hin' : issue ∈ issuesOf row') by (unfold issuesOf; by rewrite Hi).
    pose proof (Htok issue Hin') as Ht. unfold issueTokens in Ht.
    apply elem_of_app in Ht as [Ht|Ht]; [right|by left].
    apply list_elem_of_fmap in Ht as (pt & -> & _). exists pt. split; [done|].
    apply Hback; [apply not_elem_of_nil|done].
  - intros inf partType entry Hinf Hin. unfold inferredWf in Hwf. rewrite Hinf in Hwf.
    destruct Hwf as [_ Hall]. rewrite Forall_forall in Hall.
    destruct (Hall _ Hin) as [[Hnd Hlen] Hne]. done.
Qed.

(** What the inference engine leaves alone: the columns read from the
    sheet, the columns of the catalogue, the suggestion and the target
    term; and the only judgement it assigns is ["INCORRECT_aj"]. *)
Definition inputColumns (r : Row) :=
  (ROW_NUM r, LAB_LOINC r, RAW_LAB_NAME r, RAW_UNIT r, SPECIMEN_SOURCE r,
   INC_CATEGORY r, ROW_LONG_COMMON_NAME r, EX_UCUM r, rowParts r, ucum_converted r).

Definition suggestionColumns (r : Row) :=
  (SGG_LOINC r, SGG_LONG_COMMON_NAME r, SGG_OTHER r, RULE_RELAXED_BY r, TARGET_TERM r).

Definition engineFrame (r r' : Row) : Prop :=
  inputColumns r' = inputColumns r ∧ suggestionColumns r' = suggestionColumns r.

Definition engineEvent (e : Event) : Prop :=
  e = EvInferAndValidate ∨ e = EvJudgement "INCORRECT_aj".

#[local] Instance engineFrame_inv : RowInv engineFrame.
Proof.
  split; unfold engineFrame; [done|]. intros a b c [H1 H2] [H3 H4]. split; congruence.
Qed.

#[local] Instance engineFrame_issue : AllowsIssue engineFrame engineEvent.
Proof. split; try done. by right. Qed.

#[local] Instance engineFrame_inference : AllowsInference engineFrame engineEvent.
Proof. split; try done. by left. Qed.

Lemma inferAndValidate_columns env altUnits rowNum row :
  engineFrame row (finalRow (inferAndValidate env altUnits rowNum row)).
Proof. apply (inferAndValidate_sat env engineFrame engineEvent altUnits rowNum row). Qed.

(** The inference engine, whether it returns or throws, changes none of the
    columns it reads and none of the suggestion columns; the only value it
    assigns to the judgement is ["INCORRECT_aj"]. *)
Theorem inferAndValidate_frame (env : Env) (altUnits : list string) (rowNum : nat)
    (row : Row) :
  let out := inferAndValidate env altUnits rowNum row in
  inputColumns (finalRow out) = inputColumns row ∧
  suggestionColumns (finalRow out) = suggestionColumns row ∧
  Forall (λ e, e = EvInferAndValidate ∨ e = EvJudgement "INCORRECT_aj") (trace out).
Proof.
  destruct (inferAndValidate_sat env engineFrame engineEvent altUnits rowNum row)
    as [[H1 H2] H3].
  done.
Qed.

(** The hypotheses hold for the record of free testosterone of the worked
    batch, with the columns of its catalogue entry filled in. *)
Lemma inferAndValidate_flags_witness :
  let row := SuggesterFacts.freeTestosteroneRow in
  let out := inferAndValidate SuggesterFacts.labEnv ["ng/dL"] 0 row in
  ALGO_MAPPING_ISSUES row = IssuesUnset ∧ inferred row = None ∧
  out = (Some tt, finalRow out, trace out) ∧
  ∀ inf partType entry,
    inferred (finalRow out) = Some inf → (partType, entry) ∈ inf →
    names entry ≠ [] ∧ NoDup (names entry) ∧
    length (types entry) = length (names entry).
Proof.
  cbv zeta.
  assert (Hrun : inferAndValidate SuggesterFacts.labEnv ["ng/dL"] 0
                   SuggesterFacts.freeTestosteroneRow
                 = (Some tt,
                    finalRow (inferAndValidate SuggesterFacts.labEnv ["ng/dL"] 0
                                SuggesterFacts.freeTestosteroneRow),
                    trace (inferAndValidate SuggesterFacts.labEnv ["ng/dL"] 0
                             SuggesterFacts.freeTestosteroneRow))).
  { vm_compute. reflexivity. }
  split; [reflexivity|]. split; [reflexivity|]. split; [exact Hrun|].
  exact (proj2 (inferAndValidate_flags SuggesterFacts.labEnv ["ng/dL"] 0
                  SuggesterFacts.freeTestosteroneRow _ _ eq_refl eq_refl Hrun)).
Defined.

End EngineFacts.

(** ** The batch and the catalogue it shares *)
Module PipelineFacts.
Import LoincUtils LoincPartSynonyms PcnRow LabNameParser Eff Globals.
Import PcornetValidationMgr Matcher Selector Suggester EffFacts InferenceFacts.
Import SuggesterFacts.

(** *** What a computation returns

    [yields Q m]: whenever [m] returns, its result satisfies [Q]. *)
Definition yields {A} (Q : A → Prop) (m : M A) : Prop :=
  ∀ row a, result (m row) = Some a → Q a.

Lemma yields_ret {A} (Q : A → Prop) (a : A) : Q a → yields Q (mret a).
Proof. intros H row a' [= <-]. exact H. Qed.

Lemma yields_throw {A} (Q : A → Prop) : yields Q throw.
Proof. by intros row a. Qed.

Lemma yields_bind {A B} (Qm : A → Prop) (Q : B → Prop) (m : M A) (k : A → M B) :
  yields Qm m → (∀ a, Qm a → yields Q (k a)) → yields Q (m ≫= k).
Proof.
  intros Hm Hk row b. rewrite bind_run.
  destruct (m row) as [[[a|] row1] ev1] eqn:Hrun; [|done].
  destruct (k a row1) as [[r row2] ev2] eqn:Hrun'. unfold result. simpl. intros ->.
  apply (Hk a (Hm row a ltac:(by rewrite Hrun)) row1). by rewrite Hrun'.
Qed.

Lemma yields_any {A} (m : M A) : yields (λ _, True) m.
Proof. by intros row a _. Qed.

Lemma yields_bind_any {A B} (Q : B → Prop) (m : M A) (k : A → M B) :
  (∀ a, yields Q (k a)) → yields Q (m ≫= k).
Proof. intros Hk. apply (yields_bind (λ _, True)); [apply yields_any|auto]. Qed.

Lemma yields_foldl {A B} (Q : B → Prop) (f : M B → A → M B) (l : list A) (init : M B) :
  yields Q init → (∀ acc x, yields Q acc → yields Q (f acc x)) → yields Q (foldl f init l).
Proof.
  intros Hinit Hf. revert init Hinit.
  induction l as [|x l IH]; intros init Hinit; simpl; [done|]. apply IH, Hf, Hinit.
Qed.

(** *** The catalogue grows by synonyms only *)

(** The entry [new] is [old] with synonyms pushed to some of its part
    arrays. *)
Definition entryExtends (old new : PartsInfo) : Prop :=
  LOINC_NUM new = LOINC_NUM old ∧ LONG_COMMON_NAME new = LONG_COMMON_NAME old ∧
  STATUS new = STATUS old ∧ EXAMPLE_UCUM_UNITS new = EXAMPLE_UCUM_UNITS old ∧
  ∀ partType, getPart (parts old) partType `prefix_of` getPart (parts new) partType.

(** The catalogue [new] has the numbers of [old], each with its entry
    extended. *)
Definition catalogExtends (old new : Catalog) : Prop :=
  ∀ loinc, option_Forall2 entryExtends (old !! loinc) (new !! loinc).

Lemma entryExtends_refl e : entryExtends e e.
Proof. by repeat split. Qed.

Lemma entryExtends_trans a b c : entryExtends a b → entryExtends b c → entryExtends a c.
Proof.
  intros (H1 & H2 & H3 & H4 & H5) (H1' & H2' & H3' & H4' & H5').
  repeat split; try congruence. intros pt. etrans; [apply H5|apply H5'].
Qed.

Lemma catalogExtends_refl c : catalogExtends c c.
Proof.
  intros k. destruct (c !! k); constructor. apply entryExtends_refl.
Qed.

Lemma catalogExtends_trans a b c :
  catalogExtends a b → catalogExtends b c → catalogExtends a c.
Proof.
  intros Hab Hbc k. specialize (Hab k). specialize (Hbc k).
  destruct Hab as [x y Hxy|]; inversion Hbc; subst; constructor.
  by eapply entryExtends_trans.
Qed.

Lemma addPartSynonyms_prefix t partNames : partNames `prefix_of` addPartSynonyms t partNames.
Proof.
  unfold addPartSynonyms. destruct (partSynonymsMap t) as [m|]; [|done].
  assert (Hgen : ∀ l acc,
            acc `prefix_of`
              foldl (λ acc name, SynonymFacts.pushNew acc (default [] (m !! name))) acc l).
  { induction l as [|n l IH]; intros acc; simpl; [done|].
    etrans; [|apply IH]. apply SynonymFacts.pushNew_spec. }
  apply Hgen.
Qed.

(** Every entry is filed under its own number. *)
Definition keyed (cat : Catalog) : Prop :=
  ∀ loinc entry, cat !! loinc = Some entry → LOINC_NUM entry = loinc.

Lemma catalogExtends_lookup old new loinc entry :
  catalogExtends old new → new !! loinc = Some entry →
  ∃ entry0, old !! loinc = Some entry0 ∧ entryExtends entry0 entry.
Proof.
  intros Hext Hl. specialize (Hext loinc). rewrite Hl in Hext.
  inversion Hext as [entry0 ? He|]; subst. by exists entry0.
Qed.

Lemma keyed_extends old new : keyed old → catalogExtends old new → keyed new.
Proof.
  intros Hk Hext loinc entry Hl.
  destruct (catalogExtends_lookup old new loinc entry Hext Hl) as (e0 & Hl0 & He).
  destruct He as (-> & _). by apply Hk.
Qed.

(** *** What a computation leaves when it returns

    [partial Pre m Post]: from a row that satisfies [Pre], whenever [m]
    returns, its result and the row it leaves satisfy [Post]. *)
Definition partial {A} (Pre : Row → Prop) (m : M A) (Post : A → Row → Prop) : Prop :=
  ∀ row a row' ev, Pre row → m row = (Some a, row', ev) → Post a row'.

Lemma partial_ret {A} (Pre : Row → Prop) (a : A) (Post : A → Row → Prop) :
  (∀ r, Pre r → Post a r) → partial Pre (mret a) Post.
Proof. intros H row a' row' ev Hpre [= <- <- _]. by apply H. Qed.

Lemma partial_throw {A} (Pre : Row → Prop) (Post : A → Row → Prop) :
  partial Pre throw Post.
Proof. by intros row a row' ev _. Qed.

Lemma partial_get (Pre : Row → Prop) (Post : Row → Row → Prop) :
  (∀ r, Pre r → Post r r) → partial Pre get Post.
Proof. intros H row a row' ev Hpre [= <- <- _]. by apply H. Qed.

Lemma partial_modify (Pre : Row → Prop) f (Post : unit → Row → Prop) :
  (∀ r, Pre r → Post tt (f r)) → partial Pre (modify f) Post.
Proof. intros H row [] row' ev Hpre [= <- _]. by apply H. Qed.

Lemma partial_emit (Pre : Row → Prop) e (Post : unit → Row → Prop) :
  (∀ r, Pre r → Post tt r) → partial Pre (emit e) Post.
Proof. intros H row [] row' ev Hpre [= <- _]. by apply H. Qed.

Lemma partial_bind {A B} (Pre : Row → Prop) (m : M A) (Mid : A → Row → Prop)
    (k : A → M B) (Post : B → Row → Prop) :
  partial Pre m Mid → (∀ a, partial (Mid a) (k a) Post) → partial Pre (m ≫= k) Post.
Proof.
  intros Hm Hk row b row' ev Hpre. rewrite bind_run.
  destruct (m row) as [[[a|] row1] ev1] eqn:Hrun; [|done].
  destruct (k a row1) as [[r row2] ev2] eqn:Hrun'. intros [= -> -> _].
  eapply Hk; [|exact Hrun']. by eapply Hm.
Qed.

Lemma partial_conseq {A} (Pre Pre' : Row → Prop) (m : M A) (Post Post' : A → Row → Prop) :
  (∀ r, Pre' r → Pre r) → (∀ a r, Post a r → Post' a r) →
  partial Pre m Post → partial Pre' m Post'.
Proof. intros Hpre Hpost Hm row a row' ev Hrow Hrun. eapply Hpost, Hm; eauto. Qed.

Lemma partial_assume {A} (Q : Prop) (Pre : Row → Prop) (m : M A) (Post : A → Row → Prop) :
  (Q → partial Pre m Post) → partial (λ r, Q ∧ Pre r) m Post.
Proof. intros H row a row' ev [Hq Hpre]. by apply H. Qed.

Lemma partial_setJudgement (Pre : Row → Prop) value (Post : unit → Row → Prop) :
  (∀ r, Pre r → Post tt (set_ALGO_JUDGEMENT value r)) →
  partial Pre (setJudgement value) Post.
Proof.
  intros H. unfold setJudgement.
  apply (partial_bind _ _ (λ _, Pre)); [by apply partial_emit|].
  intros _. by apply partial_modify.
Qed.

Lemma partial_foldl {A B} (Pre : Row → Prop) (Post : B → Row → Prop)
    (f : M B → A → M B) (l : list A) (init : M B) :
  partial Pre init Post →
  (∀ acc x, partial Pre acc Post → partial Pre (f acc x) Post) →
  partial Pre (foldl f init l) Post.
Proof.
  intros Hinit Hf. revert init Hinit.
  induction l as [|x l IH]; intros init Hinit; simpl; [done|]. apply IH, Hf, Hinit.
Qed.

Section Passes.
Context (env : Env) (Math_pow : float → float → float)
  (setOrder : gset string → list string).

Lemma replaceAndFind_extends cat loinc replacementParts rule :
  yields (λ out, catalogExtends cat out.2)
    (replaceAndFind env setOrder cat loinc replacementParts rule).
Proof.
  unfold replaceAndFind.
  apply yields_bind_any. intros _. apply yields_bind_any. intros row.
  destruct (cat !! loinc) as [ref|] eqn:Href.
  - apply yields_bind_any. intros loincsToCheck.
    apply yields_bind_any. intros altLoincs. apply yields_ret. simpl.
    intros k. destruct (decide (k = loinc)) as [->|Hne].
    + rewrite lookup_insert_eq, Href. constructor.
      repeat split; try done. intros pt. simpl. rewrite LoincUtilsFacts.getPart_tabulate.
      destruct (ownPart _ pt); [done|apply addPartSynonyms_prefix].
    + rewrite lookup_insert_ne by done. destruct (cat !! k); constructor.
      apply entryExtends_refl.
  - apply yields_ret. apply catalogExtends_refl.
Qed.

Lemma executeGeneralRule_extends cat rule recLnParts :
  yields (λ out, catalogExtends cat out.2) (executeGeneralRule env setOrder cat rule recLnParts).
Proof.
  unfold executeGeneralRule. apply yields_bind_any. intros row.
  destruct (_ && _); [apply yields_ret, catalogExtends_refl|].
  destruct recLnParts as [rec|]; [|apply yields_throw].
  eapply yields_bind; [apply replaceAndFind_extends|].
  intros [result cat'] Hext. by apply yields_ret.
Qed.

Lemma executeRulesForRecord_extends cat recLnParts unit unitProperties rules :
  yields (λ out, catalogExtends cat out.2)
    (executeRulesForRecord env setOrder cat recLnParts unit unitProperties rules).
Proof.
  unfold executeRulesForRecord. apply yields_foldl.
  { apply yields_ret, catalogExtends_refl. }
  intros acc rule Hacc. eapply yields_bind; [exact Hacc|].
  intros [altLoincs cat1] Hext. simpl in Hext. apply yields_bind_any. intros row.
  apply (yields_bind (λ out, catalogExtends cat out.2)).
  { destruct (_ || _); [|by apply yields_ret].
    destruct (Js.strictEq _ _); [|by apply yields_ret].
    intros row' out Hout. eapply catalogExtends_trans; [exact Hext|].
    by apply (executeGeneralRule_extends cat1 rule recLnParts row'). }
  intros [[result|] cat2] Hext2; simpl in Hext2; [|by apply yields_ret].
  apply yields_bind_any. intros _. by apply yields_ret.
Qed.

Lemma executeRulesRow_extends cat rules rowNum :
  yields (catalogExtends cat) (executeRulesRow env Math_pow setOrder cat rules rowNum).
Proof.
  unfold executeRulesRow. apply yields_bind_any. intros row.
  destruct (isExcludeStatus row); [apply yields_ret, catalogExtends_refl|].
  apply (yields_bind (λ out, catalogExtends cat out.2)).
  { apply yields_foldl; [apply yields_ret, catalogExtends_refl|].
    intros acc unit Hacc. eapply yields_bind; [exact Hacc|].
    intros [allMatches cat1] Hext. simpl in Hext.
    apply (yields_bind (λ out, catalogExtends cat out.2)).
    { intros row' out Hout. eapply catalogExtends_trans; [exact Hext|].
      by eapply executeRulesForRecord_extends. }
    intros [altLoincs cat2] Hext2. by apply yields_ret. }
  intros [allMatches cat1] Hext. simpl in Hext.
  destruct allMatches; [by apply yields_ret|].
  apply yields_bind_any. intros row'.
  destruct (selectBestMatch _ _ _) as [[best|] [rest|]]; try apply yields_throw.
  repeat (apply yields_bind_any; intros ?). by apply yields_ret.
Qed.

Lemma processRow_extends loaded cat rowNum :
  yields (catalogExtends cat) (processRow env Math_pow setOrder loaded cat rowNum).
Proof.
  unfold processRow. apply yields_bind_any. intros _. apply yields_bind_any. intros _.
  eapply yields_bind; [apply executeRulesRow_extends|].
  intros cat' Hext. apply yields_bind_any. intros _. by apply yields_ret.
Qed.

(** *** The candidates of the second pass *)

(** A candidate that can be suggested for a record of code [own]: its
    number is another one, and it is filed in the catalogue [cat] with its
    long common name. *)
Definition suggestible (cat : Catalog) (own : string) (info : PartsInfo) : Prop :=
  LOINC_NUM info ≠ own ∧
  ∃ entry, cat !! LOINC_NUM info = Some entry ∧
           LONG_COMMON_NAME info = LONG_COMMON_NAME entry.

Lemma replaceAndFind_finds (Inv : Row → Prop) cat cat0 loinc replacementParts rule :
  keyed cat → catalogExtends cat cat0 →
  partial Inv (replaceAndFind env setOrder cat0 loinc replacementParts rule)
    (λ out r, Inv r ∧ catalogExtends cat out.2 ∧
              Forall (λ m, suggestible cat loinc (m_info m))
                (default [] (r_altLoincs out.1))).
Proof.
  intros Hkeyed Hext. unfold replaceAndFind.
  apply (partial_bind _ _ (λ _, Inv)); [by apply partial_emit|]. intros _.
  apply (partial_bind _ _ (λ _, Inv)); [by apply partial_get|]. intros row.
  destruct (cat0 !! loinc) as [ref|] eqn:Href.
  2:{ apply partial_ret. intros r Hr. simpl. by repeat split. }
  cbv zeta.
  match goal with
  | |- context [<[loinc := ?entry]> cat0] =>
      set (ref' := entry); set (cat1 := <[loinc := ref']> cat0)
  end.
  assert (Hext1 : catalogExtends cat cat1).
  { eapply catalogExtends_trans; [exact Hext|].
    intros k. unfold cat1. destruct (decide (k = loinc)) as [->|Hne].
    - rewrite lookup_insert_eq, Href. constructor.
      repeat split; try done. intros pt. simpl.
      rewrite LoincUtilsFacts.getPart_tabulate.
      destruct (ownPart _ pt); [done|apply addPartSynonyms_prefix].
    - rewrite lookup_insert_ne by done. destruct (cat0 !! k); constructor.
      apply entryExtends_refl. }
  assert (Hkeyed1 : keyed cat1) by (by eapply keyed_extends).
  assert (Hown : LOINC_NUM ref' = loinc).
  { apply Hkeyed1. unfold cat1. by rewrite lookup_insert_eq. }
  apply (partial_bind _ _ (λ _, Inv)).
  { destruct (getLoincForParts _ _ _) as [[loincs|member]|];
      [by apply partial_ret|apply partial_throw..]. }
  intros loincsToCheck.
  apply (partial_bind _ _
           (λ altLoincs r, Inv r ∧ Forall (λ m, suggestible cat loinc (m_info m)) altLoincs)).
  2:{ intros altLoincs. apply partial_ret. intros r [Hr Hall]. simpl. by repeat split. }
  apply partial_foldl.
  { apply partial_ret. intros r Hr. by split. }
  intros acc candidate Hacc. eapply partial_bind; [exact Hacc|].
  intros altLoincs. cbv beta.
  destruct (Js.strictEq candidate (LOINC_NUM ref')) eqn:Hsame.
  { apply partial_ret. by intros r Hr. }
  destruct (cat1 !! candidate) as [info|] eqn:Hinfo; [|apply partial_throw].
  destruct (isAltLoinc _ _ _ _) as [status|]; [|apply partial_throw].
  destruct (matched status); [|apply partial_ret; by intros r Hr].
  apply partial_ret. intros r [Hr Hall]. split; [done|].
  apply Forall_app. split; [done|]. constructor; [|done]. simpl.
  pose proof (Hkeyed1 _ _ Hinfo) as Hnum.
  destruct (catalogExtends_lookup cat cat1 candidate info Hext1 Hinfo)
    as (entry & Hentry & He).
  split.
  - rewrite Hnum. intros ->. rewrite Hown in Hsame.
    by rewrite (proj2 (JsFacts.strictEq_true loinc loinc) eq_refl) in Hsame.
  - exists entry. rewrite Hnum. split; [done|]. by destruct He as (_ & -> & _).
Qed.

(** The target term is not yet a string. *)
Definition targetOpen (r : Row) : Prop :=
  TARGET_TERM r = TargetUnset ∨ ∃ terms, TARGET_TERM r = TargetList terms.

(** A record while candidates are searched for it: nothing is suggested
    yet. *)
Definition searching (lab : string) (issues : IssuesField) (judgement : string)
    (r : Row) : Prop :=
  LAB_LOINC r = lab ∧ ALGO_MAPPING_ISSUES r = issues ∧ ALGO_JUDGEMENT r = judgement ∧
  SGG_LOINC r = "" ∧ SGG_LONG_COMMON_NAME r = "" ∧ SGG_OTHER r = "" ∧
  RULE_RELAXED_BY r = "" ∧ targetOpen r.

Definition found (cat : Catalog) (own : string) (issues : IssuesField)
    (out : list LoincMatch * Catalog) : Prop :=
  catalogExtends cat out.2 ∧
  Forall (λ m, suggestible cat own (m_info m)) out.1 ∧
  (out.1 ≠ [] → issuesTruthy issues = true).

Lemma executeGeneralRule_finds (Inv : Row → Prop) cat cat0 own rule recLnParts :
  keyed cat → catalogExtends cat cat0 →
  (∀ rec, recLnParts = Some rec → LOINC_NUM rec = own) →
  partial Inv (executeGeneralRule env setOrder cat0 rule recLnParts)
    (λ out r, Inv r ∧ catalogExtends cat out.2 ∧
              Forall (λ m, suggestible cat own (m_info m))
                (default [] (out.1 ≫= r_altLoincs))).
Proof.
  intros Hkeyed Hext Hown. unfold executeGeneralRule.
  apply (partial_bind _ _ (λ _, Inv)); [by apply partial_get|]. intros row.
  destruct (_ && _). { apply partial_ret. intros r Hr. simpl. by repeat split. }
  destruct recLnParts as [rec|]; [|apply partial_throw].
  rewrite (Hown rec eq_refl).
  eapply partial_bind; [by apply (replaceAndFind_finds Inv cat cat0)|].
  intros [result cat1]. apply partial_ret. by intros r Hr.
Qed.

Lemma pushTargetTerm_searching lab issues judgement targetTerm :
  partial (searching lab issues judgement) (pushTargetTerm targetTerm)
    (λ _, searching lab issues judgement).
Proof.
  unfold pushTargetTerm.
  apply (partial_bind _ _ (λ row r, searching lab issues judgement r));
    [by apply partial_get|].
  intros row.
  destruct (TARGET_TERM row) as [|terms|[|c text]]; try apply partial_throw.
  all: apply partial_modify; intros r (H1 & H2 & H3 & H4 & H5 & H6 & H7 & H8);
    repeat split; try done; right; by eexists.
Qed.

Lemma executeRulesForRecord_finds lab issues judgement cat cat0 own recLnParts unit
    unitProperties rules :
  keyed cat → catalogExtends cat cat0 →
  (∀ rec, recLnParts = Some rec → LOINC_NUM rec = own) →
  partial (searching lab issues judgement)
    (executeRulesForRecord env setOrder cat0 recLnParts unit unitProperties rules)
    (λ out r, searching lab issues judgement r ∧ found cat own issues out).
Proof.
  intros Hkeyed Hext Hown. unfold executeRulesForRecord. apply partial_foldl.
  { apply partial_ret. intros r Hr. split; [done|]. by repeat split. }
  intros acc rule Hacc. eapply partial_bind; [exact Hacc|].
  intros [altLoincs cat1]. cbv beta iota.
  apply (partial_bind _ _
    (λ row r, row = r ∧ searching lab issues judgement r ∧ found cat own issues (altLoincs, cat1))).
  { apply partial_get. by intros r [Hr Hf]. }
  intros row.
  apply (partial_bind _ _
    (λ out r, searching lab issues judgement r ∧ catalogExtends cat out.2 ∧
              Forall (λ m, suggestible cat own (m_info m)) altLoincs ∧
              Forall (λ m, suggestible cat own (m_info m)) (default [] (out.1 ≫= r_altLoincs)) ∧
              (altLoincs ≠ [] ∨ is_Some out.1 → issuesTruthy issues = true))).
  - intros r0 out r1 ev (-> & Hs & Hc & Hall & Hiss). simpl in Hc, Hall, Hiss.
    pose proof Hs as (H1 & H2 & _). rewrite H2. cbn [orb shouldTryDefaultSpecimen].
    destruct (issuesTruthy issues) eqn:Htruthy.
    + destruct (Js.strictEq (ruleType rule) "GeneralReplace").
      * intros Hrun.
        destruct (executeGeneralRule_finds (λ r, r = r0) cat cat1 own rule recLnParts
                    Hkeyed Hc Hown r0 out r1 ev eq_refl Hrun) as (-> & Hc' & Hall').
        by repeat (split; [done|]).
      * intros [= <- <- _]. by repeat (split; [done|]).
    + intros [= <- <- _]. repeat (split; [done|]).
      intros [Hne|[x Hx]]; [by apply Hiss|done].
  - intros [[result|] cat2]; cbv beta iota.
    + apply (partial_bind _ _
        (λ _ r, searching lab issues judgement r ∧ catalogExtends cat cat2 ∧
                Forall (λ m, suggestible cat own (m_info m)) altLoincs ∧
                Forall (λ m, suggestible cat own (m_info m)) (default [] (r_altLoincs result)) ∧
                issuesTruthy issues = true)).
      * destruct (r_targetTerm result) as [targetTerm|].
        -- intros r0 [] r1 ev (Hs & Hc & Ha & Hb & Hiss) Hrun.
           split; [by eapply pushTargetTerm_searching|].
           repeat (split; [done|]). apply Hiss. right. by eexists.
        -- apply partial_ret. intros r (Hs & Hc & Ha & Hb & Hiss).
           repeat (split; [done|]). apply Hiss. right. by eexists.
      * intros _. apply partial_ret. intros r (Hs & Hc & Ha & Hb & Hiss).
        split; [done|]. split; [done|]. split; [|done]. simpl.
        apply Forall_app. split; [done|]. by apply Forall_fmap, (Forall_impl _ _ _ Hb).
    + apply partial_ret. intros r (Hs & Hc & Ha & Hb & Hiss). split; [done|].
      split; [done|]. split; [done|]. simpl. intros Hne. apply Hiss. by left.
Qed.

Lemma selectBestMatch_from row allMatches best rest :
  selectBestMatch Math_pow row allMatches = (Some best, rest) →
  ∃ m, m ∈ allMatches ∧ m_info best = m_info m.
Proof.
  unfold selectBestMatch. destruct allMatches as [|m1 [|m2 ms]]; [done| |].
  - intros [= <- _]. exists m1. split; [left|done].
  - set (candidates := map _ _).
    destruct (sortByScore candidates) as [|c0 sorted] eqn:Hsort; [done|].
    intros [= <- _].
    assert (Hin : c0 ∈ candidates).
    { rewrite <- (SelectorFacts.sortByScore_perm candidates), Hsort. left. }
    apply list_elem_of_fmap in Hin as (m & -> & Hm). by exists m.
Qed.

(** A suggestion: a code of the catalogue other than the record's own,
    with the long common name of that code. *)
Definition suggested (cat : Catalog) (r : Row) : Prop :=
  SGG_LOINC r ≠ LAB_LOINC r ∧
  ∃ entry, cat !! SGG_LOINC r = Some entry ∧
           SGG_LONG_COMMON_NAME r = LONG_COMMON_NAME entry.

Definition unsuggested (r : Row) : Prop :=
  SGG_LOINC r = "" ∧ SGG_LONG_COMMON_NAME r = "" ∧ SGG_OTHER r = "" ∧
  RULE_RELAXED_BY r = "".

Lemma executeRulesRow_outcome lab issues judgement cat cat0 rules rowNum :
  keyed cat → catalogExtends cat cat0 →
  partial (searching lab issues judgement)
    (executeRulesRow env Math_pow setOrder cat0 rules rowNum)
    (λ cat' r,
       catalogExtends cat cat' ∧ LAB_LOINC r = lab ∧ ALGO_MAPPING_ISSUES r = issues ∧
       targetOpen r ∧
       ((ALGO_JUDGEMENT r = judgement ∧ unsuggested r) ∨
        (issuesTruthy issues = true ∧ ALGO_JUDGEMENT r = "FIXED" ∧ suggested cat r))).
Proof.
  intros Hkeyed Hext. unfold executeRulesRow.
  assert (Hstay : ∀ r, searching lab issues judgement r →
            catalogExtends cat cat0 ∧ LAB_LOINC r = lab ∧ ALGO_MAPPING_ISSUES r = issues ∧
            targetOpen r ∧
            ((ALGO_JUDGEMENT r = judgement ∧ unsuggested r) ∨
             (issuesTruthy issues = true ∧ ALGO_JUDGEMENT r = "FIXED" ∧ suggested cat r))).
  { intros r (H1 & H2 & H3 & H4 & H5 & H6 & H7 & H8).
    repeat (split; [done|]). left. by repeat split. }
  apply (partial_bind _ _ (λ row r, LAB_LOINC row = lab ∧ searching lab issues judgement r)).
  { apply partial_get. intros r Hr. split; [apply Hr|done]. }
  intros row. apply partial_assume. intros Hlab.
  destruct (isExcludeStatus row); [by apply partial_ret|].
  apply (partial_bind _ _
           (λ out r, searching lab issues judgement r ∧ found cat lab issues out)).
  { apply partial_foldl.
    { apply partial_ret. intros r Hr. split; [done|]. by repeat split. }
    intros acc unit Hacc. eapply partial_bind; [exact Hacc|].
    intros [allMatches cat1]. cbv beta iota zeta.
    apply (partial_bind _ _
      (λ out r, searching lab issues judgement r ∧ found cat lab issues (allMatches, cat1) ∧
                found cat lab issues out)).
    - intros r0 out r1 ev [Hs Hf] Hrun. pose proof Hf as (Hc & _).
      destruct (executeRulesForRecord_finds lab issues judgement cat cat1 lab
                  (cat0 !! LAB_LOINC row) unit (getUnitProperties env unit) rules
                  Hkeyed Hc) with (row := r0) (a := out) (row' := r1) (ev := ev)
        as [Hs' Hf']; try done.
      intros rec Hrec. rewrite <- Hlab. by apply (keyed_extends cat cat0 Hkeyed Hext).
    - intros [altLoincs cat2]. apply partial_ret.
      intros r (Hs & (_ & Ha & Hia) & (Hc & Hb & Hib)). simpl in *. split; [done|].
      split; [done|]. split; [by apply Forall_app|]. simpl.
      intros Hne. destruct allMatches; [apply Hib; by destruct altLoincs|by apply Hia]. }
  intros [allMatches cat1]. cbv beta iota.
  destruct allMatches as [|m ms].
  { apply partial_ret. intros r [Hs (Hc & _)]. destruct (Hstay r Hs) as (_ & Hrest). done. }
  apply (partial_bind _ _
    (λ _ r, searching lab issues judgement r ∧ found cat lab issues (m :: ms, cat1)));
    [by apply partial_get|].
  intros row'.
  destruct (selectBestMatch Math_pow row' (m :: ms)) as [[best|] [rest|]] eqn:Hbest;
    try apply partial_throw.
  destruct (selectBestMatch_from row' (m :: ms) best (Some rest) Hbest) as (m' & Hm' & Hinfo).
  intros r0 c r1 ev [Hs (Hc & Hall & Hiss)]. simpl in Hc, Hall, Hiss.
  cbn. intros [= <- <- _].
  rewrite Forall_forall in Hall. destruct (Hall m' Hm') as [Hne (entry & Hentry & Hname)].
  destruct Hs as (H1 & H2 & H3 & H4 & H5 & H6 & H7 & H8).
  split; [done|]. split; [done|]. split; [done|]. split; [done|].
  right. split; [by apply Hiss|]. split; [done|].
  unfold suggested. simpl. rewrite Hinfo, H1. split; [done|]. by exists entry.
Qed.

(** *** The first pass on a record that is not excluded *)

Lemma getInitialRowStatus_cases loaded row :
  getInitialRowStatus loaded row ∈ excludeStatuses ∨
  getInitialRowStatus loaded row = "CORRECT_aj".
Proof.
  unfold getInitialRowStatus, excludeStatuses.
  repeat match goal with |- context [if ?b then _ else _] => destruct b end;
    first [by right | left; by repeat constructor].
Qed.

Lemma preProcessRow_checked loaded rowNum row :
  getInitialRowStatus loaded row = "CORRECT_aj" →
  ∃ row', runs (preProcessRow env loaded rowNum) row tt row' anyEvent ∧
          LAB_LOINC row' = LAB_LOINC row ∧
          EngineFacts.flagged "CORRECT_aj" row' ∧ unsuggested row' ∧
          TARGET_TERM row' = TargetUnset ∧ EngineFacts.inferredWf row'.
Proof.
  intros Hstatus. unfold preProcessRow.
  destruct (normalizeSPECIMEN_SOURCE_runs env (clearComputedFields row) anyEvent)
    as (spc & Hspc).
  destruct (convertToUcum_runs env (set_SPECIMEN_SOURCE spc (clearComputedFields row))
              anyEvent) as (ucum & Hucum).
  set (row1 := excludedRow (getInitialRowStatus loaded row) spc ucum row).
  destruct (EngineFacts.inferAndValidate_keeps env "CORRECT_aj"
              (getAllPossibleUnits env row1) rowNum row1)
    as ([] & row' & ev & Hrun & (Hflag & Hwf & _) & Hev).
  { rewrite <- Hstatus. by apply (EngineFacts.engineInv_cleared row1). }
  destruct (EngineFacts.inferAndValidate_columns env (getAllPossibleUnits env row1)
              rowNum row1) as [Hin Hsg].
  rewrite Hrun in Hin, Hsg. unfold finalRow in Hin, Hsg. simpl in Hin, Hsg.
  exists row'. split.
  - eapply runs_bind; [by apply runs_emit|].
    eapply runs_bind; [apply runs_modify|].
    eapply runs_bind; [exact Hspc|].
    eapply runs_bind; [exact Hucum|].
    eapply runs_bind; [apply runs_get|]. cbv beta.
    change (getInitialRowStatus loaded
              (set_ucum_converted ucum (set_SPECIMEN_SOURCE spc (clearComputedFields row))))
      with (getInitialRowStatus loaded row).
    eapply runs_bind; [by apply runs_setJudgement|].
    eapply runs_bind; [apply runs_get|]. cbv beta.
    fold (excludedRow (getInitialRowStatus loaded row) spc ucum row). fold row1.
    assert (Hex : isExcludeStatus row1 = false).
    { unfold isExcludeStatus, row1. simpl. rewrite Hstatus. by vm_compute. }
    rewrite Hex. simpl. by exists ev.
  - injection Hin as ? ? ? ? ? ? ? ? ? ?. injection Hsg as ? ? ? ? ?.
    split; [done|]. split; [done|]. by repeat split.
Qed.

(** *** The third pass on what the second leaves *)
Lemma reformatValuesToString_open row :
  ALGO_MAPPING_ISSUES row = IssuesUnset ∨
    (∃ issues, ALGO_MAPPING_ISSUES row = IssuesList issues) →
  targetOpen row →
  ∃ text,
    runs reformatValuesToString row tt
      (set_TARGET_TERM (TargetText text)
         (set_ALGO_MAPPING_ISSUES
            (IssuesText (Js.join "; " match ALGO_MAPPING_ISSUES row with
                                      | IssuesList issues => issues
                                      | _ => []
                                      end)) row)) anyEvent.
Proof.
  intros Hissues Hterm. unfold reformatValuesToString.
  destruct Hissues as [Hi|[issues Hi]], Hterm as [Ht|[terms Ht]]; eexists;
    (eapply runs_bind; [apply runs_get|]); cbv beta; rewrite Hi, Ht;
    (eapply runs_bind; [apply runs_modify|]; apply runs_modify).
Qed.

(** *** The four passes, row by row *)

(** The passes of [validateAndSuggest] from the row of index [index] on,
    the third pass entered with the catalogue [cat]. *)
Definition passesFrom (loaded cat : Catalog) (index : nat) (pcnRows : list Row)
    : option (list Row * Catalog) :=
  '(_, pcnRows) ←
    forEachRow (λ _ index, addLoincPartsFillMissingColumns loaded index) tt index pcnRows;
  '(_, pcnRows) ←
    forEachRow (λ _ rowNum, preProcessRow env loaded rowNum) tt index pcnRows;
  '(cat, pcnRows) ←
    forEachRow (λ cat rowNum,
                  executeRulesRow env Math_pow setOrder cat [generalRule] rowNum)
      cat index pcnRows;
  '(_, pcnRows) ← forEachRow (λ _ _, reformatValuesToString) tt index pcnRows;
  Some (pcnRows, cat).

Definition rowwise (loaded cat : Catalog) (index : nat) (pcnRows : list Row)
    : option (list Row * Catalog) :=
  (λ out, (out.2, out.1)) <$>
    forEachRow (λ cat rowNum, processRow env Math_pow setOrder loaded cat rowNum)
      cat index pcnRows.

(** One row through the four steps. *)
Lemma processRow_run loaded cat index row :
  processRow env Math_pow setOrder loaded cat index row =
  match addLoincPartsFillMissingColumns loaded index row with
  | (Some _, r1, e1) =>
      match preProcessRow env loaded index r1 with
      | (Some _, r2, e2) =>
          match executeRulesRow env Math_pow setOrder cat [generalRule] index r2 with
          | (Some cat', r3, e3) =>
              match reformatValuesToString r3 with
              | (Some _, r4, e4) => (Some cat', r4, e1 ++ e2 ++ e3 ++ e4 ++ [])
              | (None, r4, e4) => (None, r4, e1 ++ e2 ++ e3 ++ e4)
              end
          | (None, r3, e3) => (None, r3, e1 ++ e2 ++ e3)
          end
      | (None, r2, e2) => (None, r2, e1 ++ e2)
      end
  | (None, r1, e1) => (None, r1, e1)
  end.
Proof.
  unfold processRow. rewrite bind_run.
  destruct (addLoincPartsFillMissingColumns loaded index row) as [[[[]|] r1] e1]; [|done].
  rewrite bind_run.
  destruct (preProcessRow env loaded index r1) as [[[[]|] r2] e2]; [|done].
  rewrite bind_run.
  destruct (executeRulesRow env Math_pow setOrder cat [generalRule] index r2)
    as [[[cat'|] r3] e3]; [|done].
  rewrite bind_run.
  destruct (reformatValuesToString r3) as [[[[]|] r4] e4]; [|done].
  done.
Qed.

Lemma rowwise_cons loaded cat index row rest :
  rowwise loaded cat index (row :: rest) =
  match processRow env Math_pow setOrder loaded cat index row with
  | (Some cat', row', _) =>
      (λ out, (row' :: out.1, out.2)) <$> rowwise loaded cat' (S index) rest
  | (None, _, _) => None
  end.
Proof.
  unfold rowwise. cbn [forEachRow].
  destruct (processRow env Math_pow setOrder loaded cat index row) as [[[cat'|] row'] ev];
    [|done].
  by destruct (forEachRow _ cat' (S index) rest) as [[cat2 rest']|].
Qed.

Lemma passesFrom_cons loaded cat index row rest :
  passesFrom loaded cat index (row :: rest) =
  match addLoincPartsFillMissingColumns loaded index row with
  | (Some _, r1, _) =>
      match preProcessRow env loaded index r1 with
      | (Some _, r2, _) =>
          match executeRulesRow env Math_pow setOrder cat [generalRule] index r2 with
          | (Some cat', r3, _) =>
              match reformatValuesToString r3 with
              | (Some _, r4, _) =>
                  (λ out, (r4 :: out.1, out.2)) <$> passesFrom loaded cat' (S index) rest
              | (None, _, _) => None
              end
          | (None, _, _) => None
          end
      | (None, _, _) => None
      end
  | (None, _, _) => None
  end.
Proof.
  unfold passesFrom. cbn [forEachRow].
  destruct (addLoincPartsFillMissingColumns loaded index row) as [[[[]|] r1] e1];
    [|done].
  destruct (forEachRow _ () (S index) rest) as [[[] rest1]|];
    cbn [mbind option_bind forEachRow fmap option_fmap option_map].
  2:{ by repeat case_match. }
  destruct (preProcessRow env loaded index r1) as [[[[]|] r2] e2]; [|done].
  destruct (forEachRow _ () (S index) rest1) as [[[] rest2]|];
    cbn [mbind option_bind forEachRow fmap option_fmap option_map].
  2:{ by repeat case_match. }
  destruct (executeRulesRow env Math_pow setOrder cat [generalRule] index r2)
    as [[[cat'|] r3] e3]; [|done].
  destruct (forEachRow _ cat' (S index) rest2) as [[cat2 rest3]|];
    cbn [mbind option_bind forEachRow fmap option_fmap option_map].
  2:{ by repeat case_match. }
  destruct (reformatValuesToString r3) as [[[[]|] r4] e4]; [|done].
  by destruct (forEachRow _ () (S index) rest3) as [[[] rest4]|].
Qed.

Lemma passesFrom_rowwise loaded cat index pcnRows :
  passesFrom loaded cat index pcnRows = rowwise loaded cat index pcnRows.
Proof.
  revert cat index. induction pcnRows as [|row rest IH]; intros cat index; [done|].
  rewrite passesFrom_cons, rowwise_cons, processRow_run.
  destruct (addLoincPartsFillMissingColumns loaded index row) as [[[[]|] r1] e1];
    [|done].
  destruct (preProcessRow env loaded index r1) as [[[[]|] r2] e2]; [|done].
  destruct (executeRulesRow env Math_pow setOrder cat [generalRule] index r2)
    as [[[cat'|] r3] e3]; [|done].
  destruct (reformatValuesToString r3) as [[[[]|] r4] e4]; [|done].
  by rewrite IH.
Qed.

(** *** What the passes leave of a record *)

(** The record [row'] that the passes leave of [row], the catalogue loaded
    being [loaded]. *)
Definition rowOutcome (loaded : Catalog) (row row' : Row) : Prop :=
  LAB_LOINC row' = LAB_LOINC row ∧
  ((getInitialRowStatus loaded row ∈ excludeStatuses ∧
    ALGO_JUDGEMENT row' = getInitialRowStatus loaded row ∧
    ALGO_MAPPING_ISSUES row' = IssuesText "" ∧ unsuggested row') ∨
   (ALGO_JUDGEMENT row' = "CORRECT_aj" ∧
    ALGO_MAPPING_ISSUES row' = IssuesText "" ∧ unsuggested row') ∨
   (∃ issues,
      issues ≠ [] ∧ NoDup issues ∧
      ALGO_MAPPING_ISSUES row' = IssuesText (Js.join "; " issues) ∧
      ((ALGO_JUDGEMENT row' = "INCORRECT_aj" ∧ unsuggested row') ∨
       (ALGO_JUDGEMENT row' = "FIXED" ∧ suggested loaded row')))).

Lemma processRow_rowOutcome loaded cat rowNum row cat' row' events :
  keyed loaded → catalogExtends loaded cat →
  processRow env Math_pow setOrder loaded cat rowNum row = (Some cat', row', events) →
  catalogExtends loaded cat' ∧ rowOutcome loaded row row'.
Proof.
  intros Hkeyed Hext Hrun.
  assert (Hread : readable loaded row).
  { intros Hnone. destruct (Js.inherited (LAB_LOINC row)) eqn:Hmember; [|done].
    destruct (addLoincPartsFillMissingColumns_member loaded rowNum row Hnone Hmember)
      as (r0 & Hfill).
    rewrite processRow_run, Hfill in Hrun. done. }
  destruct (getInitialRowStatus_cases loaded row) as [Hstatus|Hstatus].
  - destruct (processRow_excluded env Math_pow setOrder loaded cat rowNum row Hread Hstatus)
      as (row0 & spc & ucum & Hruns & Hlab & _).
    destruct Hruns as (ev & Hruns & _). rewrite Hruns in Hrun.
    injection Hrun as <- <- _. split; [done|]. split; [done|]. left. by repeat split.
  - rewrite processRow_run in Hrun.
    destruct (addLoincPartsFillMissingColumns_any loaded rowNum row anyEvent Hread)
      as (r1 & (e1 & Hfill & _) & Hlab1 & Hname1 & Hcat1).
    rewrite Hfill in Hrun.
    assert (Hstatus1 : getInitialRowStatus loaded r1 = "CORRECT_aj").
    { rewrite <- Hstatus. unfold getInitialRowStatus. by rewrite Hlab1, Hname1, Hcat1. }
    destruct (preProcessRow_checked loaded rowNum r1 Hstatus1)
      as (r2 & (e2 & Hpre & _) & Hlab2 & Hflag & Hunsg & Hterm & _).
    rewrite Hpre in Hrun.
    destruct (executeRulesRow env Math_pow setOrder cat [generalRule] rowNum r2)
      as [[[cat2|] r3] e3] eqn:Hexec; [|done].
    destruct (executeRulesRow_outcome (LAB_LOINC row) (ALGO_MAPPING_ISSUES r2)
                (ALGO_JUDGEMENT r2) loaded cat [generalRule] rowNum Hkeyed Hext
                r2 cat2 r3 e3) as (Hext2 & Hlab3 & Hissues3 & Hterm3 & Hcases);
      [|exact Hexec|].
    { destruct Hunsg as (? & ? & ? & ?). repeat split; try done; [congruence|by left]. }
    destruct (reformatValuesToString_open r3) as (text & e4 & Hfmt & _); [|done|].
    { rewrite Hissues3. destruct Hflag as [[-> _]|(issues & _ & _ & -> & _)];
        [by left|right; by eexists]. }
    rewrite Hfmt in Hrun. injection Hrun as <- <- _.
    split; [done|]. split; [done|]. right. rewrite Hissues3.
    destruct Hflag as [[Hi Hj]|(issues & Hne & Hnd & Hi & Hj)]; rewrite Hi, Hj in *.
    + left. destruct Hcases as [[Hj3 Hu3]|(Htruthy & _)]; [|done].
      by repeat split; try apply Hu3.
    + right. exists issues. repeat (split; [done|]).
      destruct Hcases as [[Hj3 Hu3]|(_ & Hj3 & Hs3)]; [left|right]; by split.
Qed.

(** A pass over the rows keeps what its body keeps. *)
Lemma forEachRow_inv {St} (body : St → nat → M St) (Inv : St → Prop)
    (R : Row → Row → Prop) :
  (∀ s i row s' row' ev,
     Inv s → body s i row = (Some s', row', ev) → Inv s' ∧ R row row') →
  ∀ rows s i s' rows',
    Inv s → forEachRow body s i rows = Some (s', rows') →
    Inv s' ∧ Forall2 R rows rows'.
Proof.
  intros Hbody. induction rows as [|row rest IH]; intros s i s' rows' Hs; simpl.
  - intros [= <- <-]. by split.
  - destruct (body s i row) as [[[s1|] row1] ev] eqn:Hrun; [|done].
    destruct (Hbody _ _ _ _ _ _ Hs Hrun) as [Hs1 Hr].
    destruct (forEachRow body s1 (S i) rest) as [[s2 rest']|] eqn:Hrest; [|done].
    simpl. intros [= <- <-]. destruct (IH _ _ _ _ Hs1 Hrest) as [Hs2 Hall].
    split; [done|]. by constructor.
Qed.

(** [validateAndSuggest] runs its four passes over the whole batch one
    after the other; the result is that of taking the rows one at a time,
    each through the four steps, the catalogue handed from row to row.  An
    exception in any pass on any row is an exception of both. *)
Theorem validateAndSuggest_rowwise (loincToParts : Catalog) (pcnRows : list Row) :
  validateAndSuggest env Math_pow setOrder loincToParts pcnRows =
  (λ out, (out.2, out.1)) <$>
    forEachRow (λ cat rowNum, processRow env Math_pow setOrder loincToParts cat rowNum)
      loincToParts 0 pcnRows.
Proof. apply (passesFrom_rowwise loincToParts loincToParts 0 pcnRows). Qed.

(** What [validateAndSuggest] returns, the catalogue loaded filing every
    entry under its own number.  The catalogue it leaves has the same
    numbers, long names and units, each part array extended by synonyms.
    The rows are those given, in their order, with their codes.  A row is
    left in one of four states: excluded, with its initial status and
    nothing else; ["CORRECT_aj"] with no issue and no suggestion;
    ["INCORRECT_aj"] with issues and no suggestion; or ["FIXED"] with issues
    and a suggested code that is a code of the catalogue loaded, other than
    the row's own, with the long common name of that code. *)
Theorem validateAndSuggest_outcome (loincToParts : Catalog) (pcnRows rows' : list Row)
    (cat' : Catalog) :
  keyed loincToParts →
  validateAndSuggest env Math_pow setOrder loincToParts pcnRows = Some (rows', cat') →
  catalogExtends loincToParts cat' ∧ Forall2 (rowOutcome loincToParts) pcnRows rows'.
Proof.
  intros Hkeyed Hrun.
  change (passesFrom loincToParts loincToParts 0 pcnRows = Some (rows', cat')) in Hrun.
  rewrite passesFrom_rowwise in Hrun. unfold rowwise in Hrun.
  destruct (forEachRow _ loincToParts 0 pcnRows) as [[cat2 rows2]|] eqn:Hrows; [|done].
  injection Hrun as <- <-.
  apply (forEachRow_inv _ (catalogExtends loincToParts) (rowOutcome loincToParts))
    with (s := loincToParts) (i := 0) (s' := cat2) (rows' := rows2) in Hrows;
    [done| |apply catalogExtends_refl].
  intros s i row s' row' ev Hs Hbody.
  by apply (processRow_rowOutcome loincToParts s i row s' row' ev).
Qed.

(** *** Records with nothing to fix *)

Lemma executeRulesForRecord_nothing cat recLnParts unit unitProperties rules row :
  issuesTruthy (ALGO_MAPPING_ISSUES row) = false ∨ getAltPartsFromInferred row = [] →
  executeRulesForRecord env setOrder cat recLnParts unit unitProperties rules row
    = (Some ([], cat), row, []).
Proof.
  intros Hrow. unfold executeRulesForRecord.
  assert (Hgen : ∀ acc : M (list LoincMatch * Catalog),
            acc row = (Some ([], cat), row, []) →
            foldl (λ (acc : M (list LoincMatch * Catalog)) rule,
                     '(altLoincs, loincToParts) ← acc;
                     row ← get;
                     '(result, loincToParts) ←
                       (if shouldTryDefaultSpecimen row ||
                           issuesTruthy (ALGO_MAPPING_ISSUES row)
                        then
                          if Js.strictEq (ruleType rule) "GeneralReplace"
                          then executeGeneralRule env setOrder loincToParts rule recLnParts
                          else mret (None, loincToParts)
                        else mret (None, loincToParts));
                     match result with
                     | None => mret (altLoincs, loincToParts)
                     | Some result =>
                         match r_targetTerm result with
                         | Some targetTerm => pushTargetTerm targetTerm
                         | None => mret tt
                         end ;;
                         mret (altLoincs ++
                                 map (set_RULE_NUM (RULE_NUM rule))
                                     (default [] (r_altLoincs result)),
                               loincToParts)
                     end) acc rules row
            = (Some ([], cat), row, [])).
  { induction rules as [|rule rules IH]; intros acc Hacc; [done|].
    cbn [foldl]. apply IH. rewrite bind_run, Hacc. cbv beta iota.
    rewrite get_bind_run, bind_run. unfold shouldTryDefaultSpecimen. cbn [orb].
    assert (Hinner :
      (if issuesTruthy (ALGO_MAPPING_ISSUES row)
       then if Js.strictEq (ruleType rule) "GeneralReplace"
            then executeGeneralRule env setOrder cat rule recLnParts
            else mret (None, cat)
       else mret (None, cat)) row = (Some (None, cat), row, [])).
    { destruct (issuesTruthy (ALGO_MAPPING_ISSUES row)) eqn:Hissues; [|done].
      destruct Hrow as [Hrow|Hrow]; [done|].
      destruct (Js.strictEq _ _); [|done].
      unfold executeGeneralRule. rewrite get_bind_run, Hrow. done. }
    by rewrite Hinner. }
  by apply Hgen.
Qed.

(** The second pass does nothing for a record that has no mapping issue,
    or for which no part was inferred that differs from its own: it
    returns without an exception, the record and the catalogue are as they
    were, and the candidate matcher is not entered. *)
Theorem executeRulesRow_nothing_to_fix (cat : Catalog) (rules : list Rule) (rowNum : nat)
    (row : Row) :
  issuesTruthy (ALGO_MAPPING_ISSUES row) = false ∨ getAltPartsFromInferred row = [] →
  executeRulesRow env Math_pow setOrder cat rules rowNum row = (Some cat, row, []).
Proof.
  intros Hrow. unfold executeRulesRow. rewrite get_bind_run.
  destruct (isExcludeStatus row); [done|]. cbv zeta. rewrite bind_run.
  assert (Hgen : ∀ units (acc : M (list LoincMatch * Catalog)),
            acc row = (Some ([], cat), row, []) →
            foldl (λ (acc : M (list LoincMatch * Catalog)) unit,
                     '(allMatches, loincToParts) ← acc;
                     let propOfUnit := getUnitProperties env unit in
                     '(altLoincs4Unit, loincToParts) ←
                       executeRulesForRecord env setOrder loincToParts
                         (cat !! LAB_LOINC row) unit propOfUnit rules;
                     mret (allMatches ++ altLoincs4Unit, loincToParts)) acc units row
            = (Some ([], cat), row, [])).
  { induction units as [|unit units IH]; intros acc Hacc; [done|].
    cbn [foldl]. apply IH. rewrite bind_run, Hacc. cbv beta iota zeta.
    rewrite bind_run. by rewrite executeRulesForRecord_nothing. }
  by rewrite Hgen.
Qed.

End Passes.

(** The catalogue of the worked batch files every entry under its number. *)
Lemma labCatalog_keyed : keyed labCatalog.
Proof.
  change (map_Forall (λ loinc entry, LOINC_NUM entry = loinc) labCatalog).
  apply (bool_decide_unpack _). by vm_compute.
Qed.

(** The batch of the urine record and the record of unknown code is
    processed without an exception. *)
Lemma labBatch_returns :
  is_Some (validateAndSuggest labEnv powQuarter elements labCatalog
             [urineGlucoseRow; unknownCodeRow]).
Proof.
  assert (H : match validateAndSuggest labEnv powQuarter elements labCatalog
                      [urineGlucoseRow; unknownCodeRow] with
              | Some _ => true
              | None => false
              end = true) by (vm_compute; reflexivity).
  destruct (validateAndSuggest _ _ _ _ _); [by eexists|discriminate H].
Qed.

Lemma validateAndSuggest_outcome_witness :
  keyed labCatalog ∧
  ∃ rows' cat',
    validateAndSuggest labEnv powQuarter elements labCatalog
      [urineGlucoseRow; unknownCodeRow] = Some (rows', cat') ∧
    catalogExtends labCatalog cat' ∧
    Forall2 (rowOutcome labCatalog) [urineGlucoseRow; unknownCodeRow] rows'.
Proof.
  split; [exact labCatalog_keyed|].
  destruct labBatch_returns as [[rows' cat'] Hrun].
  exists rows', cat'. split; [exact Hrun|].
  exact (validateAndSuggest_outcome labEnv powQuarter elements labCatalog
           [urineGlucoseRow; unknownCodeRow] rows' cat' labCatalog_keyed Hrun).
Defined.

(** The urine record as it is loaded has no mapping issue. *)
Lemma executeRulesRow_nothing_to_fix_witness :
  issuesTruthy (ALGO_MAPPING_ISSUES urineGlucoseRow) = false ∧
  executeRulesRow labEnv powQuarter elements labCatalog [generalRule] 0 urineGlucoseRow
    = (Some labCatalog, urineGlucoseRow, []).
Proof.
  split; [reflexivity|].
  apply (executeRulesRow_nothing_to_fix labEnv powQuarter elements labCatalog
           [generalRule] 0 urineGlucoseRow).
  left. reflexivity.
Defined.

End PipelineFacts.

(** ** What an accepted candidate has *)
Module AcceptanceFacts.
Import LoincUtils LoincPartSynonyms PcnRow LabNameParser PcornetValidationMgr Matcher.
Import MatcherFacts.

Section Accepted.
Context (row : Row) (T : TargetTermParts) (C : PartsInfo).

(** The tags a loop returns hold those it started with and those of the
    parts that matched, when no part failed. *)
Lemma matchLoop_pushed level pts mm relax mm' relax' :
  matchLoop row T C level pts mm relax = Some (mm', relax') →
  mm_count mm' = mm_count mm →
  (∀ t, t ∈ relax → t ∈ relax') ∧
  (∀ pt pushed t, pt ∈ pts → matchPart row pt T C level = Some (true, pushed) →
                  t ∈ pushed → t ∈ relax').
Proof.
  revert mm relax. induction pts as [|pt pts IH]; intros mm relax; cbn [matchLoop].
  - intros [= <- <-] _. split; [done|]. intros pt pushed t Hin. by apply elem_of_nil in Hin.
  - destruct (matchPart row pt T C level) as [[ok pushed]|] eqn:Hpt; cbn; [|done].
    destruct ok.
    + intros Heq Hc. destruct (IH _ _ Heq Hc) as [Hold Hnew]. split.
      * intros t Ht. apply Hold, elem_of_app. by left.
      * intros pt' pushed' t Hin Hpt' Ht.
        apply elem_of_cons in Hin as [->|Hin]; [|by eapply Hnew].
        rewrite Hpt in Hpt'. injection Hpt' as <-. apply Hold, elem_of_app. by right.
    + case_bool_decide as Hcount; cbn in Hcount.
      * intros [= <- <-]. cbn. lia.
      * intros Heq Hc.
        destruct (matchLoop_no_new_mismatch row T C level pts _ _ _ _ Heq) as [Hle _].
        cbn in Hle. lia.
Qed.

(** An acceptance is that of a loop without mismatch, at the level or at
    a higher one. *)
Lemma isAltLoinc_accepted_at level status :
  isAltLoinc row T C level = Some status → matched status = true →
  ∃ level' mm relax,
    matchLoop row T C level' PartTypeList (mkMismatches 0 []) [] = Some (mm, relax) ∧
    mm_count mm = 0 ∧
    status_relaxations status = match relax with [] => None | _ => Some relax end.
Proof.
  remember (maxRelaxLevel - level) as n eqn:Hn. revert level Hn.
  induction (lt_wf n) as [n _ IH]. intros level Hn. rewrite isAltLoinc_unfold.
  destruct (matchLoop row T C level PartTypeList _ _) as [[mm relax]|] eqn:Hloop; [|done].
  destruct (decide (mm_count mm = 0)) as [Hzero|Hpos].
  { intros [= <-] _. by exists level, mm, relax. }
  destruct (decide (level < maxRelaxLevel)) as [Hlt|]; [|by intros [= <-]].
  destruct (shouldRelax mm); [|by intros [= <-]].
  apply (IH (maxRelaxLevel - (level + 1))); [lia|done].
Qed.

(** An accepted candidate, at whatever level it is accepted.  Its PROPERTY,
    TIME and SCALE pass the exact rule: no relaxation applies to them.  A
    METHOD or a CLASS that does not pass the exact rule is reported by its
    tag among the relaxations.  A SYSTEM that does not pass it either is
    compatible with a system of the target, or is the unspecified system
    ["XXX"], reported by its tag. *)
Theorem isAltLoinc_accepted (level : nat) (status : MatchStatus) :
  isAltLoinc row T C level = Some status → matched status = true →
  let tags := default [] (status_relaxations status) in
  exactMatch PROPERTY T C = true ∧ exactMatch TIME T C = true ∧
  exactMatch SCALE T C = true ∧
  (exactMatch METHOD T C = false →
     "METHOD-empty-ok" ∈ tags ∨ "METHOD-match-waived" ∈ tags) ∧
  (exactMatch CLASS T C = false → "CLASS-match-waived" ∈ tags) ∧
  (exactMatch SYSTEM T C = false →
     "specimen-xxx-match-waived" ∈ tags ∨
     ∃ sys, sys ∈ default [] (getPart T SYSTEM) ∧
            partsCompatible SYSTEM (Some sys)
              (Js.first (getPart (parts C) SYSTEM)) (Some row) = true).
Proof.
  intros Hrun Hmatched tags.
  destruct (isAltLoinc_accepted_at level status Hrun Hmatched)
    as (level' & mm & relax & Hloop & Hzero & Htags).
  destruct (matchLoop_no_new_mismatch row T C level' _ _ _ _ _ Hloop) as [_ Hall].
  specialize (Hall Hzero).
  destruct (matchLoop_pushed level' _ _ _ _ _ Hloop Hzero) as [_ Hpushed].
  assert (Htag : ∀ pt pushed t, pt ∈ PartTypeList →
            matchPart row pt T C level' = Some (true, pushed) → t ∈ pushed → t ∈ tags).
  { intros pt pushed t Hpt Hm Ht. pose proof (Hpushed pt pushed t Hpt Hm Ht) as Hin.
    unfold tags. rewrite Htags. destruct relax; [by apply elem_of_nil in Hin|done]. }
  assert (Hin : ∀ pt, pt ∈ PartTypeList) by (intros []; compute_done).
  assert (Hexact : ∀ pt, pt = PROPERTY ∨ pt = TIME ∨ pt = SCALE → exactMatch pt T C = true).
  { intros pt Hpt. destruct (Hall pt (Hin pt)) as [pushed Hm].
    unfold matchPart in Hm. destruct (exactMatch pt T C); [done|].
    by destruct Hpt as [-> | [-> | ->]]. }
  repeat (split; [apply Hexact; tauto|]).
  split; [|split].
  - intros Hex. destruct (Hall METHOD (Hin METHOD)) as [pushed Hm].
    pose proof (λ t, Htag METHOD pushed t (Hin METHOD) Hm) as Ht. unfold matchPart in Hm. rewrite Hex in Hm.
    destruct (_ && _).
    + injection Hm as <-. left. apply Ht. left.
    + destruct (bool_decide _); [|done]. injection Hm as <-. right.
      apply Ht. left.
  - intros Hex. destruct (Hall CLASS (Hin CLASS)) as [pushed Hm].
    pose proof (λ t, Htag CLASS pushed t (Hin CLASS) Hm) as Ht. unfold matchPart in Hm. rewrite Hex in Hm.
    destruct (bool_decide _); [|done]. injection Hm as <-.
    apply Ht. left.
  - intros Hex. destruct (Hall SYSTEM (Hin SYSTEM)) as [pushed Hm].
    pose proof (λ t, Htag SYSTEM pushed t (Hin SYSTEM) Hm) as Ht. unfold matchPart in Hm. rewrite Hex in Hm.
    unfold shouldTryDefaultSpecimen in Hm. rewrite andb_false_r in Hm. cbn [andb] in Hm.
    destruct (existsb _ _) eqn:Hcompat.
    + right. apply existsb_exists in Hcompat as (sys & Hsys & Hc).
      exists sys. split; [by apply list_elem_of_In|done].
    + cbn [negb andb] in Hm. destruct (Js.strictEqU _ _); [|done].
      injection Hm as <-. left. apply Ht. left.
Qed.

(** The component comparison returns when the target has a component and
    a list of properties and the candidate has a component. *)
Lemma relaxedComponentMatch_returns :
  is_Some (Js.first (default [] (getPart T COMPONENT))) →
  is_Some (getPart T PROPERTY) →
  is_Some (Js.first (getPart (parts C) COMPONENT)) →
  is_Some (relaxedComponentMatch row T C).
Proof.
  intros [targetComp Ht] [property Hp] [candidateComp Hc].
  unfold relaxedComponentMatch. rewrite Ht, Hc, Hp. cbn [mbind option_bind default].
  repeat match goal with
         | |- context [if ?b then _ else _] => destruct b; cbn [mbind option_bind]
         end; by eexists.
Qed.

(** Every part comparison returns under the same conditions. *)
Lemma matchPart_returns level pt :
  is_Some (Js.first (default [] (getPart T COMPONENT))) →
  is_Some (getPart T PROPERTY) →
  is_Some (Js.first (getPart (parts C) COMPONENT)) →
  is_Some (matchPart row pt T C level).
Proof.
  intros Ht Hp Hc. destruct (decide (pt = COMPONENT)) as [->|Hne];
    [|by apply matchPart_total].
  unfold matchPart. destruct (exactMatch COMPONENT T C); [by eexists|].
  by apply relaxedComponentMatch_returns.
Qed.

(** The matcher returns when every part comparison does. *)
Lemma isAltLoinc_total level :
  (∀ lvl pt, is_Some (matchPart row pt T C lvl)) → is_Some (isAltLoinc row T C level).
Proof.
  intros Hparts.
  remember (maxRelaxLevel - level) as n eqn:Hn. revert level Hn.
  induction (lt_wf n) as [n _ IH]. intros level Hn. rewrite isAltLoinc_unfold.
  destruct (matchLoop_counts row T C level PartTypeList (mkMismatches 0 []) [])
    as (mm & relax & -> & _); [by intros pt _|].
  destruct (decide (mm_count mm = 0)); [by eexists|].
  destruct (decide (level < maxRelaxLevel)); [|by eexists].
  destruct (shouldRelax mm); [|by eexists].
  apply (IH (maxRelaxLevel - (level + 1))); [lia|done].
Qed.

(** The matcher returns, at every level, for a candidate that has a
    component, when the target has a component and a list of properties:
    an exception of the matcher comes from a component or a property list
    that is missing. *)
Theorem isAltLoinc_returns (level : nat) :
  is_Some (Js.first (default [] (getPart T COMPONENT))) →
  is_Some (getPart T PROPERTY) →
  is_Some (Js.first (getPart (parts C) COMPONENT)) →
  is_Some (isAltLoinc row T C level).
Proof.
  intros Ht Hp Hc. apply isAltLoinc_total. intros lvl pt. by apply matchPart_returns.
Qed.

End Accepted.

(** The candidate without method of the worked record is accepted. *)
Lemma isAltLoinc_accepted_witness :
  isAltLoinc urineRow urineTarget urineNoMethodCandidate 0
    = Some (mkMatchStatus true (Some ["METHOD-empty-ok"])) ∧
  exactMatch PROPERTY urineTarget urineNoMethodCandidate = true ∧
  exactMatch TIME urineTarget urineNoMethodCandidate = true ∧
  exactMatch SCALE urineTarget urineNoMethodCandidate = true.
Proof.
  assert (Hrun : isAltLoinc urineRow urineTarget urineNoMethodCandidate 0
                 = Some (mkMatchStatus true (Some ["METHOD-empty-ok"])))
    by (vm_compute; reflexivity).
  split; [exact Hrun|].
  pose proof (isAltLoinc_accepted urineRow urineTarget urineNoMethodCandidate 0 _
                Hrun eq_refl) as H.
  cbv zeta in H. destruct H as (H1 & H2 & H3 & _). by repeat split.
Defined.

(** The hypotheses hold for the target and the serum candidate of the
    worked record. *)
Lemma isAltLoinc_returns_witness :
  is_Some (Js.first (default [] (getPart urineTarget COMPONENT))) ∧
  is_Some (getPart urineTarget PROPERTY) ∧
  is_Some (Js.first (getPart (parts serumCandidate) COMPONENT)) ∧
  is_Some (isAltLoinc urineRow urineTarget serumCandidate 2).
Proof.
  assert (H1 : is_Some (Js.first (default [] (getPart urineTarget COMPONENT))))
    by (by eexists).
  assert (H2 : is_Some (getPart urineTarget PROPERTY)) by (by eexists).
  assert (H3 : is_Some (Js.first (getPart (parts serumCandidate) COMPONENT)))
    by (by eexists).
  repeat (split; [assumption|]).
  exact (isAltLoinc_returns urineRow urineTarget serumCandidate 2 H1 H2 H3).
Defined.

End AcceptanceFacts.

(** ** The compatibility test and the preparation of a record *)
Module PreparationFacts.
Import LoincUtils LoincPartSynonyms PcnRow LabNameParser Eff Globals.
Import PcornetValidationMgr Suggester EffFacts.

(** *** The compatibility test, part type by part type *)

Lemma partSynonymsMap_SYSTEM_only t : t ≠ SYSTEM → partSynonymsMap t = None.
Proof. by destruct t. Qed.

Lemma truthyU_Some p : Js.truthyU p = true → ∃ s, p = Some s ∧ s ≠ "".
Proof.
  destruct p as [s|]; [|done]. simpl. intros H. exists s. split; [done|].
  by apply JsFacts.truthy_true.
Qed.

Lemma strictEqU_true a b : Js.strictEqU a b = true ↔ a = b.
Proof. unfold Js.strictEqU. by rewrite bool_decide_eq_true. Qed.

(** What [partsCompatible] decides.  A missing or empty name is compatible
    with a missing or empty name and with no other.  For the part types
    that have no special rule (all but SCALE and SYSTEM) two names are
    compatible only when they are the same.  For SCALE they are the same or
    they are the quantitative scales Qn and OrdQn.  The row is read for
    SYSTEM only, and can only add compatible pairs. *)
Theorem partsCompatible_by_part (t : PartType) (p1 p2 : option string)
    (row : option Row) :
  (Js.truthyU p1 = false → partsCompatible t p1 p2 row = negb (Js.truthyU p2)) ∧
  (t ≠ SYSTEM → t ≠ SCALE → Js.truthyU p1 = true → Js.truthyU p2 = true →
     (partsCompatible t p1 p2 row = true ↔ p1 = p2)) ∧
  (t = SCALE → Js.truthyU p1 = true → Js.truthyU p2 = true →
     (partsCompatible t p1 p2 row = true ↔
      p1 = p2 ∨ (p1 ∈ [Some "Qn"; Some "OrdQn"] ∧ p2 ∈ [Some "Qn"; Some "OrdQn"]))) ∧
  (t ≠ SYSTEM → partsCompatible t p1 p2 row = partsCompatible t p1 p2 None) ∧
  (partsCompatible t p1 p2 None = true → partsCompatible t p1 p2 row = true).
Proof.
  split; [|split; [|split; [|split]]].
  - intros Hp1. unfold partsCompatible. rewrite Hp1. cbn [negb andb orb].
    destruct (Js.truthyU p2) eqn:Hp2; cbn [negb].
    + assert (Hne : Js.strictEqU p1 p2 = false).
      { apply not_true_iff_false. rewrite strictEqU_true. intros ->. congruence. }
      by rewrite Hne.
    + by rewrite orb_true_r.
  - intros Hsys Hscale Hp1 Hp2. unfold partsCompatible, synonymsOrEmpty, getPartSynonyms.
    rewrite Hp1, Hp2, (partSynonymsMap_SYSTEM_only t Hsys). cbn [negb andb orb default].
    rewrite orb_false_r.
    rewrite (bool_decide_eq_false_2 (t = SCALE) Hscale),
      (bool_decide_eq_false_2 (t = SYSTEM) Hsys).
    cbn [andb].
    destruct (Js.strictEqU p1 p2) eqn:Heq.
    + by apply strictEqU_true in Heq.
    + destruct p1, p2; cbn [Js.includesU Js.includes existsb orb]; split; try done.
      all: intros Hsame; rewrite Hsame, JsFacts.strictEqU_refl in Heq; done.
  - intros -> Hp1 Hp2. unfold partsCompatible, synonymsOrEmpty, getPartSynonyms.
    rewrite Hp1, Hp2. cbn [negb andb orb default partSynonymsMap].
    rewrite orb_false_r.
    rewrite (bool_decide_eq_true_2 (SCALE = SCALE) eq_refl).
    rewrite (bool_decide_eq_false_2 (SCALE = SYSTEM)) by done.
    cbn [andb]. destruct (Js.strictEqU p1 p2) eqn:Heq.
    { apply strictEqU_true in Heq. split; [by left|done]. }
    assert (Hne : p1 ≠ p2).
    { intros ->. by rewrite JsFacts.strictEqU_refl in Heq. }
    destruct p1 as [s1|], p2 as [s2|]; try done.
    cbn [Js.includesU Js.includes existsb orb].
    unfold bothInList. cbn [Js.includesU].
    rewrite !orb_false_r.
    assert (Hin : ∀ s, Js.includes ["Qn"; "OrdQn"] s = true ↔
                       Some s ∈ [Some "Qn"; Some "OrdQn"]).
    { intros s. rewrite JsFacts.includes_true, !elem_of_cons, !elem_of_nil.
      split.
      - intros [-> | [-> | []]]; auto.
      - intros [[= ->] | [[= ->] | []]]; auto. }
    destruct (Js.includes ["Qn"; "OrdQn"] s1) eqn:H1;
      destruct (Js.includes ["Qn"; "OrdQn"] s2) eqn:H2; cbn [andb].
    + split; [|done]. intros _. right. split; by apply Hin.
    + split; [done|]. intros [?|[_ H]]; [done|]. apply Hin in H. congruence.
    + split; [done|]. intros [?|[H _]]; [done|]. apply Hin in H. congruence.
    + split; [done|]. intros [?|[H _]]; [done|]. apply Hin in H. congruence.
  - intros Hsys. unfold partsCompatible.
    by rewrite (bool_decide_eq_false_2 (t = SYSTEM) Hsys).
  - unfold partsCompatible. cbn [Js.strictEq].
    destruct (_ || _); [done|]. destruct (_ || _); [done|].
    destruct (_ && _); [done|].
    destruct (bool_decide (t = SYSTEM)); cbn [andb]; [|done].
    change (Js.strictEq "" "UA") with false. change (Js.strictEq "" "COAG") with false.
    cbn [andb orb].
    destruct (bothInList ["Ser"; "Plas"; "Ser/Plas"; "Ser/Plas/Bld"] p1 p2);
      [by rewrite !orb_true_r|].
    destruct (bothInList ["Urine"; "Urine+Ser"; "Urine+Ser/Plas"] p1 p2);
      [by rewrite !orb_true_r|].
    destruct (bothInList ["CSF"; "Ser+CSF"; "Ser/Plas+CSF"] p1 p2);
      [by rewrite !orb_true_r|].
    cbn [orb]. intros H. rewrite H. by destruct (_ || _ || false || false || false).
Qed.

(** *** The keys of an object *)

Lemma distinct_spec l : NoDup (Js.distinct l) ∧ ∀ x, x ∈ Js.distinct l ↔ x ∈ l.
Proof.
  change (Js.distinct l) with (SynonymFacts.pushNew [] l).
  destruct (SynonymFacts.pushNew_spec [] l) as (_ & Hin & Hnd).
  split; [apply Hnd, NoDup_nil_2|]. intros x. rewrite Hin, elem_of_nil. tauto.
Qed.

Lemma insertIndex_perm x l : Js.insertIndex x l ≡ₚ x :: l.
Proof.
  induction l as [|y l IH]; simpl; [done|].
  destruct (_ <=? _)%N; [done|]. rewrite IH. apply Permutation_swap.
Qed.

Lemma foldr_insertIndex_perm l : foldr Js.insertIndex [] l ≡ₚ l.
Proof.
  induction l as [|x l IH]; simpl; [done|]. by rewrite insertIndex_perm, IH.
Qed.

(** [Object.keys] lists each key assigned, once. *)
Lemma objectKeys_perm l : Js.objectKeys l ≡ₚ Js.distinct l.
Proof.
  unfold Js.objectKeys. generalize (Js.distinct l). clear l. intros keys.
  rewrite foldr_insertIndex_perm.
  induction keys as [|k keys IH]; [done|].
  cbn [omap list_omap List.filter].
  destruct (Js.arrayIndex k) as [n|] eqn:Hk; cbn [fmap option_fmap option_map].
  - rewrite (bool_decide_eq_true_2 (is_Some (Some n))) by by eexists.
    cbn [negb map snd app]. by apply Permutation_cons.
  - rewrite (bool_decide_eq_false_2 (is_Some None)) by by intros [? ?].
    cbn [negb]. rewrite <- Permutation_middle. by apply Permutation_cons.
Qed.

Lemma objectKeys_spec l : NoDup (Js.objectKeys l) ∧ ∀ x, x ∈ Js.objectKeys l ↔ x ∈ l.
Proof.
  destruct (distinct_spec l) as [Hnd Hin]. split.
  - by rewrite objectKeys_perm.
  - intros x. by rewrite objectKeys_perm.
Qed.

(** *** The units tried for a record *)

(** The unit a mapper gives, when it gives one. *)
Definition mappedUnits (env : Env) (unit loinc : string) : list string :=
  mapper ← getMapperNames env;
  isCI ← [false; true];
  match mapWith env mapper unit isCI loinc with
  | Some u => if Js.truthy u then [u] else []
  | None => []
  end.

Lemma getAllPossibleUnits_keys env row :
  getAllPossibleUnits env row =
  Js.objectKeys
    ((if Js.strictEq (RAW_UNIT row) "nm" then ["nmol/mL"; "nmol"] else []) ++
     (if Js.truthy (ucum_converted row) then [ucum_converted row] else []) ++
     (if Js.truthy (getXformedRawUnit row)
      then getXformedRawUnit row ::
           mappedUnits env (getXformedRawUnit row) (LAB_LOINC row)
      else [])).
Proof.
  unfold getAllPossibleUnits. f_equal.
  set (start := if Js.strictEq _ _ then _ else _).
  assert (Hconv : (if Js.truthy (ucum_converted row) then start ++ [ucum_converted row]
                   else start) =
                  start ++ (if Js.truthy (ucum_converted row) then [ucum_converted row]
                            else [])).
  { destruct (Js.truthy _); [done|by rewrite app_nil_r]. }
  rewrite Hconv. set (start' := start ++ _).
  destruct (Js.truthy (getXformedRawUnit row)); [|by rewrite app_assoc, app_nil_r].
  rewrite app_assoc. fold start'.
  change (getXformedRawUnit row :: mappedUnits env (getXformedRawUnit row) (LAB_LOINC row))
    with ([getXformedRawUnit row] ++
          mappedUnits env (getXformedRawUnit row) (LAB_LOINC row)).
  rewrite app_assoc. generalize (start' ++ [getXformedRawUnit row]). intros init.
  unfold mappedUnits. induction (getMapperNames env) as [|mapper mappers IH] in init |- *.
  - by rewrite app_nil_r.
  - cbn [foldl]. rewrite IH. cbn [mbind list_bind app]. rewrite app_nil_r, !app_assoc.
    f_equal.
    destruct (mapWith env mapper _ false _) as [u|]; [destruct u as [|c u]|];
      (destruct (mapWith env mapper _ true _) as [u'|]; [destruct u' as [|c' u']|]);
      cbn; by rewrite ?app_nil_r, <- ?app_assoc.
Qed.

(** The units [getAllPossibleUnits] returns: each once, none empty.  They
    are the converted unit, the raw unit as transformed, and what each
    mapper makes of the latter, with or without case; and the two units of
    the raw unit ["nm"]. *)
Theorem getAllPossibleUnits_spec (env : Env) (row : Row) :
  let units := getAllPossibleUnits env row in
  let unit := getXformedRawUnit row in
  NoDup units ∧
  (∀ u, u ∈ units → u ≠ "") ∧
  (∀ u, u ∈ units ↔
        (RAW_UNIT row = "nm" ∧ (u = "nmol/mL" ∨ u = "nmol")) ∨
        (u ≠ "" ∧ u = ucum_converted row) ∨
        (unit ≠ "" ∧
         (u = unit ∨
          (u ≠ "" ∧ ∃ mapper isCI, mapper ∈ getMapperNames env ∧
                                   mapWith env mapper unit isCI (LAB_LOINC row) = Some u)))).
Proof.
  cbv zeta. rewrite getAllPossibleUnits_keys.
  match goal with |- context [Js.objectKeys ?l] => set (assigned := l) end.
  destruct (objectKeys_spec assigned) as [Hnd Hin].
  assert (Hmem : ∀ u, u ∈ assigned ↔
            (RAW_UNIT row = "nm" ∧ (u = "nmol/mL" ∨ u = "nmol")) ∨
            (u ≠ "" ∧ u = ucum_converted row) ∨
            (getXformedRawUnit row ≠ "" ∧
             (u = getXformedRawUnit row ∨
              (u ≠ "" ∧ ∃ mapper isCI, mapper ∈ getMapperNames env ∧
                 mapWith env mapper (getXformedRawUnit row) isCI (LAB_LOINC row) = Some u)))).
  { intros u. unfold assigned. rewrite !elem_of_app.
    match goal with
    | |- ?A ∨ ?B ∨ ?C ↔ ?A' ∨ ?B' ∨ ?C' =>
        cut ((A ↔ A') ∧ (B ↔ B') ∧ (C ↔ C')); [tauto|]
    end.
    split; [|split].
    - destruct (Js.strictEq (RAW_UNIT row) "nm") eqn:Hnm.
      + apply JsFacts.strictEq_true in Hnm. rewrite !elem_of_cons, elem_of_nil. tauto.
      + apply not_true_iff_false in Hnm. rewrite JsFacts.strictEq_true in Hnm.
        rewrite elem_of_nil. tauto.
    - destruct (Js.truthy (ucum_converted row)) eqn:Hc.
      + apply JsFacts.truthy_true in Hc. rewrite list_elem_of_singleton.
        split; [by intros ->|tauto].
      + apply JsFacts.truthy_false in Hc. rewrite elem_of_nil, Hc.
        split; [done|]. by intros [H ->].
    - destruct (Js.truthy (getXformedRawUnit row)) eqn:Hx.
      + apply JsFacts.truthy_true in Hx. rewrite elem_of_cons. unfold mappedUnits.
        rewrite list_elem_of_bind.
        split.
        * intros [->|(mapper & Hu & Hm)]; [by auto|].
          apply list_elem_of_bind in Hu as (isCI & Hu & _).
          destruct (mapWith env mapper _ isCI _) as [u'|] eqn:Hw;
            [|by apply elem_of_nil in Hu].
          destruct (Js.truthy u') eqn:Ht; [|by apply elem_of_nil in Hu].
          apply list_elem_of_singleton in Hu as ->. apply JsFacts.truthy_true in Ht.
          split; [done|]. right. split; [done|]. by exists mapper, isCI.
        * intros [_ [->|(Hne & mapper & isCI & Hm & Hw)]]; [by left|]. right.
          exists mapper. split; [|done]. apply list_elem_of_bind. exists isCI.
          rewrite Hw. apply JsFacts.truthy_true in Hne. rewrite Hne.
          split; [by left|]. destruct isCI; by repeat constructor.
      + apply JsFacts.truthy_false in Hx. rewrite elem_of_nil. tauto. }
  split; [done|]. split.
  - intros u Hu. apply Hin, Hmem in Hu.
    destruct Hu as [[_ [->| ->]]|[[Hne _]|[Hx [->|[Hne _]]]]]; done.
  - intros u. by rewrite Hin.
Qed.

(** *** The specimen column *)

(** [pcnSpcmMapping[spcm] || getStdPartName(spcm, 'SYSTEM')] *)
Definition standardSpecimen (env : Env) (spcm : string) : string :=
  let mapped := default "" (pcnSpcmMapping spcm) in
  if Js.truthy mapped then mapped else getStdPartName env spcm SYSTEM.

(** The standard names of the tokens of the column, those that have one. *)
Definition specimenNames (env : Env) (row : Row) : list string :=
  List.filter Js.truthy (map (standardSpecimen env) (delimitedToList (SPECIMEN_SOURCE row))).

Lemma specimenList_distinct env tokens acc :
  foldl (λ spcList spcm,
           let mapped := default "" (pcnSpcmMapping spcm) in
           let stdPartName :=
             if Js.truthy mapped then mapped else getStdPartName env spcm SYSTEM in
           if negb (Js.truthy stdPartName) then spcList
           else if negb (Js.includes spcList stdPartName) then spcList ++ [stdPartName]
           else spcList)
        acc tokens =
  SynonymFacts.pushNew acc (List.filter Js.truthy (map (standardSpecimen env) tokens)).
Proof.
  revert acc. induction tokens as [|spcm tokens IH]; intros acc; [done|].
  cbn [foldl map List.filter]. cbv zeta. fold (standardSpecimen env spcm).
  rewrite IH. destruct (Js.truthy (standardSpecimen env spcm)); cbn [negb]; [|done].
  unfold SynonymFacts.pushNew at 2. cbn [foldl].
  by destruct (Js.includes acc _).
Qed.

Lemma normalizeSPECIMEN_SOURCE_run env row :
  normalizeSPECIMEN_SOURCE env row =
  (Some tt,
   set_SPECIMEN_SOURCE
     match Js.distinct (specimenNames env row) with [spc] => spc | _ => "" end row,
   []).
Proof.
  unfold normalizeSPECIMEN_SOURCE. rewrite get_bind_run.
  pose proof (specimenList_distinct env (delimitedToList (SPECIMEN_SOURCE row)) []) as H.
  cbv zeta in H |- *. by rewrite H.
Qed.

(** [normalizeSPECIMEN_SOURCE] on a specimen cell of ASCII text none of
    whose tokens reads, as written or in lower case, as a member of
    [Object.prototype] (for such a token the lookups of the code find the
    inherited member), when it returns: it has written the specimen column
    only, and nothing else has happened.  The column has become the
    standard name that the tokens of the column agree on: a name not empty
    is written exactly when some token has a standard name and every token
    that has one has that name.  Otherwise (no token with a standard name,
    or two that differ) the column has become empty. *)
Theorem normalizeSPECIMEN_SOURCE_spec (env : Env) (row row' : Row)
    (events : list Event) :
  Js.isAscii (SPECIMEN_SOURCE row) = true →
  (∀ spcm, spcm ∈ delimitedToList (SPECIMEN_SOURCE row) →
           (spcm ∉ Js.objectPrototypeMembers) ∧
           Js.toLowerCase spcm ∉ Js.objectPrototypeMembers) →
  normalizeSPECIMEN_SOURCE env row = (Some tt, row', events) →
  ∃ spc,
    row' = set_SPECIMEN_SOURCE spc row ∧ events = [] ∧
    (∀ s, s ≠ "" →
       (spc = s ↔ specimenNames env row ≠ [] ∧ ∀ n, n ∈ specimenNames env row → n = s)) ∧
    (spc = "" ∨ spc ∈ specimenNames env row).
Proof.
  intros _ _ Hreturns. rewrite normalizeSPECIMEN_SOURCE_run in Hreturns.
  injection Hreturns as <- <-.
  eexists. split; [reflexivity|]. split; [reflexivity|].
  destruct (distinct_spec (specimenNames env row)) as [Hnd Hin].
  assert (Hnonempty : ∀ n, n ∈ specimenNames env row → n ≠ "").
  { intros n Hn. unfold specimenNames in Hn. apply list_elem_of_In, filter_In in Hn as [_ Hn].
    by apply JsFacts.truthy_true. }
  destruct (Js.distinct (specimenNames env row)) as [|a [|b rest]] eqn:Hd.
  - assert (Hnil : specimenNames env row = []).
    { destruct (specimenNames env row) as [|n ns]; [done|].
      exfalso. apply (not_elem_of_nil n), Hin. left. }
    split; [|by left]. intros s Hs. rewrite Hnil. split; [by intros <-|by intros [? _]].
  - assert (Ha : a ∈ specimenNames env row) by (apply Hin; left).
    split; [|by right]. intros s Hs. split.
    + intros <-. split; [by intros Hnil; rewrite Hnil in Ha; apply elem_of_nil in Ha|].
      intros n Hn. apply Hin in Hn. by apply list_elem_of_singleton in Hn.
    + intros [_ Hall]. by apply Hall.
  - split; [|by left]. intros s Hs. split; [by intros <-|].
    intros [_ Hall]. exfalso.
    assert (Ha : a = s) by (apply Hall, Hin; left).
    assert (Hb : b = s) by (apply Hall, Hin; right; left).
    subst. apply NoDup_cons in Hnd as [Hnotin _]. apply Hnotin. left.
Qed.

(** A cell with two tokens, one mapped by the table of the function and
    one unknown: the mapped name is written. *)
Lemma normalizeSPECIMEN_SOURCE_spec_witness :
  let row := SuggesterFacts.sheetRow "2345-7" "GLUCOSE" "mg/dL" " SER_PLAS; UN " in
  let out := normalizeSPECIMEN_SOURCE SuggesterFacts.labEnv row in
  Js.isAscii (SPECIMEN_SOURCE row) = true ∧
  (∀ spcm, spcm ∈ delimitedToList (SPECIMEN_SOURCE row) →
           (spcm ∉ Js.objectPrototypeMembers) ∧
           Js.toLowerCase spcm ∉ Js.objectPrototypeMembers) ∧
  out = (Some tt, set_SPECIMEN_SOURCE "Ser/Plas" row, []) ∧
  ∃ spc,
    finalRow out = set_SPECIMEN_SOURCE spc row ∧ trace out = [] ∧
    (∀ s, s ≠ "" →
       (spc = s ↔ specimenNames SuggesterFacts.labEnv row ≠ [] ∧
                  ∀ n, n ∈ specimenNames SuggesterFacts.labEnv row → n = s)) ∧
    (spc = "" ∨ spc ∈ specimenNames SuggesterFacts.labEnv row).
Proof.
  cbv zeta.
  set (row := SuggesterFacts.sheetRow "2345-7" "GLUCOSE" "mg/dL" " SER_PLAS; UN ").
  assert (Hascii : Js.isAscii (SPECIMEN_SOURCE row) = true) by reflexivity.
  assert (Htokens : ∀ spcm, spcm ∈ delimitedToList (SPECIMEN_SOURCE row) →
                      (spcm ∉ Js.objectPrototypeMembers) ∧
                      Js.toLowerCase spcm ∉ Js.objectPrototypeMembers).
  { intros spcm Hspcm.
    change (delimitedToList (SPECIMEN_SOURCE row)) with ["SER_PLAS"; "UN"] in Hspcm.
    repeat (apply elem_of_cons in Hspcm as [->|Hspcm];
            [split; apply (bool_decide_unpack _); vm_compute; reflexivity|]).
    by apply elem_of_nil in Hspcm. }
  assert (Hrun : normalizeSPECIMEN_SOURCE SuggesterFacts.labEnv row
                 = (Some tt, set_SPECIMEN_SOURCE "Ser/Plas" row, [])).
  { vm_compute. reflexivity. }
  split; [exact Hascii|]. split; [exact Htokens|]. split; [exact Hrun|].
  rewrite Hrun.
  exact (normalizeSPECIMEN_SOURCE_spec SuggesterFacts.labEnv row
           (set_SPECIMEN_SOURCE "Ser/Plas" row) [] Hascii Htokens Hrun).
Defined.

End PreparationFacts.

(** ** The specimens the parser extracts *)
Module SpecimenFacts.
Import LoincUtils PcnRow LabNameParser.

(** What an entry without [extract] of its own extracts. *)
Lemma extract_plain e text cls v :
  ext_extract e = None → extract e text cls = Some v →
  v = ext_partName e ∧ text ≠ "" ∧ Js.test (ext_regex e) text = true ∧
  toFilterOut e text cls = false.
Proof.
  unfold extract. intros ->.
  destruct (Js.truthy text) eqn:Ht; [|done]. apply JsFacts.truthy_true in Ht.
  destruct (Js.test _ _); [|done]. destruct (toFilterOut _ _ _); [done|].
  by intros [= <-].
Qed.

(** The classes for which a part name can be extracted as specimen:
    [None] for any class. *)
Definition specimenClasses (partName : string) : option (list string) :=
  if Js.includes ["Platelets"] partName then Some ["NEVER"]
  else if Js.includes ["WBC"] partName then Some ["NEVER"; "CHEM"]
  else if Js.includes ["RBC"] partName then Some ["CHEM"; "DRUG/TOX"]
  else None.

(** The classes for which a part name is never extracted. *)
Definition specimenExclusions (partName : string) : list string :=
  if Js.includes ["Urine"] partName then ["ALLERGY"]
  else if Js.includes ["Body fld"] partName then ["UA"]
  else [].

Definition extractorNames : list string :=
  [ "CSF"; "Urine"; "Saliva"; "Ser/Plas"; "RBC"; "WBC"; "Platelets"; "Bld"; "Stool";
    "Tiss"; "Plr fld"; "Pericard fld"; "Periton fld"; "Dial fld"; "Body fld";
    "Amnio fld"; "Adrenal vein"; "Renal vein"; "Bld.dot"; "Hair"; "Exhl gas";
    "Vena cava.inferior"; "Adrenal vein.right"; "Adrenal vein.left"; "BldC"; "Semen" ].

(** The entry has no [extract] of its own, extracts a specimen of the list,
    is restricted to the classes of its part name and excludes the
    exclusions of its part name. *)
Definition entryOk (e : Extractor) : bool :=
  bool_decide (ext_extract e = None) && bool_decide (ext_type e = SYSTEM) &&
  Js.includes extractorNames (ext_partName e) &&
  match specimenClasses (ext_partName e) with
  | Some classes =>
      match ext_mapToClassIncl e with
      | Some incl => forallb (Js.includes classes) incl
      | None => false
      end
  | None => true
  end &&
  forallb (λ c, match ext_mapToClassExcl e with
                | Some excl => Js.includes excl c
                | None => false
                end) (specimenExclusions (ext_partName e)).

Lemma specimenExtractors_ok : forallb entryOk specimenExtractors = true.
Proof. vm_compute. reflexivity. Qed.

Lemma entryOk_extract e text cls v :
  entryOk e = true → extract e text (Some cls) = Some v →
  ext_type e = SYSTEM ∧ v ∈ extractorNames ∧
  (∀ classes, specimenClasses v = Some classes → cls ∈ classes) ∧
  cls ∉ specimenExclusions v.
Proof.
  unfold entryOk. rewrite !andb_true_iff.
  intros ((((Hplain & Htype) & Hname) & Hincl) & Hexcl) Hv.
  apply bool_decide_eq_true in Hplain, Htype.
  apply extract_plain in Hv as (-> & _ & _ & Hout); [|done].
  unfold toFilterOut in Hout. apply orb_false_iff in Hout as [Hout _].
  apply orb_false_iff in Hout as [Hin Hout].
  split; [done|]. split; [by apply JsFacts.includes_true|]. split.
  - intros classes Hc. rewrite Hc in Hincl.
    destruct (ext_mapToClassIncl e) as [incl|]; [|done].
    apply negb_false_iff in Hin. cbn [Js.includesU] in Hin.
    apply JsFacts.includes_true in Hin. rewrite forallb_forall in Hincl.
    apply JsFacts.includes_true, Hincl. by apply list_elem_of_In.
  - intros Hc. rewrite forallb_forall in Hexcl.
    apply list_elem_of_In, Hexcl in Hc.
    destruct (ext_mapToClassExcl e) as [excl|]; [|done].
    cbn [Js.includesU] in Hout. congruence.
Qed.

(** A specimen extracted from the name of a record.  It is of type SYSTEM
    and is one of the part names of the table; the name is not empty.  The
    class filters of the table hold: platelets are extracted for no class
    (but a class named NEVER), white cells for class CHEM only, red cells
    for CHEM and DRUG/TOX only, urine never for class ALLERGY and a body
    fluid never for class UA. *)
Theorem extractSpecimen_values (row : Row) (x : Extracted) :
  x ∈ extractSpecimen row →
  x_type x = SYSTEM ∧ x_value x ∈ extractorNames ∧ RAW_LAB_NAME row ≠ "" ∧
  (∀ classes, specimenClasses (x_value x) = Some classes → rowPart row CLASS ∈ classes) ∧
  rowPart row CLASS ∉ specimenExclusions (x_value x).
Proof.
  unfold extractSpecimen, runExtractors.
  destruct (Js.truthy (RAW_LAB_NAME row)) eqn:Hname; cbn [negb];
    [|by intros H; apply elem_of_nil in H].
  apply JsFacts.truthy_true in Hname.
  intros Hx. apply list_elem_of_omap in Hx as (e & He & Hf).
  destruct (extract e (RAW_LAB_NAME row) (Some (rowPart row CLASS))) as [v|] eqn:Hv;
    [|done].
  destruct (Js.truthy v); [|done]. injection Hf as <-. cbn [x_type x_value].
  pose proof specimenExtractors_ok as Hok. rewrite forallb_forall in Hok.
  apply list_elem_of_In, Hok in He.
  destruct (entryOk_extract e _ _ v He Hv) as (H1 & H2 & H3 & H4). done.
Qed.

(** The record of the worked example names urine. *)
Lemma extractSpecimen_values_witness :
  mkExtracted SYSTEM "Urine" ["Urine"; "UA"; "Ur"; "urn"]
    ∈ extractSpecimen MatcherFacts.urineRow ∧
  rowPart MatcherFacts.urineRow CLASS ∉ ["ALLERGY"].
Proof.
  assert (Hin : mkExtracted SYSTEM "Urine" ["Urine"; "UA"; "Ur"; "urn"]
                  ∈ extractSpecimen MatcherFacts.urineRow)
    by (vm_compute; left).
  split; [exact Hin|].
  apply (extractSpecimen_values MatcherFacts.urineRow _ Hin).
Defined.

End SpecimenFacts.

(** ** The inferred parts of a record *)
Module InferredPartsFacts.
Import LoincUtils LoincPartSynonyms PcnRow LabNameParser Eff Globals.
Import PcornetValidationMgr Selector Suggester EffFacts InferenceFacts.

Lemma addNames_absorbs inferType e l :
  (∀ n, n ∈ l → n ∈ names e) → addNames inferType e l = e.
Proof.
  unfold addNames. induction l as [|x l IH]; intros Hin; simpl; [done|].
  assert (Hx : Js.includes (names e) x = true).
  { apply JsFacts.includes_true, Hin. left. }
  rewrite Hx. apply IH. intros n Hn. apply Hin. by right.
Qed.

Lemma assocSet_twice {A} key (v w : A) obj :
  assocSet key w (assocSet key v obj) = assocSet key w obj.
Proof.
  induction obj as [|[k u] obj IH]; simpl.
  - by rewrite decide_True.
  - destruct (decide (k = key)) as [->|Hne]; simpl.
    + by rewrite decide_True.
    + rewrite decide_False by done. by rewrite IH.
Qed.

Lemma inferred_set v r : inferred (set_inferred v r) = v.
Proof. reflexivity. Qed.

Lemma set_inferred_twice v w r : set_inferred w (set_inferred v r) = set_inferred w r.
Proof. reflexivity. Qed.

(** [addInferredLoincParts] throws on an empty list of names and changes
    nothing then.  Otherwise it returns, and changes the inferred parts
    only: the names of the part type are those it had, in their places,
    followed by the new names that were not among them; the other part
    types keep their entries; and a second call with the same names
    changes nothing more. *)
Theorem addInferredLoincParts_spec (loincPart : PartType) (newPartNames : list string)
    (inferType : string) (row : Row) :
  let out := addInferredLoincParts loincPart newPartNames inferType row in
  (newPartNames = [] → result out = None ∧ finalRow out = row) ∧
  (newPartNames ≠ [] →
     result out = Some tt ∧
     finalRow out = set_inferred (inferred (finalRow out)) row ∧
     namesOf row loincPart `prefix_of` namesOf (finalRow out) loincPart ∧
     (∀ name, name ∈ namesOf (finalRow out) loincPart ↔
              name ∈ namesOf row loincPart ∨ name ∈ newPartNames) ∧
     (∀ partType, partType ≠ loincPart →
        inferredEntry (finalRow out) partType = inferredEntry row partType) ∧
     finalRow (addInferredLoincParts loincPart newPartNames inferType (finalRow out))
       = finalRow out).
Proof.
  cbv zeta. split; [by intros ->|].
  destruct newPartNames as [|partName rest]; [done|]. intros _.
  rewrite addInferredLoincParts_run. unfold result, finalRow. cbn [fst snd].
  set (entry := default (mkInferredEntry [] []) (inferredEntry row loincPart)).
  set (entry' := addNames inferType entry (partName :: rest)).
  assert (Hentry : inferredEntry
            (set_inferred (Some (assocSet loincPart entry' (default [] (inferred row)))) row)
            loincPart = Some entry').
  { rewrite inferredEntry_set_inferred, find_assocSet. by rewrite decide_True. }
  assert (Hold : namesOf row loincPart = names entry).
  { unfold namesOf, inferredNames, entry. by destruct (inferredEntry row loincPart). }
  assert (Hnew : namesOf
            (set_inferred (Some (assocSet loincPart entry' (default [] (inferred row)))) row)
            loincPart = names entry').
  { unfold namesOf, inferredNames. by rewrite Hentry. }
  split; [done|]. split; [done|]. rewrite Hold, Hnew.
  split; [apply addNames_prefix|]. split; [apply elem_of_addNames|]. split.
  - intros pt Hpt. rewrite inferredEntry_set_inferred, find_assocSet.
    rewrite decide_False by done. unfold inferredEntry. by destruct (inferred row).
  - rewrite addInferredLoincParts_run. cbn [fst snd]. rewrite Hentry.
    rewrite inferred_set, set_inferred_twice. cbn [default from_option id].
    rewrite assocSet_twice.
    rewrite (addNames_absorbs inferType entry' (partName :: rest)); [done|].
    intros n Hn. apply elem_of_addNames. by right.
Qed.

(** The loop of [getAltPartsFromInferred] from an object [acc] that has
    none of the part types left. *)
Lemma getAltPartsFromInferred_fold (row : Row) (partType : PartType) (inf : Inferred)
    (acc : ReplacementParts) :
    NoDup (map fst inf) →
    (∀ e, e ∈ inf → ownPart acc (fst e) = None) →
    ownPart (foldl (λ acc '(partType, entry),
               let partNames := names entry in
               if negb (bool_decide (length partNames = 1)) ||
                  negb (Js.strictEqU (Js.first partNames) (Some (rowPart row partType)))
               then assocSet partType (Some partNames) acc
               else acc) acc inf) partType =
    match snd <$> find (λ e, bool_decide (fst e = partType)) inf with
    | Some entry =>
        if bool_decide (names entry = [rowPart row partType]) then ownPart acc partType
        else Some (Some (names entry))
    | None => ownPart acc partType
    end.
Proof.
  revert acc. induction inf as [|[pt entry] inf IH]; intros acc Hnd Hfresh; [done|].
    cbn [foldl find fst]. apply NoDup_cons in Hnd as [Hnotin Hnd].
    assert (Hsame : (negb (bool_decide (length (names entry) = 1)) ||
                     negb (Js.strictEqU (Js.first (names entry)) (Some (rowPart row pt))))
                    = negb (bool_decide (names entry = [rowPart row pt]))).
    { unfold Js.strictEqU.
      destruct (names entry) as [|n [|n' ns]]; cbn [length Js.first head];
        repeat case_bool_decide; cbn [negb orb]; congruence. }
    cbv zeta. rewrite Hsame.
    destruct (bool_decide (pt = partType)) eqn:Hpt.
    - apply bool_decide_eq_true in Hpt as ->. cbn [fmap option_fmap option_map snd].
      assert (Hnone : snd <$> find (λ e, bool_decide (fst e = partType)) inf = None).
      { destruct (find _ inf) as [e|] eqn:Hfind; [|done]. exfalso.
        apply find_some in Hfind as [Hin Hk]. apply bool_decide_eq_true in Hk.
        apply Hnotin. rewrite <- Hk. apply list_elem_of_fmap. exists e.
        split; [done|by apply list_elem_of_In]. }
      rewrite IH, Hnone; [|done|].
      + destruct (bool_decide (names entry = _)); cbn [negb]; [done|].
        unfold ownPart. by rewrite find_assocSet, decide_True.
      + intros e He. destruct (bool_decide (names entry = _)); cbn [negb].
        * apply Hfresh. by right.
        * unfold ownPart. rewrite find_assocSet. rewrite decide_False.
          -- apply (Hfresh e). by right.
          -- intros Heq. apply Hnotin. rewrite Heq. apply list_elem_of_fmap. by exists e.
    - apply bool_decide_eq_false in Hpt. rewrite IH; [|done|].
      + assert (Hacc : ownPart (if negb (bool_decide (names entry = [rowPart row pt]))
                                then assocSet pt (Some (names entry)) acc else acc)
                         partType = ownPart acc partType).
        { destruct (bool_decide (names entry = _)); cbn [negb]; [done|]. unfold ownPart.
          by rewrite find_assocSet, decide_False. }
        by rewrite Hacc.
      + intros e He. destruct (bool_decide (names entry = _)); cbn [negb].
        * apply Hfresh. by right.
        * unfold ownPart. rewrite find_assocSet. rewrite decide_False.
          -- apply (Hfresh e). by right.
          -- intros Heq. apply Hnotin. rewrite Heq. apply list_elem_of_fmap. by exists e.
Qed.

(** The key [partType] of the replacement parts built from the inferred
    parts, for inferred parts that have one entry for each of their part
    types.  A part type is replaced by the names inferred for it, unless
    the only name inferred is the part the record has already.  No part
    type is set to [null]. *)
Theorem getAltPartsFromInferred_spec (row : Row) (partType : PartType) :
  NoDup (map fst (default [] (inferred row))) →
  ownPart (getAltPartsFromInferred row) partType =
  match inferredEntry row partType with
  | Some entry =>
      if bool_decide (names entry = [rowPart row partType]) then None
      else Some (Some (names entry))
  | None => None
  end.
Proof.
  unfold getAltPartsFromInferred, inferredEntry.
  destruct (inferred row) as [inf|]; cbn [default from_option id]; [|done].
  intros Hnd. etrans; [by apply (getAltPartsFromInferred_fold row partType inf [])|].
  by destruct (snd <$> find _ inf) as [entry|]; [destruct (bool_decide _)|].
Qed.

(** The record of free testosterone of the worked batch, once the
    component has been inferred for it. *)
Definition inferredRow : Row :=
  finalRow (inferComponentByModifier SuggesterFacts.labEnv SuggesterFacts.freeTestosteroneRow).

Lemma getAltPartsFromInferred_spec_witness :
  NoDup (map fst (default [] (inferred inferredRow))) ∧
  ownPart (getAltPartsFromInferred inferredRow) COMPONENT
    = Some (Some ["Testosterone.free"]).
Proof.
  assert (Hnd : NoDup (map fst (default [] (inferred inferredRow))))
    by (vm_compute; apply NoDup_singleton).
  split; [exact Hnd|].
  rewrite (getAltPartsFromInferred_spec inferredRow COMPONENT Hnd).
  vm_compute. reflexivity.
Defined.

End InferredPartsFacts.

(** ** The target term and the candidates that match every part *)
Module TargetFacts.
Import LoincUtils LoincPartSynonyms PcnRow LabNameParser Eff Globals.
Import PcornetValidationMgr Matcher Selector Suggester EffFacts.
Import SelectorFacts PipelineFacts.

(** The target term [replaceAndFind] builds for a record, the replacement
    parts it is given and the catalogue entry of the record's code: the
    system is left out for a record of unspecified system that has no
    replacement system; a part type is compared with its replacement names
    when it has some, and else with the names of the entry; synonyms are
    added to either. *)
Definition targetFor (row : Row) (replacementParts : ReplacementParts)
    (refPartsInfo : PartsInfo) : TargetTermParts :=
  let replacementParts :=
    if negb (bool_decide (is_Some (ownPart replacementParts SYSTEM))) &&
       Js.strictEq (rowPart row SYSTEM) "XXX"
    then (SYSTEM, None) :: replacementParts
    else replacementParts in
  tabulate (λ partType,
    match ownPart replacementParts partType with
    | Some None => None
    | Some (Some partNames) => Some (addPartSynonyms partType partNames)
    | None => Some (addPartSynonyms partType (getPart (parts refPartsInfo) partType))
    end).

Section Search.
Context (env : Env) (setOrder : gset string → list string).

(** Every match [replaceAndFind] returns is a candidate [isAltLoinc]
    accepts for the target term, with the relaxations it reports. *)
Lemma replaceAndFind_accepts row cat loinc replacementParts rule ref :
  cat !! loinc = Some ref →
  partial (λ r, r = row) (replaceAndFind env setOrder cat loinc replacementParts rule)
    (λ out _,
       Forall (λ m, isAltLoinc row (targetFor row replacementParts ref) (m_info m) 0
                    = Some (mkMatchStatus true (m_relaxations m)))
         (default [] (r_altLoincs out.1))).
Proof.
  intros Href. unfold replaceAndFind.
  apply (partial_bind _ _ (λ _ r, r = row)); [by apply partial_emit|]. intros _.
  apply (partial_bind _ _ (λ a r, a = row ∧ r = row)); [by apply partial_get|].
  intros row'. apply partial_assume. intros ->.
  rewrite Href. cbv zeta.
  apply (partial_bind _ _ (λ _ r, r = row)).
  { destruct (getLoincForParts _ _ _) as [[loincs|member]|];
      [by apply partial_ret|apply partial_throw..]. }
  intros loincsToCheck.
  apply (partial_bind _ _
           (λ altLoincs _,
              Forall (λ m, isAltLoinc row (targetFor row replacementParts ref) (m_info m) 0
                           = Some (mkMatchStatus true (m_relaxations m))) altLoincs)).
  2:{ intros altLoincs. apply partial_ret. by intros r Hall. }
  apply partial_conseq with
    (Pre := λ r, r = row)
    (Post := λ altLoincs (r : Row),
       r = row ∧
       Forall (λ m, isAltLoinc row (targetFor row replacementParts ref) (m_info m) 0
                    = Some (mkMatchStatus true (m_relaxations m))) altLoincs);
    [done|by intros a r [_ H]|].
  apply partial_foldl.
  { apply partial_ret. by intros r ->. }
  intros acc candidate Hacc. eapply partial_bind; [exact Hacc|].
  intros altLoincs. cbv beta.
  destruct (Js.strictEq candidate _).
  { apply partial_ret. by intros r Hr. }
  destruct (_ !! candidate) as [info|]; [|apply partial_throw].
  match goal with
  | |- context [isAltLoinc row ?target info 0] =>
      change target with (targetFor row replacementParts ref)
  end.
  destruct (isAltLoinc row (targetFor row replacementParts ref) info 0)
    as [[accepted relaxations]|] eqn:Hmatch; [|apply partial_throw].
  cbn [matched status_relaxations].
  destruct accepted; [|apply partial_ret; by intros r Hr].
  apply partial_ret. intros r [-> Hall]. split; [done|].
  apply Forall_app. split; [done|]. by constructor.
Qed.

End Search.

(** The replacement parts built from the inferred parts, for inferred
    parts that have one entry for each of their part types. *)
Lemma getAltPartsFromInferred_own (row : Row) (partType : PartType) :
  NoDup (map fst (default [] (inferred row))) →
  ownPart (getAltPartsFromInferred row) partType =
  match inferredEntry row partType with
  | Some entry =>
      if bool_decide (names entry = [rowPart row partType]) then None
      else Some (Some (names entry))
  | None => None
  end.
Proof.
  unfold getAltPartsFromInferred, inferredEntry.
  destruct (inferred row) as [inf|]; cbn [default from_option id]; [|done].
  intros Hnd.
  etrans; [by apply (InferredPartsFacts.getAltPartsFromInferred_fold row partType inf [])|].
  by destruct (snd <$> find _ inf) as [entry|]; [destruct (bool_decide _)|].
Qed.

(** A record as the first pass prepares it from the catalogue entry of its
    code, and as the inference engine leaves it: each part of the record
    is the first name the entry has for the part type, empty when the entry
    has none; and the inferred parts have one entry for each of their part
    types, with at least one name, none empty. *)
Definition preparedFrom (refPartsInfo : PartsInfo) (row : Row) : Prop :=
  (∀ part,
     match getPart (parts refPartsInfo) part with
     | [] => rowPart row part = ""
     | name :: _ => rowPart row part = name ∧ name ≠ ""
     end) ∧
  NoDup (map fst (default [] (inferred row))) ∧
  (∀ part entry, inferredEntry row part = Some entry →
                 names entry ≠ [] ∧ "" ∉ names entry).

Lemma addPartSynonyms_nil partType : addPartSynonyms partType [] = [].
Proof. unfold addPartSynonyms. by destruct (partSynonymsMap partType). Qed.

Lemma addPartSynonyms_keeps partType partNames name :
  name ∈ partNames → name ∈ addPartSynonyms partType partNames.
Proof.
  intros Hin. destruct (addPartSynonyms_prefix partType partNames) as [more ->].
  apply elem_of_app. by left.
Qed.

(** The target term built for a prepared record from its inferred parts
    covers the record. *)
Lemma targetFor_covers (row : Row) (refPartsInfo : PartsInfo) :
  preparedFrom refPartsInfo row →
  targetCovers row (targetFor row (getAltPartsFromInferred row) refPartsInfo).
Proof.
  intros (Hparts & Hnd & Hnames) part targetNames. unfold targetFor. cbv zeta.
  rewrite LoincUtilsFacts.getPart_tabulate.
  set (altParts := getAltPartsFromInferred row).
  assert (Hown :
    ownPart (if negb (bool_decide (is_Some (ownPart altParts SYSTEM))) &&
                Js.strictEq (rowPart row SYSTEM) "XXX"
             then (SYSTEM, None) :: altParts else altParts) part = Some None ∨
    ownPart (if negb (bool_decide (is_Some (ownPart altParts SYSTEM))) &&
                Js.strictEq (rowPart row SYSTEM) "XXX"
             then (SYSTEM, None) :: altParts else altParts) part = ownPart altParts part).
  { destruct (_ && _); [|by right]. unfold ownPart. cbn [find fst].
    destruct (bool_decide (SYSTEM = part)); [left|right]; reflexivity. }
  destruct Hown as [Hown|Hown]; rewrite Hown; clear Hown; [done|].
  unfold altParts. rewrite (getAltPartsFromInferred_own row part Hnd).
  unfold inferredNames.
  destruct (inferredEntry row part) as [entry|] eqn:Hentry; cbn [fmap option_fmap option_map].
  - destruct (Hnames part entry Hentry) as [Hne Hnonempty].
    case_bool_decide as Hsame.
    + intros [= <-]. rewrite Hsame in Hnonempty |- *.
      assert (Hname : rowPart row part ≠ "").
      { intros Hempty. apply Hnonempty. rewrite Hempty. left. }
      specialize (Hparts part).
      destruct (getPart (parts refPartsInfo) part) as [|name more]; [done|].
      destruct Hparts as [Hrow _]. intros x Hx.
      apply list_elem_of_singleton in Hx as ->. rewrite Hrow.
      apply addPartSynonyms_keeps. left.
    + intros [= <-]. destruct (names entry) as [|n ns] eqn:Hn; [done|].
      intros x Hx. by apply addPartSynonyms_keeps.
  - intros [= <-]. specialize (Hparts part).
    destruct (getPart (parts refPartsInfo) part) as [|name more].
    + rewrite Hparts. rewrite decide_True by done. apply addPartSynonyms_nil.
    + destruct Hparts as [-> Hname]. rewrite decide_False by done.
      apply addPartSynonyms_keeps. left.
Qed.

(** In the search for a prepared record, a match that matches every one of
    the seven part types carries no relaxation. *)
Lemma replaceAndFind_untagged (env : Env) (setOrder : gset string → list string)
    row cat rule ref :
  cat !! LAB_LOINC row = Some ref → preparedFrom ref row →
  partial (λ r, r = row)
    (replaceAndFind env setOrder cat (LAB_LOINC row) (getAltPartsFromInferred row) rule)
    (λ out _,
       Forall (λ m, properParts m → matchesEveryPart row m → m_relaxations m = None)
         (default [] (r_altLoincs out.1))).
Proof.
  intros Href Hprepared r out r' ev Hr Hrun.
  pose proof (replaceAndFind_accepts env setOrder row cat (LAB_LOINC row)
                (getAltPartsFromInferred row) rule ref Href r out r' ev Hr Hrun) as Hall.
  cbv beta in Hall. eapply Forall_impl; [exact Hall|].
  intros m Haccepted Hproper Hevery. cbv beta in Haccepted.
  rewrite (matchesEveryPart_accepted row _ m (targetFor_covers row ref Hprepared)
             Hproper Hevery) in Haccepted.
  by injection Haccepted.
Qed.

(** The record of the worked example is prepared from the entry of its
    code, and the target term built for it is the one of the example. *)
Definition serumEntry : PartsInfo :=
  mkPartsInfo "2753-2" "pH of Serum or Plasma" "ACTIVE" ""
    (mkParts ["UA"] ["pH"] ["LsCnc"] ["Pt"] ["Ser/Plas"] ["Qn"] ["Test strip"]).

Example noUnitRow_prepared :
  preparedFrom serumEntry noUnitRow ∧
  targetFor noUnitRow (getAltPartsFromInferred noUnitRow) serumEntry = noUnitTarget.
Proof.
  split; [|vm_compute; reflexivity]. split; [|split].
  - intros part. by destruct part.
  - vm_compute. apply NoDup_singleton.
  - intros part entry. destruct part; intros [= <-]. cbn. split; [done|].
    apply not_elem_of_cons. split; [done|apply not_elem_of_nil].
Qed.

End TargetFacts.
